(** * ELLM: prime-encoded facts, rules and backward chaining

    A shallow embedding of [ellm-core.js] (classes [PrimeCalculator], [Fact],
    [Rule], [ConceptEncoder], [KnowledgeBase], [ReasoningEngine],
    [LanguageProcessor] and [ELLM]).

    Conventions of the embedding.
    - JS numbers that the program manipulates are integers far below 2^53
      (primes up to 1009 and products of three of them), so they are
      modelled by [Z]; [%] is [Z.rem], an exact [/] is [Z.quot].
    - JS strings are modelled by [string] (sequences of 8-bit characters);
      [toLowerCase] folds the ASCII letters and whitespace is the ASCII
      whitespace.
    - Every [while]/[for] loop whose trip count depends on the data takes a
      loop budget [lf]; the recursion of [_deduce] takes a depth budget.
      [None] means that a budget ran out (or that JS would have thrown). *)

From Stdlib Require Import ZArith Znumtheory Zquot Lia Ascii String List Sorted.
From stdpp Require Import base option list gmap strings pretty.

Local Open Scope Z_scope.

(* ===================================================================== *)
(** ** JavaScript string primitives used by the program                    *)
(* ===================================================================== *)

Module JS.

Import Ascii String.

(** The character U+0022; string literals of this file never contain it. *)
Definition dquote : string := String (ascii_of_nat 34) EmptyString.

Definition is_upper (c : ascii) : bool :=
  let n := nat_of_ascii c in (65 <=? n)%nat && (n <=? 90)%nat.

Definition lower_ascii (c : ascii) : ascii :=
  if is_upper c then ascii_of_nat (nat_of_ascii c + 32) else c.

(** [String.prototype.toLowerCase]. *)
Fixpoint toLowerCase (s : string) : string :=
  match s with
  | EmptyString => EmptyString
  | String c s' => String (lower_ascii c) (toLowerCase s')
  end.

(** The class [\s] restricted to ASCII: TAB, LF, VT, FF, CR and SPACE. *)
Definition is_ws (c : ascii) : bool :=
  let n := nat_of_ascii c in ((9 <=? n)%nat && (n <=? 13)%nat) || (n =? 32)%nat.

Fixpoint trimStart (s : string) : string :=
  match s with
  | EmptyString => EmptyString
  | String c s' => if is_ws c then trimStart s' else s
  end.

Fixpoint trimEnd (s : string) : string :=
  match s with
  | EmptyString => EmptyString
  | String c s' =>
      match trimEnd s' with
      | EmptyString => if is_ws c then EmptyString else String c EmptyString
      | r => String c r
      end
  end.

(** [String.prototype.trim]. *)
Definition trim (s : string) : string := trimEnd (trimStart s).

(** [s.startsWith(pre)]. *)
Definition startsWith (s pre : string) : bool := String.prefix pre s.

(** [s.includes(sub)]. *)
Fixpoint includes (s sub : string) : bool :=
  if String.prefix sub s then true
  else match s with
       | EmptyString => false
       | String _ s' => includes s' sub
       end.

Fixpoint rev_string (acc s : string) : string :=
  match s with
  | EmptyString => acc
  | String c s' => rev_string (String c acc) s'
  end.

(** [s.split(sep)] for a non-empty string separator: the pieces between the
    successive left-to-right, non-overlapping occurrences of [sep]. [skip]
    counts the characters of a matched separator still to be consumed and
    [cur] holds the current piece, reversed. *)
Fixpoint split_go (sep : string) (skip : nat) (cur : string) (s : string)
  : list string :=
  match s with
  | EmptyString => [rev_string EmptyString cur]
  | String c s' =>
      match skip with
      | S k => split_go sep k cur s'
      | O =>
          if String.prefix sep s
          then rev_string EmptyString cur
               :: split_go sep (String.length sep - 1) EmptyString s'
          else split_go sep O (String c cur) s'
      end
  end.

Definition split (s sep : string) : list string := split_go sep O EmptyString s.

(** [s.replace(pat, rep)] with a string pattern: the first occurrence only. *)
Fixpoint replace_go (pat rep : string) (skip : nat) (done : bool) (s : string)
  : string :=
  match s with
  | EmptyString => EmptyString
  | String c s' =>
      match skip with
      | S k => replace_go pat rep k done s'
      | O =>
          if negb done && String.prefix pat s
          then (rep ++ replace_go pat rep (String.length pat - 1) true s')%string
          else String c (replace_go pat rep O done s')
      end
  end.

Definition replace (s pat rep : string) : string := replace_go pat rep O false s.

(** [s.replace(/[.?!,;]$/g, '')]: one final punctuation character is dropped. *)
Definition is_final_punct (c : ascii) : bool :=
  let n := nat_of_ascii c in
  (n =? 46)%nat || (n =? 63)%nat || (n =? 33)%nat || (n =? 44)%nat || (n =? 59)%nat.

Fixpoint strip_final_punct (s : string) : string :=
  match s with
  | EmptyString => EmptyString
  | String c EmptyString => if is_final_punct c then EmptyString else s
  | String c s' => String c (strip_final_punct s')
  end.

(** [text.split(/[.!?]\s*/)]: a terminator and the whitespace after it
    separate two pieces. [ws] tells that the scan is inside the whitespace
    that follows a terminator. *)
Definition is_terminator (c : ascii) : bool :=
  let n := nat_of_ascii c in (n =? 46)%nat || (n =? 33)%nat || (n =? 63)%nat.

Fixpoint split_sentences_go (ws : bool) (cur : string) (s : string)
  : list string :=
  match s with
  | EmptyString => [rev_string EmptyString cur]
  | String c s' =>
      if ws && is_ws c then split_sentences_go true cur s'
      else if is_terminator c
           then rev_string EmptyString cur :: split_sentences_go true EmptyString s'
           else split_sentences_go false (String c cur) s'
  end.

Definition split_sentences (s : string) : list string :=
  split_sentences_go false EmptyString s.

(** [parts.join(sep)]. *)
Fixpoint join (sep : string) (l : list string) : string :=
  match l with
  | [] => EmptyString
  | [x] => x
  | x :: l' => (x ++ sep ++ join sep l')%string
  end.

(** [s.substring(start)]. *)
Fixpoint substring (s : string) (start : nat) : string :=
  match start, s with
  | O, _ => s
  | S n, String _ s' => substring s' n
  | S _, EmptyString => EmptyString
  end.

(** [String(x)] of a possibly missing property. *)
Definition String_ (x : option string) : string :=
  match x with Some s => s | None => "undefined"%string end.

(** The Number that holds the result of an integer operation: the integer
    itself up to 2^53 in absolute value, and beyond that the nearest
    multiple of [2^k] that has 53 significant bits, a tie going to the even
    one. So [x + 1] is [x] again for the Number 2^53. *)
Definition to_double (z : Z) : Z :=
  let a := Z.abs z in
  if a <? 2 ^ 53 then z
  else
    let k := Z.log2 a - 52 in
    let m := Z.shiftr a k in
    let r := a - m * 2 ^ k in
    let half := 2 ^ (k - 1) in
    let m' := if r <? half then m
              else if half <? r then m + 1
              else if Z.even m then m else m + 1 in
    Z.sgn z * (m' * 2 ^ k).

End JS.

(* ===================================================================== *)
(** ** Prime Calculator                                                    *)
(* ===================================================================== *)

Record PrimeCalculator := mkPrimeCalculator {
  primes : list Z;
  primeCache : gmap Z bool
}.

(** Inner loop of the sieve: [for (j = i*i; j <= max; j += i) sieve[j] = false].
    [j] grows by [i >= 2] at every turn, so [S max] turns always suffice. *)
Fixpoint sieve_inner (k : nat) (max i j : nat) (sieve : list bool) : list bool :=
  match k with
  | O => sieve
  | S k' =>
      if (j <=? max)%nat
      then sieve_inner k' max i (j + i)%nat (<[j := false]> sieve)
      else sieve
  end.

(** Outer loop: [for (i = 2; i*i <= max; i++) if (sieve[i]) ...]. *)
Fixpoint sieve_outer (k : nat) (max i : nat) (sieve : list bool) : list bool :=
  match k with
  | O => sieve
  | S k' =>
      if (i * i <=? max)%nat
      then sieve_outer k' max (S i)
             (if default false (sieve !! i)
              then sieve_inner (S max) max i (i * i)%nat sieve
              else sieve)
      else sieve
  end.

(** [generatePrimes(max)]. The two initial stores are in range whenever
    [max >= 1]; for [max = 0] the store at index 1 is never read back. *)
Definition generatePrimes (max : nat) : list Z :=
  let sieve := <[1%nat := false]> (<[0%nat := false]> (replicate (S max) true)) in
  let sieve := sieve_outer (S max) max 2 sieve in
  map Z.of_nat (filter (fun i => default false (sieve !! i) = true) (seq 0 (S max))).

Definition new_PrimeCalculator (maxSize : nat) : PrimeCalculator :=
  {| primes := generatePrimes maxSize; primeCache := ∅ |}.

(** [a % b === 0]; [a % 0] is NaN in JS. *)
Definition rem_is_zero (a b : Z) : bool := negb (b =? 0) && (Z.rem a b =? 0).

(** [for (i = 5; i*i <= n; i += 6) if (n % i === 0 || n % (i+2) === 0) return false]:
    [Some true] when a divisor was met, [Some false] when the loop ran out. *)
Fixpoint isPrime_loop (lf : nat) (n i : Z) : option bool :=
  match lf with
  | O => None
  | S lf' =>
      if i * i <=? n
      then if rem_is_zero n i || rem_is_zero n (i + 2) then Some true
           else isPrime_loop lf' n (i + 6)
      else Some false
  end.

Definition isPrime (lf : nat) (n : Z) (calc : PrimeCalculator)
  : option (bool * PrimeCalculator) :=
  match primeCache calc !! n with
  | Some b => Some (b, calc)
  | None =>
      if n <=? 1 then Some (false, calc)
      else if n <=? 3 then Some (true, calc)
      else if rem_is_zero n 2 || rem_is_zero n 3 then Some (false, calc)
      else match isPrime_loop lf n 5 with
           | None => None
           | Some true => Some (false, calc)
           | Some false =>
               Some (true, {| primes := primes calc;
                              primeCache := <[n := true]> (primeCache calc) |})
           end
  end.

(** [while (remaining % p === 0) { factors.push(p); remaining /= p; }] *)
Fixpoint factorize_strip (lf : nat) (p remaining : Z) (factors : list Z)
  : option (Z * list Z) :=
  match lf with
  | O => None
  | S lf' =>
      if rem_is_zero remaining p
      then factorize_strip lf' p (Z.quot remaining p) (factors ++ [p])
      else Some (remaining, factors)
  end.

(** [for (const p of this.primes) { ... }] with its two [break]s. *)
Fixpoint factorize_loop (lf : nat) (ps : list Z) (remaining : Z) (factors : list Z)
  : option (Z * list Z) :=
  match ps with
  | [] => Some (remaining, factors)
  | p :: ps' =>
      match factorize_strip lf p remaining factors with
      | None => None
      | Some (remaining', factors') =>
          if p * p >? remaining' then Some (remaining', factors')
          else if remaining' =? 1 then Some (remaining', factors')
          else factorize_loop lf ps' remaining' factors'
      end
  end.

Definition factorize (lf : nat) (n : Z) (calc : PrimeCalculator) : option (list Z) :=
  match factorize_loop lf (primes calc) n [] with
  | None => None
  | Some (remaining, factors) =>
      Some (if remaining >? 1 then factors ++ [remaining] else factors)
  end.

(** [while (!this.isPrime(candidate)) candidate++]. *)
Fixpoint generateNextPrime_loop (k lf : nat) (candidate : Z) (calc : PrimeCalculator)
  : option (Z * PrimeCalculator) :=
  match k with
  | O => None
  | S k' =>
      match isPrime lf candidate calc with
      | None => None
      | Some (true, calc') => Some (candidate, calc')
      | Some (false, calc') =>
          generateNextPrime_loop k' lf (JS.to_double (candidate + 1)) calc'
      end
  end.

Definition generateNextPrime (lf : nat) (after : Z) (calc : PrimeCalculator)
  : option (Z * PrimeCalculator) :=
  generateNextPrime_loop lf lf (JS.to_double (after + 1)) calc.

(** [this.primes[n] || this.generateNextPrime(this.primes[this.primes.length - 1])].
    An empty [primes] would make the argument [undefined] and the result NaN,
    which is outside the integer model: [None]. *)
Definition getNthPrime (lf : nat) (n : nat) (calc : PrimeCalculator)
  : option (Z * PrimeCalculator) :=
  match primes calc !! n with
  | Some p => if p =? 0
              then match last (primes calc) with
                   | Some q => generateNextPrime lf q calc
                   | None => None
                   end
              else Some (p, calc)
  | None => match last (primes calc) with
            | Some q => generateNextPrime lf q calc
            | None => None
            end
  end.

(** The calculator that [new PrimeCalculator()] builds: [maxSize = 1000]. *)
Definition default_primes : list Z := Eval vm_compute in generatePrimes 1000.

Definition default_PrimeCalculator : PrimeCalculator :=
  {| primes := default_primes; primeCache := ∅ |}.

(* ===================================================================== *)
(** ** A state and failure monad for the stateful classes                  *)
(* ===================================================================== *)

Definition M (S A : Type) : Type := S -> option (A * S).

Definition ret {S A} (a : A) : M S A := fun s => Some (a, s).

Definition bind {S A B} (m : M S A) (k : A -> M S B) : M S B :=
  fun s => match m s with
           | Some (a, s') => k a s'
           | None => None
           end.

Definition gets {S A} (f : S -> A) : M S A := fun s => Some (f s, s).

Definition modify {S} (f : S -> S) : M S unit := fun s => Some (tt, f s).

Definition throw {S A} : M S A := fun _ => None.

Notation "'let*' x ':=' m 'in' k" := (bind m (fun x => k))
  (at level 10, x name, m at level 100, k at level 200).

(* ===================================================================== *)
(** ** Knowledge representation classes                                    *)
(* ===================================================================== *)

Record Fact := mkFact {
  subject : string;
  predicate : string;
  object : string
}.

Global Instance Fact_eq_dec : EqDecision Fact.
Proof. solve_decision. Defined.

(** [new Fact(subject, predicate, object)]. *)
Definition new_Fact (s p o : string) : Fact :=
  {| subject := JS.toLowerCase s;
     predicate := JS.toLowerCase p;
     object := JS.toLowerCase o |}.

Definition Fact_toString (f : Fact) : string :=
  subject f +:+ " " +:+ predicate f +:+ " " +:+ object f.

Inductive RuleType := standard | universal | capability.

Global Instance RuleType_eq_dec : EqDecision RuleType.
Proof. solve_decision. Defined.

Record Rule := mkRule {
  conditions : list Fact;
  conclusion : Fact;
  type : RuleType;
  category : option string;
  property : option string;
  capability_ : option string
}.

(** [new Rule(conditions, conclusion)] with an array of conditions. *)
Definition new_Rule (conds : list Fact) (concl : Fact) : Rule :=
  {| conditions := conds; conclusion := concl; type := standard;
     category := None; property := None; capability_ := None |}.

Definition createUniversalRule (cat prop : string) : Rule :=
  let variable := "_x_" in
  {| conditions := [new_Fact variable "is" cat];
     conclusion := new_Fact variable "is" prop;
     type := universal;
     category := Some cat; property := Some prop; capability_ := None |}.

Definition createCapabilityRule (cat cap : string) : Rule :=
  let variable := "_x_" in
  {| conditions := [new_Fact variable "is" cat];
     conclusion := new_Fact variable "can" cap;
     type := capability;
     category := Some cat; property := None; capability_ := Some cap |}.

Definition Rule_toString (r : Rule) : string :=
  match type r with
  | universal =>
      "All " +:+ JS.String_ (category r) +:+ " are " +:+ JS.String_ (property r)
  | capability =>
      "All " +:+ JS.String_ (category r) +:+ " can " +:+ JS.String_ (capability_ r)
  | standard =>
      match conditions r with
      | [c] => "IF (" +:+ Fact_toString c +:+ ") THEN ("
               +:+ Fact_toString (conclusion r) +:+ ")"
      | cs => "IF (" +:+ JS.join " AND " (map Fact_toString cs) +:+ ") THEN ("
              +:+ Fact_toString (conclusion r) +:+ ")"
      end
  end.

(* ===================================================================== *)
(** ** Concept Encoder                                                     *)
(* ===================================================================== *)

Record ConceptEncoder := mkConceptEncoder {
  primeCalc : PrimeCalculator;
  conceptToPrime : gmap string Z;
  primeToConceptCache : gmap Z string;
  nextPrimeIndex : nat;
  variablePrime : option Z
}.

(** The two shapes of object that [encodeRule] returns. *)
Inductive QuantifiedType := q_universal | q_capability.

Inductive EncodedRule :=
| EncQuantified (qtype : QuantifiedType) (variablePrime_ : option Z)
    (categoryPrime propertyPrime predicatePrime : Z)
    (conditionEncoding conclusionEncoding : Z)
| EncStandard (conditionEncodings : list Z) (conclusionEncoding : Z).

Module ConceptEncoder.

Definition getPrime (lf : nat) (concept : string) : M ConceptEncoder Z := fun e =>
  let normalizedConcept := JS.toLowerCase concept in
  match conceptToPrime e !! normalizedConcept with
  | Some p => Some (p, e)
  | None =>
      (* Assign next available prime *)
      match getNthPrime lf (nextPrimeIndex e) (primeCalc e) with
      | None => None
      | Some (prime, calc') =>
          Some (prime,
                {| primeCalc := calc';
                   conceptToPrime := <[normalizedConcept := prime]> (conceptToPrime e);
                   primeToConceptCache := <[prime := normalizedConcept]> (primeToConceptCache e);
                   nextPrimeIndex := S (nextPrimeIndex e);
                   variablePrime := variablePrime e |})
      end
  end.

(** [this.primeToConceptCache.get(prime) || `Unknown(${prime})`]: the empty
    string is falsy. *)
Definition getConceptName (e : ConceptEncoder) (prime : Z) : string :=
  match primeToConceptCache e !! prime with
  | Some s => if decide (s = "") then "Unknown(" +:+ pretty prime +:+ ")" else s
  | None => "Unknown(" +:+ pretty prime +:+ ")"
  end.

Definition encodeFact (lf : nat) (fact : Fact) : M ConceptEncoder Z :=
  let* subjectPrime := getPrime lf (subject fact) in
  let* predicatePrime := getPrime lf (predicate fact) in
  let* objectPrime := getPrime lf (object fact) in
  ret (subjectPrime * predicatePrime * objectPrime).

Fixpoint encodeFacts (lf : nat) (conds : list Fact) : M ConceptEncoder (list Z) :=
  match conds with
  | [] => ret []
  | c :: conds' =>
      let* e := encodeFact lf c in
      let* es := encodeFacts lf conds' in
      ret (e :: es)
  end.

(** [encodeRule]; the properties of the object literal are evaluated in the
    order in which they are written. A quantified rule without a condition
    would make [encodeFact] throw. *)
Definition encodeRule (lf : nat) (rule : Rule) : M ConceptEncoder EncodedRule :=
  match type rule with
  | standard =>
      let* conditionEncodings := encodeFacts lf (conditions rule) in
      let* conclusionEncoding := encodeFact lf (conclusion rule) in
      ret (EncStandard conditionEncodings conclusionEncoding)
  | ty =>
      let isU := bool_decide (ty = universal) in
      let* vp := gets variablePrime in
      let* categoryPrime := getPrime lf (JS.String_ (category rule)) in
      let* propertyPrime :=
        getPrime lf (JS.String_ (if isU then property rule else capability_ rule)) in
      let* predicatePrime := getPrime lf (if isU then "is" else "can") in
      match conditions rule with
      | [] => throw
      | c0 :: _ =>
          let* conditionEncoding := encodeFact lf c0 in
          let* conclusionEncoding := encodeFact lf (conclusion rule) in
          ret (EncQuantified (if isU then q_universal else q_capability) vp
                 categoryPrime propertyPrime predicatePrime
                 conditionEncoding conclusionEncoding)
      end
  end.

(** [decodeFact]: [Some None] is the JS [null]. *)
Definition decodeFact (lf : nat) (encoding : Z) : M ConceptEncoder (option Fact) := fun e =>
  match factorize lf encoding (primeCalc e) with
  | None => None
  | Some [subjectPrime; predicatePrime; objectPrime] =>
      let subject := getConceptName e subjectPrime in
      let predicate := getConceptName e predicatePrime in
      let object := getConceptName e objectPrime in
      Some (Some (new_Fact subject predicate object), e)
  | Some _ => Some (None, e)
  end.

(** The constructor: a fresh calculator, empty tables, and the reserved
    concept registered first. *)
Definition new (lf : nat) : option ConceptEncoder :=
  let e0 := {| primeCalc := default_PrimeCalculator;
               conceptToPrime := ∅; primeToConceptCache := ∅;
               nextPrimeIndex := 0; variablePrime := None |} in
  match getPrime lf "_variable_" e0 with
  | None => None
  | Some (p, e1) =>
      Some {| primeCalc := primeCalc e1;
              conceptToPrime := conceptToPrime e1;
              primeToConceptCache := primeToConceptCache e1;
              nextPrimeIndex := nextPrimeIndex e1;
              variablePrime := Some p |}
  end.

Definition getVariablePrime (e : ConceptEncoder) : option Z := variablePrime e.

End ConceptEncoder.

(* ===================================================================== *)
(** ** Knowledge Base, and the state shared by the classes of [ELLM]       *)
(* ===================================================================== *)

Record KnowledgeBase := mkKnowledgeBase {
  factEncodings : list Z;
  rules : list EncodedRule;
  facts : list Fact
}.

Record Result := mkResult {
  result : bool;
  explanation : string
}.

(** [ELLM] holds one encoder, which the knowledge base, the language
    processor and the reasoner all reference: it is modelled once, here.
    [visited] is the field of the reasoner. (The reasoner's own
    [PrimeCalculator] is never used and is left out.) *)
Record ELLM := mkELLM {
  encoder : ConceptEncoder;
  kb : KnowledgeBase;
  visited : gset string
}.

Definition on_encoder {A} (m : M ConceptEncoder A) : M ELLM A := fun st =>
  match m (encoder st) with
  | None => None
  | Some (a, e') => Some (a, {| encoder := e'; kb := kb st; visited := visited st |})
  end.

Module KnowledgeBase.

Definition new : KnowledgeBase :=
  {| factEncodings := []; rules := []; facts := [] |}.

Definition addFact (lf : nat) (fact : Fact) : M ELLM Z :=
  let* encoding := on_encoder (ConceptEncoder.encodeFact lf fact) in
  let* _ := modify (fun st =>
    {| encoder := encoder st;
       kb := {| factEncodings := factEncodings (kb st) ++ [encoding];
                rules := rules (kb st);
                facts := facts (kb st) ++ [fact] |};
       visited := visited st |}) in
  ret encoding.

Definition addRule (lf : nat) (rule : Rule) : M ELLM EncodedRule :=
  let* encodedRule := on_encoder (ConceptEncoder.encodeRule lf rule) in
  let* _ := modify (fun st =>
    {| encoder := encoder st;
       kb := {| factEncodings := factEncodings (kb st);
                rules := rules (kb st) ++ [encodedRule];
                facts := facts (kb st) |};
       visited := visited st |}) in
  ret encodedRule.

Definition getAllFactEncodings (k : KnowledgeBase) : list Z := factEncodings k.

Definition getAllRules (k : KnowledgeBase) : list EncodedRule := rules k.

End KnowledgeBase.

(* ===================================================================== *)
(** ** Reasoning Engine                                                    *)
(* ===================================================================== *)

Module ReasoningEngine.

Import ConceptEncoder.

Definition set_visited (v : gset string) : M ELLM unit :=
  modify (fun st => {| encoder := encoder st; kb := kb st; visited := v |}).

Section Body.

Variable lf : nat.
(** The recursive call [this._deduce(kb, fact, depth + 1)]. *)
Variable rec : Fact -> M ELLM Result.

(** First loop over [kb.rules]: universal and capability rules. [None]
    means that the loop ended without returning. *)
Fixpoint quantified_pass (rs : list EncodedRule) (queryFact : Fact)
  : M ELLM (option Result) :=
  match rs with
  | [] => ret None
  | EncStandard _ _ :: rs' => quantified_pass rs' queryFact
  | EncQuantified qtype _ categoryPrime propertyPrime predicatePrime _ _ :: rs' =>
      let* e := gets encoder in
      if bool_decide (predicate queryFact = getConceptName e predicatePrime)
         && bool_decide (object queryFact = getConceptName e propertyPrime)
      then
        let membershipFact :=
          new_Fact (subject queryFact) "is" (getConceptName e categoryPrime) in
        let* subResult := rec membershipFact in
        if result subResult
        then
          let ruleType := match qtype with q_universal => "are" | q_capability => "can" end in
          let* e' := gets encoder in
          ret (Some {| result := true;
                       explanation :=
                         explanation subResult +:+ ", and all "
                         +:+ getConceptName e' categoryPrime +:+ " " +:+ ruleType
                         +:+ " " +:+ getConceptName e' propertyPrime |})
        else quantified_pass rs' queryFact
      else quantified_pass rs' queryFact
  end.

(** The loop over [rule.conditionEncodings]: [Some explanations] when
    all conditions were met. *)
Fixpoint conditions_loop (conds : list Z) (explanations : list string)
  : M ELLM (option (list string)) :=
  match conds with
  | [] => ret (Some explanations)
  | conditionEncoding :: conds' =>
      let* conditionFact := on_encoder (decodeFact lf conditionEncoding) in
      match conditionFact with
      | None => ret None
      | Some conditionFact =>
          let* conditionResult := rec conditionFact in
          if result conditionResult
          then conditions_loop conds' (explanations ++ [explanation conditionResult])
          else ret None
      end
  end.

(** Second loop over [kb.rules]: standard rules. *)
Fixpoint standard_pass (rs : list EncodedRule) (queryFact : Fact) (queryEncoding : Z)
  : M ELLM (option Result) :=
  match rs with
  | [] => ret None
  | EncQuantified _ _ _ _ _ _ _ :: rs' => standard_pass rs' queryFact queryEncoding
  | EncStandard conditionEncodings conclusionEncoding :: rs' =>
      if conclusionEncoding =? queryEncoding
      then
        let* met := conditions_loop conditionEncodings [] in
        match met with
        | Some explanations =>
            ret (Some {| result := true;
                         explanation := JS.join ", " explanations
                                        +:+ ", which implies "
                                        +:+ Fact_toString queryFact |})
        | None => standard_pass rs' queryFact queryEncoding
        end
      else standard_pass rs' queryFact queryEncoding
  end.

(** The loop of [tryTransitiveReasoning] over [kb.facts]. *)
Fixpoint transitive_loop (fs : list Fact) (queryFact : Fact) : M ELLM Result :=
  match fs with
  | [] => ret {| result := false; explanation := "" |}
  | fact :: fs' =>
      if bool_decide (subject fact = subject queryFact)
         && bool_decide (predicate fact = predicate queryFact)
      then
        let intermediateFact :=
          new_Fact (object fact) (predicate queryFact) (object queryFact) in
        let* r := rec intermediateFact in
        if result r
        then ret {| result := true;
                    explanation :=
                      subject queryFact +:+ " " +:+ predicate queryFact +:+ " "
                      +:+ object fact +:+ ", and " +:+ explanation r |}
        else transitive_loop fs' queryFact
      else transitive_loop fs' queryFact
  end.

Definition tryTransitiveReasoning (queryFact : Fact) : M ELLM Result :=
  let* fs := gets (fun st => facts (kb st)) in
  transitive_loop fs queryFact.

Definition could_not_deduce (queryFact : Fact) : Result :=
  {| result := false;
     explanation := "Could not deduce: " +:+ Fact_toString queryFact |}.

(** The body of [_deduce]. *)
Definition deduce_body (queryFact : Fact) : M ELLM Result :=
  (* Encode the query fact *)
  let* queryEncoding := on_encoder (encodeFact lf queryFact) in
  (* Check for recursion *)
  let queryKey := Fact_toString queryFact in
  let* seen := gets visited in
  if bool_decide (queryKey ∈ seen)
  then ret {| result := false;
              explanation := "Circular reasoning detected: "
                             +:+ Fact_toString queryFact |}
  else
    let* _ := set_visited (seen ∪ {[queryKey]}) in
    (* Check if directly in KB *)
    let* encs := gets (fun st => factEncodings (kb st)) in
    if existsb (Z.eqb queryEncoding) encs
    then ret {| result := true;
                explanation := "Direct fact in knowledge base: "
                               +:+ Fact_toString queryFact |}
    else
      let* rs := gets (fun st => rules (kb st)) in
      let* r1 := quantified_pass rs queryFact in
      match r1 with
      | Some r => ret r
      | None =>
          let* rs := gets (fun st => rules (kb st)) in
          let* r2 := standard_pass rs queryFact queryEncoding in
          match r2 with
          | Some r => ret r
          | None =>
              if bool_decide (predicate queryFact = "is")
                 || bool_decide (predicate queryFact = "part of")
              then
                let* transitiveResult := tryTransitiveReasoning queryFact in
                if result transitiveResult then ret transitiveResult
                else ret (could_not_deduce queryFact)
              else ret (could_not_deduce queryFact)
          end
      end.

End Body.

(** [_deduce]: [fuel] bounds the depth of the recursion. *)
Fixpoint _deduce (lf fuel : nat) (queryFact : Fact) : M ELLM Result :=
  match fuel with
  | O => throw
  | S fuel' => deduce_body lf (_deduce lf fuel') queryFact
  end.

(** [deduce]: the visited set is reset for each new top-level query. *)
Definition deduce (lf fuel : nat) (queryFact : Fact) : M ELLM Result :=
  let* _ := set_visited ∅ in
  _deduce lf fuel queryFact.

End ReasoningEngine.

(* ===================================================================== *)
(** ** Language Processor                                                  *)
(* ===================================================================== *)

Module LanguageProcessor.

(** [sentence.toLowerCase().replace(/[.?!,;]$/g, '').trim()]. *)
Definition normalize (sentence : string) : string :=
  JS.trim (JS.strip_final_punct (JS.toLowerCase sentence)).

(** One template of [parseFact]: [text.includes(sep)], then
    [text.split(sep)] must have exactly two parts. *)
Definition template (text sep pred : string) (clean : string -> string) : option Fact :=
  if JS.includes text sep
  then match JS.split text sep with
       | [a; b] => Some (new_Fact (clean (JS.trim a)) pred (clean (JS.trim b)))
       | _ => None
       end
  else None.

Definition first_of {A} (l : list (option A)) : option A :=
  foldr (fun x r => match x with Some a => Some a | None => r end) None l.

Definition parseFact (sentence : string) : option Fact :=
  let text := normalize sentence in
  first_of
    [ template text " is " "is" id;
      template text " has " "has" id;
      template text " can " "can" id;
      template text " cannot " "cannot" id;
      template text " likes " "likes" id;
      template text " teaches " "teaches" id;
      template text " part of " "part of" (fun s => JS.replace s "the " "") ].

(** The conditions of an IF-THEN rule: any part that fails to parse makes
    [parseRule] return [null]. *)
Fixpoint parseConditions (parts : list string) : option (list Fact) :=
  match parts with
  | [] => Some []
  | part :: parts' =>
      match parseFact part with
      | None => None
      | Some condition =>
          match parseConditions parts' with
          | None => None
          | Some conds => Some (condition :: conds)
          end
      end
  end.

Definition parseRule (sentence : string) : option Rule :=
  let text := normalize sentence in
  let all_are :=
    if JS.startsWith text "all " && JS.includes text " are "
    then match JS.split (JS.replace text "all " "") " are " with
         | [a; b] => Some (createUniversalRule (JS.trim a) (JS.trim b))
         | _ => None
         end
    else None in
  match all_are with
  | Some r => Some r
  | None =>
  let all_can :=
    if JS.startsWith text "all " && JS.includes text " can "
    then match JS.split (JS.replace text "all " "") " can " with
         | [a; b] => Some (createCapabilityRule (JS.trim a) (JS.trim b))
         | _ => None
         end
    else None in
  match all_can with
  | Some r => Some r
  | None =>
    if (JS.startsWith text "if " && JS.includes text " then ")
       || (JS.startsWith text "if " && JS.includes text ", then ")
    then
      let parts :=
        if JS.includes text ", then "
        then JS.split (JS.replace text "if " "") ", then "
        else JS.split (JS.replace text "if " "") " then " in
      match parts with
      | [a; b] =>
          let conditionText := JS.trim a in
          let conclusionText := JS.trim b in
          let conditions :=
            if JS.includes conditionText " and "
            then parseConditions (JS.split conditionText " and ")
            else parseConditions [conditionText] in
          match conditions with
          | None => None
          | Some conds =>
              match parseFact conclusionText with
              | Some concl => Some (new_Rule conds concl)
              | None => None
              end
          end
      | _ => None
      end
    else None
  end
  end.

(** [words = rest.split(' ')]: with at least two words, the first is the
    subject and [words.slice(1).join(' ')] the object. *)
Definition by_words (restOfQuery pred : string) : option Fact :=
  match JS.split restOfQuery " " with
  | w0 :: w1 :: ws => Some (new_Fact w0 pred (JS.join " " (w1 :: ws)))
  | _ => None
  end.

(** [parts = rest.split(sep)]: exactly two parts, each trimmed by [clean]. *)
Definition by_parts (rest sep pred : string) (clean : string -> string) : option Fact :=
  match JS.split rest sep with
  | [a; b] => Some (new_Fact (clean a) pred (clean b))
  | _ => None
  end.

Definition parseQuery (question : string) : option Fact :=
  let text := normalize question in
  first_of
    [ (* "Is X Y?" questions *)
      if JS.startsWith text "is "
      then
        let restOfQuery := JS.trim (JS.substring text 3) in
        if JS.includes restOfQuery " a "
        then by_parts restOfQuery " a " "is" JS.trim
        else if JS.includes restOfQuery " an "
        then by_parts restOfQuery " an " "is" JS.trim
        else if JS.includes restOfQuery " part of "
        then by_parts restOfQuery " part of " "part of" JS.trim
        else by_words restOfQuery "is"
      else None;
      (* "Are X Y?" questions *)
      if JS.startsWith text "are "
      then by_words (JS.trim (JS.substring text 4)) "is"
      else None;
      (* "Does X have Y?" questions *)
      if JS.startsWith text "does " && JS.includes text " have "
      then by_parts (JS.trim (JS.substring text 5)) " have " "has" id
      else None;
      (* "Can X Y?" questions *)
      if JS.startsWith text "can "
      then by_words (JS.trim (JS.substring text 4)) "can"
      else None;
      (* "Does X like Y?" questions *)
      if JS.startsWith text "does " && JS.includes text " like "
      then by_parts (JS.trim (JS.substring text 5)) " like " "likes" id
      else None ].

End LanguageProcessor.

(* ===================================================================== *)
(** ** Main ELLM class                                                     *)
(* ===================================================================== *)

(** The object that [query] returns. *)
Module QueryResult.
Record t := mk {
  query : string;
  parsedQuery : option string;
  answer : string;
  explanation : string
}.
End QueryResult.

(** The object that [getKnowledgeSummary] returns. *)
Module KnowledgeSummary.
Record t := mk {
  facts : list string;
  rules : list string
}.
End KnowledgeSummary.

Module ELLM.

Import LanguageProcessor.

Definition new (lf : nat) : option ELLM :=
  match ConceptEncoder.new lf with
  | None => None
  | Some e => Some {| encoder := e; kb := KnowledgeBase.new; visited := ∅ |}
  end.

Definition failed_to_parse (sentence : string) : string :=
  "Failed to parse: " +:+ JS.dquote +:+ sentence +:+ JS.dquote.

(** The loop of [learn] over the sentences. *)
Fixpoint learn_loop (lf : nat) (sentences : list string) (learningResults : list string)
  : M ELLM (list string) :=
  match sentences with
  | [] => ret learningResults
  | sentence :: sentences' =>
      if bool_decide (JS.trim sentence = "")
      then learn_loop lf sentences' learningResults
      else
        (* First try to parse as a rule *)
        match parseRule sentence with
        | Some rule =>
            let* _ := KnowledgeBase.addRule lf rule in
            learn_loop lf sentences'
              (learningResults ++ ["Added rule: " +:+ Rule_toString rule])
        | None =>
            (* Then try to parse as a fact *)
            match parseFact sentence with
            | Some fact =>
                let* _ := KnowledgeBase.addFact lf fact in
                learn_loop lf sentences'
                  (learningResults ++ ["Added fact: " +:+ Fact_toString fact])
            | None =>
                learn_loop lf sentences'
                  (learningResults ++ [failed_to_parse sentence])
            end
        end
  end.

Definition learn (lf : nat) (text : string) : M ELLM (list string) :=
  let sentences :=
    filter (fun s => String.length (JS.trim s) ≠ 0%nat) (JS.split_sentences text) in
  learn_loop lf sentences [].

Definition query (lf fuel : nat) (question : string) : M ELLM QueryResult.t :=
  match parseQuery question with
  | Some queryFact =>
      let* r := ReasoningEngine.deduce lf fuel queryFact in
      ret {| QueryResult.query := question;
             QueryResult.parsedQuery := Some (Fact_toString queryFact);
             QueryResult.answer := if result r then "Yes" else "No";
             QueryResult.explanation := explanation r |}
  | None =>
      ret {| QueryResult.query := question;
             QueryResult.parsedQuery := None;
             QueryResult.answer := "Unknown";
             QueryResult.explanation := "Could not parse the query" |}
  end.

(** [rule.conditionEncodings.map(enc => this.encoder.decodeFact(enc))]. *)
Fixpoint decodeFacts (lf : nat) (encs : list Z) : M ConceptEncoder (list (option Fact)) :=
  match encs with
  | [] => ret []
  | enc :: encs' =>
      let* d := ConceptEncoder.decodeFact lf enc in
      let* ds := decodeFacts lf encs' in
      ret (d :: ds)
  end.

(** [describeRule]: [filter(Boolean)] drops the conditions that decode to
    [null]; a rule left without condition or conclusion is unrecognized. *)
Definition describeRule (lf : nat) (rule : EncodedRule) : M ConceptEncoder string :=
  match rule with
  | EncQuantified q_universal _ categoryPrime propertyPrime _ _ _ =>
      let* e := gets id in
      ret ("All " +:+ ConceptEncoder.getConceptName e categoryPrime +:+ " are "
           +:+ ConceptEncoder.getConceptName e propertyPrime)
  | EncQuantified q_capability _ categoryPrime propertyPrime _ _ _ =>
      let* e := gets id in
      ret ("All " +:+ ConceptEncoder.getConceptName e categoryPrime +:+ " can "
           +:+ ConceptEncoder.getConceptName e propertyPrime)
  | EncStandard conditionEncodings conclusionEncoding =>
      let* decoded := decodeFacts lf conditionEncodings in
      let conditions := map Fact_toString (omap id decoded) in
      let* conclusion := ConceptEncoder.decodeFact lf conclusionEncoding in
      match conditions, conclusion with
      | [c0], Some concl =>
          ret ("IF (" +:+ c0 +:+ ") THEN (" +:+ Fact_toString concl +:+ ")")
      | _ :: _, Some concl =>
          ret ("IF (" +:+ JS.join " AND " conditions +:+ ") THEN ("
               +:+ Fact_toString concl +:+ ")")
      | _, _ => ret "[Unrecognized rule]"
      end
  end.

Fixpoint describeRules (lf : nat) (rs : list EncodedRule) : M ConceptEncoder (list string) :=
  match rs with
  | [] => ret []
  | r :: rs' =>
      let* d := describeRule lf r in
      let* ds := describeRules lf rs' in
      ret (d :: ds)
  end.

Definition getKnowledgeSummary (lf : nat) : M ELLM KnowledgeSummary.t :=
  let* fs := gets (fun st => facts (kb st)) in
  let* rs := gets (fun st => rules (kb st)) in
  let* described := on_encoder (describeRules lf rs) in
  ret {| KnowledgeSummary.facts := map Fact_toString fs;
         KnowledgeSummary.rules := described |}.

(** [reset]: every component is built anew. *)
Definition reset (lf : nat) : M ELLM unit := fun _ =>
  match new lf with
  | Some st => Some (tt, st)
  | None => None
  end.

End ELLM.


(* ===================================================================== *)
(** * Vocabulary of the properties                                         *)
(* ===================================================================== *)

Import ConceptEncoder KnowledgeBase ReasoningEngine LanguageProcessor.

(** ** Budgets *)

(** [extends m m']: wherever [m] returns, [m'] returns the same. *)
Definition extends {S A} (m m' : M S A) : Prop :=
  forall s r, m s = Some r -> m' s = Some r.

(** ** Primes and factorizations *)

(** A boolean primality test by exhaustive division, to relate the table of
    the sieve with [Z.prime]. *)
Fixpoint no_divisor (k : nat) (d p : Z) : bool :=
  match k with
  | O => true
  | S k' => if p mod d =? 0 then false else no_divisor k' (d + 1) p
  end.

Definition primeb (p : Z) : bool :=
  if 1 <? p then no_divisor (Z.to_nat (p - 2)) 2 p else false.

(** [count_primes_below p] is the 0-based rank of [p] among the primes. *)
Definition count_primes_below (p : Z) : nat :=
  length (filter (fun d => primeb d = true) (seqZ 2 (p - 2))).

Definition is_nth_prime (k : nat) (p : Z) : Prop :=
  Z.prime p /\ count_primes_below p = k.

Definition product (l : list Z) : Z := fold_right Z.mul 1 l.

(** [rough b r]: nothing in [2, b) divides [r]. *)
Definition rough (b r : Z) : Prop := forall d, 2 <= d < b -> ~ (d | r).

(** [ps] lists, in ascending order, exactly the primes of [lo, hi). *)
Fixpoint primes_between (lo : Z) (ps : list Z) (hi : Z) : Prop :=
  match ps with
  | [] => lo <= hi /\ forall d, lo <= d < hi -> primeb d = false
  | p :: ps' =>
      lo <= p /\ primeb p = true
      /\ (forall d, lo <= d < p -> primeb d = false)
      /\ primes_between (p + 1) ps' hi
  end.

Fixpoint no_primes (k : nat) (lo : Z) : bool :=
  match k with
  | O => true
  | S k' => if primeb lo then false else no_primes k' (lo + 1)
  end.

Fixpoint primes_betweenb (lo : Z) (ps : list Z) (hi : Z) : bool :=
  match ps with
  | [] => (lo <=? hi) && no_primes (Z.to_nat (hi - lo)) lo
  | p :: ps' =>
      (lo <=? p) && primeb p && no_primes (Z.to_nat (p - lo)) lo
      && primes_betweenb (p + 1) ps' hi
  end.

(** [n] is not divisible by the product of two primes above the table. *)
Definition no_two_large (n : Z) : Prop :=
  forall p q, Z.prime p -> Z.prime q -> 997 < p -> 997 < q -> ~ (p * q | n).

(** ** The fresh system and worked scenarios *)

Definition initial_encoder : ConceptEncoder :=
  {| primeCalc := default_PrimeCalculator;
     conceptToPrime := {[ "_variable_" := 2 ]};
     primeToConceptCache := {[ 2 := "_variable_" ]};
     nextPrimeIndex := 1;
     variablePrime := Some 2 |}.

Definition initial_ELLM : ELLM :=
  {| encoder := initial_encoder; kb := KnowledgeBase.new; visited := ∅ |}.

(** The state of a fresh [ELLM] after running [setup]. *)
Definition after {A} (lf : nat) (setup : M ELLM A) : option ELLM :=
  match ELLM.new lf with
  | Some st => snd <$> setup st
  | None => None
  end.

(** C7: two hops of "part of". *)
Module Scenario.

Definition engine_car : Fact := new_Fact "engine" "part of" "car".
Definition car_system : Fact := new_Fact "car" "part of" "transportation system".

Definition part_of_setup (lf : nat) : M ELLM Z :=
  let* _ := addFact lf engine_car in addFact lf car_system.

End Scenario.

(** C4: the membership fact "x is c", the capability rule "all c can a",
    and any other stored fact. *)
Definition capability_setup (lf : nat) (x c a : string) (other : Fact) : M ELLM Z :=
  let* _ := addFact lf (new_Fact x "is" c) in
  let* _ := addRule lf (createCapabilityRule c a) in
  addFact lf other.

(** C4: the penguin store, after a capability rule about another category. *)
Definition two_rules_setup (lf : nat) : M ELLM Z :=
  let* _ := addRule lf (createCapabilityRule "fish" "fly") in
  capability_setup lf "penguin" "birds" "fly" (new_Fact "penguins" "cannot" "fly").

(** C9: a rule that names the same condition twice. *)
Module Duplicate.

Definition socrates_human : Fact := new_Fact "socrates" "is" "human".
Definition socrates_greek : Fact := new_Fact "socrates" "is" "greek".

(** The condition fact is stored, and the rule names it twice. *)
Definition setup (lf : nat) : M ELLM EncodedRule :=
  let* _ := addFact lf socrates_human in
  addRule lf (new_Rule [socrates_human; socrates_human] socrates_greek).

(** The same store with the condition named once. *)
Definition setup_once (lf : nat) : M ELLM EncodedRule :=
  let* _ := addFact lf socrates_human in
  addRule lf (new_Rule [socrates_human] socrates_greek).

Definition a_is_b : Fact := new_Fact "a" "is" "b".
Definition a_is_a : Fact := new_Fact "a" "is" "a".

Definition setup_symmetric (lf : nat) : M ELLM EncodedRule :=
  let* _ := addFact lf a_is_b in
  addRule lf (new_Rule [a_is_b; a_is_b] a_is_a).

End Duplicate.

(** [getPrime] on each concept of a list, in order. *)
Fixpoint register (lf : nat) (cs : list string) : M ConceptEncoder (list Z) :=
  match cs with
  | [] => ret []
  | c :: cs' =>
      let* p := getPrime lf c in
      let* ps := register lf cs' in
      ret (p :: ps)
  end.

(** The distinct concepts "c0", "c1", ... *)
Definition concept_names (k : nat) : list string :=
  map (fun i : nat => "c" +:+ pretty i) (seq 0 k).

(** What is observed after the 169 registrations, as one boolean. *)
Definition collision_observed : bool :=
  match register 12 (concept_names 169) initial_encoder with
  | Some (_, e) =>
      bool_decide (conceptToPrime e !! "c167" = Some 1009)
      && bool_decide (conceptToPrime e !! "c168" = Some 1009)
      && bool_decide (getConceptName e 1009 = "c168")
  | None => false
  end.

Fixpoint no_terminator (s : string) : bool :=
  match s with
  | EmptyString => true
  | String c s' => negb (JS.is_terminator c) && no_terminator s'
  end.

(** ** Invariants of the concept table and of a deduction *)

(** [e'] extends [e]: the table only grows, and at most [k] concepts were
    added. *)
Record enc_le (k : nat) (e e' : ConceptEncoder) : Prop := {
  le_c2p : conceptToPrime e ⊆ conceptToPrime e';
  le_next : (nextPrimeIndex e <= nextPrimeIndex e' <= nextPrimeIndex e + k)%nat;
  le_primes : primes (primeCalc e') = primes (primeCalc e);
  le_variable : variablePrime e' = variablePrime e
}.

(** The well-formed tables: the table of the sieve, at most 168 concepts,
    and the two maps inverse of each other. *)
Record enc_wf (e : ConceptEncoder) : Prop := {
  wf_primes : primes (primeCalc e) = default_primes;
  wf_next : (nextPrimeIndex e <= 168)%nat;
  wf_rev : forall c q, conceptToPrime e !! c = Some q ->
                       primeToConceptCache e !! q = Some c;
  wf_fwd : forall q c, primeToConceptCache e !! q = Some c ->
                       conceptToPrime e !! c = Some q;
  wf_index : forall q c, primeToConceptCache e !! q = Some c ->
                         exists i, (i < nextPrimeIndex e)%nat
                                   /\ default_primes !! i = Some q
}.

(** [st_le st st']: the store is the same, and the visited set and the
    concept table have only grown. *)
Record st_le (st st' : ELLM) : Prop := {
  sl_kb : kb st' = kb st;
  sl_visited : visited st ⊆ visited st';
  sl_c2p : conceptToPrime (encoder st) ⊆ conceptToPrime (encoder st');
  sl_next : (nextPrimeIndex (encoder st) <= nextPrimeIndex (encoder st'))%nat;
  sl_primes : primes (primeCalc (encoder st')) = primes (primeCalc (encoder st));
  sl_wf : enc_wf (encoder st) -> (nextPrimeIndex (encoder st') <= 168)%nat ->
          enc_wf (encoder st')
          /\ primeToConceptCache (encoder st) ⊆ primeToConceptCache (encoder st')
}.

Definition grows {A} (m : M ELLM A) : Prop :=
  forall st a st', m st = Some (a, st') -> st_le st st'.

Definition circular (q : Fact) : Result :=
  {| result := false;
     explanation := "Circular reasoning detected: " +:+ Fact_toString q |}.

(** A store without facts whose rules are all standard rules with at least
    one condition. *)
Definition barren (k : KnowledgeBase) : Prop :=
  facts k = [] /\ factEncodings k = []
  /\ Forall (fun r => exists c cs concl, r = EncStandard (c :: cs) concl) (rules k).

(** The store that holds the rule IF (f) THEN (f), of encoding [E] on both
    sides, and nothing else. *)
Definition self_store (E : Z) : KnowledgeBase :=
  {| factEncodings := []; rules := [EncStandard [E] E]; facts := [] |}.

(** The states of a query against that store, with room for [room] more
    concepts in the table; [e0] is the table in which the rule was encoded. *)
Definition self_state (E : Z) (e0 : ConceptEncoder) (room : nat) (st : ELLM) : Prop :=
  enc_wf (encoder st)
  /\ (nextPrimeIndex (encoder st) + room <= 168)%nat
  /\ kb st = self_store E
  /\ primes (primeCalc (encoder st)) = primes (primeCalc e0)
  /\ primeToConceptCache e0 ⊆ primeToConceptCache (encoder st).

(** ** Vocabulary of the further properties *)

(** [struck i n]: some [d] of [2, i) has crossed [n] out in the sieve, that
    is [n = d*d + q*d] for some [q]. *)
Definition struck (i n : nat) : Prop :=
  exists d q : nat, (2 <= d < i)%nat /\ (n = d * d + q * d)%nat.

(** The invariant of the outer loop of the sieve when it reaches [i]. *)
Definition sieve_inv (max i : nat) (sieve : list bool) : Prop :=
  length sieve = S max
  /\ forall n : nat, (n <= max)%nat ->
       (default false (sieve !! n) = true <-> (2 <= n)%nat /\ ~ struck i n).

(** The cache of [isPrime] tells the truth. *)
Definition cache_ok (calc : PrimeCalculator) : Prop :=
  forall n b, primeCache calc !! n = Some b -> (b = true <-> Z.prime n).

(** The three concepts of a fact, as [getPrime] looks them up. *)
Definition components (f : Fact) : list string :=
  [JS.toLowerCase (subject f); JS.toLowerCase (predicate f); JS.toLowerCase (object f)].

(** [kb.factEncodings[i]] is what [encodeFact] gives for [kb.facts[i]], and
    encoding that fact registers nothing new. *)
Definition kb_aligned (st : ELLM) : Prop :=
  Forall2 (fun f E => forall lf, encodeFact lf f (encoder st) = Some (E, encoder st))
          (facts (kb st)) (factEncodings (kb st)).

(** The predicates of the templates of [parseFact] and of [parseQuery]. *)
Definition fact_predicates : list string :=
  ["is"; "has"; "can"; "cannot"; "likes"; "teaches"; "part of"].

Definition query_predicates : list string :=
  ["is"; "part of"; "has"; "can"; "likes"].

(** The components of a fact are in lower case. *)
Definition normalized (f : Fact) : Prop :=
  JS.toLowerCase (subject f) = subject f
  /\ JS.toLowerCase (predicate f) = predicate f
  /\ JS.toLowerCase (object f) = object f.


(** A text of whitespace and sentence terminators only. *)
Fixpoint blank (s : string) : bool :=
  match s with
  | EmptyString => true
  | String c s' => (JS.is_ws c || JS.is_terminator c) && blank s'
  end.

Fixpoint all_ws (s : string) : bool :=
  match s with
  | EmptyString => true
  | String c s' => JS.is_ws c && all_ws s'
  end.

(** "All c are p" or "All c can p". *)
Definition quantified_rule (isU : bool) (c p : string) : Rule :=
  if isU then createUniversalRule c p else createCapabilityRule c p.

(** ** Vocabulary of termination and of the search *)

(** The facts over a set of names [N], and their keys: a finite universe for
    the visited set. *)
Definition fact_in (N : gset string) (q : Fact) : Prop :=
  subject q ∈ N /\ predicate q ∈ N /\ object q ∈ N.

Definition fact_keys (N : gset string) : gset string :=
  set_bind (fun a : string =>
    set_bind (fun b : string =>
      set_map (C:=gset string) (fun c : string => a +:+ " " +:+ b +:+ " " +:+ c) N) N) N.

(** Names are in lower case and not empty. *)
Definition names_ok (N : gset string) : Prop :=
  forall c, c ∈ N -> JS.toLowerCase c = c /\ c <> "".

(** The concept table holds names of [N] only, and has room for all of [N]. *)
Definition einv (N : gset string) (e : ConceptEncoder) : Prop :=
  enc_wf e
  /\ dom (conceptToPrime e) ⊆ N
  /\ (nextPrimeIndex e + size (N ∖ dom (conceptToPrime e)) <= 168)%nat.

(** The primes of a stored rule are registered. *)
Definition rule_ok (e : ConceptEncoder) (R : EncodedRule) : Prop :=
  match R with
  | EncQuantified _ _ categoryPrime _ _ _ _ =>
      is_Some (primeToConceptCache e !! categoryPrime)
  | EncStandard conditionEncodings _ =>
      Forall (fun E => exists f, encodeFact 0 f e = Some (E, e)) conditionEncodings
  end.

(** The invariant of a query over [N]. *)
Definition tinv (N : gset string) (st : ELLM) : Prop :=
  einv N (encoder st) /\ kb_aligned st /\ Forall (rule_ok (encoder st)) (rules (kb st)).

(** What a call may change: the table and the visited set grow. *)
Definition tstep (N : gset string) (st st' : ELLM) : Prop :=
  tinv N st' /\ kb st' = kb st /\ visited st ⊆ visited st'
  /\ conceptToPrime (encoder st) ⊆ conceptToPrime (encoder st').

(** A recursive call that returns whenever fewer than [n] keys are left to
    visit. *)
Definition rec_ok (N : gset string) (n : nat) (rec : Fact -> M ELLM Result) : Prop :=
  forall q st, tinv N st -> fact_in N q ->
    (size (fact_keys N ∖ visited st) < n)%nat ->
    exists r st', rec q st = Some (r, st') /\ tstep N st st'.

(** The stores on which every query is shown to terminate: a well-formed
    concept table of lower-case, non-empty names; encodings that are those of
    the facts; rules whose primes are registered. *)
Definition store_ok (st : ELLM) : Prop :=
  enc_wf (encoder st)
  /\ map_Forall (fun c _ => JS.toLowerCase c = c /\ c <> "") (conceptToPrime (encoder st))
  /\ kb_aligned st
  /\ Forall (rule_ok (encoder st)) (rules (kb st)).

(** The registered names are in lower case and not empty. *)
Definition names_inv (e : ConceptEncoder) : Prop :=
  map_Forall (fun c _ => JS.toLowerCase c = c /\ c <> "") (conceptToPrime e).

(** No component of the fact is empty. *)
Definition fact_nonempty (f : Fact) : Prop := Forall (fun c => c <> "") (components f).

(** The predicate of the conclusion of a quantified rule. *)
Definition rule_predicate (qt : QuantifiedType) : string :=
  match qt with q_universal => "is" | q_capability => "can" end.

(** The search for [(x, R, c)] through stored facts [(x, R, v1)],
    [(v1, R, v2)], ..., [(vk, R, c)]. *)
Fixpoint chain (F : list Fact) (R : string) (x : string) (vs : list string) (c : string)
  : Prop :=
  match vs with
  | [] => new_Fact x R c ∈ F
  | v :: vs' => new_Fact x R v ∈ F /\ chain F R v vs' c
  end.

(** The states of the search: no rule, the facts [F], and encodings that
    are those of the facts. *)
Definition chain_state (F : list Fact) (st : ELLM) : Prop :=
  kb_aligned st /\ rules (kb st) = [] /\ facts (kb st) = F.

(** No query [(y, R, c)] for [y] in [ys] was attempted yet. *)
Definition chain_clean (R c : string) (ys : list string) (st : ELLM) : Prop :=
  Forall (fun y => Fact_toString (new_Fact y R c) ∉ visited st) ys.

(** The queries of the search share the predicate and the object. *)
Definition in_family (R c : string) (q : Fact) : Prop :=
  predicate q = JS.toLowerCase R /\ object q = JS.toLowerCase c.

(** ** Vocabulary of the lines of [learn] and of the rule passes *)

(** The sentences that [learn] goes through: the pieces of the text that
    are not blank. *)
Definition sentences_of (text : string) : list string :=
  filter (fun s => String.length (JS.trim s) ≠ 0%nat) (JS.split_sentences text).

(** The line that [learn] pushes for a sentence. *)
Definition learn_line (sentence : string) : string :=
  match parseRule sentence with
  | Some rule => "Added rule: " +:+ Rule_toString rule
  | None =>
      match parseFact sentence with
      | Some fact => "Added fact: " +:+ Fact_toString fact
      | None => ELLM.failed_to_parse sentence
      end
  end.

(** The verb of the explanation of a quantified rule. *)
Definition rule_verb (qt : QuantifiedType) : string :=
  match qt with q_universal => "are" | q_capability => "can" end.

(** The standard rule IF (f) THEN (f), [E] being the encoding of [f]. *)
Definition is_self_rule (E : Z) (r : EncodedRule) : bool :=
  match r with
  | EncStandard [c] cl => (c =? E) && (cl =? E)
  | _ => false
  end.

(** The store without the rules IF (f) THEN (f). *)
Definition without_self_rule (E : Z) (st : ELLM) : ELLM :=
  {| encoder := encoder st;
     kb := {| factEncodings := factEncodings (kb st);
              rules := List.filter (fun r => negb (is_self_rule E r)) (rules (kb st));
              facts := facts (kb st) |};
     visited := visited st |}.

(** The fact [q] is registered with encoding [E], and [E] decodes to [q]. *)
Definition self_inv (lf : nat) (q : Fact) (E : Z) (st : ELLM) : Prop :=
  enc_wf (encoder st)
  /\ encodeFact lf q (encoder st) = Some (E, encoder st)
  /\ decodeFact lf E (encoder st) = Some (Some q, encoder st).

(* ===================================================================== *)
(** * Properties                                                           *)
(* ===================================================================== *)

(** ** Budgets: a larger budget never changes a result                     *)

Lemma extends_refl {S A} (m : M S A) : extends m m.
Proof. intros s r H; exact H. Qed.

Lemma extends_bind {S A B} (m m' : M S A) (k k' : A -> M S B) :
  extends m m' -> (forall a, extends (k a) (k' a)) ->
  extends (bind m k) (bind m' k').
Proof.
  intros Hm Hk s r. unfold bind.
  destruct (m s) as [[a s1]|] eqn:E; [|discriminate].
  rewrite (Hm _ _ E). apply Hk.
Qed.

Lemma extends_on_encoder {A} (m m' : M ConceptEncoder A) :
  extends m m' -> extends (on_encoder m) (on_encoder m').
Proof.
  intros Hm s r. unfold on_encoder.
  destruct (m (encoder s)) as [[a e1]|] eqn:E; [|discriminate].
  rewrite (Hm _ _ E). auto.
Qed.

Lemma isPrime_loop_mono lf lf' n i b :
  (lf <= lf')%nat -> isPrime_loop lf n i = Some b -> isPrime_loop lf' n i = Some b.
Proof.
  revert lf' i. induction lf as [|lf IH]; intros lf' i Hle H; [discriminate|].
  destruct lf' as [|lf']; [lia|]. simpl in *.
  destruct (i * i <=? n); [|exact H].
  destruct (rem_is_zero n i || rem_is_zero n (i + 2)); [exact H|].
  apply IH; [lia | exact H].
Qed.

Lemma isPrime_mono lf lf' n :
  (lf <= lf')%nat -> extends (isPrime lf n) (isPrime lf' n).
Proof.
  intros Hle calc r. unfold isPrime.
  destruct (primeCache calc !! n); [auto|].
  destruct (n <=? 1); [auto|]. destruct (n <=? 3); [auto|].
  destruct (rem_is_zero n 2 || rem_is_zero n 3); [auto|].
  destruct (isPrime_loop lf n 5) as [b|] eqn:E; [|discriminate].
  rewrite (isPrime_loop_mono _ _ _ _ _ Hle E). auto.
Qed.

Lemma generateNextPrime_loop_mono k k' lf lf' c :
  (k <= k')%nat -> (lf <= lf')%nat ->
  extends (generateNextPrime_loop k lf c) (generateNextPrime_loop k' lf' c).
Proof.
  revert k' c. induction k as [|k IH]; intros k' c Hk Hlf calc r H; [discriminate|].
  destruct k' as [|k']; [lia|]. cbn [generateNextPrime_loop] in *.
  destruct (isPrime lf c calc) as [[b calc1]|] eqn:E; [|discriminate].
  rewrite (isPrime_mono _ _ _ Hlf _ _ E).
  destruct b; [exact H|]. eapply IH; [| |exact H]; lia.
Qed.

Lemma getNthPrime_mono lf lf' n :
  (lf <= lf')%nat -> extends (getNthPrime lf n) (getNthPrime lf' n).
Proof.
  intros Hle calc r. unfold getNthPrime, generateNextPrime.
  assert (Hg : forall q, generateNextPrime_loop lf lf (JS.to_double (q + 1)) calc = Some r ->
                         generateNextPrime_loop lf' lf' (JS.to_double (q + 1)) calc = Some r)
    by (intros q; apply generateNextPrime_loop_mono; lia).
  destruct (primes calc !! n) as [p|]; [destruct (p =? 0)|];
    destruct (last (primes calc)); auto.
Qed.

Lemma factorize_strip_mono lf lf' p n fs r :
  (lf <= lf')%nat -> factorize_strip lf p n fs = Some r ->
  factorize_strip lf' p n fs = Some r.
Proof.
  revert lf' n fs. induction lf as [|lf IH]; intros lf' n fs Hle H; [discriminate|].
  destruct lf' as [|lf']; [lia|]. simpl in *.
  destruct (rem_is_zero n p); [|exact H]. apply IH; [lia|exact H].
Qed.

Lemma factorize_loop_mono lf lf' ps n fs r :
  (lf <= lf')%nat -> factorize_loop lf ps n fs = Some r ->
  factorize_loop lf' ps n fs = Some r.
Proof.
  intros Hle. revert n fs. induction ps as [|p ps IH]; intros n fs H; [exact H|].
  simpl in *.
  destruct (factorize_strip lf p n fs) as [[n1 fs1]|] eqn:E; [|discriminate].
  rewrite (factorize_strip_mono _ _ _ _ _ _ Hle E).
  destruct (p * p >? n1); [exact H|]. destruct (n1 =? 1); [exact H|]. auto.
Qed.

Lemma factorize_mono lf lf' n calc r :
  (lf <= lf')%nat -> factorize lf n calc = Some r -> factorize lf' n calc = Some r.
Proof.
  intros Hle. unfold factorize.
  destruct (factorize_loop lf (primes calc) n []) as [[n1 fs1]|] eqn:E; [|discriminate].
  rewrite (factorize_loop_mono _ _ _ _ _ _ Hle E). auto.
Qed.

(** ** The sieve of the default calculator                                 *)

Lemma default_primes_eq : default_primes = generatePrimes 1000.
Proof. vm_compute. reflexivity. Qed.

Lemma default_primes_length : length default_primes = 168%nat.
Proof. reflexivity. Qed.

Lemma default_primes_last : last default_primes = Some 997.
Proof. reflexivity. Qed.

Lemma no_divisor_spec k d p :
  0 < d -> (no_divisor k d p = true <-> forall x, d <= x < d + Z.of_nat k -> ~ (x | p)).
Proof.
  revert d. induction k as [|k IH]; intros d Hd; simpl.
  - split; [intros _ x Hx; lia | reflexivity].
  - destruct (p mod d =? 0) eqn:E.
    + split; [discriminate|]. intros H. exfalso. apply (H d); [lia|].
      apply Z.mod_divide; lia.
    + rewrite IH by lia. split; intros H x Hx.
      * destruct (Z.eq_dec x d) as [->|Hne].
        -- intros Hdiv. apply Z.mod_divide in Hdiv; lia.
        -- apply H. lia.
      * apply H. lia.
Qed.

Lemma primeb_spec p : primeb p = true <-> Z.prime p.
Proof.
  unfold primeb, Z.prime.
  destruct (1 <? p) eqn:E.
  - rewrite no_divisor_spec by lia. split.
    + intros H. split; [lia|]. intros n Hn. apply H. lia.
    + intros [_ H] x Hx. apply H. lia.
  - split; [discriminate|]. intros [H _]. lia.
Qed.

Lemma primeb_prime p : primeb p = true -> Z.prime p.
Proof. apply primeb_spec. Qed.

Lemma prime_primeb p : Z.prime p -> primeb p = true.
Proof. apply primeb_spec. Qed.

Lemma default_primes_are_primes : Forall Z.prime default_primes.
Proof.
  assert (H : forallb primeb default_primes = true) by (vm_compute; reflexivity).
  rewrite forallb_forall in H.
  apply List.Forall_forall. intros p Hp. apply primeb_prime, H, Hp.
Qed.

(** *** C5: indices beyond the sieve *)

Lemma generateNextPrime_default lf :
  (12 <= lf)%nat ->
  generateNextPrime lf 997 default_PrimeCalculator
  = Some (1009, {| primes := default_primes; primeCache := {[ 1009 := true ]} |}).
Proof.
  intros Hle. unfold generateNextPrime.
  apply (generateNextPrime_loop_mono 12 lf 12 lf); [lia..|].
  vm_compute. reflexivity.
Qed.

(** C5 (a defect of [getNthPrime]): for every index [n >= 168], that
    is beyond the 168 primes of the sieve, [getNthPrime n] is 1009: the
    search is restarted from the last sieve prime whatever [n] is, and the
    prime found is memoized by [isPrime] but never appended to [primes].
    1009 is the prime of index 168; the prime of index 169 is 1013. *)
Theorem getNthPrime_beyond_sieve :
  forall lf n, (12 <= lf)%nat -> (168 <= n)%nat ->
    getNthPrime lf n default_PrimeCalculator
    = Some (1009, {| primes := default_primes; primeCache := {[ 1009 := true ]} |})
    /\ is_nth_prime 168 1009 /\ is_nth_prime 169 1013.
Proof.
  intros lf n Hlf Hn. split; [|split].
  - unfold getNthPrime. cbn [primes default_PrimeCalculator].
    rewrite (proj2 (lookup_ge_None default_primes n))
      by (rewrite default_primes_length; lia).
    rewrite default_primes_last. apply (generateNextPrime_default lf Hlf).
  - split; [apply primeb_prime|]; vm_compute; reflexivity.
  - split; [apply primeb_prime|]; vm_compute; reflexivity.
Qed.

Lemma getNthPrime_beyond_sieve_witness :
  getNthPrime 12 169 default_PrimeCalculator
  = Some (1009, {| primes := default_primes; primeCache := {[ 1009 := true ]} |})
  /\ is_nth_prime 168 1009 /\ is_nth_prime 169 1013.
Proof. apply (getNthPrime_beyond_sieve 12 169); lia. Defined.

(** ** Trial division                                                      *)

Lemma no_primes_spec k lo :
  no_primes k lo = true -> forall d, lo <= d < lo + Z.of_nat k -> primeb d = false.
Proof.
  revert lo. induction k as [|k IH]; intros lo H d Hd; [lia|].
  simpl in H. destruct (primeb lo) eqn:E; [discriminate|].
  destruct (Z.eq_dec d lo) as [->|Hne]; [exact E|].
  apply (IH (lo + 1) H). lia.
Qed.

Lemma primes_betweenb_spec ps : forall lo hi,
  primes_betweenb lo ps hi = true -> primes_between lo ps hi.
Proof.
  induction ps as [|p ps IH]; intros lo hi H; simpl in *.
  - apply andb_prop in H as [H1 H]. split; [lia|].
    intros d Hd. apply (no_primes_spec _ _ H). lia.
  - repeat (apply andb_prop in H as [H ?]).
    repeat split; [lia | assumption | | apply IH; assumption].
    intros d Hd. eapply no_primes_spec; [eassumption | lia].
Qed.

Lemma default_primes_between : primes_between 2 default_primes 1009.
Proof. apply primes_betweenb_spec. vm_compute. reflexivity. Qed.

Lemma no_divisor_false k s d :
  0 < s -> no_divisor k s d = false -> exists e, s <= e < s + Z.of_nat k /\ (e | d).
Proof.
  revert s. induction k as [|k IH]; intros s Hs H; [discriminate|].
  simpl in H. destruct (d mod s =? 0) eqn:E.
  - exists s. split; [lia|]. apply Z.mod_divide; lia.
  - destruct (IH (s + 1)) as (e & He & Hdiv); [lia | exact H |].
    exists e. split; [lia | exact Hdiv].
Qed.

Lemma composite_divisor d :
  1 < d -> primeb d = false -> exists e, 1 < e < d /\ (e | d).
Proof.
  intros Hd H. unfold primeb in H.
  destruct (1 <? d) eqn:E; [|lia].
  apply no_divisor_false in H as (e & He & Hdiv); [|lia].
  exists e. split; [lia | exact Hdiv].
Qed.

Lemma exists_prime_divisor n : 1 < n -> exists p, Z.prime p /\ (p | n).
Proof.
  intros Hn. assert (H0 : 0 <= n) by lia. revert Hn.
  pattern n. apply Z_lt_induction; [|exact H0]. clear n H0.
  intros n IH H1.
  destruct (primeb n) eqn:E.
  - exists n. split; [apply primeb_prime, E | apply Z.divide_refl].
  - destruct (composite_divisor n H1 E) as (e & He & Hdiv).
    destruct (IH e) as (p & Hp & Hpe); [lia | lia |].
    exists p. split; [exact Hp | eapply Z.divide_trans; eassumption].
Qed.

(** Roughness extends over a gap without primes. *)
Lemma rough_gap b b' r :
  rough b r -> (forall d, b <= d < b' -> primeb d = false) -> rough b' r.
Proof.
  intros Hr Hgap d Hd.
  assert (H0 : 0 <= d) by lia. revert Hd.
  pattern d. apply Z_lt_induction; [|exact H0]. clear d H0.
  intros d IH Hd Hdiv.
  destruct (Z_lt_le_dec d b) as [Hlt|Hge]; [apply (Hr d); [lia | exact Hdiv]|].
  destruct (composite_divisor d) as (e & He & Hed); [lia | apply Hgap; lia |].
  apply (IH e); [lia | lia | eapply Z.divide_trans; eassumption].
Qed.

Lemma rough_divisor b r r' : rough b r -> (r' | r) -> rough b r'.
Proof.
  intros Hr Hdiv d Hd Hd'. apply (Hr d Hd). eapply Z.divide_trans; eassumption.
Qed.

Lemma rough_ge b r : 1 < r -> rough b r -> b <= r.
Proof.
  intros Hr H. destruct (Z_lt_le_dec r b) as [Hlt|]; [|assumption].
  exfalso. apply (H r); [lia | apply Z.divide_refl].
Qed.

(** What is left after trial division up to its square root is prime. *)
Lemma rough_sqrt_prime b r :
  1 <= b -> 1 < r -> rough b r -> r < (b - 1) * (b - 1) -> Z.prime r.
Proof.
  intros Hb Hr Hrough Hsq. split; [exact Hr|].
  intros d Hd [q Hq].
  assert (Hq1 : 1 < q) by nia.
  destruct (Z_lt_le_dec d b) as [Hlt|Hge].
  - apply (Hrough d); [lia | exists q; exact Hq].
  - destruct (Z_lt_le_dec q b) as [Hlt'|Hge'].
    + apply (Hrough q); [lia | exists d; lia].
    + nia.
Qed.

(** Beyond the table, what is left is prime unless two large primes
    divide the input. *)
Lemma rough_no_two_large b r :
  1 < r -> rough b r ->
  (forall p q, Z.prime p -> Z.prime q -> b <= p -> b <= q -> ~ (p * q | r)) ->
  Z.prime r.
Proof.
  intros Hr Hrough Htwo.
  destruct (exists_prime_divisor r Hr) as (p & Hp & [m Hm]).
  assert (Hpb : b <= p).
  { pose proof (Z.prime_ge_2 p Hp). destruct (Z_lt_le_dec p b); [|assumption].
    exfalso. apply (Hrough p); [lia | exists m; exact Hm]. }
  assert (Hm1 : 1 <= m) by (pose proof (Z.prime_ge_2 p Hp); nia).
  destruct (Z.eq_dec m 1) as [->|Hne]; [replace r with p by lia; exact Hp|].
  exfalso.
  destruct (exists_prime_divisor m) as (q & Hq & [k Hk]); [lia|].
  assert (Hqb : b <= q).
  { pose proof (Z.prime_ge_2 q Hq). destruct (Z_lt_le_dec q b); [|assumption].
    exfalso. apply (Hrough q); [lia | exists (k * p); lia]. }
  apply (Htwo p q Hp Hq Hpb Hqb). exists k. lia.
Qed.

Lemma primes_between_le ps : forall lo hi, primes_between lo ps hi -> lo <= hi.
Proof.
  induction ps as [|p ps IH]; intros lo hi H; simpl in H.
  - apply H.
  - destruct H as (H1 & _ & _ & H4). apply IH in H4. lia.
Qed.

Lemma filter_none {A} (P : A -> Prop) `{forall x, Decision (P x)} (l : list A) :
  Forall (fun x => ~ P x) l -> filter P l = [].
Proof.
  induction 1 as [|x l Hx _ IH]; [reflexivity|].
  rewrite filter_cons_False by exact Hx. exact IH.
Qed.

Lemma filter_primeb_gap lo n :
  (forall d, lo <= d < lo + n -> primeb d = false) ->
  filter (fun d => primeb d = true) (seqZ lo n) = [].
Proof.
  intros Hgap. apply filter_none. apply Forall_lookup_2. intros i d Hi.
  apply lookup_seqZ in Hi as [-> Hi]. rewrite Hgap by lia. discriminate.
Qed.

(** The primes of an interval, as a filter of the interval. *)
Lemma primes_between_filter ps : forall lo hi,
  primes_between lo ps hi ->
  filter (fun d => primeb d = true) (seqZ lo (hi - lo)) = ps.
Proof.
  induction ps as [|p ps IH]; intros lo hi H; simpl in H.
  - destruct H as [Hle Hgap]. apply filter_primeb_gap. intros d Hd. apply Hgap. lia.
  - destruct H as (Hlo & Hp & Hgap & Hrest).
    pose proof (primes_between_le _ _ _ Hrest) as Hhi.
    replace (hi - lo) with ((p - lo) + (hi - p)) by lia.
    rewrite seqZ_app, filter_app by lia.
    rewrite filter_primeb_gap by (intros d Hd; apply Hgap; lia).
    replace (lo + (p - lo)) with p by lia.
    rewrite (seqZ_cons p) by lia. rewrite filter_cons_True by exact Hp.
    simpl. f_equal.
    replace (Z.succ p) with (p + 1) by lia.
    replace (Z.pred (hi - p)) with (hi - (p + 1)) by lia.
    apply IH, Hrest.
Qed.

Lemma primes_between_take ps : forall lo hi k p,
  primes_between lo ps hi -> ps !! k = Some p ->
  primes_between lo (take k ps) p.
Proof.
  induction ps as [|q ps IH]; intros lo hi k p H Hk; [discriminate|].
  simpl in H. destruct H as (Hlo & Hq & Hgap & Hrest).
  destruct k as [|k]; simpl in *.
  - injection Hk as <-. split; [exact Hlo | exact Hgap].
  - repeat split; try assumption. eapply IH; eassumption.
Qed.

(** Inside the sieve the table is right: the entry of index [k] is the
    prime of rank [k]. *)
Lemma default_primes_ranks k p :
  default_primes !! k = Some p -> is_nth_prime k p.
Proof.
  intros Hk. split.
  - pose proof default_primes_are_primes as Hall.
    rewrite List.Forall_forall in Hall.
    apply Hall, list_elem_of_In. eapply list_elem_of_lookup_2, Hk.
  - unfold count_primes_below.
    rewrite (primes_between_filter _ _ _
               (primes_between_take _ _ _ _ _ default_primes_between Hk)).
    rewrite length_take. apply lookup_lt_Some in Hk. lia.
Qed.

Lemma product_app l1 l2 : product (l1 ++ l2) = product l1 * product l2.
Proof.
  induction l1 as [|x l1 IH]; simpl; [destruct (product l2); reflexivity|].
  fold (product (l1 ++ l2)). fold (product l1). rewrite IH. ring.
Qed.

Lemma product_replicate_pos p k : 1 <= p -> 1 <= product (replicate k p).
Proof.
  intros Hp. induction k as [|k IH]; simpl; [lia|].
  fold (product (replicate k p)). nia.
Qed.

Lemma StronglySorted_replicate_app p k l :
  StronglySorted Z.le l -> Forall (fun q => p <= q) l ->
  StronglySorted Z.le (replicate k p ++ l).
Proof.
  intros Hl Hp. induction k as [|k IH]; simpl; [exact Hl|].
  constructor; [exact IH|].
  apply Forall_app. split; [apply Forall_replicate; lia | exact Hp].
Qed.

Lemma StronglySorted_snoc_le l x :
  StronglySorted Z.le l -> Forall (fun q => q <= x) l ->
  StronglySorted Z.le (l ++ [x]).
Proof.
  induction 1 as [|y l Hl IH Hy]; intros Hx; simpl.
  - repeat constructor.
  - apply Forall_cons in Hx as [Hyx Hx]. constructor; [apply IH, Hx|].
    apply Forall_app. split; [exact Hy | repeat constructor; exact Hyx].
Qed.

Lemma rem_is_zero_divide r p : p <> 0 -> rem_is_zero r p = true <-> (p | r).
Proof.
  intros Hp. unfold rem_is_zero.
  destruct (Z.eqb_spec p 0) as [|_]; [contradiction|]. simpl.
  rewrite Z.eqb_eq. apply Z.rem_divide. exact Hp.
Qed.

Lemma log2_quotient q r : 1 <= q -> 2 * q <= r -> Z.log2 q < Z.log2 r.
Proof.
  intros Hq Hr. pose proof (Z.log2_le_mono (2 * q) r Hr) as H.
  rewrite Z.log2_double in H by lia. lia.
Qed.

(** The [while] loop strips all the powers of [p]. *)
Lemma factorize_strip_spec lf p : 2 <= p -> forall r fs,
  1 <= r -> Z.log2 r < Z.of_nat lf ->
  exists k r', factorize_strip lf p r fs = Some (r', fs ++ replicate k p)
               /\ r = product (replicate k p) * r' /\ 1 <= r' /\ ~ (p | r').
Proof.
  intros Hp. induction lf as [|lf IH]; intros r fs Hr Hlog.
  - pose proof (Z.log2_nonneg r). lia.
  - simpl. destruct (rem_is_zero r p) eqn:E.
    + apply rem_is_zero_divide in E as [q Hq]; [|lia].
      assert (Hquot : Z.quot r p = q) by (subst r; apply Z.quot_mul; lia).
      rewrite Hquot.
      assert (Hq1 : 1 <= q) by nia.
      destruct (IH q (fs ++ [p]) Hq1) as (k & r' & Hs & Hprod & Hr' & Hnd).
      { pose proof (log2_quotient q r Hq1). nia. }
      exists (S k), r'. rewrite Hs. simpl. fold (product (replicate k p)).
      rewrite <- app_assoc. simpl. repeat split; [nia | lia | exact Hnd].
    + exists O, r. simpl. rewrite app_nil_r.
      repeat split; [destruct r; reflexivity | lia |].
      intros Hdiv. apply rem_is_zero_divide in Hdiv; [congruence | lia].
Qed.

(** The loop over the table: the factors found so far, and what is known
    of the remainder when the loop stops. *)
Lemma factorize_loop_spec lf hi ps : forall lo r fs,
  2 <= lo -> primes_between lo ps hi -> 1 <= r -> rough lo r ->
  Z.log2 r < Z.of_nat lf ->
  exists r' fs', factorize_loop lf ps r fs = Some (r', fs ++ fs')
    /\ Forall Z.prime fs' /\ Forall (fun q => lo <= q) fs'
    /\ StronglySorted Z.le fs' /\ r = product fs' * r' /\ 1 <= r'
    /\ (r' = 1 \/ (Z.prime r' /\ Forall (fun q => q < r') fs')
        \/ (rough hi r' /\ Forall (fun q => q < hi) fs')).
Proof.
  induction ps as [|p ps IH]; intros lo r fs Hlo Hps Hr Hrough Hlog; simpl in *.
  - exists r, []. rewrite app_nil_r.
    repeat split; [constructor.. | destruct r; reflexivity | exact Hr |].
    right; right. split; [|constructor].
    apply (rough_gap lo); [exact Hrough | apply Hps].
  - destruct Hps as (Hlop & Hpp & Hgap & Hrest).
    pose proof (primes_between_le _ _ _ Hrest) as Hphi.
    apply primeb_prime in Hpp.
    destruct (factorize_strip_spec lf p ltac:(lia) r fs Hr Hlog)
      as (k & r1 & -> & Hprod & Hr1 & Hnd).
    pose proof (product_replicate_pos p k ltac:(lia)) as Hpos.
    assert (Hrough1 : rough (p + 1) r1).
    { intros d Hd Hdiv. destruct (Z.eq_dec d p) as [->|Hne]; [exact (Hnd Hdiv)|].
      apply (rough_gap lo p r Hrough Hgap d); [lia|].
      rewrite Hprod. apply Z.divide_mul_r. exact Hdiv. }
    assert (Hreps : Forall Z.prime (replicate k p) /\ Forall (fun q => lo <= q) (replicate k p)
                    /\ StronglySorted Z.le (replicate k p)).
    { repeat split; [apply Forall_replicate; auto..|].
      rewrite <- (app_nil_r (replicate k p)).
      apply StronglySorted_replicate_app; constructor. }
    destruct Hreps as (Hrp & Hrl & Hrs).
    assert (Hstop : p * p > r1 \/ r1 = 1 ->
      r1 = 1 \/ (Z.prime r1 /\ Forall (fun q => q < r1) (replicate k p))
      \/ (rough hi r1 /\ Forall (fun q => q < hi) (replicate k p))).
    { intros Hc. destruct (Z.eq_dec r1 1) as [|Hne]; [left; assumption|].
      right; left. destruct Hc as [Hc|]; [|contradiction]. split.
      - apply (rough_sqrt_prime (p + 1)); [lia | lia | exact Hrough1 |].
        replace (p + 1 - 1) with p by lia. lia.
      - apply Forall_replicate.
        pose proof (rough_ge (p + 1) r1 ltac:(lia) Hrough1). lia. }
    destruct (Z.gtb_spec (p * p) r1) as [Hgt|Hle].
    { exists r1, (replicate k p). repeat split; auto; apply Hstop; lia. }
    destruct (Z.eqb_spec r1 1) as [Heq|Hne].
    { exists r1, (replicate k p). repeat split; auto. }
    destruct (IH (p + 1) r1 (fs ++ replicate k p)) as
      (r' & fs' & -> & Hfp & Hfl & Hfs & Hfprod & Hr' & Hcase);
      [lia | exact Hrest | exact Hr1 | exact Hrough1 | |].
    { assert (r1 <= r) by nia. pose proof (Z.log2_le_mono r1 r). lia. }
    exists r', (replicate k p ++ fs'). rewrite app_assoc.
    repeat split.
    + apply Forall_app; auto.
    + apply Forall_app. split; [exact Hrl|].
      eapply Forall_impl; [exact Hfl|]. simpl. intros; lia.
    + apply StronglySorted_replicate_app; [exact Hfs|].
      eapply Forall_impl; [exact Hfl|]. simpl. intros; lia.
    + rewrite product_app. nia.
    + exact Hr'.
    + destruct Hcase as [H1|[[Hpr Hlt]|[Hro Hlt]]]; [left; exact H1 | |].
      * right; left. split; [exact Hpr|]. apply Forall_app. split; [|exact Hlt].
        apply Forall_replicate.
        assert (Hdiv : (r' | r1)) by (exists (product fs'); lia).
        pose proof (rough_ge (p + 1) r' (proj1 Hpr) (rough_divisor _ _ _ Hrough1 Hdiv)).
        lia.
      * right; right. split; [exact Hro|]. apply Forall_app. split; [|exact Hlt].
        apply Forall_replicate. lia.
Qed.

Lemma prime_above_table p : Z.prime p -> 997 < p -> 1009 <= p.
Proof.
  intros Hp Hlt. destruct (Z_lt_le_dec p 1009) as [Hlt'|]; [|assumption].
  exfalso. apply prime_primeb in Hp.
  assert (H : no_primes 11 998 = true) by (vm_compute; reflexivity).
  rewrite (no_primes_spec _ _ H p) in Hp by lia. discriminate.
Qed.

Lemma no_two_large_small n : 1 <= n < 1009 * 1009 -> no_two_large n.
Proof.
  intros Hn p q Hp Hq Hp' Hq' Hdiv.
  apply prime_above_table in Hp'; [|exact Hp].
  apply prime_above_table in Hq'; [|exact Hq].
  apply Z.divide_pos_le in Hdiv; [nia | lia].
Qed.

Lemma no_two_large_divisor n m : no_two_large n -> (m | n) -> no_two_large m.
Proof.
  intros H Hdiv p q Hp Hq Hp' Hq' Hpq.
  apply (H p q Hp Hq Hp' Hq'). eapply Z.divide_trans; eassumption.
Qed.

Lemma product_primes_pos l : Forall Z.prime l -> 1 <= product l.
Proof.
  induction 1 as [|x l Hx _ IH]; simpl; [lia|].
  fold (product l). apply Z.prime_ge_2 in Hx. nia.
Qed.

Lemma product_primes_1 l : Forall Z.prime l -> product l = 1 -> l = [].
Proof.
  intros Hl. destruct Hl as [|x l Hx Hl]; [reflexivity|]. simpl.
  fold (product l). apply Z.prime_ge_2 in Hx.
  pose proof (product_primes_pos l Hl). nia.
Qed.

(** *** C6: what [factorize] computes *)

(** Trial division against the table of the sieve is correct on the inputs
    that no two primes above the table divide. *)
Lemma factorize_sorted_primes :
  forall (lf : nat) (n : Z) (calc : PrimeCalculator),
    primes calc = default_primes ->
    1 <= n -> no_two_large n -> Z.log2 n < Z.of_nat lf ->
    exists l,
      factorize lf n calc = Some l
      /\ StronglySorted Z.le l /\ Forall Z.prime l /\ product l = n.
Proof.
  intros lf n calc Hcalc Hn Htwo Hlog.
  destruct (factorize_loop_spec lf 1009 default_primes 2 n [])
    as (r' & fs' & Hloop & Hfp & _ & Hfs & Hprod & Hr' & Hcase);
    [lia | exact default_primes_between | exact Hn | intros d Hd; lia | exact Hlog |].
  unfold factorize. rewrite Hcalc, Hloop. simpl app.
  destruct (Z.gtb_spec r' 1) as [Hgt|Hle].
  - assert (Hpr : Z.prime r' /\ Forall (fun q => q <= r') fs').
    { destruct Hcase as [H1|[[Hpr Hlt]|[Hro Hlt]]]; [lia| |].
      - split; [exact Hpr|]. eapply Forall_impl; [exact Hlt|]. simpl; intros; lia.
      - assert (Hdiv : (r' | n)) by (exists (product fs'); lia).
        assert (Hp : Z.prime r').
        { apply (rough_no_two_large 1009); [lia | exact Hro |].
          intros p q Hp Hq Hp' Hq'.
          apply (no_two_large_divisor n r' Htwo Hdiv p q Hp Hq); lia. }
        split; [exact Hp|].
        pose proof (rough_ge 1009 r' ltac:(lia) Hro).
        eapply Forall_impl; [exact Hlt|]. simpl; intros; lia. }
    destruct Hpr as [Hpr Hle]. exists (fs' ++ [r']). repeat split.
    + apply StronglySorted_snoc_le; assumption.
    + apply Forall_app. split; [exact Hfp | constructor; [exact Hpr | constructor]].
    + rewrite product_app. simpl. lia.
  - exists fs'. repeat split; [exact Hfs | exact Hfp | nia].
Qed.

(** C6, as amended: for every [n >= 1] that is not divisible by the product
    of two primes above 997, [factorize n] returns the ascending sequence of
    the prime factors of [n] with multiplicity (the empty sequence for
    [n = 1]), for every loop budget above [log2 n]. The table of primes is
    the fixed one of the sieve; it is never extended. *)
Theorem factorize_trial_division :
  forall (lf : nat) (n : Z) (cache : gmap Z bool),
    1 <= n -> no_two_large n -> Z.log2 n < Z.of_nat lf ->
    exists l,
      factorize lf n {| primes := default_primes; primeCache := cache |} = Some l
      /\ Sorted Z.le l /\ Forall Z.prime l /\ product l = n
      /\ (n = 1 -> l = []).
Proof.
  intros lf n cache Hn Htwo Hlog.
  destruct (factorize_sorted_primes lf n {| primes := default_primes; primeCache := cache |})
    as (l & Hf & Hs & Hp & Hprod); [reflexivity | assumption..|].
  exists l. split; [exact Hf|]. split; [apply StronglySorted_Sorted, Hs|].
  split; [exact Hp|]. split; [exact Hprod|].
  intros ->. apply product_primes_1; assumption.
Qed.

Lemma factorize_trial_division_witness :
  exists l, factorize 9 360 default_PrimeCalculator = Some l
            /\ Sorted Z.le l /\ Forall Z.prime l /\ product l = 360
            /\ (360 = 1 -> l = []).
Proof.
  apply (factorize_trial_division 9 360 ∅);
    [lia | apply no_two_large_small; lia | vm_compute; reflexivity].
Defined.

(** C6, as stated, fails: 1022117 = 1009 * 1013 is returned as its own single
    factor, and the negative number -4 does not give the empty sequence. *)
Lemma factorize_counterexample :
  factorize 64 1022117 default_PrimeCalculator = Some [1022117]
  /\ 1022117 = 1009 * 1013 /\ ~ Z.prime 1022117
  /\ factorize 64 (-4) default_PrimeCalculator = Some [2; 2].
Proof.
  split; [vm_compute; reflexivity|].
  split; [reflexivity|].
  split; [|vm_compute; reflexivity].
  intros [_ H]. apply (H 1009); [lia | exists 1013; reflexivity].
Qed.

(** [factorize(0)] never returns: [0 % 2 === 0] holds forever. *)
Lemma factorize_zero_diverges lf : factorize lf 0 default_PrimeCalculator = None.
Proof.
  assert (H : forall fs, factorize_strip lf 2 0 fs = None).
  { induction lf as [|lf IH]; intros fs; [reflexivity | simpl; apply IH]. }
  unfold factorize. change (primes default_PrimeCalculator) with default_primes.
  unfold default_primes. cbn [factorize_loop]. rewrite H. reflexivity.
Qed.

(** For [n = 1] and for the odd negative numbers the result is empty. *)
Lemma factorize_odd_below_2 lf n :
  (1 <= lf)%nat -> n <= 1 -> Z.odd n = true ->
  factorize lf n default_PrimeCalculator = Some [].
Proof.
  intros Hlf Hn Hodd. destruct lf as [|lf]; [lia|].
  unfold factorize. change (primes default_PrimeCalculator) with default_primes.
  unfold default_primes. cbn [factorize_loop factorize_strip].
  assert (Hr : rem_is_zero n 2 = false).
  { unfold rem_is_zero. simpl. rewrite Zrem_odd, Hodd.
    destruct n; simpl in *; try reflexivity; discriminate. }
  rewrite Hr.
  destruct (Z.gtb_spec (2 * 2) n); [|lia].
  destruct (Z.gtb_spec n 1); [lia | reflexivity].
Qed.

(** ** Budgets of the encoder, the knowledge base and the reasoner         *)

Ltac extends_step :=
  first
    [ solve [auto]
    | apply extends_refl
    | apply extends_on_encoder
    | apply extends_bind; [|intros ?]
    | match goal with
      | |- extends (if ?b then _ else _) (if ?b then _ else _) => destruct b
      | |- extends (match ?x with _ => _ end) (match ?x with _ => _ end) => destruct x
      end ].

Ltac extends_tac := repeat extends_step.

Section BudgetMonotone.

Import ConceptEncoder KnowledgeBase ReasoningEngine.

Variables lf lf' : nat.
Hypothesis Hlf : (lf <= lf')%nat.

Lemma getPrime_mono c : extends (getPrime lf c) (getPrime lf' c).
Proof.
  intros e r. unfold getPrime.
  destruct (conceptToPrime e !! JS.toLowerCase c); [auto|].
  destruct (getNthPrime lf (nextPrimeIndex e) (primeCalc e)) as [[p calc]|] eqn:E;
    [|discriminate].
  rewrite (getNthPrime_mono _ _ _ Hlf _ _ E). auto.
Qed.

Lemma encodeFact_mono f : extends (encodeFact lf f) (encodeFact lf' f).
Proof. unfold encodeFact. pose proof getPrime_mono. extends_tac; auto. Qed.

Lemma encodeFacts_mono fs : extends (encodeFacts lf fs) (encodeFacts lf' fs).
Proof.
  induction fs as [|f fs IH]; simpl; [apply extends_refl|].
  pose proof encodeFact_mono. extends_tac; auto.
Qed.

Lemma encodeRule_mono r : extends (encodeRule lf r) (encodeRule lf' r).
Proof.
  unfold encodeRule.
  pose proof encodeFact_mono. pose proof encodeFacts_mono. pose proof getPrime_mono.
  destruct (type r); extends_tac; auto.
Qed.

Lemma decodeFact_mono n : extends (decodeFact lf n) (decodeFact lf' n).
Proof.
  intros e r. unfold decodeFact.
  destruct (factorize lf n (primeCalc e)) as [l|] eqn:E; [|discriminate].
  rewrite (factorize_mono _ _ _ _ _ Hlf E). auto.
Qed.

Lemma addFact_mono f : extends (addFact lf f) (addFact lf' f).
Proof. unfold addFact. pose proof encodeFact_mono. extends_tac; auto. Qed.

Lemma addRule_mono r : extends (addRule lf r) (addRule lf' r).
Proof. unfold addRule. pose proof encodeRule_mono. extends_tac; auto. Qed.

Section Body.

Variables rec rec' : Fact -> M ELLM Result.
Hypothesis Hrec : forall f, extends (rec f) (rec' f).

Lemma quantified_pass_mono rs q :
  extends (quantified_pass rec rs q) (quantified_pass rec' rs q).
Proof.
  induction rs as [|r rs IH]; simpl; [apply extends_refl|].
  destruct r; [|exact IH]. extends_tac; auto.
Qed.

Lemma conditions_loop_mono cs ex :
  extends (conditions_loop lf rec cs ex) (conditions_loop lf' rec' cs ex).
Proof.
  revert ex. induction cs as [|c cs IH]; intros ex; simpl; [apply extends_refl|].
  pose proof decodeFact_mono. extends_tac; auto.
Qed.

Lemma standard_pass_mono rs q n :
  extends (standard_pass lf rec rs q n) (standard_pass lf' rec' rs q n).
Proof.
  induction rs as [|r rs IH]; simpl; [apply extends_refl|].
  pose proof conditions_loop_mono. destruct r; [exact IH|]. extends_tac; auto.
Qed.

Lemma transitive_loop_mono fs q :
  extends (transitive_loop rec fs q) (transitive_loop rec' fs q).
Proof.
  induction fs as [|f fs IH]; simpl; [apply extends_refl|]. extends_tac; auto.
Qed.

Lemma deduce_body_mono q :
  extends (deduce_body lf rec q) (deduce_body lf' rec' q).
Proof.
  unfold deduce_body, tryTransitiveReasoning.
  pose proof encodeFact_mono. pose proof quantified_pass_mono.
  pose proof standard_pass_mono. pose proof transitive_loop_mono.
  extends_tac; auto.
Qed.

End Body.

Lemma _deduce_mono fuel : forall fuel' q, (fuel <= fuel')%nat ->
  extends (_deduce lf fuel q) (_deduce lf' fuel' q).
Proof.
  induction fuel as [|fuel IH]; intros fuel' q Hle; [intros s r H; discriminate|].
  destruct fuel' as [|fuel']; [lia|]. simpl.
  apply deduce_body_mono. intros f. apply IH. lia.
Qed.

Lemma deduce_mono fuel fuel' q : (fuel <= fuel')%nat ->
  extends (deduce lf fuel q) (deduce lf' fuel' q).
Proof.
  intros Hle. unfold deduce. apply extends_bind; [apply extends_refl|].
  intros _. apply _deduce_mono, Hle.
Qed.

Lemma learn_loop_mono ss acc :
  extends (ELLM.learn_loop lf ss acc) (ELLM.learn_loop lf' ss acc).
Proof.
  revert acc. induction ss as [|s ss IH]; intros acc; simpl; [apply extends_refl|].
  pose proof addRule_mono. pose proof addFact_mono. extends_tac; auto.
Qed.

Lemma learn_mono text : extends (ELLM.learn lf text) (ELLM.learn lf' text).
Proof. apply learn_loop_mono. Qed.

End BudgetMonotone.

Lemma extends_fst {S A} (m m' : M S A) s a :
  extends m m' -> fst <$> m s = Some a -> fst <$> m' s = Some a.
Proof.
  intros Hm H. destruct (m s) as [[a' s']|] eqn:E; [|discriminate].
  rewrite (Hm _ _ E). exact H.
Qed.

Lemma extends_snd {S A} (m m' : M S A) s s1 :
  extends m m' -> snd <$> m s = Some s1 -> snd <$> m' s = Some s1.
Proof.
  intros Hm H. destruct (m s) as [[a' s']|] eqn:E; [|discriminate].
  rewrite (Hm _ _ E). exact H.
Qed.

(** ** Worked scenarios                                                    *)

Lemma ELLM_new_any lf : ELLM.new lf = ELLM.new 0.
Proof. reflexivity. Qed.

Lemma after_mono {A} lf lf' (setup setup' : M ELLM A) st :
  extends setup setup' -> after lf setup = Some st -> after lf' setup' = Some st.
Proof.
  unfold after. rewrite (ELLM_new_any lf), (ELLM_new_any lf').
  destruct (ELLM.new 0); [|discriminate]. apply extends_snd.
Qed.

Lemma part_of_setup_mono lf lf' :
  (lf <= lf')%nat -> extends (Scenario.part_of_setup lf) (Scenario.part_of_setup lf').
Proof.
  intros H. unfold Scenario.part_of_setup.
  pose proof (addFact_mono lf lf' H). extends_tac.
Qed.

(** C7: with exactly the facts (engine, part of, car) and (car, part of,
    transportation system) in the store, the query (engine, part of,
    transportation system) is answered [true], and the explanation chains
    the two hops through "car". *)
Theorem deduce_part_of_chain :
  forall lf fuel, (2 <= fuel)%nat ->
    exists st,
      after lf (Scenario.part_of_setup lf) = Some st
      /\ facts (kb st) = [Scenario.engine_car; Scenario.car_system]
      /\ rules (kb st) = []
      /\ fst <$> deduce lf fuel (new_Fact "engine" "part of" "transportation system") st
         = Some {| result := true;
                   explanation := "engine part of car, and Direct fact in knowledge base: car part of transportation system" |}.
Proof.
  intros lf fuel Hfuel. eexists. split; [|split; [|split]].
  - apply (after_mono 0 lf _ _ _ (part_of_setup_mono 0 lf (Nat.le_0_l lf))).
    vm_compute. reflexivity.
  - vm_compute. reflexivity.
  - vm_compute. reflexivity.
  - apply (extends_fst _ _ _ _ (deduce_mono 0 lf (Nat.le_0_l lf) 2 fuel _ Hfuel)).
    vm_compute. reflexivity.
Qed.

Lemma deduce_part_of_chain_witness :
  exists st,
    after 0 (Scenario.part_of_setup 0) = Some st
    /\ facts (kb st) = [Scenario.engine_car; Scenario.car_system]
    /\ rules (kb st) = []
    /\ fst <$> deduce 0 2 (new_Fact "engine" "part of" "transportation system") st
       = Some {| result := true;
                 explanation := "engine part of car, and Direct fact in knowledge base: car part of transportation system" |}.
Proof. apply (deduce_part_of_chain 0 2). lia. Defined.

(** ** The fresh system                                                    *)

Lemma ConceptEncoder_new lf : ConceptEncoder.new lf = Some initial_encoder.
Proof. vm_compute. reflexivity. Qed.

Lemma ELLM_new lf : ELLM.new lf = Some initial_ELLM.
Proof. vm_compute. reflexivity. Qed.

(** ** C8: sentences that match no template                                *)

Lemma rev_string_rev_string a b s :
  JS.rev_string a (JS.rev_string b s) = JS.rev_string (s +:+ a) b.
Proof.
  revert b. induction s as [|c s IH]; intros b; [reflexivity|].
  change (JS.rev_string a (JS.rev_string (String c b) s)
          = JS.rev_string (String c (s +:+ a)) b).
  rewrite IH. reflexivity.
Qed.

Lemma string_app_empty_r (s : string) : s +:+ "" = s.
Proof.
  induction s as [|c s IH]; [reflexivity|].
  change (String c (s +:+ "") = String c s). rewrite IH. reflexivity.
Qed.

Lemma split_sentences_go_no_terminator s : forall cur,
  no_terminator s = true ->
  JS.split_sentences_go false cur s = [JS.rev_string "" (JS.rev_string cur s)].
Proof.
  induction s as [|c s IH]; intros cur H; simpl in *; [reflexivity|].
  apply andb_prop in H as [Hc Hs].
  destruct (JS.is_terminator c); [discriminate|]. apply IH, Hs.
Qed.

Lemma split_sentences_no_terminator s :
  no_terminator s = true -> JS.split_sentences s = [s].
Proof.
  intros H. unfold JS.split_sentences.
  rewrite (split_sentences_go_no_terminator s "" H), rev_string_rev_string.
  cbn [JS.rev_string]. rewrite string_app_empty_r. reflexivity.
Qed.

(** C8, as stated, fails: the line that [learn("Xyzzy plugh")] yields keeps
    the capital letter; it is not the case-folded line. *)
Lemma learn_counterexample :
  fst <$> ELLM.learn 0 "Xyzzy plugh" initial_ELLM
  = Some ["Failed to parse: " +:+ JS.dquote +:+ "Xyzzy plugh" +:+ JS.dquote]
  /\ fst <$> ELLM.learn 0 "Xyzzy plugh" initial_ELLM
     <> Some ["Failed to parse: " +:+ JS.dquote +:+ "xyzzy plugh" +:+ JS.dquote].
Proof. split; [vm_compute; reflexivity | vm_compute; discriminate]. Qed.

(* ===================================================================== *)
(** ** The concept table                                                   *)
(* ===================================================================== *)

Section EncoderFacts.

Import ConceptEncoder.

Lemma isPrime_primes lf n calc b calc' :
  isPrime lf n calc = Some (b, calc') -> primes calc' = primes calc.
Proof.
  unfold isPrime. intros H.
  destruct (primeCache calc !! n); [congruence|].
  destruct (n <=? 1); [congruence|]. destruct (n <=? 3); [congruence|].
  destruct (rem_is_zero n 2 || rem_is_zero n 3); [congruence|].
  destruct (isPrime_loop lf n 5) as [[|]|]; [congruence| |discriminate].
  injection H as _ <-. reflexivity.
Qed.

Lemma generateNextPrime_loop_primes k lf : forall c calc p calc',
  generateNextPrime_loop k lf c calc = Some (p, calc') -> primes calc' = primes calc.
Proof.
  induction k as [|k IH]; intros c calc p calc' H; [discriminate|].
  cbn [generateNextPrime_loop] in H.
  destruct (isPrime lf c calc) as [[[|] calc1]|] eqn:E; [| |discriminate].
  - injection H as _ <-. eapply isPrime_primes, E.
  - rewrite (IH _ _ _ _ H). eapply isPrime_primes, E.
Qed.

Lemma getNthPrime_primes lf n calc p calc' :
  getNthPrime lf n calc = Some (p, calc') -> primes calc' = primes calc.
Proof.
  unfold getNthPrime, generateNextPrime. intros H.
  destruct (primes calc !! n) as [q|]; [destruct (q =? 0)|];
    try (destruct (last (primes calc)); [|discriminate];
         eapply generateNextPrime_loop_primes, H).
  congruence.
Qed.

Lemma default_primes_ge_2 i p : default_primes !! i = Some p -> 2 <= p.
Proof.
  intros H. apply Z.prime_ge_2.
  pose proof default_primes_are_primes as Hall.
  rewrite List.Forall_forall in Hall. apply Hall.
  apply list_elem_of_In. eapply list_elem_of_lookup_2, H.
Qed.

Lemma default_primes_le_997 i p : default_primes !! i = Some p -> p <= 997.
Proof.
  intros H.
  assert (Hall : forallb (fun q => q <=? 997) default_primes = true)
    by (vm_compute; reflexivity).
  rewrite forallb_forall in Hall.
  apply Z.leb_le, Hall, list_elem_of_In. eapply list_elem_of_lookup_2, H.
Qed.

Lemma default_primes_NoDup : NoDup default_primes.
Proof.
  apply (bool_decide_unpack _). vm_compute. exact I.
Qed.

(** Inside the sieve, [getNthPrime] is a table lookup. *)
Lemma getNthPrime_small lf n calc p :
  primes calc = default_primes -> default_primes !! n = Some p ->
  getNthPrime lf n calc = Some (p, calc).
Proof.
  intros Hp Hn. unfold getNthPrime. rewrite Hp, Hn.
  pose proof (default_primes_ge_2 _ _ Hn).
  destruct (Z.eqb_spec p 0); [lia | reflexivity].
Qed.

Lemma getPrime_known lf c e p :
  conceptToPrime e !! JS.toLowerCase c = Some p -> getPrime lf c e = Some (p, e).
Proof. intros H. unfold getPrime. rewrite H. reflexivity. Qed.

Lemma getPrime_inv lf c e p e' :
  getPrime lf c e = Some (p, e') ->
  (conceptToPrime e !! JS.toLowerCase c = Some p /\ e' = e)
  \/ (conceptToPrime e !! JS.toLowerCase c = None
      /\ exists calc',
           getNthPrime lf (nextPrimeIndex e) (primeCalc e) = Some (p, calc')
           /\ e' = {| primeCalc := calc';
                      conceptToPrime := <[JS.toLowerCase c := p]> (conceptToPrime e);
                      primeToConceptCache :=
                        <[p := JS.toLowerCase c]> (primeToConceptCache e);
                      nextPrimeIndex := S (nextPrimeIndex e);
                      variablePrime := variablePrime e |}).
Proof.
  unfold getPrime. intros H.
  destruct (conceptToPrime e !! JS.toLowerCase c) as [q|].
  - left. injection H as -> ->. auto.
  - right. split; [reflexivity|].
    destruct (getNthPrime lf (nextPrimeIndex e) (primeCalc e)) as [[q calc']|];
      [|discriminate].
    injection H as -> <-. eauto.
Qed.

Lemma enc_le_refl k e : enc_le k e e.
Proof. split; [reflexivity | lia | reflexivity | reflexivity]. Qed.

Lemma enc_le_trans k1 k2 e1 e2 e3 :
  enc_le k1 e1 e2 -> enc_le k2 e2 e3 -> enc_le (k1 + k2) e1 e3.
Proof.
  intros [A1 A2 A3 A4] [B1 B2 B3 B4]. split.
  - etrans; eassumption.
  - lia.
  - congruence.
  - congruence.
Qed.

Lemma enc_le_weaken k k' e e' : (k <= k')%nat -> enc_le k e e' -> enc_le k' e e'.
Proof. intros Hk [A1 A2 A3 A4]. split; try assumption. lia. Qed.

Lemma getPrime_le lf c e p e' :
  getPrime lf c e = Some (p, e') ->
  enc_le 1 e e' /\ conceptToPrime e' !! JS.toLowerCase c = Some p.
Proof.
  intros H. apply getPrime_inv in H as [[Hk ->]|(Hn & calc' & Hg & ->)].
  - split; [apply enc_le_refl | exact Hk].
  - split; [split; simpl|simpl; apply lookup_insert_eq].
    + apply insert_subseteq, Hn.
    + lia.
    + eapply getNthPrime_primes, Hg.
    + reflexivity.
Qed.

(** *** C1, the part that holds: a concept keeps its prime *)

Lemma getPrime_idempotent lf lf' c e p e' :
  getPrime lf c e = Some (p, e') -> getPrime lf' c e' = Some (p, e').
Proof. intros H. apply getPrime_known. eapply getPrime_le, H. Qed.

Lemma getPrime_stable k lf c e e' p :
  conceptToPrime e !! JS.toLowerCase c = Some p -> enc_le k e e' ->
  getPrime lf c e' = Some (p, e').
Proof.
  intros H Hle. apply getPrime_known.
  eapply lookup_weaken; [exact H | apply Hle].
Qed.

Lemma initial_encoder_wf : enc_wf initial_encoder.
Proof.
  split; simpl; [reflexivity | lia | | |].
  - intros c q H. apply lookup_singleton_Some in H as [<- <-]. reflexivity.
  - intros q c H. apply lookup_singleton_Some in H as [<- <-]. reflexivity.
  - intros q c H. apply lookup_singleton_Some in H as [<- <-].
    exists 0%nat. split; [lia | reflexivity].
Qed.

Lemma getPrime_wf lf c e p e' :
  enc_wf e -> getPrime lf c e = Some (p, e') -> (nextPrimeIndex e' <= 168)%nat ->
  enc_wf e' /\ primeToConceptCache e ⊆ primeToConceptCache e'.
Proof.
  intros Hwf H Hroom.
  apply getPrime_inv in H as [[Hk ->]|(Hn & calc' & Hg & ->)]; [auto|].
  simpl in Hroom.
  destruct (lookup_lt_is_Some_2 default_primes (nextPrimeIndex e)) as [q Hq];
    [rewrite default_primes_length; lia|].
  rewrite (getNthPrime_small lf _ _ q (wf_primes e Hwf) Hq) in Hg.
  injection Hg as <- <-.
  assert (Hfresh : primeToConceptCache e !! q = None).
  { destruct (primeToConceptCache e !! q) as [c'|] eqn:E; [|reflexivity].
    destruct (wf_index e Hwf q c' E) as (i & Hi & Hiq).
    pose proof (NoDup_lookup _ _ _ _ default_primes_NoDup Hiq Hq). lia. }
  split; [split; simpl|simpl; apply insert_subseteq, Hfresh].
  - apply Hwf.
  - exact Hroom.
  - intros c' q' H. apply lookup_insert_Some in H as [[<- <-]|[Hne H]].
    + apply lookup_insert_eq.
    + pose proof (wf_rev e Hwf _ _ H) as Hr.
      rewrite lookup_insert_ne; [exact Hr | congruence].
  - intros q' c' H. apply lookup_insert_Some in H as [[<- <-]|[Hne H]].
    + apply lookup_insert_eq.
    + pose proof (wf_fwd e Hwf _ _ H) as Hr.
      rewrite lookup_insert_ne; [exact Hr | congruence].
  - intros q' c' H. apply lookup_insert_Some in H as [[<- <-]|[Hne H]].
    + exists (nextPrimeIndex e). split; [lia | exact Hq].
    + destruct (wf_index e Hwf _ _ H) as (i & Hi & Hiq).
      exists i. split; [lia | exact Hiq].
Qed.

Lemma getPrime_total lf c e :
  enc_wf e -> (nextPrimeIndex e < 168)%nat ->
  exists p e', getPrime lf c e = Some (p, e').
Proof.
  intros Hwf Hroom. unfold getPrime.
  destruct (conceptToPrime e !! JS.toLowerCase c) as [p|]; [eauto|].
  destruct (lookup_lt_is_Some_2 default_primes (nextPrimeIndex e)) as [q Hq];
    [rewrite default_primes_length; lia|].
  rewrite (getNthPrime_small lf _ _ q (wf_primes e Hwf) Hq). eauto.
Qed.

Lemma enc_wf_prime e c q :
  enc_wf e -> conceptToPrime e !! c = Some q -> Z.prime q /\ q <= 997.
Proof.
  intros Hwf H. apply (wf_rev e Hwf) in H.
  destruct (wf_index e Hwf _ _ H) as (i & _ & Hi). split.
  - pose proof default_primes_are_primes as Hall.
    rewrite List.Forall_forall in Hall.
    apply Hall, list_elem_of_In. eapply list_elem_of_lookup_2, Hi.
  - eapply default_primes_le_997, Hi.
Qed.

Lemma enc_wf_injective e c1 c2 q :
  enc_wf e -> conceptToPrime e !! c1 = Some q -> conceptToPrime e !! c2 = Some q ->
  c1 = c2.
Proof.
  intros Hwf H1 H2.
  apply (wf_rev e Hwf) in H1. apply (wf_rev e Hwf) in H2. congruence.
Qed.

End EncoderFacts.

Lemma bind_Some {S A B} (m : M S A) (k : A -> M S B) s r :
  bind m k s = Some r <-> exists a s1, m s = Some (a, s1) /\ k a s1 = Some r.
Proof.
  unfold bind. split.
  - destruct (m s) as [[a s1]|]; [eauto | discriminate].
  - intros (a & s1 & -> & H). exact H.
Qed.

Lemma ret_Some {S A} (a : A) (s : S) r : ret a s = Some r <-> r = (a, s).
Proof. unfold ret. split; [intros [= <-]; reflexivity | intros ->; reflexivity]. Qed.

Lemma bind_eval {S A B} (m : M S A) (k : A -> M S B) s a s1 :
  m s = Some (a, s1) -> bind m k s = k a s1.
Proof. intros H. unfold bind. rewrite H. reflexivity. Qed.

Lemma bind_gets {S A B} (f : S -> A) (k : A -> M S B) s :
  bind (gets f) k s = k (f s) s.
Proof. reflexivity. Qed.

Lemma bind_ret {S A B} (a : A) (k : A -> M S B) s : bind (ret a) k s = k a s.
Proof. reflexivity. Qed.

Lemma bind_modify {S B} (f : S -> S) (k : unit -> M S B) s :
  bind (modify f) k s = k tt (f s).
Proof. reflexivity. Qed.

Lemma bind_assoc {S A B C} (m : M S A) (k1 : A -> M S B) (k2 : B -> M S C) s :
  bind (bind m k1) k2 s = bind m (fun a => bind (k1 a) k2) s.
Proof. unfold bind. destruct (m s) as [[a s1]|]; reflexivity. Qed.

Lemma on_encoder_Some {A} (m : M ConceptEncoder A) st a st' :
  on_encoder m st = Some (a, st') <->
  exists e', m (encoder st) = Some (a, e')
             /\ st' = {| encoder := e'; kb := kb st; visited := visited st |}.
Proof.
  unfold on_encoder. split.
  - destruct (m (encoder st)) as [[a' e']|]; [|discriminate].
    intros [= -> <-]. eauto.
  - intros (e' & -> & ->). reflexivity.
Qed.

Lemma on_encoder_eval {A} (m : M ConceptEncoder A) e k v a e' :
  m e = Some (a, e') ->
  on_encoder m {| encoder := e; kb := k; visited := v |}
  = Some (a, {| encoder := e'; kb := k; visited := v |}).
Proof. intros H. unfold on_encoder. cbn [encoder]. rewrite H. reflexivity. Qed.

Section EncodeFacts.

Import ConceptEncoder.

Lemma encodeFact_inv lf f e E e' :
  encodeFact lf f e = Some (E, e') ->
  exists ps pp po,
    E = ps * pp * po
    /\ conceptToPrime e' !! JS.toLowerCase (subject f) = Some ps
    /\ conceptToPrime e' !! JS.toLowerCase (predicate f) = Some pp
    /\ conceptToPrime e' !! JS.toLowerCase (object f) = Some po
    /\ enc_le 3 e e'.
Proof.
  unfold encodeFact. intros H.
  apply bind_Some in H as (ps & e1 & H1 & H).
  apply bind_Some in H as (pp & e2 & H2 & H).
  apply bind_Some in H as (po & e3 & H3 & H).
  apply ret_Some in H as [= -> ->].
  apply getPrime_le in H1 as [L1 K1].
  apply getPrime_le in H2 as [L2 K2].
  apply getPrime_le in H3 as [L3 K3].
  exists ps, pp, po. repeat split.
  - eapply lookup_weaken; [exact K1|]. etrans; [apply L2 | apply L3].
  - eapply lookup_weaken; [exact K2 | apply L3].
  - exact K3.
  - etrans; [apply L1|]. etrans; [apply L2 | apply L3].
  - pose proof (le_next _ _ _ L1). pose proof (le_next _ _ _ L2).
    pose proof (le_next _ _ _ L3). lia.
  - pose proof (le_next _ _ _ L1). pose proof (le_next _ _ _ L2).
    pose proof (le_next _ _ _ L3). lia.
  - rewrite (le_primes _ _ _ L3), (le_primes _ _ _ L2). apply L1.
  - rewrite (le_variable _ _ _ L3), (le_variable _ _ _ L2). apply L1.
Qed.

Lemma encodeFact_known lf f e ps pp po :
  conceptToPrime e !! JS.toLowerCase (subject f) = Some ps ->
  conceptToPrime e !! JS.toLowerCase (predicate f) = Some pp ->
  conceptToPrime e !! JS.toLowerCase (object f) = Some po ->
  encodeFact lf f e = Some (ps * pp * po, e).
Proof.
  intros H1 H2 H3. unfold encodeFact, bind.
  rewrite (getPrime_known lf _ _ _ H1), (getPrime_known lf _ _ _ H2),
    (getPrime_known lf _ _ _ H3). reflexivity.
Qed.

Lemma encodeFact_idempotent lf lf' f e E e' :
  encodeFact lf f e = Some (E, e') -> encodeFact lf' f e' = Some (E, e').
Proof.
  intros H. apply encodeFact_inv in H as (ps & pp & po & -> & H1 & H2 & H3 & _).
  apply encodeFact_known; assumption.
Qed.

(** The encoding of a registered fact is the same in every later table. *)
Lemma encodeFact_stable k lf lf' f e E e' :
  encodeFact lf f e = Some (E, e) -> enc_le k e e' ->
  encodeFact lf' f e' = Some (E, e').
Proof.
  intros H Hle. apply encodeFact_inv in H as (ps & pp & po & -> & H1 & H2 & H3 & _).
  apply encodeFact_known; (eapply lookup_weaken; [eassumption | apply Hle]).
Qed.

Lemma encodeFact_wf lf f e E e' :
  enc_wf e -> encodeFact lf f e = Some (E, e') -> (nextPrimeIndex e' <= 168)%nat ->
  enc_wf e' /\ primeToConceptCache e ⊆ primeToConceptCache e'.
Proof.
  unfold encodeFact. intros Hwf H Hroom.
  apply bind_Some in H as (ps & e1 & H1 & H).
  apply bind_Some in H as (pp & e2 & H2 & H).
  apply bind_Some in H as (po & e3 & H3 & H).
  apply ret_Some in H as [= -> ->].
  pose proof (le_next _ _ _ (proj1 (getPrime_le _ _ _ _ _ H2))).
  pose proof (le_next _ _ _ (proj1 (getPrime_le _ _ _ _ _ H3))).
  apply (getPrime_wf _ _ _ _ _ Hwf) in H1 as [W1 S1]; [|lia].
  apply (getPrime_wf _ _ _ _ _ W1) in H2 as [W2 S2]; [|lia].
  apply (getPrime_wf _ _ _ _ _ W2) in H3 as [W3 S3]; [|lia].
  split; [exact W3|]. etrans; [exact S1|]. etrans; [exact S2 | exact S3].
Qed.

Lemma encodeFact_total lf f e :
  enc_wf e -> (nextPrimeIndex e + 3 <= 168)%nat ->
  exists E e', encodeFact lf f e = Some (E, e').
Proof.
  intros Hwf Hroom. unfold encodeFact, bind.
  destruct (getPrime_total lf (subject f) e Hwf) as (ps & e1 & H1); [lia|].
  rewrite H1. pose proof (le_next _ _ _ (proj1 (getPrime_le _ _ _ _ _ H1))).
  apply (getPrime_wf _ _ _ _ _ Hwf) in H1 as H1'; [|lia]. destruct H1' as [W1 _].
  destruct (getPrime_total lf (predicate f) e1 W1) as (pp & e2 & H2); [lia|].
  rewrite H2. pose proof (le_next _ _ _ (proj1 (getPrime_le _ _ _ _ _ H2))).
  apply (getPrime_wf _ _ _ _ _ W1) in H2 as H2'; [|lia]. destruct H2' as [W2 _].
  destruct (getPrime_total lf (object f) e2 W2) as (po & e3 & H3); [lia|].
  rewrite H3. unfold ret. eauto.
Qed.

End EncodeFacts.

(** ** Unique factorization, for sorted lists of primes                    *)

Lemma prime_divides_product q l :
  Z.prime q -> Forall Z.prime l -> (q | product l) -> In q l.
Proof.
  intros Hq Hl. induction Hl as [|x l Hx Hl IH]; simpl; intros Hdiv.
  - apply Z.prime_ge_2 in Hq. apply Z.divide_1_r_nonneg in Hdiv; lia.
  - fold (product l) in Hdiv.
    apply (Z.divide_prime_mul _ _ _ Hq) in Hdiv as [Hdiv|Hdiv].
    + left. symmetry. apply Z.divide_prime_prime; assumption.
    + right. apply IH, Hdiv.
Qed.

Lemma StronglySorted_head_le x l y :
  StronglySorted Z.le (x :: l) -> In y (x :: l) -> x <= y.
Proof.
  intros Hs Hy. apply StronglySorted_inv in Hs as [_ Hall].
  destruct Hy as [->|Hy]; [lia|].
  rewrite List.Forall_forall in Hall. apply Hall, Hy.
Qed.

Lemma sorted_primes_unique l1 : forall l2,
  StronglySorted Z.le l1 -> StronglySorted Z.le l2 ->
  Forall Z.prime l1 -> Forall Z.prime l2 ->
  product l1 = product l2 -> l1 = l2.
Proof.
  induction l1 as [|x l1 IH]; intros l2 S1 S2 P1 P2 Heq.
  - symmetry. apply product_primes_1; [exact P2 | rewrite <- Heq; reflexivity].
  - destruct l2 as [|y l2].
    + apply product_primes_1; [exact P1 | exact Heq].
    + pose proof (Forall_inv P1) as Hx. pose proof (Forall_inv P2) as Hy.
      assert (Hxy : x = y).
      { assert (In x (y :: l2)).
        { apply prime_divides_product; [exact Hx | exact P2 |].
          rewrite <- Heq. simpl. apply Z.divide_factor_l. }
        assert (In y (x :: l1)).
        { apply prime_divides_product; [exact Hy | exact P1 |].
          rewrite Heq. simpl. apply Z.divide_factor_l. }
        pose proof (StronglySorted_head_le _ _ _ S2 H).
        pose proof (StronglySorted_head_le _ _ _ S1 H0). lia. }
      subst y. f_equal. apply IH.
      * apply StronglySorted_inv in S1. apply S1.
      * apply StronglySorted_inv in S2. apply S2.
      * apply Forall_inv_tail in P1. exact P1.
      * apply Forall_inv_tail in P2. exact P2.
      * simpl in Heq. fold (product l1) in Heq. fold (product l2) in Heq.
        apply Z.prime_ge_2 in Hx. apply (Z.mul_reg_l _ _ x); [lia | exact Heq].
Qed.

Lemma factorize_primes_only lf n calc calc' :
  primes calc = primes calc' -> factorize lf n calc = factorize lf n calc'.
Proof. intros H. unfold factorize. rewrite H. reflexivity. Qed.

Lemma no_two_large_triple a b c :
  Z.prime a -> Z.prime b -> Z.prime c -> a <= 997 -> b <= 997 -> c <= 997 ->
  no_two_large (a * b * c).
Proof.
  intros Ha Hb Hc La Lb Lc p q Hp Hq Hp' _ [k Hk].
  assert (Hdiv : (p | a * b * c)) by (exists (k * q); lia).
  apply (Z.divide_prime_mul _ _ _ Hp) in Hdiv as [Hdiv|Hdiv].
  - apply (Z.divide_prime_mul _ _ _ Hp) in Hdiv as [Hdiv|Hdiv];
      apply Z.divide_prime_prime in Hdiv; auto; lia.
  - apply Z.divide_prime_prime in Hdiv; auto; lia.
Qed.

(** The factorization of the product of three table primes. *)
Lemma factorize_triple lf a b c calc :
  primes calc = default_primes ->
  Z.prime a -> Z.prime b -> Z.prime c -> a <= 997 -> b <= 997 -> c <= 997 ->
  (30 <= lf)%nat ->
  exists l, factorize lf (a * b * c) calc = Some l
            /\ StronglySorted Z.le l /\ Forall Z.prime l
            /\ product l = a * b * c.
Proof.
  intros Hcalc Ha Hb Hc La Lb Lc Hlf.
  pose proof (Z.prime_ge_2 _ Ha). pose proof (Z.prime_ge_2 _ Hb).
  pose proof (Z.prime_ge_2 _ Hc).
  assert (Hab : 4 <= a * b <= 997 * 997) by nia.
  assert (Hn : 8 <= a * b * c <= 997 * 997 * 997) by nia.
  apply factorize_sorted_primes; [exact Hcalc | lia | |].
  - apply no_two_large_triple; assumption.
  - assert (Z.log2 (a * b * c) < 30); [|lia].
    apply Z.log2_lt_pow2; [lia|]. change (2 ^ 30) with 1073741824. lia.
Qed.

Lemma factorize_ascending_triple lf a b c calc :
  primes calc = default_primes ->
  Z.prime a -> Z.prime b -> Z.prime c -> a <= b <= c -> c <= 997 ->
  (30 <= lf)%nat ->
  factorize lf (a * b * c) calc = Some [a; b; c].
Proof.
  intros Hcalc Ha Hb Hc Hle Lc Hlf.
  destruct (factorize_triple lf a b c calc) as (l & -> & Hs & Hp & Hprod);
    try assumption; try lia.
  f_equal. apply sorted_primes_unique; try assumption.
  - repeat constructor; lia.
  - repeat (constructor; [assumption|]). constructor.
  - rewrite Hprod. simpl. lia.
Qed.

Lemma lower_ascii_idempotent c : JS.lower_ascii (JS.lower_ascii c) = JS.lower_ascii c.
Proof. destruct c as [[] [] [] [] [] [] [] []]; reflexivity. Qed.

Lemma toLowerCase_idempotent s : JS.toLowerCase (JS.toLowerCase s) = JS.toLowerCase s.
Proof.
  induction s as [|c s IH]; simpl; [reflexivity|].
  rewrite lower_ascii_idempotent, IH. reflexivity.
Qed.

Lemma new_Fact_components f :
  new_Fact (subject f) (predicate f) (object f)
  = {| subject := JS.toLowerCase (subject f);
       predicate := JS.toLowerCase (predicate f);
       object := JS.toLowerCase (object f) |}.
Proof. reflexivity. Qed.

Lemma getConceptName_registered e c q :
  enc_wf e -> conceptToPrime e !! c = Some q -> c <> "" ->
  ConceptEncoder.getConceptName e q = c.
Proof.
  intros Hwf H Hne. unfold ConceptEncoder.getConceptName.
  rewrite (wf_rev e Hwf _ _ H). destruct (decide (c = "")); [contradiction | reflexivity].
Qed.

(* ===================================================================== *)
(** ** C2: decoding the encoding of a fact                                 *)
(* ===================================================================== *)

Section RoundTrip.

Import ConceptEncoder.

(** C2, as amended: in a well-formed table with room for the concepts of the
    fact (at most 168 concepts in all), for a fact [f] with three distinct,
    non-empty concepts, [decodeFact (encodeFact f)] is [f] exactly when the
    primes of its components are in ascending order,
    [primeOf subject < primeOf predicate < primeOf object]: the factors are
    put back in positions by their numeric order only. *)
Theorem decode_encode_ascending :
  forall (lf lf' : nat) (e : ConceptEncoder) (s p o : string),
    enc_wf e -> (nextPrimeIndex e + 3 <= 168)%nat -> (30 <= lf')%nat ->
    JS.toLowerCase s <> "" -> JS.toLowerCase p <> "" -> JS.toLowerCase o <> "" ->
    JS.toLowerCase s <> JS.toLowerCase p ->
    JS.toLowerCase p <> JS.toLowerCase o ->
    JS.toLowerCase s <> JS.toLowerCase o ->
    exists E e' ps pp po,
      encodeFact lf (new_Fact s p o) e = Some (E, e')
      /\ getPrime lf s e' = Some (ps, e')
      /\ getPrime lf p e' = Some (pp, e')
      /\ getPrime lf o e' = Some (po, e')
      /\ (decodeFact lf' E e' = Some (Some (new_Fact s p o), e') <-> ps < pp < po).
Proof.
  intros lf lf' e s p o Hwf Hroom Hlf Hs Hp Ho Hsp Hpo Hso.
  destruct (encodeFact_total lf (new_Fact s p o) e Hwf Hroom) as (E & e' & HE).
  pose proof (encodeFact_inv _ _ _ _ _ HE) as (ps & pp & po & -> & K1 & K2 & K3 & Hle).
  simpl in K1, K2, K3. rewrite toLowerCase_idempotent in K1, K2, K3.
  destruct (encodeFact_wf _ _ _ _ _ Hwf HE) as [Hwf' _];
    [pose proof (le_next _ _ _ Hle); lia|].
  exists (ps * pp * po), e', ps, pp, po.
  split; [exact HE|]. split; [apply getPrime_known, K1|].
  split; [apply getPrime_known, K2|]. split; [apply getPrime_known, K3|].
  destruct (enc_wf_prime _ _ _ Hwf' K1) as [Pa La].
  destruct (enc_wf_prime _ _ _ Hwf' K2) as [Pb Lb].
  destruct (enc_wf_prime _ _ _ Hwf' K3) as [Pc Lc].
  assert (Hdist : ps <> pp /\ pp <> po /\ ps <> po).
  { repeat split; intros ->.
    - apply Hsp. eapply enc_wf_injective; eassumption.
    - apply Hpo. eapply enc_wf_injective; eassumption.
    - apply Hso. eapply enc_wf_injective; eassumption. }
  assert (Hnames : getConceptName e' ps = JS.toLowerCase s
                   /\ getConceptName e' pp = JS.toLowerCase p
                   /\ getConceptName e' po = JS.toLowerCase o).
  { repeat split; apply getConceptName_registered; assumption. }
  destruct Hnames as (N1 & N2 & N3).
  split.
  - (* the decoded fact is the original one: the factors are in place *)
    intros Hdec. unfold decodeFact in Hdec.
    destruct (factorize_triple lf' ps pp po (primeCalc e') (wf_primes e' Hwf'))
      as (l & Hf & Hsorted & Hprimes & Hprod); try assumption.
    rewrite Hf in Hdec.
    destruct l as [|a [|b [|c [|d l]]]]; try discriminate.
    injection Hdec as Ha Hb Hc.
    assert (Hin : forall x, In x [a; b; c] -> In x [ps; pp; po]).
    { intros x Hx. rewrite List.Forall_forall in Hprimes.
      apply prime_divides_product; [apply Hprimes, Hx | |].
      - repeat (constructor; [assumption|]). constructor.
      - replace (product [ps; pp; po]) with (product [a; b; c])
          by (rewrite Hprod; simpl; lia).
        destruct Hx as [<-|[<-|[<-|[]]]]; simpl.
        + apply Z.divide_factor_l.
        + apply Z.divide_mul_r, Z.divide_factor_l.
        + do 2 apply Z.divide_mul_r. apply Z.divide_factor_l. }
    assert (Hname : forall x c0, In x [ps; pp; po] ->
              JS.toLowerCase (getConceptName e' x) = JS.toLowerCase c0 ->
              conceptToPrime e' !! JS.toLowerCase c0 = Some x).
    { intros x c0 Hx Hn.
      destruct Hx as [<-|[<-|[<-|[]]]];
        rewrite ?N1, ?N2, ?N3, toLowerCase_idempotent in Hn;
        rewrite <- Hn; assumption. }
    assert (a = ps) by (pose proof (Hname a s (Hin a ltac:(simpl; auto)) Ha); congruence).
    assert (b = pp) by (pose proof (Hname b p (Hin b ltac:(simpl; auto)) Hb); congruence).
    assert (c = po) by (pose proof (Hname c o (Hin c ltac:(simpl; auto)) Hc); congruence).
    subst a b c.
    apply StronglySorted_inv in Hsorted as [Hs2 Hall].
    apply Forall_inv in Hall as Hab.
    apply StronglySorted_inv in Hs2 as [_ Hall2].
    apply Forall_inv in Hall2 as Hbc.
    destruct Hdist as (? & ? & ?). lia.
  - (* ascending primes: the factors come back in place *)
    intros Hasc. unfold decodeFact.
    rewrite (factorize_ascending_triple lf' ps pp po (primeCalc e')
               (wf_primes e' Hwf') Pa Pb Pc) by (try assumption; lia).
    rewrite N1, N2, N3. unfold new_Fact. rewrite !toLowerCase_idempotent.
    reflexivity.
Qed.

Lemma decode_encode_ascending_witness :
  exists E e' ps pp po,
    encodeFact 0 (new_Fact "Socrates" "is" "human") initial_encoder = Some (E, e')
    /\ getPrime 0 "Socrates" e' = Some (ps, e')
    /\ getPrime 0 "is" e' = Some (pp, e')
    /\ getPrime 0 "human" e' = Some (po, e')
    /\ (decodeFact 30 E e' = Some (Some (new_Fact "Socrates" "is" "human"), e')
        <-> ps < pp < po).
Proof.
  apply (decode_encode_ascending 0 30 initial_encoder "Socrates" "is" "human");
    [ exact initial_encoder_wf | simpl; lia | lia | .. ];
    vm_compute; discriminate.
Defined.

(** C2, as stated, fails: once "socrates is human" has been encoded,
    "human is mortal" (three distinct concepts) is decoded as
    "is human mortal". *)
Lemma decode_encode_counterexample :
  fst <$> (let* _ := encodeFact 0 (new_Fact "socrates" "is" "human") in
           let* E := encodeFact 0 (new_Fact "human" "is" "mortal") in
           decodeFact 30 E) initial_encoder
  = Some (Some (new_Fact "is" "human" "mortal"))
  /\ new_Fact "is" "human" "mortal" <> new_Fact "human" "is" "mortal".
Proof. split; [vm_compute; reflexivity | discriminate]. Qed.

End RoundTrip.

(* ===================================================================== *)
(** ** What a deduction leaves behind                                      *)
(* ===================================================================== *)

Lemma st_le_refl st : st_le st st.
Proof. split; try reflexivity. intros Hwf _. split; [exact Hwf | reflexivity]. Qed.

Lemma st_le_trans st1 st2 st3 : st_le st1 st2 -> st_le st2 st3 -> st_le st1 st3.
Proof.
  intros [A1 A2 A3 A4 A5 A6] [B1 B2 B3 B4 B5 B6]. split.
  - congruence.
  - etrans; eassumption.
  - etrans; eassumption.
  - lia.
  - congruence.
  - intros Hwf Hroom. destruct (A6 Hwf) as [W1 S1]; [lia|].
    destruct (B6 W1 Hroom) as [W2 S2]. split; [exact W2 | etrans; eassumption].
Qed.

Lemma grows_ret {A} (a : A) : grows (ret a).
Proof. intros st a' st' [= _ <-]. apply st_le_refl. Qed.

Lemma grows_gets {A} (f : ELLM -> A) : grows (gets f).
Proof. intros st a' st' [= _ <-]. apply st_le_refl. Qed.

Lemma grows_bind {A B} (m : M ELLM A) (k : A -> M ELLM B) :
  grows m -> (forall a, grows (k a)) -> grows (bind m k).
Proof.
  intros Hm Hk st b st' H. apply bind_Some in H as (a & st1 & H1 & H2).
  eapply st_le_trans; [eapply Hm, H1 | eapply Hk, H2].
Qed.

Section Grows.

Import ConceptEncoder ReasoningEngine.

Lemma grows_encodeFact lf f : grows (on_encoder (encodeFact lf f)).
Proof.
  intros st E st' H. apply on_encoder_Some in H as (e' & H & ->).
  pose proof (encodeFact_inv _ _ _ _ _ H) as (ps & pp & po & _ & _ & _ & _ & Hle).
  split; simpl; try reflexivity; try apply Hle.
  intros Hwf Hroom. eapply encodeFact_wf; eassumption.
Qed.

Lemma decodeFact_state lf n e r e' : decodeFact lf n e = Some (r, e') -> e' = e.
Proof.
  unfold decodeFact. destruct (factorize lf n (primeCalc e)) as [l|]; [|discriminate].
  destruct l as [|a [|b [|c [|d l]]]]; intros [= _ <-]; reflexivity.
Qed.

Lemma grows_decodeFact lf n : grows (on_encoder (decodeFact lf n)).
Proof.
  intros st r st' H. apply on_encoder_Some in H as (e' & H & ->).
  apply decodeFact_state in H as ->. destruct st; apply st_le_refl.
Qed.

(** The cycle check and the registration of the key. *)
Lemma grows_visit {A} (key : string) (r : A) (m : M ELLM A) :
  grows m ->
  grows (let* seen := gets visited in
         if bool_decide (key ∈ seen) then ret r
         else let* _ := set_visited (seen ∪ {[key]}) in m).
Proof.
  intros Hm st a st' H. unfold bind, gets in H.
  destruct (bool_decide (key ∈ visited st)); [eapply grows_ret, H|].
  unfold set_visited, modify in H.
  eapply st_le_trans; [|eapply Hm, H].
  split; simpl; try reflexivity; [set_solver|].
  intros Hwf _. split; [exact Hwf | reflexivity].
Qed.

Ltac grows_step :=
  first
    [ solve [auto]
    | apply grows_ret
    | apply grows_gets
    | apply grows_encodeFact
    | apply grows_decodeFact
    | apply grows_bind; [|intros ?]
    | match goal with
      | |- grows (if ?b then _ else _) => destruct b
      | |- grows (match ?x with _ => _ end) => destruct x
      end ].

Ltac grows_tac := repeat grows_step.

Variable lf : nat.
Variable rec : Fact -> M ELLM Result.
Hypothesis Hrec : forall f, grows (rec f).

Lemma grows_quantified_pass rs q : grows (quantified_pass rec rs q).
Proof.
  induction rs as [|r rs IH]; simpl; [apply grows_ret|].
  destruct r; [|exact IH]. grows_tac.
Qed.

Lemma grows_conditions_loop cs ex : grows (conditions_loop lf rec cs ex).
Proof.
  revert ex. induction cs as [|c cs IH]; intros ex; simpl; [apply grows_ret|].
  grows_tac.
Qed.

Lemma grows_standard_pass rs q n : grows (standard_pass lf rec rs q n).
Proof.
  induction rs as [|r rs IH]; simpl; [apply grows_ret|].
  pose proof grows_conditions_loop. destruct r; [exact IH|]. grows_tac.
Qed.

Lemma grows_transitive_loop fs q : grows (transitive_loop rec fs q).
Proof.
  induction fs as [|f fs IH]; simpl; [apply grows_ret|]. grows_tac.
Qed.

Lemma grows_deduce_body q : grows (deduce_body lf rec q).
Proof.
  unfold deduce_body. apply grows_bind; [apply grows_encodeFact|]. intros E.
  apply grows_visit. unfold tryTransitiveReasoning.
  pose proof grows_quantified_pass. pose proof grows_standard_pass.
  pose proof grows_transitive_loop. grows_tac.
Qed.

End Grows.

Lemma grows__deduce lf fuel : forall q, grows (ReasoningEngine._deduce lf fuel q).
Proof.
  induction fuel as [|fuel IH]; intros q; [intros st a st' H; discriminate|].
  simpl. apply grows_deduce_body. exact IH.
Qed.

(* ===================================================================== *)
(** ** C10: what [deduce] changes                                          *)
(* ===================================================================== *)

Section Frame.

Import ConceptEncoder ReasoningEngine.





End Frame.

(* ===================================================================== *)
(** ** The cycle guard                                                     *)
(* ===================================================================== *)

Section CycleGuard.

Import ConceptEncoder ReasoningEngine.

(** A fact whose key is in the visited set fails at once. *)
Lemma deduce_body_circular lf rec q st r st' :
  Fact_toString q ∈ visited st ->
  deduce_body lf rec q st = Some (r, st') ->
  r = circular q /\ visited st' = visited st /\ kb st' = kb st.
Proof.
  intros Hin H. unfold deduce_body in H.
  apply bind_Some in H as (E & st1 & HE & H).
  apply on_encoder_Some in HE as (e1 & _ & ->).
  unfold bind, gets in H. simpl in H.
  rewrite bool_decide_eq_true_2 in H by exact Hin.
  injection H as <- <-. auto.
Qed.

Lemma deduce_body_circular_returns lf rec q st E e' :
  Fact_toString q ∈ visited st ->
  encodeFact lf q (encoder st) = Some (E, e') ->
  deduce_body lf rec q st
  = Some (circular q, {| encoder := e'; kb := kb st; visited := visited st |}).
Proof.
  intros Hin HE. unfold deduce_body, bind, on_encoder, gets. rewrite HE. simpl.
  rewrite bool_decide_eq_true_2 by exact Hin. reflexivity.
Qed.

(** Every attempt leaves the key of its fact in the visited set. *)
Lemma deduce_body_registers lf rec q st r st' :
  (forall f, grows (rec f)) ->
  deduce_body lf rec q st = Some (r, st') ->
  Fact_toString q ∈ visited st'.
Proof.
  intros Hrec H. unfold deduce_body in H.
  apply bind_Some in H as (E & st1 & HE & H).
  unfold bind at 1 in H. unfold gets at 1 in H.
  destruct (bool_decide (Fact_toString q ∈ visited st1)) eqn:Hb.
  - injection H as _ <-. apply bool_decide_eq_true_1 in Hb. exact Hb.
  - apply bind_Some in H as ([] & st2 & H2 & H).
    unfold set_visited, modify in H2. injection H2 as <-.
    assert (Hle : st_le {| encoder := encoder st1; kb := kb st1;
                           visited := visited st1 ∪ {[Fact_toString q]} |} st').
    { revert H. unfold tryTransitiveReasoning.
      pose proof (grows_quantified_pass _ Hrec).
      pose proof (grows_standard_pass lf _ Hrec).
      pose proof (grows_transitive_loop _ Hrec).
      repeat first
        [ solve [auto] | apply grows_ret | apply grows_gets
        | apply grows_bind; [|intros ?]
        | match goal with
          | |- grows (if ?b then _ else _) => destruct b
          | |- grows (match ?x with _ => _ end) => destruct x
          end ]. }
    apply (sl_visited _ _ Hle). simpl. set_solver.
Qed.

(** The visited set is shared by the whole recursion tree of a query and
    never shrinks; a fact that was attempted, whatever the outcome, fails
    with the circular-reasoning explanation at every later attempt. *)
Lemma visited_is_shared lf fuel q st r1 st1 :
  _deduce lf fuel q st = Some (r1, st1) ->
  visited st ⊆ visited st1
  /\ Fact_toString q ∈ visited st1
  /\ forall lf' fuel' st2 r2 st2',
       visited st1 ⊆ visited st2 ->
       _deduce lf' fuel' q st2 = Some (r2, st2') ->
       r2 = circular q /\ visited st2' = visited st2.
Proof.
  intros H. split; [apply (sl_visited _ _ (grows__deduce _ _ _ _ _ _ H))|].
  destruct fuel as [|fuel]; [discriminate|]. simpl in H.
  pose proof (deduce_body_registers _ _ _ _ _ _ (grows__deduce lf fuel) H) as Hin.
  split; [exact Hin|].
  intros lf' fuel' st2 r2 st2' Hsub H2.
  destruct fuel' as [|fuel']; [discriminate|]. simpl in H2.
  apply deduce_body_circular in H2 as (-> & -> & _); [auto|].
  apply Hsub, Hin.
Qed.

End CycleGuard.

Section DecodeStable.

Import ConceptEncoder ReasoningEngine.

(** The factors of the encoding of a registered fact are registered primes. *)
Lemma factors_registered lf0 lf c e E l :
  enc_wf e -> encodeFact lf0 c e = Some (E, e) ->
  factorize lf E (primeCalc e) = Some l ->
  Forall (fun x => is_Some (primeToConceptCache e !! x)) l.
Proof.
  intros Hwf HE Hf.
  apply encodeFact_inv in HE as (ps & pp & po & -> & K1 & K2 & K3 & _).
  destruct (enc_wf_prime _ _ _ Hwf K1) as [Pa La].
  destruct (enc_wf_prime _ _ _ Hwf K2) as [Pb Lb].
  destruct (enc_wf_prime _ _ _ Hwf K3) as [Pc Lc].
  destruct (factorize_triple (Nat.max lf 30) ps pp po (primeCalc e) (wf_primes e Hwf))
    as (l' & Hf' & _ & Hprimes & Hprod); try assumption; [lia|].
  rewrite (factorize_mono lf (Nat.max lf 30) _ _ _ ltac:(lia) Hf) in Hf'.
  injection Hf' as <-.
  apply List.Forall_forall. intros x Hx.
  assert (Hin : In x [ps; pp; po]).
  { rewrite List.Forall_forall in Hprimes.
    apply prime_divides_product; [apply Hprimes, Hx | |].
    - repeat (constructor; [assumption|]). constructor.
    - replace (product [ps; pp; po]) with (product l) by (rewrite Hprod; simpl; lia).
      apply in_split in Hx as (l1 & l2 & ->).
      rewrite product_app. simpl. fold (product l2).
      apply Z.divide_mul_r, Z.divide_factor_l. }
  destruct Hin as [<-|[<-|[<-|[]]]]; eexists; eapply (wf_rev e Hwf); eassumption.
Qed.

Lemma getConceptName_weaken e e' x :
  primeToConceptCache e ⊆ primeToConceptCache e' ->
  is_Some (primeToConceptCache e !! x) ->
  getConceptName e' x = getConceptName e x.
Proof.
  intros Hsub [s Hs]. unfold getConceptName.
  rewrite Hs, (lookup_weaken _ _ _ _ Hs Hsub). reflexivity.
Qed.

(** Decoding the encoding of a registered fact gives the same fact in every
    later table. *)
Lemma decodeFact_stable lf0 lf c e E e' r :
  enc_wf e -> encodeFact lf0 c e = Some (E, e) ->
  primes (primeCalc e') = primes (primeCalc e) ->
  primeToConceptCache e ⊆ primeToConceptCache e' ->
  decodeFact lf E e = Some (r, e) -> decodeFact lf E e' = Some (r, e').
Proof.
  intros Hwf HE Hp Hsub. unfold decodeFact.
  rewrite (factorize_primes_only lf E (primeCalc e') (primeCalc e) Hp).
  destruct (factorize lf E (primeCalc e)) as [l|] eqn:Hf; [|discriminate].
  pose proof (factors_registered _ _ _ _ _ _ Hwf HE Hf) as Hreg.
  destruct l as [|a [|b [|d [|x l]]]]; intros [= <-]; try reflexivity.
  apply Forall_cons in Hreg as [Ra Hreg].
  apply Forall_cons in Hreg as [Rb Hreg].
  apply Forall_cons in Hreg as [Rd _].
  rewrite !(getConceptName_weaken e e') by assumption. reflexivity.
Qed.

Lemma encodeFact_registered lf lf' f e E e' :
  encodeFact lf f e = Some (E, e) ->
  conceptToPrime e ⊆ conceptToPrime e' ->
  encodeFact lf' f e' = Some (E, e').
Proof.
  intros H Hsub. apply encodeFact_inv in H as (ps & pp & po & -> & H1 & H2 & H3 & _).
  apply encodeFact_known; (eapply lookup_weaken; [eassumption | exact Hsub]).
Qed.

(** The loop over the conditions, on a list in two parts. *)
Lemma conditions_loop_app lf rec l1 l2 : forall ex st r st',
  conditions_loop lf rec (l1 ++ l2) ex st = Some (r, st') ->
  r = None
  \/ exists ex1 st1,
       conditions_loop lf rec l1 ex st = Some (Some ex1, st1)
       /\ conditions_loop lf rec l2 ex1 st1 = Some (r, st').
Proof.
  induction l1 as [|c l1 IH]; intros ex st r st' H.
  - right. exists ex, st. split; [reflexivity | exact H].
  - simpl app in H. cbn [conditions_loop] in H |- *.
    apply bind_Some in H as (o & st0 & Hd & H). rewrite (bind_eval _ _ _ _ _ Hd).
    destruct o as [g|]; [|left; apply ret_Some in H; congruence].
    apply bind_Some in H as (r1 & st1 & H1 & H). rewrite (bind_eval _ _ _ _ _ H1).
    destruct (result r1); [|left; apply ret_Some in H; congruence].
    apply IH, H.
Qed.

(** A standard rule whose condition list holds the same encoding twice
    never has all its conditions met: the second evaluation of the condition
    finds its key in the visited set. *)
Lemma duplicate_condition_never_fires lf n st c E pre mid rest ex r st' :
  enc_wf (encoder st) ->
  encodeFact lf c (encoder st) = Some (E, encoder st) ->
  conditions_loop lf (_deduce lf n) (pre ++ E :: mid ++ E :: rest) ex st
  = Some (r, st') ->
  (nextPrimeIndex (encoder st') <= 168)%nat ->
  r = None.
Proof.
  intros Hwf HE H Hroom.
  assert (Hgrows : forall l ex0, grows (conditions_loop lf (_deduce lf n) l ex0)).
  { intros l ex0. apply grows_conditions_loop. apply grows__deduce. }
  (* the conditions before the first occurrence *)
  apply conditions_loop_app in H as [->|(ex1 & st1 & Hpre & H)]; [reflexivity|].
  pose proof (Hgrows _ _ _ _ _ Hpre) as Hle0.
  pose proof (Hgrows _ _ _ _ _ H) as Hle1'.
  pose proof (sl_next _ _ Hle1') as Hn1.
  destruct (sl_wf _ _ Hle0 Hwf) as [Hwf1 _]; [lia|].
  pose proof (encodeFact_registered lf lf _ _ _ _ HE (sl_c2p _ _ Hle0)) as HE1.
  clear Hpre Hle0 Hwf HE st. 
  (* the first occurrence *)
  cbn [conditions_loop] in H.
  apply bind_Some in H as (o & st0 & Hd & H).
  apply on_encoder_Some in Hd as (e0 & Hd & ->).
  pose proof (decodeFact_state _ _ _ _ _ Hd) as ->.
  destruct o as [g|]; [|apply ret_Some in H; congruence].
  apply bind_Some in H as (r1 & st2 & H1 & H).
  destruct (result r1); [|apply ret_Some in H; congruence].
  pose proof (grows__deduce _ _ _ _ _ _ H1) as Hle2.
  (* the conditions in between *)
  apply conditions_loop_app in H as [->|(ex3 & st3 & Hmid & H)]; [reflexivity|].
  pose proof (Hgrows _ _ _ _ _ Hmid) as Hle3.
  pose proof (Hgrows _ _ _ _ _ H) as Hle4.
  pose proof (st_le_trans _ _ _ Hle2 Hle3) as Hle13.
  pose proof (sl_next _ _ Hle4) as Hn4.
  destruct (sl_wf _ _ Hle13 Hwf1) as [_ Hsub]; [simpl; lia|]. simpl in Hsub.
  pose proof (sl_primes _ _ Hle13) as Hp. simpl in Hp.
  (* the second occurrence *)
  cbn [conditions_loop] in H.
  apply bind_Some in H as (o2 & st4 & Hd2 & H).
  apply on_encoder_Some in Hd2 as (e4 & Hd2 & ->).
  pose proof (decodeFact_state _ _ _ _ _ Hd2) as ->.
  rewrite (decodeFact_stable _ _ _ _ _ _ _ Hwf1 HE1 Hp Hsub Hd) in Hd2.
  injection Hd2 as <-.
  apply bind_Some in H as (r2 & st5 & H2 & H).
  destruct (visited_is_shared _ _ _ _ _ _ H1) as (_ & _ & Hlater).
  apply Hlater in H2 as [-> _]; [|apply (sl_visited _ _ Hle3)].
  simpl in H. apply ret_Some in H. congruence.
Qed.

End DecodeStable.

(* ===================================================================== *)
(** ** C9: the visited set across the branches of one query                *)
(* ===================================================================== *)

Lemma duplicate_setup_mono lf lf' :
  (lf <= lf')%nat -> extends (Duplicate.setup lf) (Duplicate.setup lf').
Proof.
  intros H. unfold Duplicate.setup.
  pose proof (addFact_mono lf lf' H). pose proof (addRule_mono lf lf' H).
  extends_tac.
Qed.

Lemma duplicate_setup_once_mono lf lf' :
  (lf <= lf')%nat -> extends (Duplicate.setup_once lf) (Duplicate.setup_once lf').
Proof.
  intros H. unfold Duplicate.setup_once.
  pose proof (addFact_mono lf lf' H). pose proof (addRule_mono lf lf' H).
  extends_tac.
Qed.

(** C9, as amended. Within one top-level query the visited set is shared by
    all the branches and never shrinks: a fact that was attempted anywhere,
    even with success, fails with the circular-reasoning explanation at any
    later attempt. In particular a standard rule whose condition list holds
    the encoding [E] of a registered fact twice never has its conditions met,
    even when the condition is a stored fact (at most 168 concepts in the
    table); so in the store that holds "socrates is human" and the rule
    IF (socrates is human AND socrates is human) THEN (socrates is greek),
    the query of the conclusion fails, while the same rule with the condition
    named once succeeds. *)
Theorem cycle_guard_is_shared :
  (forall lf fuel q st r1 st1,
     _deduce lf fuel q st = Some (r1, st1) ->
     visited st ⊆ visited st1
     /\ Fact_toString q ∈ visited st1
     /\ forall lf' fuel' st2 r2 st2',
          visited st1 ⊆ visited st2 ->
          _deduce lf' fuel' q st2 = Some (r2, st2') ->
          r2 = circular q /\ visited st2' = visited st2)
  /\ (forall lf n st c E pre mid rest ex r st',
        enc_wf (encoder st) ->
        ConceptEncoder.encodeFact lf c (encoder st) = Some (E, encoder st) ->
        conditions_loop lf (_deduce lf n) (pre ++ E :: mid ++ E :: rest) ex st
        = Some (r, st') ->
        (nextPrimeIndex (encoder st') <= 168)%nat ->
        r = None)
  /\ (forall lf fuel, (2 <= lf)%nat -> (2 <= fuel)%nat ->
        exists st st1,
          after lf (Duplicate.setup lf) = Some st
          /\ fst <$> deduce lf fuel Duplicate.socrates_greek st
             = Some (could_not_deduce Duplicate.socrates_greek)
          /\ after lf (Duplicate.setup_once lf) = Some st1
          /\ fst <$> deduce lf fuel Duplicate.socrates_greek st1
             = Some {| result := true;
                       explanation := "Direct fact in knowledge base: socrates is human, which implies socrates is greek" |}).
Proof.
  split; [exact visited_is_shared|].
  split; [exact duplicate_condition_never_fires|].
  intros lf fuel Hlf Hfuel. eexists. eexists. split; [|split; [|split]].
  - apply (after_mono 2 lf _ _ _ (duplicate_setup_mono 2 lf Hlf)).
    vm_compute. reflexivity.
  - apply (extends_fst _ _ _ _ (deduce_mono 2 lf Hlf 2 fuel _ Hfuel)).
    vm_compute. reflexivity.
  - apply (after_mono 2 lf _ _ _ (duplicate_setup_once_mono 2 lf Hlf)).
    vm_compute. reflexivity.
  - apply (extends_fst _ _ _ _ (deduce_mono 2 lf Hlf 2 fuel _ Hfuel)).
    vm_compute. reflexivity.
Qed.

Lemma cycle_guard_is_shared_witness :
  exists st,
    after 2 (Duplicate.setup 2) = Some st
    /\ fst <$> deduce 2 2 Duplicate.socrates_greek st
       = Some (could_not_deduce Duplicate.socrates_greek).
Proof.
  destruct (proj2 (proj2 cycle_guard_is_shared) 2%nat 2%nat (le_n 2) (le_n 2))
    as (st & st1 & H1 & H2 & _).
  exists st. split; assumption.
Defined.

(** C9, as stated, fails: the rule IF (a is b AND a is b) THEN (a is a)
    does not fire, but with "a is b" stored the query "a is a" is answered
    [true] all the same, through the transitive fallback. *)
Lemma duplicate_condition_counterexample :
  exists st,
    after 2 (Duplicate.setup_symmetric 2) = Some st
    /\ facts (kb st) = [Duplicate.a_is_b]
    /\ fst <$> deduce 2 2 Duplicate.a_is_a st
       = Some {| result := true;
                 explanation := "a is b, and Direct fact in knowledge base: b is a" |}.
Proof.
  eexists. split; [vm_compute; reflexivity|].
  split; vm_compute; reflexivity.
Qed.

(* ===================================================================== *)
(** ** C3: a rule whose only condition is its own conclusion               *)
(* ===================================================================== *)

Section Barren.

Import ConceptEncoder ReasoningEngine.

Variable lf : nat.
Variable rec : Fact -> M ELLM Result.
Hypothesis Hgrows : forall f, grows (rec f).

Lemma quantified_pass_standard rs q st x st' :
  Forall (fun r => exists c cs concl, r = EncStandard (c :: cs) concl) rs ->
  quantified_pass rec rs q st = Some (x, st') -> x = None /\ st' = st.
Proof.
  induction 1 as [|r rs (c & cs & concl & ->) _ IH]; simpl; intros H.
  - apply ret_Some in H as [= -> ->]. auto.
  - apply IH, H.
Qed.

Lemma standard_pass_barren rs q E k : forall st x st',
  Forall (fun r => exists c cs concl, r = EncStandard (c :: cs) concl) rs ->
  (forall g s r s', kb s = k -> rec g s = Some (r, s') -> result r = false) ->
  kb st = k ->
  standard_pass lf rec rs q E st = Some (x, st') -> x = None /\ kb st' = k.
Proof.
  intros st x st' Hrs Hrec. revert st.
  induction Hrs as [|r rs (c & cs & concl & ->) _ IH]; intros st Hk H.
  - cbn [standard_pass] in H. apply ret_Some in H as [= -> ->]. auto.
  - cbn [standard_pass] in H.
    destruct (concl =? E); [|apply (IH st Hk H)].
    apply bind_Some in H as (met & st1 & Hc & H).
    assert (Hmet : met = None /\ kb st1 = k).
    { cbn [conditions_loop] in Hc.
      apply bind_Some in Hc as (o & st0 & Hd & Hc).
      pose proof (sl_kb _ _ (grows_decodeFact _ _ _ _ _ Hd)) as Hk0.
      destruct o as [g|]; [|apply ret_Some in Hc as [= <- <-]; split; congruence].
      apply bind_Some in Hc as (r & st2 & Hr & Hc).
      pose proof (sl_kb _ _ (Hgrows _ _ _ _ Hr)) as Hk2.
      rewrite (Hrec g st0 r st2 ltac:(congruence) Hr) in Hc.
      apply ret_Some in Hc as [= <- <-]. split; congruence. }
    destruct Hmet as [-> Hk1]. apply (IH st1 Hk1 H).
Qed.

End Barren.

Section BarrenDeduce.

Import ConceptEncoder ReasoningEngine.

(** In a barren store no query succeeds; a query whose key is not in the
    visited set fails with "Could not deduce". *)
Lemma barren_never_true lf fuel : forall q st r st',
  barren (kb st) -> _deduce lf fuel q st = Some (r, st') ->
  result r = false
  /\ (Fact_toString q ∉ visited st -> r = could_not_deduce q).
Proof.
  induction fuel as [|fuel IH]; intros q st r st' Hb H; [discriminate|].
  simpl in H. unfold deduce_body in H.
  apply bind_Some in H as (E & st1 & HE & H).
  apply on_encoder_Some in HE as (e1 & _ & ->).
  unfold bind at 1 in H. unfold gets at 1 in H. simpl in H.
  destruct (bool_decide (Fact_toString q ∈ visited st)) eqn:Hv.
  { apply ret_Some in H as [= -> _]. split; [reflexivity|].
    apply bool_decide_eq_true_1 in Hv. intros Hn. contradiction. }
  assert (Hgoal : r = could_not_deduce q); [|subst r; split; [reflexivity | auto]].
  destruct Hb as (Hf & Hfe & Hrs).
  apply bind_Some in H as ([] & st2 & H2 & H).
  unfold set_visited, modify in H2. injection H2 as <-.
  unfold bind at 1 in H. unfold gets at 1 in H. simpl in H.
  rewrite Hfe in H. simpl in H.
  unfold bind at 1 in H. unfold gets at 1 in H. simpl in H.
  apply bind_Some in H as (r1 & st3 & H3 & H).
  apply (quantified_pass_standard _ _ _ _ _ _ Hrs) in H3 as [-> ->].
  unfold bind at 1 in H. unfold gets at 1 in H. simpl in H.
  apply bind_Some in H as (r2 & st4 & H4 & H).
  apply (standard_pass_barren lf _ (grows__deduce lf fuel) _ _ _ (kb st)) in H4
    as [-> Hk4]; [|exact Hrs | | reflexivity].
  2:{ intros g s r' s' Hk Hr. apply (IH g s r' s'); [|exact Hr].
      rewrite Hk. repeat split; assumption. }
  destruct (bool_decide (predicate q = "is") || bool_decide (predicate q = "part of"));
    [|apply ret_Some in H; congruence].
  unfold tryTransitiveReasoning in H.
  apply bind_Some in H as (t & st5 & H5 & H).
  unfold bind, gets in H5. rewrite Hk4, Hf in H5. simpl in H5.
  apply ret_Some in H5 as [= -> ->]. simpl in H. apply ret_Some in H. congruence.
Qed.

End BarrenDeduce.

Section SelfRule.

Import ConceptEncoder ReasoningEngine.

Variable lf : nat.
Variable f : Fact.
Variable E : Z.
Variable e0 : ConceptEncoder.
Variable o : option Fact.

Hypothesis Hwf0 : enc_wf e0.
Hypothesis HE0 : encodeFact lf f e0 = Some (E, e0).
Hypothesis Hdec0 : decodeFact lf E e0 = Some (o, e0).

Lemma self_state_decode room st :
  self_state E e0 room st ->
  decodeFact lf E (encoder st) = Some (o, encoder st).
Proof.
  intros (_ & _ & _ & Hp & Hsub).
  eapply decodeFact_stable; eassumption.
Qed.

(** A fact whose key is in the visited set: one level is enough. *)
Lemma self_rule_circular rec g st :
  self_state E e0 3 st -> Fact_toString g ∈ visited st ->
  is_Some (deduce_body lf rec g st).
Proof.
  intros (Hwf & Hroom & _) Hin.
  destruct (encodeFact_total lf g (encoder st) Hwf Hroom) as (Eg & e1 & HEg).
  rewrite (deduce_body_circular_returns _ _ _ _ _ _ Hin HEg). eauto.
Qed.

(** One level of the search: it returns as soon as the recursive calls on
    the decoded condition do. *)
Lemma self_rule_level rec room g st :
  (forall h, grows (rec h)) ->
  self_state E e0 (room + 3) st ->
  (forall D st1, o = Some D -> self_state E e0 room st1 ->
                 Fact_toString g ∈ visited st1 -> is_Some (rec D st1)) ->
  is_Some (deduce_body lf rec g st).
Proof.
  intros Hgrows (Hwf & Hroom & Hkb & Hp & Hsub) Hrec.
  destruct (encodeFact_total lf g (encoder st) Hwf) as (Eg & e1 & HEg); [lia|].
  pose proof (encodeFact_inv _ _ _ _ _ HEg) as (_ & _ & _ & _ & _ & _ & _ & Hle).
  pose proof (le_next _ _ _ Hle) as Hn.
  destruct (encodeFact_wf _ _ _ _ _ Hwf HEg) as [Hwf1 Hsub1]; [lia|].
  unfold deduce_body.
  rewrite (bind_eval _ _ _ _ _ (proj2 (on_encoder_Some _ _ _ _)
             (ex_intro _ e1 (conj HEg eq_refl)))).
  rewrite bind_gets. cbn [visited].
  destruct (bool_decide (Fact_toString g ∈ visited st)); [unfold ret; eauto|].
  unfold set_visited. rewrite bind_modify. cbn [encoder kb visited].
  rewrite bind_gets. cbn [kb]. rewrite Hkb. cbn [factEncodings self_store existsb].
  rewrite bind_gets. cbn [kb rules self_store quantified_pass]. rewrite bind_ret.
  rewrite bind_gets. cbn [kb rules self_store standard_pass].
  set (st2 := {| encoder := e1; kb := self_store E;
                 visited := visited st ∪ {[Fact_toString g]} |}).
  assert (Hst2 : self_state E e0 room st2).
  { repeat split; simpl; [apply Hwf1.. | lia | | ].
    - rewrite (le_primes _ _ _ Hle). exact Hp.
    - etrans; [exact Hsub | exact Hsub1]. }
  assert (Htail : forall st3, kb st3 = self_store E ->
    is_Some ((if bool_decide (predicate g = "is") || bool_decide (predicate g = "part of")
              then let* transitiveResult := tryTransitiveReasoning rec g in
                   if result transitiveResult then ret transitiveResult
                   else ret (could_not_deduce g)
              else ret (could_not_deduce g)) st3)).
  { intros st3 Hk3. destruct (_ || _); [|unfold ret; eauto].
    unfold tryTransitiveReasoning. rewrite bind_assoc, bind_gets, Hk3.
    cbn [facts self_store transitive_loop]. rewrite bind_ret. unfold ret. eauto. }
  destruct (E =? Eg).
  - cbn [conditions_loop]. rewrite !bind_assoc.
    assert (Hd : on_encoder (decodeFact lf E) st2 = Some (o, st2)).
    { apply on_encoder_Some. exists (encoder st2).
      split; [apply (self_state_decode room st2 Hst2) | reflexivity]. }
    rewrite (bind_eval _ _ _ _ _ Hd).
    destruct o as [D|].
    + rewrite bind_assoc.
      destruct (Hrec D st2 eq_refl Hst2) as [[r3 st3] Hr3];
        [simpl; apply elem_of_union_r, elem_of_singleton; reflexivity|].
      rewrite (bind_eval _ _ _ _ _ Hr3).
      pose proof (sl_kb _ _ (Hgrows _ _ _ _ Hr3)) as Hk3. simpl in Hk3.
      destruct (result r3).
      * cbn [conditions_loop]. rewrite !bind_ret. unfold ret. eauto.
      * rewrite bind_ret. cbn [standard_pass]. rewrite bind_ret.
        apply Htail, Hk3.
    + rewrite bind_ret. cbn [standard_pass]. rewrite bind_ret.
      apply Htail. reflexivity.
  - rewrite bind_ret. apply Htail. reflexivity.
Qed.

Lemma self_rule_returns g st :
  self_state E e0 9 st -> is_Some (_deduce lf 3 g st).
Proof.
  intros Hst. change (is_Some (deduce_body lf (_deduce lf 2) g st)).
  apply (self_rule_level _ 6); [apply grows__deduce | exact Hst |].
  intros D st1 HD Hst1 _.
  change (is_Some (deduce_body lf (_deduce lf 1) D st1)).
  apply (self_rule_level _ 3); [apply grows__deduce | exact Hst1 |].
  intros D' st2 HD' Hst2 Hin.
  assert (D' = D) by congruence. subst D'.
  change (is_Some (deduce_body lf (_deduce lf 0) D st2)).
  apply self_rule_circular; assumption.
Qed.

End SelfRule.

Section SelfReferential.

Import ConceptEncoder KnowledgeBase ReasoningEngine.

(** In a store that holds nothing but the standard rule IF (f) THEN (f),
    the query [f] is not deduced, for every fact [f]. *)
Lemma self_rule_only_store :
  forall lf fuel st0 f,
    enc_wf (encoder st0) -> (nextPrimeIndex (encoder st0) + 12 <= 168)%nat ->
    kb st0 = KnowledgeBase.new ->
    (30 <= lf)%nat -> (3 <= fuel)%nat ->
    exists E st st',
      addRule lf (new_Rule [f] f) st0 = Some (EncStandard [E] E, st)
      /\ kb st = {| factEncodings := []; rules := [EncStandard [E] E]; facts := [] |}
      /\ deduce lf fuel f st = Some (could_not_deduce f, st').
Proof.
  intros lf fuel st0 f Hwf Hroom Hkb Hlf Hfuel.
  destruct (encodeFact_total lf f (encoder st0) Hwf) as (E & e1 & HE); [lia|].
  pose proof (encodeFact_idempotent lf lf _ _ _ _ HE) as HE1.
  pose proof (encodeFact_inv _ _ _ _ _ HE) as (ps & pp & po & HEq & K1 & K2 & K3 & Hle).
  pose proof (le_next _ _ _ Hle) as Hn.
  destruct (encodeFact_wf _ _ _ _ _ Hwf HE) as [Hwf1 _]; [lia|].
  set (K := {| factEncodings := []; rules := [EncStandard [E] E]; facts := [] |}).
  set (st := {| encoder := e1; kb := K; visited := visited st0 |}).
  assert (Hadd : addRule lf (new_Rule [f] f) st0 = Some (EncStandard [E] E, st)).
  { unfold addRule.
    assert (Hr : on_encoder (encodeRule lf (new_Rule [f] f)) st0
                 = Some (EncStandard [E] E,
                         {| encoder := e1; kb := kb st0; visited := visited st0 |})).
    { apply on_encoder_Some. exists e1. split; [|reflexivity].
      unfold encodeRule. cbn [type new_Rule conditions conclusion encodeFacts].
      rewrite bind_assoc, (bind_eval _ _ _ _ _ HE), bind_assoc, bind_ret, bind_ret.
      rewrite (bind_eval _ _ _ _ _ HE1). reflexivity. }
    rewrite (bind_eval _ _ _ _ _ Hr), bind_modify. cbn [encoder kb visited].
    rewrite Hkb. reflexivity. }
  (* the condition decodes to some fact, or to none *)
  destruct (enc_wf_prime _ _ _ Hwf1 K1) as [Pa La].
  destruct (enc_wf_prime _ _ _ Hwf1 K2) as [Pb Lb].
  destruct (enc_wf_prime _ _ _ Hwf1 K3) as [Pc Lc].
  destruct (factorize_triple lf ps pp po (primeCalc e1) (wf_primes _ Hwf1))
    as (l & Hf & _); try assumption.
  assert (Hdec : exists o, decodeFact lf E e1 = Some (o, e1)).
  { unfold decodeFact. rewrite HEq, Hf.
    destruct l as [|a [|b [|c [|d l]]]]; eauto. }
  destruct Hdec as [o Hdec].
  set (st_a := {| encoder := e1; kb := K; visited := ∅ |}).
  assert (Hst : self_state E e1 9 st_a).
  { repeat split; simpl; [apply Hwf1.. | lia | reflexivity]. }
  destruct (self_rule_returns lf f E e1 o Hwf1 HE1 Hdec f st_a Hst) as [[r st'] Hr].
  assert (Hres : r = could_not_deduce f).
  { apply (barren_never_true _ _ _ _ _ _) in Hr as [_ Hr]; [apply Hr|].
    - simpl. apply not_elem_of_empty.
    - simpl. repeat split. repeat constructor. eauto. }
  subst r. exists E, st, st'. split; [exact Hadd|]. split; [reflexivity|].
  unfold deduce, set_visited. rewrite bind_modify. cbn [encoder kb visited st].
  apply (_deduce_mono lf lf (le_n lf) 3 fuel f Hfuel). exact Hr.
Qed.

End SelfReferential.

(* ===================================================================== *)
(** ** C1: one prime per concept                                           *)
(* ===================================================================== *)

Section Collision.

Import ConceptEncoder.

Lemma register_mono lf lf' cs :
  (lf <= lf')%nat -> extends (register lf cs) (register lf' cs).
Proof.
  intros H. induction cs as [|c cs IH]; simpl; [apply extends_refl|].
  pose proof (getPrime_mono lf lf' H). extends_tac.
Qed.

Lemma collision_observed_true : collision_observed = true.
Proof. vm_compute. reflexivity. Qed.

(** C1 (a defect inherited from [getNthPrime]): a concept keeps its prime for the
    life of the encoder, and two concepts get different primes as long as the
    table holds at most 168 concepts (see [getPrime_idempotent],
    [getPrime_stable] and [enc_wf_injective]); but the 169th and the 170th
    concept both receive 1009. After "_variable_" and "c0" ... "c168", the
    distinct concepts "c167" and "c168" share the prime 1009, and the reverse
    table maps 1009 to the latter only. *)
Theorem getPrime_collision :
  forall lf, (12 <= lf)%nat ->
    exists ps e,
      register lf (concept_names 169) initial_encoder = Some (ps, e)
      /\ NoDup (concept_names 169)
      /\ getPrime lf "c167" e = Some (1009, e)
      /\ getPrime lf "c168" e = Some (1009, e)
      /\ getConceptName e 1009 = "c168".
Proof.
  intros lf Hlf. pose proof collision_observed_true as H.
  unfold collision_observed in H.
  destruct (register 12 (concept_names 169) initial_encoder) as [[ps e]|] eqn:E;
    [|discriminate].
  apply andb_prop in H as [H H3]. apply andb_prop in H as [H1 H2].
  apply bool_decide_eq_true_1 in H1, H2, H3.
  exists ps, e. split; [apply (register_mono 12 lf _ Hlf _ _ E)|].
  split; [apply (bool_decide_unpack _); vm_compute; exact I|].
  split; [apply getPrime_known, H1|]. split; [apply getPrime_known, H2 | exact H3].
Qed.

Lemma getPrime_collision_witness :
  exists ps e,
    register 12 (concept_names 169) initial_encoder = Some (ps, e)
    /\ NoDup (concept_names 169)
    /\ getPrime 12 "c167" e = Some (1009, e)
    /\ getPrime 12 "c168" e = Some (1009, e)
    /\ getConceptName e 1009 = "c168".
Proof. apply (getPrime_collision 12). lia. Defined.

End Collision.

(* ===================================================================== *)
(** ** C4: a capability rule and a stored "cannot" fact                    *)
(* ===================================================================== *)

Section Capability.

Import ConceptEncoder KnowledgeBase ReasoningEngine.

(** One registration in a well-formed table with room. *)
Lemma getPrime_step lf c e :
  enc_wf e -> (nextPrimeIndex e + 1 <= 168)%nat ->
  exists p e',
    getPrime lf c e = Some (p, e')
    /\ enc_wf e' /\ conceptToPrime e ⊆ conceptToPrime e'
    /\ (nextPrimeIndex e' <= nextPrimeIndex e + 1)%nat
    /\ conceptToPrime e' !! JS.toLowerCase c = Some p.
Proof.
  intros Hwf Hroom.
  destruct (getPrime_total lf c e Hwf) as (p & e' & H); [lia|].
  destruct (getPrime_le _ _ _ _ _ H) as [Hle Hk].
  pose proof (le_next _ _ _ Hle).
  destruct (getPrime_wf _ _ _ _ _ Hwf H) as [Hwf' _]; [lia|].
  exists p, e'. split; [exact H|]. split; [exact Hwf'|].
  split; [apply Hle|]. split; [lia | exact Hk].
Qed.

Lemma encodeFact_step lf f e :
  enc_wf e -> (nextPrimeIndex e + 3 <= 168)%nat ->
  exists E e',
    encodeFact lf f e = Some (E, e')
    /\ enc_wf e' /\ conceptToPrime e ⊆ conceptToPrime e'
    /\ (nextPrimeIndex e' <= nextPrimeIndex e + 3)%nat
    /\ (forall lf', encodeFact lf' f e' = Some (E, e')).
Proof.
  intros Hwf Hroom.
  destruct (encodeFact_total lf f e Hwf Hroom) as (E & e' & H).
  pose proof (encodeFact_inv _ _ _ _ _ H) as (_ & _ & _ & _ & _ & _ & _ & Hle).
  pose proof (le_next _ _ _ Hle).
  destruct (encodeFact_wf _ _ _ _ _ Hwf H) as [Hwf' _]; [lia|].
  exists E, e'. split; [exact H|]. split; [exact Hwf'|].
  split; [apply Hle|]. split; [lia|].
  intros lf'. eapply encodeFact_idempotent, H.
Qed.

Lemma string_app_inv_head (s t1 t2 : string) : s +:+ t1 = s +:+ t2 -> t1 = t2.
Proof.
  induction s as [|c s IH]; intros H; [exact H|].
  change (String c (s +:+ t1) = String c (s +:+ t2)) in H.
  injection H as H. apply IH, H.
Qed.

Lemma key_is_can x c a :
  Fact_toString (new_Fact x "is" c) <> Fact_toString (new_Fact x "can" a).
Proof.
  unfold Fact_toString, new_Fact. cbn [subject predicate object].
  intros H. apply string_app_inv_head in H.
  change (JS.toLowerCase "is") with "is" in H.
  change (JS.toLowerCase "can") with "can" in H.
  change (String " " (String "i" ("s" +:+ " " +:+ JS.toLowerCase c))
          = String " " (String "c" ("an" +:+ " " +:+ JS.toLowerCase a))) in H.
  discriminate.
Qed.

(** With the membership fact "x is c" and the rule "all c can a" in the
    store, the query "x can a" succeeds, whatever else is stored. *)
Lemma capability_rule_fires lf fuel st0 x c a other :
  enc_wf (encoder st0) -> (nextPrimeIndex (encoder st0) + 18 <= 168)%nat ->
  kb st0 = KnowledgeBase.new ->
  JS.toLowerCase c <> "" -> JS.toLowerCase a <> "" ->
  (2 <= fuel)%nat ->
  exists st r st',
    snd <$> capability_setup lf x c a other st0 = Some st
    /\ facts (kb st) = [new_Fact x "is" c; other]
    /\ deduce lf fuel (new_Fact x "can" a) st = Some (r, st')
    /\ result r = true
    /\ (explanation r
        = "Direct fact in knowledge base: " +:+ Fact_toString (new_Fact x "can" a)
        \/ explanation r
           = "Direct fact in knowledge base: " +:+ Fact_toString (new_Fact x "is" c)
             +:+ ", and all " +:+ JS.toLowerCase c +:+ " can " +:+ JS.toLowerCase a).
Proof.
  intros Hwf0 Hroom Hkb Hc Ha Hfuel.
  set (f1 := new_Fact x "is" c). set (q := new_Fact x "can" a).
  (* the three additions *)
  destruct (encodeFact_step lf f1 (encoder st0) Hwf0) as (E1 & e1 & H1 & W1 & S1 & N1 & I1);
    [lia|].
  destruct (getPrime_step lf c e1 W1) as (pc & e2 & H2 & W2 & S2 & N2 & K2); [lia|].
  destruct (getPrime_step lf a e2 W2) as (pa & e3 & H3 & W3 & S3 & N3 & K3); [lia|].
  destruct (getPrime_step lf "can" e3 W3) as (pcan & e4 & H4 & W4 & S4 & N4 & K4); [lia|].
  destruct (encodeFact_step lf (new_Fact "_x_" "is" c) e4 W4)
    as (Ec & e5 & H5 & W5 & S5 & N5 & _); [lia|].
  destruct (encodeFact_step lf (new_Fact "_x_" "can" a) e5 W5)
    as (En & e6 & H6 & W6 & S6 & N6 & _); [lia|].
  destruct (encodeFact_step lf other e6 W6) as (E3 & e7 & H7 & W7 & S7 & N7 & _); [lia|].
  set (R := EncQuantified q_capability (variablePrime e1) pc pa pcan Ec En).
  set (K := {| factEncodings := [E1; E3]; rules := [R]; facts := [f1; other] |}).
  set (st := {| encoder := e7; kb := K; visited := visited st0 |}).
  assert (Hsetup : capability_setup lf x c a other st0 = Some (E3, st)).
  { unfold capability_setup, addFact, addRule. rewrite !bind_assoc.
    rewrite (bind_eval _ _ _ _ _ (proj2 (on_encoder_Some _ _ _ _)
               (ex_intro _ e1 (conj H1 eq_refl)))).
    rewrite bind_assoc, bind_modify, bind_ret, bind_assoc.
    assert (Hr : on_encoder (encodeRule lf (createCapabilityRule c a))
                   {| encoder := e1;
                      kb := {| factEncodings := factEncodings (kb st0) ++ [E1];
                               rules := rules (kb st0);
                               facts := facts (kb st0) ++ [f1] |};
                      visited := visited st0 |}
                 = Some (R, {| encoder := e6;
                               kb := {| factEncodings := factEncodings (kb st0) ++ [E1];
                                        rules := rules (kb st0);
                                        facts := facts (kb st0) ++ [f1] |};
                               visited := visited st0 |})).
    { apply on_encoder_Some. exists e6. split; [|reflexivity]. cbn [encoder].
      unfold encodeRule.
      cbn [type createCapabilityRule category capability_ property conditions
           conclusion JS.String_ bool_decide decide_rel].
      rewrite bind_gets. rewrite (bind_eval _ _ _ _ _ H2).
      replace (bool_decide (capability = universal)) with false
        by (symmetry; apply bool_decide_eq_false_2; discriminate).
      cbn [JS.String_].
      rewrite (bind_eval _ _ _ _ _ H3), (bind_eval _ _ _ _ _ H4).
      rewrite (bind_eval _ _ _ _ _ H5), (bind_eval _ _ _ _ _ H6). reflexivity. }
    cbn [encoder kb visited]. rewrite (bind_eval _ _ _ _ _ Hr).
    rewrite bind_assoc, bind_modify, bind_ret. cbn [encoder kb visited].
    rewrite (bind_eval _ _ _ _ _ (on_encoder_eval _ _ _ _ _ _ H7)).
    rewrite bind_modify. cbn [encoder kb visited factEncodings rules facts].
    rewrite Hkb. reflexivity. }
  (* what the final table knows *)
  assert (S27 : conceptToPrime e2 ⊆ conceptToPrime e7)
    by (repeat (etrans; [eassumption|]); reflexivity).
  assert (S37 : conceptToPrime e3 ⊆ conceptToPrime e7)
    by (repeat (etrans; [eassumption|]); reflexivity).
  assert (S47 : conceptToPrime e4 ⊆ conceptToPrime e7)
    by (repeat (etrans; [eassumption|]); reflexivity).
  assert (S17 : conceptToPrime e1 ⊆ conceptToPrime e7)
    by (etrans; [exact S2 | exact S27]).
  pose proof (lookup_weaken _ _ _ _ K2 S27) as Kc.
  pose proof (lookup_weaken _ _ _ _ K3 S37) as Ka.
  pose proof (lookup_weaken _ _ _ _ K4 S47) as Kcan.
  change (JS.toLowerCase "can") with "can" in Kcan.
  pose proof (encodeFact_registered lf lf f1 e1 E1 e7 (I1 lf) S17) as HE1.
  destruct (encodeFact_step lf q e7 W7) as (Eq & e8 & H8 & _ & _ & _ & _); [lia|].
  assert (He8 : e8 = e7).
  { pose proof (encodeFact_inv _ _ _ _ _ HE1) as (ps & pp & po & _ & L1 & _ & _ & _).
    assert (encodeFact lf q e7 = Some (ps * pcan * pa, e7)); [|congruence].
    apply encodeFact_known; [exact L1 | exact Kcan |].
    subst q. cbn [object new_Fact]. rewrite toLowerCase_idempotent. exact Ka. }
  subst e8.
  (* the query *)
  assert (Hmember : forall v, Fact_toString f1 ∉ v ->
    _deduce lf 1 f1 {| encoder := e7; kb := K; visited := v |}
    = Some ({| result := true;
               explanation := "Direct fact in knowledge base: "
                              +:+ Fact_toString f1 |},
            {| encoder := e7; kb := K; visited := v ∪ {[Fact_toString f1]} |})).
  { intros v Hv. cbn [_deduce]. unfold deduce_body.
    rewrite (bind_eval _ _ _ _ _ (on_encoder_eval _ _ _ _ _ _ HE1)).
    rewrite bind_gets. cbn [visited].
    rewrite bool_decide_eq_false_2 by exact Hv.
    unfold set_visited. rewrite bind_modify, bind_gets.
    cbn [kb encoder visited K factEncodings existsb].
    rewrite Z.eqb_refl. cbn [orb]. reflexivity. }
  assert (Hq : exists r st',
    _deduce lf 2 q {| encoder := e7; kb := K; visited := ∅ |} = Some (r, st')
    /\ result r = true
    /\ (explanation r = "Direct fact in knowledge base: " +:+ Fact_toString q
        \/ explanation r
           = "Direct fact in knowledge base: " +:+ Fact_toString f1
             +:+ ", and all " +:+ JS.toLowerCase c +:+ " can " +:+ JS.toLowerCase a)).
  { change (_deduce lf 2 q) with (deduce_body lf (_deduce lf 1) q).
    unfold deduce_body.
    rewrite (bind_eval _ _ _ _ _ (on_encoder_eval _ _ _ _ _ _ H8)).
    rewrite bind_gets. cbn [visited].
    rewrite bool_decide_eq_false_2 by apply not_elem_of_empty.
    unfold set_visited. rewrite bind_modify, bind_gets.
    cbn [kb encoder visited].
    destruct (existsb (Z.eqb Eq) (factEncodings K));
      [unfold ret; eexists _, _; split; [reflexivity | split; [reflexivity | left; reflexivity]]|].
    rewrite bind_gets. cbn [kb rules K R quantified_pass].
    rewrite bind_assoc, bind_gets. cbn [encoder].
    rewrite (getConceptName_registered e7 "can" pcan W7 Kcan) by discriminate.
    rewrite (getConceptName_registered e7 _ pa W7 Ka Ha).
    rewrite (getConceptName_registered e7 _ pc W7 Kc Hc).
    assert (Hp : bool_decide (predicate q = "can") = true)
      by (apply bool_decide_eq_true_2; reflexivity).
    assert (Ho : bool_decide (object q = JS.toLowerCase a) = true)
      by (apply bool_decide_eq_true_2; reflexivity).
    rewrite Hp, Ho. cbn [andb].
    assert (Hm : new_Fact (subject q) "is" (JS.toLowerCase c) = f1).
    { unfold f1, q, new_Fact. cbn [subject]. rewrite !toLowerCase_idempotent.
      reflexivity. }
    rewrite Hm, bind_assoc.
    assert (Hst1 := Hmember (∅ ∪ {[Fact_toString q]})).
    rewrite (bind_eval _ _ _ _ _ (Hst1 ltac:(
      intros Hin; apply elem_of_union in Hin as [Hin|Hin];
      [exact (not_elem_of_empty _ Hin)
      | apply elem_of_singleton in Hin; exact (key_is_can _ _ _ Hin)]))).
    cbn [result].
    rewrite bind_assoc, bind_gets. cbv beta. rewrite bind_ret. cbv beta iota.
    cbn [encoder explanation].
    rewrite (getConceptName_registered e7 _ pa W7 Ka Ha).
    rewrite (getConceptName_registered e7 _ pc W7 Kc Hc).
    unfold ret.
    eexists _, _. split; [reflexivity|]. split; [reflexivity | right; reflexivity]. }
  destruct Hq as (r & st' & Hr & Hres & Hex).
  exists st, r, st'. split; [rewrite Hsetup; reflexivity|].
  split; [reflexivity|]. split; [|split; [exact Hres | exact Hex]].
  unfold deduce, set_visited. rewrite bind_modify. cbn [encoder kb visited st].
  apply (_deduce_mono lf lf (le_n lf) 2 fuel q Hfuel). exact Hr.
Qed.

Lemma capability_setup_mono lf lf' x c a other :
  (lf <= lf')%nat ->
  extends (capability_setup lf x c a other) (capability_setup lf' x c a other).
Proof.
  intros H. unfold capability_setup.
  pose proof (addFact_mono lf lf' H). pose proof (addRule_mono lf lf' H).
  extends_tac.
Qed.

End Capability.

(* ===================================================================== *)
(** * Further properties of the code                                       *)
(* ===================================================================== *)

(** ** The sieve, for every bound *)

Lemma sieve_inner_spec k max i : (1 <= i)%nat -> forall j sieve,
  length sieve = S max -> (S max <= k + j)%nat ->
  length (sieve_inner k max i j sieve) = S max
  /\ forall n : nat,
       default false (sieve_inner k max i j sieve !! n) = true
       <-> default false (sieve !! n) = true
           /\ ~ (exists q : nat, n = j + q * i /\ n <= max)%nat.
Proof.
  intros Hi. induction k as [|k IH]; intros j sieve Hlen Hk; simpl.
  - split; [exact Hlen|]. intros n. split; [|tauto].
    intros H. split; [exact H|]. intros (q & -> & Hle). lia.
  - destruct (Nat.leb_spec j max) as [Hj|Hj].
    + destruct (IH (j + i)%nat (<[j:=false]> sieve)) as [L1 L2];
        [rewrite length_insert; exact Hlen | lia |].
      split; [exact L1|]. intros n. rewrite L2.
      destruct (decide (n = j)) as [->|Hne].
      * rewrite list_lookup_insert_eq by lia. simpl. split; [intros [? _]; discriminate|].
        intros [_ H]. exfalso. apply H. exists 0%nat. lia.
      * rewrite list_lookup_insert_ne by congruence. split; intros [H1 H2]; (split; [exact H1|]).
        -- intros (q & -> & Hle). destruct q as [|q]; [lia|].
           apply H2. exists q. lia.
        -- intros (q & -> & Hle). apply H2. exists (S q). lia.
    + split; [exact Hlen|]. intros n. split; [|tauto].
      intros H. split; [exact H|]. intros (q & -> & Hle). lia.
Qed.

Lemma struck_S i n :
  struck (S i) n <-> struck i n \/ ((2 <= i)%nat /\ exists q : nat, (n = i * i + q * i)%nat).
Proof.
  split.
  - intros (d & q & Hd & ->). destruct (decide (d = i)) as [->|Hne].
    + right. split; [lia|]. exists q. reflexivity.
    + left. exists d, q. split; [lia | reflexivity].
  - intros [(d & q & Hd & ->) | (Hi & q & ->)].
    + exists d, q. split; [lia | reflexivity].
    + exists i, q. split; [lia | reflexivity].
Qed.

Lemma struck_multiple i d n q :
  struck i d -> (n = d * d + q * d)%nat -> struck i n.
Proof.
  intros (e & r & He & ->) ->. exists e.
  exists ((e + r) * ((e * e + r * e) + q) - e)%nat.
  split; [exact He|]. nia.
Qed.

Lemma sieve_outer_spec max k : forall i sieve,
  (2 <= i)%nat -> sieve_inv max i sieve -> (max < (i + k) * (i + k))%nat ->
  exists i', (max < i' * i')%nat /\ sieve_inv max i' (sieve_outer k max i sieve).
Proof.
  induction k as [|k IH]; intros i sieve Hi Hinv Hk; cbn [sieve_outer].
  - exists i. split; [replace (i + 0)%nat with i in Hk by lia; exact Hk | exact Hinv].
  - destruct (Nat.leb_spec (i * i) max) as [Hle|Hgt].
    2:{ exists i. split; [lia | exact Hinv]. }
    apply IH; [lia | | replace (S i + k)%nat with (i + S k)%nat by lia; exact Hk].
    destruct Hinv as [Hlen Hinv].
    destruct (default false (sieve !! i)) eqn:Hsi.
    + destruct (sieve_inner_spec (S max) max i ltac:(lia) (i * i)%nat sieve Hlen ltac:(lia))
        as [L1 L2].
      split; [exact L1|]. intros n Hn. rewrite L2, (Hinv n Hn), struck_S.
      split.
      * intros [[H2 Hs] Hq]. split; [exact H2|]. intros [Hs' | (_ & q & ->)]; [tauto|].
        apply Hq. exists q. lia.
      * intros [H2 Hs]. split; [split; [exact H2 | tauto]|].
        intros (q & -> & _). apply Hs. right. split; [lia|]. exists q. reflexivity.
    + split; [exact Hlen|]. intros n Hn. rewrite (Hinv n Hn), struck_S.
      split; [|tauto]. intros [H2 Hs]. split; [exact H2|].
      intros [Hs' | (_ & q & ->)]; [tauto|].
      destruct (Hinv i) as [_ Hb]; [nia|].
      rewrite Hb in Hsi; [discriminate|]. split; [lia|].
      intros Hii. apply Hs. apply (struck_multiple i i _ q Hii). reflexivity.
Qed.

Lemma sieve_init max :
  sieve_inv max 2 (<[1%nat := false]> (<[0%nat := false]> (replicate (S max) true))).
Proof.
  split; [rewrite !length_insert, length_replicate; reflexivity|].
  intros n Hn. split.
  - intros H. split.
    + destruct n as [|[|n]]; [| |lia].
      * rewrite list_lookup_insert_ne, list_lookup_insert_eq in H
          by (try rewrite length_replicate; lia). discriminate.
      * rewrite list_lookup_insert_eq in H
          by (rewrite length_insert, length_replicate; lia). discriminate.
    + intros (d & q & Hd & _). lia.
  - intros [H2 _]. rewrite !list_lookup_insert_ne by lia.
    rewrite lookup_replicate_2 by lia. reflexivity.
Qed.

Lemma prime_sqrt_criterion n :
  1 < n -> (forall d, 2 <= d -> d * d <= n -> ~ (d | n)) -> Z.prime n.
Proof.
  intros Hn Hd. destruct (primeb n) eqn:Hp; [apply primeb_prime, Hp|].
  exfalso. destruct (composite_divisor n Hn Hp) as (e & He & f & Hf).
  assert (1 < f) by nia.
  destruct (Z_le_gt_dec (e * e) n) as [Hle|Hgt].
  - apply (Hd e); [lia | exact Hle | exists f; exact Hf].
  - apply (Hd f); [lia | nia | exists e; lia].
Qed.

Lemma prime_not_struck i (n : nat) : Z.prime (Z.of_nat n) -> ~ struck i n.
Proof.
  intros Hp (d & q & Hd & ->).
  assert (Hdiv : (Z.of_nat d | Z.of_nat (d * d + q * d))).
  { exists (Z.of_nat (d + q)). lia. }
  destruct Hp as [_ Hp]. apply (Hp (Z.of_nat d)); [nia | exact Hdiv].
Qed.

Lemma not_struck_prime i (n : nat) :
  (2 <= n)%nat -> (n < i * i)%nat -> ~ struck i n -> Z.prime (Z.of_nat n).
Proof.
  intros H2 Hi Hs. apply prime_sqrt_criterion; [lia|].
  intros d Hd Hdd (z & Hz). apply Hs.
  exists (Z.to_nat d), (Z.to_nat (z - d)).
  split; [nia|]. nia.
Qed.

Lemma filter_iff_in {A} (P1 P2 : A -> Prop)
    `{!forall x, Decision (P1 x), !forall x, Decision (P2 x)} (l : list A) :
  (forall x, x ∈ l -> P1 x <-> P2 x) -> filter P1 l = filter P2 l.
Proof.
  induction l as [|a l IH]; intros Hiff; [reflexivity|].
  assert (Ha : P1 a <-> P2 a) by (apply Hiff; left).
  assert (Hl : filter P1 l = filter P2 l).
  { apply IH. intros x Hx. apply Hiff. right. exact Hx. }
  destruct (decide (P1 a)).
  - rewrite !filter_cons_True by tauto. rewrite Hl. reflexivity.
  - rewrite !filter_cons_False by tauto. exact Hl.
Qed.

Lemma generatePrimes_filter max :
  generatePrimes max
  = Z.of_nat <$> filter (fun n : nat => primeb (Z.of_nat n) = true) (seq 0 (S max)).
Proof.
  unfold generatePrimes.
  destruct (sieve_outer_spec max (S max) 2 _ (le_n 2) (sieve_init max))
    as (i & Hi & Hlen & Hinv); [nia|].
  change (map Z.of_nat) with (fmap (M:=list) Z.of_nat). f_equal.
  apply filter_iff_in. intros n Hn. apply elem_of_seq in Hn.
  rewrite (Hinv n) by lia. rewrite primeb_spec. split.
  - intros [H2 Hs]. apply (not_struck_prime i); [exact H2 | lia | exact Hs].
  - intros Hp. split; [pose proof (Z.prime_ge_2 _ Hp); lia | apply prime_not_struck, Hp].
Qed.



(** The wheel of [isPrime]: from [i], congruent to 5 modulo 6, the loop
    tries [i] and [i + 2], then moves on by 6. *)
Lemma isPrime_loop_spec n lf : forall i,
  5 <= i -> n < (i + 6 * (Z.of_nat lf - 1)) * (i + 6 * (Z.of_nat lf - 1)) ->
  (1 <= lf)%nat ->
  exists b, isPrime_loop lf n i = Some b
    /\ (b = true -> exists d, 1 < d < n /\ (d | n))
    /\ (b = false -> forall j, i <= j -> (j - i) mod 6 = 0 -> j * j <= n ->
                     ~ (j | n) /\ ~ (j + 2 | n)).
Proof.
  induction lf as [|lf IH]; intros i Hi Hn Hlf; [lia|].
  cbn [isPrime_loop]. destruct (Z.leb_spec (i * i) n) as [Hle|Hgt].
  - destruct (rem_is_zero n i || rem_is_zero n (i + 2)) eqn:Hd.
    + exists true. split; [reflexivity|]. split; [|discriminate]. intros _.
      apply orb_prop in Hd as [Hd|Hd]; apply rem_is_zero_divide in Hd; try lia.
      * exists i. split; [nia | exact Hd].
      * exists (i + 2). split; [nia | exact Hd].
    + apply orb_false_elim in Hd as [Hd1 Hd2].
      assert (N1 : ~ (i | n)).
      { intros H. apply rem_is_zero_divide in H; [congruence | lia]. }
      assert (N2 : ~ (i + 2 | n)).
      { intros H. apply rem_is_zero_divide in H; [congruence | lia]. }
      destruct lf as [|lf]; [nia|].
      destruct (IH (i + 6)) as (b & Hb & Ht & Hf); [lia | | lia |].
      { replace (i + 6 + 6 * (Z.of_nat (S lf) - 1))
          with (i + 6 * (Z.of_nat (S (S lf)) - 1)) by lia. exact Hn. }
      exists b. split; [exact Hb|]. split; [exact Ht|].
      intros -> j Hj Hmod Hjj.
      destruct (Z.eq_dec j i) as [->|Hne]; [split; assumption|].
      apply Hf; [reflexivity | | | exact Hjj].
      * assert (6 <= j - i); [|lia].
        apply Z.mod_divide in Hmod; [|lia]. destruct Hmod as [z Hz]. lia.
      * replace (j - (i + 6)) with (j - i + (-1) * 6) by lia.
        rewrite Z.mod_add by lia. exact Hmod.
  - exists false. split; [reflexivity|]. split; [discriminate|].
    intros _ j Hj _ Hjj. nia.
Qed.

Lemma wheel_prime n :
  3 < n -> ~ (2 | n) -> ~ (3 | n) ->
  (forall j, 5 <= j -> (j - 5) mod 6 = 0 -> j * j <= n -> ~ (j | n) /\ ~ (j + 2 | n)) ->
  Z.prime n.
Proof.
  intros Hn H2 H3 Hw. apply prime_sqrt_criterion; [lia|].
  intros d Hd Hdd Hdiv.
  pose proof (Z.div_mod d 6 ltac:(lia)) as Hdm.
  pose proof (Z.mod_pos_bound d 6 ltac:(lia)) as Hb.
  assert (Hr : d mod 6 = 0 \/ d mod 6 = 1 \/ d mod 6 = 2 \/ d mod 6 = 3
               \/ d mod 6 = 4 \/ d mod 6 = 5) by lia.
  destruct Hr as [Hr|[Hr|[Hr|[Hr|[Hr|Hr]]]]].
  - apply H2. apply Z.divide_trans with d; [|exact Hdiv]. exists (3 * (d / 6)). lia.
  - destruct (Hw (d - 2)) as [_ N]; [lia | | nia |].
    + replace (d - 2 - 5) with (6 * (d / 6 - 1)) by lia.
      rewrite Z.mul_comm. apply Z.mod_mul. lia.
    + apply N. replace (d - 2 + 2) with d by lia. exact Hdiv.
  - apply H2. apply Z.divide_trans with d; [|exact Hdiv]. exists (3 * (d / 6) + 1). lia.
  - apply H3. apply Z.divide_trans with d; [|exact Hdiv]. exists (2 * (d / 6) + 1). lia.
  - apply H2. apply Z.divide_trans with d; [|exact Hdiv]. exists (3 * (d / 6) + 2). lia.
  - destruct (Hw d) as [N _]; [lia | | exact Hdd | exact (N Hdiv)].
    replace (d - 5) with (6 * (d / 6)) by lia. rewrite Z.mul_comm. apply Z.mod_mul. lia.
Qed.

Lemma cache_ok_insert n calc :
  cache_ok calc -> Z.prime n ->
  cache_ok {| primes := primes calc; primeCache := <[n := true]> (primeCache calc) |}.
Proof.
  intros Hc Hp m b. cbn [primeCache]. destruct (decide (m = n)) as [->|Hne].
  - rewrite lookup_insert_eq. intros [= <-]. tauto.
  - rewrite lookup_insert_ne by congruence. apply Hc.
Qed.

Lemma isPrime_spec (lf : nat) (n : Z) (calc : PrimeCalculator) :
  cache_ok calc -> (1 <= lf)%nat ->
  n < (6 * Z.of_nat lf - 1) * (6 * Z.of_nat lf - 1) ->
  exists b calc',
    isPrime lf n calc = Some (b, calc')
    /\ (b = true <-> Z.prime n)
    /\ cache_ok calc' /\ primes calc' = primes calc.
Proof.
  intros Hc Hlf Hn. unfold isPrime.
  destruct (primeCache calc !! n) as [b|] eqn:Hcache.
  { exists b, calc. split; [reflexivity|]. split; [apply (Hc n b Hcache)|]. split; [exact Hc | reflexivity]. }
  destruct (Z.leb_spec n 1) as [H1|H1].
  { exists false, calc. split; [reflexivity|]. split; [|split; [exact Hc | reflexivity]].
    split; [discriminate|]. intros [Hp _]. lia. }
  destruct (Z.leb_spec n 3) as [H3|H3].
  { exists true, calc. split; [reflexivity|]. split; [|split; [exact Hc | reflexivity]].
    split; [|reflexivity]. intros _.
    assert (Hn23 : n = 2 \/ n = 3) by lia.
    destruct Hn23 as [-> | ->]; apply primeb_prime; reflexivity. }
  destruct (rem_is_zero n 2 || rem_is_zero n 3) eqn:H23.
  { exists false, calc. split; [reflexivity|]. split; [|split; [exact Hc | reflexivity]].
    split; [discriminate|]. intros [_ Hp]. exfalso.
    apply orb_prop in H23 as [H|H]; apply rem_is_zero_divide in H; try lia.
    - apply (Hp 2); [lia | exact H].
    - apply (Hp 3); [lia | exact H]. }
  apply orb_false_elim in H23 as [N2 N3].
  destruct (isPrime_loop_spec n lf 5) as (b & Hb & Ht & Hf); [lia | | exact Hlf |].
  { replace (5 + 6 * (Z.of_nat lf - 1)) with (6 * Z.of_nat lf - 1) by lia. exact Hn. }
  rewrite Hb. destruct b.
  - exists false, calc. split; [reflexivity|]. split; [|split; [exact Hc | reflexivity]].
    split; [discriminate|]. intros [_ Hp]. exfalso.
    destruct (Ht eq_refl) as (d & Hd & Hdiv). apply (Hp d Hd Hdiv).
  - assert (Hp : Z.prime n).
    { apply wheel_prime; [lia | | |].
      - intros H. apply rem_is_zero_divide in H; [congruence | lia].
      - intros H. apply rem_is_zero_divide in H; [congruence | lia].
      - intros j Hj Hm Hjj. apply (Hf eq_refl j Hj Hm Hjj). }
    eexists true, _. split; [reflexivity|]. split; [tauto|].
    split; [apply cache_ok_insert; assumption | reflexivity].
Qed.

(** X2: with a truthful cache, [isPrime n] answers whether [n] is prime, for
    every integer [n] (the loop budget covers the trial divisors up to the
    square root of [n]); the cache stays truthful and the table of primes is
    not touched. *)
Theorem isPrime_correct (lf : nat) (n : Z) (calc : PrimeCalculator) :
  cache_ok calc -> (1 <= lf)%nat ->
  n < (6 * Z.of_nat lf - 1) * (6 * Z.of_nat lf - 1) ->
  exists b calc',
    isPrime lf n calc = Some (b, calc')
    /\ (b = true <-> Z.prime n)
    /\ cache_ok calc' /\ primes calc' = primes calc.
Proof. exact (isPrime_spec lf n calc). Qed.

Lemma cache_ok_empty ps : cache_ok {| primes := ps; primeCache := ∅ |}.
Proof. intros n b H. cbn in H. rewrite lookup_empty in H. discriminate. Qed.

Lemma isPrime_correct_witness :
  exists b calc',
    isPrime 2 91 default_PrimeCalculator = Some (b, calc')
    /\ (b = true <-> Z.prime 91)
    /\ cache_ok calc' /\ primes calc' = primes default_PrimeCalculator.
Proof.
  apply (isPrime_correct 2 91 default_PrimeCalculator);
    [apply cache_ok_empty | lia | lia].
Defined.

(** Integers below 2^53 in absolute value are Numbers. *)
Lemma to_double_exact z : - 2 ^ 53 < z < 2 ^ 53 -> JS.to_double z = z.
Proof.
  intros H. unfold JS.to_double. destruct (Z.ltb_spec (Z.abs z) (2 ^ 53)); [reflexivity | lia].
Qed.

Lemma generateNextPrime_loop_spec lf p : forall k c calc,
  cache_ok calc -> Z.prime p -> c <= p -> (forall q, c <= q < p -> ~ Z.prime q) ->
  p - c < Z.of_nat k -> (1 <= lf)%nat ->
  p < (6 * Z.of_nat lf - 1) * (6 * Z.of_nat lf - 1) ->
  - 2 ^ 53 <= c -> p < 2 ^ 53 ->
  exists calc',
    generateNextPrime_loop k lf c calc = Some (p, calc')
    /\ cache_ok calc' /\ primes calc' = primes calc.
Proof.
  induction k as [|k IH]; intros c calc Hc Hp Hcp Hnone Hk Hlf Hn Hlo Hhi; [lia|].
  cbn [generateNextPrime_loop].
  destruct (isPrime_spec lf c calc Hc Hlf) as (b & calc1 & Hi & Hb & Hc1 & Hpr1); [lia|].
  rewrite Hi. destruct b.
  - destruct (Z.eq_dec c p) as [->|Hne].
    + exists calc1. split; [reflexivity|]. split; assumption.
    + exfalso. apply (Hnone c); [lia | apply Hb; reflexivity].
  - assert (c <> p). { intros ->. destruct Hb as [_ Hb]. specialize (Hb Hp). discriminate. }
    rewrite to_double_exact by lia.
    destruct (IH (c + 1) calc1) as (calc' & Hg & Hc' & Hpr'); try assumption; try lia.
    { intros q Hq. apply Hnone. lia. }
    exists calc'. split; [exact Hg|]. split; [exact Hc' | congruence].
Qed.

(** X3: [generateNextPrime after] returns the least prime above [after],
    as long as the numbers met are integers that a Number holds exactly:
    [after] from -2^53 and the prime below 2^53. The cache stays truthful and
    the sieve's list is not touched. *)
Theorem generateNextPrime_least (lf : nat) (after p : Z) (calc : PrimeCalculator) :
  cache_ok calc -> Z.prime p -> after < p ->
  (forall q, after < q < p -> ~ Z.prime q) ->
  - 2 ^ 53 <= after -> p < 2 ^ 53 ->
  p - after <= Z.of_nat lf ->
  p < (6 * Z.of_nat lf - 1) * (6 * Z.of_nat lf - 1) ->
  exists calc',
    generateNextPrime lf after calc = Some (p, calc')
    /\ cache_ok calc' /\ primes calc' = primes calc.
Proof.
  intros Hc Hp Ha Hnone Hlo Hhi Hk Hn. unfold generateNextPrime.
  rewrite to_double_exact by lia.
  apply generateNextPrime_loop_spec; try assumption; try lia.
  intros q Hq. apply Hnone. lia.
Qed.

Lemma generateNextPrime_least_witness :
  exists calc',
    generateNextPrime 12 997 default_PrimeCalculator = Some (1009, calc')
    /\ cache_ok calc' /\ primes calc' = primes default_PrimeCalculator.
Proof.
  apply (generateNextPrime_least 12 997 1009 default_PrimeCalculator).
  - apply cache_ok_empty.
  - apply primeb_prime. vm_compute. reflexivity.
  - lia.
  - intros q Hq Hp. apply prime_primeb in Hp.
    assert (H : no_primes 11 998 = true) by (vm_compute; reflexivity).
    rewrite (no_primes_spec 11 998 H q) in Hp by lia. discriminate.
  - lia.
  - lia.
  - lia.
  - lia.
Defined.

(** From 2^53 on, the Numbers are even. *)
Lemma to_double_large z :
  2 ^ 53 <= z -> 2 ^ 53 <= JS.to_double z /\ Z.even (JS.to_double z) = true.
Proof.
  intros Hz. unfold JS.to_double.
  assert (H53 : (2 ^ 53 : Z) = 9007199254740992) by reflexivity.
  rewrite Z.abs_eq by lia.
  destruct (Z.ltb_spec z (2 ^ 53)) as [|_]; [lia|].
  assert (Hlog : 53 <= Z.log2 z).
  { change 53 with (Z.log2 (2 ^ 53)). apply Z.log2_le_mono. exact Hz. }
  set (k := Z.log2 z - 52). assert (Hk : 1 <= k) by (unfold k; lia).
  rewrite Z.shiftr_div_pow2 by lia.
  set (m := z / 2 ^ k).
  assert (Hpk : 0 < 2 ^ k) by (apply Z.pow_pos_nonneg; lia).
  assert (Hm : 2 ^ 52 <= m).
  { unfold m. apply Z.div_le_lower_bound; [exact Hpk|].
    rewrite <- Z.pow_add_r by lia. replace (k + 52) with (Z.log2 z) by (unfold k; lia).
    apply Z.log2_spec. lia. }
  set (m' := if z - m * 2 ^ k <? 2 ^ (k - 1) then m
             else if 2 ^ (k - 1) <? z - m * 2 ^ k then m + 1
                  else if Z.even m then m else m + 1).
  assert (Hm' : m <= m') by (unfold m'; repeat destruct (_ <? _); try destruct (Z.even m); lia).
  rewrite Z.sgn_pos by lia. rewrite Z.mul_1_l.
  assert (H2k : 2 ^ k = 2 * 2 ^ (k - 1)).
  { rewrite <- (Z.pow_succ_r 2 (k - 1)) by lia. f_equal. lia. }
  assert (H52 : (2 ^ 52 : Z) = 4503599627370496) by reflexivity.
  assert (Hpk1 : 0 < 2 ^ (k - 1)) by (apply Z.pow_pos_nonneg; lia).
  split.
  - rewrite H2k. nia.
  - rewrite Z.even_mul, (Z.even_pow 2 k) by lia. apply orb_true_r.
Qed.

Lemma even_not_prime c : 2 ^ 53 <= c -> Z.even c = true -> ~ Z.prime c.
Proof.
  intros Hc He Hp.
  assert (H53 : (2 ^ 53 : Z) = 9007199254740992) by reflexivity.
  destruct Hp as [_ Hp].
  apply (Hp 2); [lia|]. apply Z.even_spec in He as [d ->]. exists d. lia.
Qed.

Lemma generateNextPrime_loop_stuck k lf : forall c calc,
  cache_ok calc -> 2 ^ 53 <= c -> Z.even c = true ->
  generateNextPrime_loop k lf c calc = None.
Proof.
  assert (H53 : (2 ^ 53 : Z) = 9007199254740992) by reflexivity.
  induction k as [|k IH]; intros c calc Hok Hc He; [reflexivity|].
  cbn [generateNextPrime_loop].
  assert (Hi : isPrime lf c calc = Some (false, calc)).
  { unfold isPrime. destruct (primeCache calc !! c) as [b|] eqn:Hb.
    - destruct b; [|reflexivity]. exfalso.
      apply (even_not_prime c Hc He), (Hok c true Hb). reflexivity.
    - destruct (Z.leb_spec c 1); [lia|]. destruct (Z.leb_spec c 3); [lia|].
      assert (Hr : rem_is_zero c 2 = true).
      { apply rem_is_zero_divide; [lia|]. apply Z.even_spec in He as [d ->].
        exists d. lia. }
      rewrite Hr. reflexivity. }
  rewrite Hi. destruct (to_double_large (c + 1)) as [H1 H2]; [lia|].
  apply IH; assumption.
Qed.

(** X27: from 2^53 - 1 on, [generateNextPrime after] never returns: no
    budget gives a result. The candidates are Numbers from 2^53 on, which are
    all even, and [candidate++] never leaves them. *)
Theorem generateNextPrime_never_returns (lf : nat) (after : Z) (calc : PrimeCalculator) :
  cache_ok calc -> 2 ^ 53 - 1 <= after ->
  generateNextPrime lf after calc = None.
Proof.
  intros Hok Ha. unfold generateNextPrime.
  destruct (to_double_large (after + 1)) as [H1 H2]; [lia|].
  apply generateNextPrime_loop_stuck; assumption.
Qed.

Lemma generateNextPrime_never_returns_witness :
  generateNextPrime 1000 (2 ^ 53 - 1) default_PrimeCalculator = None.
Proof.
  apply (generateNextPrime_never_returns 1000 (2 ^ 53 - 1) default_PrimeCalculator).
  - apply cache_ok_empty.
  - lia.
Defined.


(** ** Ranks inside the sieve *)

Lemma filter_seq_rank (P : nat -> Prop) `{!forall x, Decision (P x)} n : forall a k x,
  filter P (seq a n) !! k = Some x ->
  (a <= x)%nat /\ length (filter P (seq a (x - a))) = k.
Proof.
  induction n as [|n IH]; intros a k x Hk; [discriminate|].
  cbn [seq] in Hk. destruct (decide (P a)) as [Ha|Ha].
  - rewrite filter_cons_True in Hk by assumption. destruct k as [|k].
    + injection Hk as <-. rewrite Nat.sub_diag. split; [lia | reflexivity].
    + apply IH in Hk as [Hle Hk]. split; [lia|].
      replace (x - a)%nat with (S (x - S a)) by lia. cbn [seq].
      rewrite filter_cons_True by assumption. cbn [length]. rewrite Hk. reflexivity.
  - rewrite filter_cons_False in Hk by assumption.
    apply IH in Hk as [Hle Hk]. split; [lia|].
    replace (x - a)%nat with (S (x - S a)) by lia. cbn [seq].
    rewrite filter_cons_False by assumption. exact Hk.
Qed.

Lemma length_filter_fmap {A B} (f : A -> B) (P : B -> Prop)
    `{!forall y, Decision (P y)} (l : list A) :
  length (filter P (f <$> l)) = length (filter (fun x => P (f x)) l).
Proof.
  induction l as [|a l IH]; [reflexivity|]. rewrite fmap_cons.
  destruct (decide (P (f a))).
  - rewrite !filter_cons_True by assumption. cbn [length]. rewrite IH. reflexivity.
  - rewrite !filter_cons_False by assumption. exact IH.
Qed.

Lemma count_primes_below_seq (x : nat) :
  (2 <= x)%nat ->
  count_primes_below (Z.of_nat x)
  = length (filter (fun n : nat => primeb (Z.of_nat n) = true) (seq 0 x)).
Proof.
  intros Hx. unfold count_primes_below, seqZ.
  replace (Z.to_nat (Z.of_nat x - 2)) with (x - 2)%nat by lia.
  replace x with (2 + (x - 2))%nat at 2 by lia.
  rewrite seq_app, filter_app, length_app.
  replace (filter _ (seq 0 2)) with (@nil nat) by reflexivity.
  cbn [length Nat.add].
  rewrite <- (fmap_add_seq 2 0), !length_filter_fmap.
  f_equal. apply list_filter_iff. intros i.
  replace (Z.of_nat i + 2) with (Z.of_nat (2 + i)) by lia. reflexivity.
Qed.

Lemma generatePrimes_ranks max k p :
  generatePrimes max !! k = Some p -> is_nth_prime k p.
Proof.
  rewrite generatePrimes_filter, list_lookup_fmap. intros H.
  destruct (filter _ _ !! k) as [x|] eqn:Hx; [|discriminate]. injection H as <-.
  assert (Hp : primeb (Z.of_nat x) = true).
  { apply list_elem_of_lookup_2 in Hx. apply list_elem_of_filter in Hx. tauto. }
  apply primeb_prime in Hp. split; [exact Hp|].
  pose proof (Z.prime_ge_2 _ Hp).
  rewrite count_primes_below_seq by lia.
  apply filter_seq_rank in Hx as [_ Hx]. rewrite Nat.sub_0_r in Hx. exact Hx.
Qed.

(** X4: inside the sieve, whatever its bound, [getNthPrime k] is the prime
    of rank [k] (counting from 0), and the calculator is left as it was. *)
Theorem getNthPrime_within_sieve (lf maxSize k : nat) (cache : gmap Z bool) :
  (k < length (generatePrimes maxSize))%nat ->
  exists p,
    getNthPrime lf k {| primes := generatePrimes maxSize; primeCache := cache |}
    = Some (p, {| primes := generatePrimes maxSize; primeCache := cache |})
    /\ is_nth_prime k p.
Proof.
  intros Hk. destruct (lookup_lt_is_Some_2 _ _ Hk) as [p Hp].
  exists p. pose proof (generatePrimes_ranks _ _ _ Hp) as Hr.
  split; [|exact Hr]. unfold getNthPrime. cbn [primes]. rewrite Hp.
  destruct Hr as [Hpr _]. pose proof (Z.prime_ge_2 _ Hpr).
  destruct (Z.eqb_spec p 0); [lia | reflexivity].
Qed.

Lemma getNthPrime_within_sieve_witness :
  exists p,
    getNthPrime 0 3 {| primes := generatePrimes 10; primeCache := ∅ |}
    = Some (p, {| primes := generatePrimes 10; primeCache := ∅ |})
    /\ is_nth_prime 3 p.
Proof. apply (getNthPrime_within_sieve 0 10 3 ∅). vm_compute. lia. Defined.

(** ** Factorization: round trip and the inputs below 1 *)

Lemma no_two_large_product l :
  Forall (fun p => Z.prime p /\ p <= 997) l -> no_two_large (product l).
Proof.
  intros Hl p q Hp Hq Hp' _ [k Hk].
  assert (Hdiv : (p | product l)) by (exists (k * q); lia).
  apply prime_divides_product in Hdiv; [|exact Hp|].
  - rewrite List.Forall_forall in Hl. apply Hl in Hdiv. lia.
  - eapply Forall_impl; [exact Hl|]. cbn. tauto.
Qed.

(** X5: [factorize] inverts the product on the ascending lists of primes of
    the sieve: the factors come back with their multiplicities, in order. *)
Theorem factorize_product (lf : nat) (l : list Z) (calc : PrimeCalculator) :
  primes calc = default_primes ->
  StronglySorted Z.le l -> Forall (fun p => Z.prime p /\ p <= 997) l ->
  Z.log2 (product l) < Z.of_nat lf ->
  factorize lf (product l) calc = Some l.
Proof.
  intros Hcalc Hs Hl Hlf.
  assert (Hp : Forall Z.prime l) by (eapply Forall_impl; [exact Hl | cbn; tauto]).
  destruct (factorize_sorted_primes lf (product l) calc Hcalc) as (l' & Hf & Hs' & Hp' & Hprod);
    [apply product_primes_pos, Hp | apply no_two_large_product, Hl | exact Hlf |].
  rewrite Hf. f_equal. apply sorted_primes_unique; assumption.
Qed.

Lemma factorize_product_witness :
  factorize 9 (product [2; 2; 3; 5; 7]) default_PrimeCalculator = Some [2; 2; 3; 5; 7].
Proof.
  apply (factorize_product 9 [2; 2; 3; 5; 7] default_PrimeCalculator).
  - reflexivity.
  - repeat (constructor; [|repeat (constructor; [lia|]); constructor]). constructor.
  - repeat (constructor; [split; [apply primeb_prime; reflexivity | lia]|]). constructor.
  - vm_compute. reflexivity.
Defined.

Lemma factorize_strip_zero lf p : p <> 0 -> forall fs, factorize_strip lf p 0 fs = None.
Proof.
  intros Hp. induction lf as [|lf IH]; intros fs; [reflexivity|].
  cbn [factorize_strip]. unfold rem_is_zero. rewrite Z.rem_0_l by exact Hp.
  destruct (Z.eqb_spec p 0); [contradiction|]. cbn. rewrite Z.quot_0_l by exact Hp.
  apply IH.
Qed.

Lemma factorize_strip_negative lf : forall r fs,
  r < 0 -> Z.log2 (- r) < Z.of_nat lf ->
  exists k m, factorize_strip lf 2 r fs = Some (m, fs ++ replicate k 2)
              /\ r = 2 ^ Z.of_nat k * m /\ m < 0 /\ Z.odd m = true.
Proof.
  induction lf as [|lf IH]; intros r fs Hr Hlf.
  { pose proof (Z.log2_nonneg (- r)). lia. }
  cbn [factorize_strip]. unfold rem_is_zero. cbn [Z.eqb negb andb].
  pose proof (Z.quot_rem' r 2) as Hqr.
  destruct (Z.eqb_spec (Z.rem r 2) 0) as [H0|H0].
  - destruct (IH (Z.quot r 2) (fs ++ [2])) as (k & m & Hs & Hk & Hm & Ho); [lia | |].
    { assert (Z.log2 (- (Z.quot r 2)) < Z.log2 (- r)); [apply log2_quotient; lia | lia]. }
    exists (S k), m. split; [|split; [|split; assumption]].
    + rewrite Hs. rewrite <- app_assoc. reflexivity.
    + rewrite Nat2Z.inj_succ, Z.pow_succ_r by lia. lia.
  - exists 0%nat, r. split; [rewrite app_nil_r; reflexivity|].
    split; [cbn; lia|]. split; [exact Hr|].
    rewrite Zrem_odd in H0. destruct (Z.odd r); [reflexivity | contradiction].
Qed.

(** X6: below 1. [factorize(0)] returns for no loop budget: [0 % 2 === 0]
    holds forever. For a negative [n] only the factors 2 are returned: the
    loop stops after the first prime, since [2 * 2 > remaining]. *)
Theorem factorize_below_1 (calc : PrimeCalculator) :
  primes calc = default_primes ->
  (forall lf, factorize lf 0 calc = None)
  /\ (forall lf n, n < 0 -> Z.log2 (- n) < Z.of_nat lf ->
        exists k m, factorize lf n calc = Some (replicate k 2)
                    /\ n = 2 ^ Z.of_nat k * m /\ Z.odd m = true).
Proof.
  intros Hcalc. unfold factorize. rewrite Hcalc. unfold default_primes.
  cbn [factorize_loop]. split.
  - intros lf. rewrite factorize_strip_zero by lia. reflexivity.
  - intros lf n Hn Hlf.
    destruct (factorize_strip_negative lf n [] Hn Hlf) as (k & m & Hs & Hk & Hm & Ho).
    exists k, m. rewrite Hs. cbn [app].
    destruct (Z.gtb_spec (2 * 2) m); [|lia].
    destruct (Z.gtb_spec m 1); [lia|]. auto.
Qed.

Lemma factorize_below_1_witness :
  factorize 4 0 default_PrimeCalculator = None
  /\ exists k m, factorize 4 (-12) default_PrimeCalculator = Some (replicate k 2)
                 /\ -12 = 2 ^ Z.of_nat k * m /\ Z.odd m = true.
Proof.
  destruct (factorize_below_1 default_PrimeCalculator eq_refl) as [H0 Hneg].
  split; [apply H0|]. apply Hneg; [lia | vm_compute; reflexivity].
Defined.

(** ** The concept table within the capacity of the sieve *)

Lemma register_spec lf cs : forall e,
  enc_wf e -> (nextPrimeIndex e + length cs <= 168)%nat ->
  exists ps e',
    register lf cs e = Some (ps, e')
    /\ enc_wf e' /\ conceptToPrime e ⊆ conceptToPrime e'
    /\ (nextPrimeIndex e' <= nextPrimeIndex e + length cs)%nat
    /\ Forall2 (fun c p => conceptToPrime e' !! JS.toLowerCase c = Some p) cs ps.
Proof.
  induction cs as [|c cs IH]; intros e Hwf Hroom.
  - exists [], e. split; [reflexivity|]. split; [exact Hwf|]. split; [reflexivity|].
    split; [cbn; lia | constructor].
  - cbn [length] in Hroom.
    destruct (getPrime_step lf c e Hwf) as (p & e1 & Hg & Hwf1 & Hsub1 & Hn1 & Hl1); [lia|].
    destruct (IH e1 Hwf1) as (ps & e' & Hr & Hwf' & Hsub' & Hn' & Hall); [lia|].
    exists (p :: ps), e'. split.
    { cbn [register]. rewrite (bind_eval _ _ _ _ _ Hg), (bind_eval _ _ _ _ _ Hr).
      reflexivity. }
    split; [exact Hwf'|]. split; [etrans; eassumption|].
    split; [cbn [length]; lia|].
    constructor; [|exact Hall]. eapply lookup_weaken; eassumption.
Qed.

(** X7: as long as the concepts fit in the sieve (168 in all), registering
    any list of concepts returns primes, and two of them are equal exactly
    when the concepts are equal up to letter case. *)
Theorem register_injective (lf : nat) (cs : list string) (e : ConceptEncoder) :
  enc_wf e -> (nextPrimeIndex e + length cs <= 168)%nat ->
  exists ps e',
    register lf cs e = Some (ps, e')
    /\ length ps = length cs /\ Forall Z.prime ps
    /\ forall i j ci cj pi pj,
         cs !! i = Some ci -> cs !! j = Some cj ->
         ps !! i = Some pi -> ps !! j = Some pj ->
         (pi = pj <-> JS.toLowerCase ci = JS.toLowerCase cj).
Proof.
  intros Hwf Hroom.
  destruct (register_spec lf cs e Hwf Hroom) as (ps & e' & Hr & Hwf' & _ & _ & Hall).
  exists ps, e'. split; [exact Hr|].
  split; [symmetry; eapply Forall2_length; exact Hall|]. split.
  - apply Forall_lookup_2. intros i p Hp.
    destruct (Forall2_lookup_r _ _ _ _ _ Hall Hp) as (c & _ & Hc).
    apply (enc_wf_prime _ _ _ Hwf' Hc).
  - intros i j ci cj pi pj Hci Hcj Hpi Hpj.
    pose proof (Forall2_lookup_lr _ _ _ _ _ _ Hall Hci Hpi) as Hi.
    pose proof (Forall2_lookup_lr _ _ _ _ _ _ Hall Hcj Hpj) as Hj.
    cbn in Hi, Hj. split.
    + intros ->. apply (enc_wf_injective _ _ _ _ Hwf' Hi Hj).
    + intros Heq. rewrite Heq in Hi. congruence.
Qed.

Lemma register_injective_witness :
  exists ps e',
    register 0 ["Socrates"; "is"; "human"; "SOCRATES"] initial_encoder = Some (ps, e')
    /\ length ps = 4%nat /\ Forall Z.prime ps
    /\ forall i j ci cj pi pj,
         ["Socrates"; "is"; "human"; "SOCRATES"] !! i = Some ci ->
         ["Socrates"; "is"; "human"; "SOCRATES"] !! j = Some cj ->
         ps !! i = Some pi -> ps !! j = Some pj ->
         (pi = pj <-> JS.toLowerCase ci = JS.toLowerCase cj).
Proof.
  apply (register_injective 0 ["Socrates"; "is"; "human"; "SOCRATES"] initial_encoder).
  - exact initial_encoder_wf.
  - simpl. lia.
Defined.

(** X8: [getConceptName] undoes [getPrime], up to letter case; for the
    concept that lower-cases to the empty string, which is falsy, the name
    is "Unknown(p)". *)
Theorem getConceptName_getPrime (lf : nat) (c : string) (e : ConceptEncoder) :
  enc_wf e -> (nextPrimeIndex e < 168)%nat ->
  exists p e',
    getPrime lf c e = Some (p, e')
    /\ getConceptName e' p
       = if decide (JS.toLowerCase c = "")
         then "Unknown(" +:+ pretty p +:+ ")" else JS.toLowerCase c.
Proof.
  intros Hwf Hroom.
  destruct (getPrime_step lf c e Hwf) as (p & e' & Hg & Hwf' & _ & _ & Hl); [lia|].
  exists p, e'. split; [exact Hg|]. unfold getConceptName.
  rewrite (wf_rev _ Hwf' _ _ Hl). reflexivity.
Qed.

Lemma getConceptName_getPrime_witness :
  exists p e',
    getPrime 0 "Socrates" initial_encoder = Some (p, e')
    /\ getConceptName e' p
       = if decide (JS.toLowerCase "Socrates" = "")
         then "Unknown(" +:+ pretty p +:+ ")" else JS.toLowerCase "Socrates".
Proof.
  apply (getConceptName_getPrime 0 "Socrates" initial_encoder).
  - exact initial_encoder_wf.
  - simpl. lia.
Defined.

(** ** Encodings and permutations *)

Lemma product_Permutation l1 l2 : l1 ≡ₚ l2 -> product l1 = product l2.
Proof.
  induction 1 as [|x l1 l2 _ IH|x y l|l1 l2 l3 _ IH1 _ IH2]; cbn.
  - reflexivity.
  - unfold product in IH. rewrite IH. reflexivity.
  - ring.
  - congruence.
Qed.

Lemma prime_product_Permutation l1 : forall l2,
  Forall Z.prime l1 -> Forall Z.prime l2 -> product l1 = product l2 -> l1 ≡ₚ l2.
Proof.
  induction l1 as [|a l1 IH]; intros l2 H1 H2 Hprod.
  - symmetry in Hprod. apply product_primes_1 in Hprod; [subst; reflexivity | exact H2].
  - apply Forall_cons in H1 as [Ha H1].
    assert (Hin : In a l2).
    { apply prime_divides_product; [exact Ha | exact H2|].
      rewrite <- Hprod. exists (product l1).
      change (product (a :: l1)) with (a * product l1). ring. }
    apply list_elem_of_In, elem_of_Permutation in Hin as [l2' Hl2].
    rewrite Hl2. constructor. apply IH; [exact H1 | |].
    + rewrite Hl2 in H2. apply Forall_cons in H2. tauto.
    + rewrite (product_Permutation _ _ Hl2) in Hprod.
      change (a * product l1 = a * product l2') in Hprod.
      pose proof (Z.prime_ge_2 _ Ha). nia.
Qed.

Lemma encoding_collision e (a1 a2 a3 b1 b2 b3 : string) p1 p2 p3 q1 q2 q3 :
  enc_wf e ->
  conceptToPrime e !! a1 = Some p1 -> conceptToPrime e !! a2 = Some p2 ->
  conceptToPrime e !! a3 = Some p3 ->
  conceptToPrime e !! b1 = Some q1 -> conceptToPrime e !! b2 = Some q2 ->
  conceptToPrime e !! b3 = Some q3 ->
  (p1 * p2 * p3 = q1 * q2 * q3 <-> [a1; a2; a3] ≡ₚ [b1; b2; b3]).
Proof.
  intros Hwf A1 A2 A3 B1 B2 B3. split.
  - intros Heq.
    assert (HP : [p1; p2; p3] ≡ₚ [q1; q2; q3]).
    { apply prime_product_Permutation.
      - repeat constructor; eapply enc_wf_prime; eauto.
      - repeat constructor; eapply enc_wf_prime; eauto.
      - cbn. lia. }
    pose (inv := fun q : Z => default "" (primeToConceptCache e !! q)).
    assert (Hinv : forall c q, conceptToPrime e !! c = Some q -> inv q = c).
    { intros c q H. unfold inv. rewrite (wf_rev _ Hwf _ _ H). reflexivity. }
    apply (fmap_Permutation inv) in HP. cbn in HP.
    rewrite !(Hinv _ _ A1), !(Hinv _ _ A2), !(Hinv _ _ A3),
            !(Hinv _ _ B1), !(Hinv _ _ B2), !(Hinv _ _ B3) in HP. exact HP.
  - intros HP.
    pose (pr := fun c : string => default 0 (conceptToPrime e !! c)).
    apply (fmap_Permutation pr) in HP. apply product_Permutation in HP.
    cbn in HP. unfold pr in HP. rewrite A1, A2, A3, B1, B2, B3 in HP. cbn in HP. lia.
Qed.

(** X9: two facts get the same encoding exactly when their components are
    the same up to order (and letter case): the product forgets which
    concept is the subject, the predicate and the object. *)
Theorem encodeFact_same_encoding (lf : nat) (f g : Fact) (e : ConceptEncoder) :
  enc_wf e -> (nextPrimeIndex e + 6 <= 168)%nat ->
  exists E1 e1 E2 e2,
    encodeFact lf f e = Some (E1, e1) /\ encodeFact lf g e1 = Some (E2, e2)
    /\ (E1 = E2 <-> components f ≡ₚ components g).
Proof.
  intros Hwf Hroom.
  destruct (encodeFact_step lf f e Hwf) as (E1 & e1 & H1 & Hwf1 & _ & Hn1 & _); [lia|].
  destruct (encodeFact_step lf g e1 Hwf1) as (E2 & e2 & H2 & Hwf2 & _ & _ & _); [lia|].
  exists E1, e1, E2, e2. split; [exact H1|]. split; [exact H2|].
  destruct (encodeFact_inv _ _ _ _ _ H1) as (p1 & p2 & p3 & -> & A1 & A2 & A3 & _).
  destruct (encodeFact_inv _ _ _ _ _ H2) as (q1 & q2 & q3 & -> & B1 & B2 & B3 & Hle).
  pose proof (le_c2p _ _ _ Hle) as Hsub.
  apply (encoding_collision e2); try assumption; eapply lookup_weaken; eassumption.
Qed.

Lemma encodeFact_same_encoding_witness :
  exists E1 e1 E2 e2,
    encodeFact 0 (new_Fact "a" "is" "b") initial_encoder = Some (E1, e1)
    /\ encodeFact 0 (new_Fact "b" "is" "a") e1 = Some (E2, e2)
    /\ (E1 = E2 <-> components (new_Fact "a" "is" "b") ≡ₚ components (new_Fact "b" "is" "a")).
Proof.
  apply (encodeFact_same_encoding 0 (new_Fact "a" "is" "b") (new_Fact "b" "is" "a")
           initial_encoder).
  - exact initial_encoder_wf.
  - simpl. lia.
Defined.

(** X10: decoding the encoding of a fact always gives a fact with the same
    three components, rearranged by ascending prime. *)
Theorem decode_encode_permutation (lf lf' : nat) (e : ConceptEncoder) (s p o : string) :
  enc_wf e -> (nextPrimeIndex e + 3 <= 168)%nat -> (30 <= lf')%nat ->
  JS.toLowerCase s <> "" -> JS.toLowerCase p <> "" -> JS.toLowerCase o <> "" ->
  exists E e' g p1 p2 p3,
    encodeFact lf (new_Fact s p o) e = Some (E, e')
    /\ decodeFact lf' E e' = Some (Some g, e')
    /\ [subject g; predicate g; object g]
       ≡ₚ [JS.toLowerCase s; JS.toLowerCase p; JS.toLowerCase o]
    /\ conceptToPrime e' !! subject g = Some p1
    /\ conceptToPrime e' !! predicate g = Some p2
    /\ conceptToPrime e' !! object g = Some p3
    /\ p1 <= p2 <= p3.
Proof.
  intros Hwf Hroom Hlf Hs Hp Ho.
  destruct (encodeFact_step lf (new_Fact s p o) e Hwf Hroom)
    as (E & e' & HE & Hwf' & _ & _ & _).
  destruct (encodeFact_inv _ _ _ _ _ HE) as (ps & pp & po & -> & K1 & K2 & K3 & _).
  simpl in K1, K2, K3. rewrite toLowerCase_idempotent in K1, K2, K3.
  destruct (enc_wf_prime _ _ _ Hwf' K1) as [Pa La].
  destruct (enc_wf_prime _ _ _ Hwf' K2) as [Pb Lb].
  destruct (enc_wf_prime _ _ _ Hwf' K3) as [Pc Lc].
  destruct (factorize_triple lf' ps pp po (primeCalc e') (wf_primes e' Hwf'))
    as (l & Hf & Hsorted & Hprimes & Hprod); try assumption.
  assert (HP : l ≡ₚ [ps; pp; po]).
  { apply prime_product_Permutation; [exact Hprimes | |].
    - repeat (constructor; [assumption|]). constructor.
    - rewrite Hprod. cbn. lia. }
  pose proof (Permutation_length HP) as Hlen.
  destruct l as [|a [|b [|c [|d l]]]]; try discriminate Hlen.
  pose (nm := fun q : Z => JS.toLowerCase (getConceptName e' q)).
  assert (Hnm : forall q, q ∈ [ps; pp; po] ->
            conceptToPrime e' !! nm q = Some q).
  { intros q Hq. unfold nm. apply list_elem_of_In in Hq.
    destruct Hq as [<-|[<-|[<-|[]]]];
      erewrite getConceptName_registered by eassumption;
      rewrite toLowerCase_idempotent; assumption. }
  assert (Hnames : nm <$> [ps; pp; po]
                   = [JS.toLowerCase s; JS.toLowerCase p; JS.toLowerCase o]).
  { cbn. unfold nm.
    rewrite (getConceptName_registered _ _ _ Hwf' K1 Hs),
            (getConceptName_registered _ _ _ Hwf' K2 Hp),
            (getConceptName_registered _ _ _ Hwf' K3 Ho), !toLowerCase_idempotent.
    reflexivity. }
  exists (ps * pp * po), e', (new_Fact (getConceptName e' a) (getConceptName e' b)
                                (getConceptName e' c)), a, b, c.
  split; [exact HE|]. split; [unfold decodeFact; rewrite Hf; reflexivity|].
  split; [rewrite <- Hnames; exact (fmap_Permutation nm _ _ HP)|].
  assert (Hin : forall x, x ∈ [a; b; c] -> x ∈ [ps; pp; po]).
  { intros x Hx. rewrite <- HP. exact Hx. }
  split; [apply Hnm, Hin; set_solver|]. split; [apply Hnm, Hin; set_solver|].
  split; [apply Hnm, Hin; set_solver|].
  apply StronglySorted_inv in Hsorted as [Hs2 Hall].
  apply Forall_inv in Hall as Hab.
  apply StronglySorted_inv in Hs2 as [_ Hall2].
  apply Forall_inv in Hall2 as Hbc. lia.
Qed.

Lemma decode_encode_permutation_witness :
  exists E e' g p1 p2 p3,
    encodeFact 0 (new_Fact "human" "is" "mortal") initial_encoder = Some (E, e')
    /\ decodeFact 30 E e' = Some (Some g, e')
    /\ [subject g; predicate g; object g]
       ≡ₚ [JS.toLowerCase "human"; JS.toLowerCase "is"; JS.toLowerCase "mortal"]
    /\ conceptToPrime e' !! subject g = Some p1
    /\ conceptToPrime e' !! predicate g = Some p2
    /\ conceptToPrime e' !! object g = Some p3
    /\ p1 <= p2 <= p3.
Proof.
  apply (decode_encode_permutation 0 30 initial_encoder "human" "is" "mortal");
    [exact initial_encoder_wf | simpl; lia | lia | discriminate..].
Defined.

(** ** Answers of the reasoner *)

Lemma quantified_pass_true rec rs q : forall st r st',
  quantified_pass rec rs q st = Some (Some r, st') -> result r = true.
Proof.
  induction rs as [|[qt vp cp pp prp ce cl|cs cl] rs IH]; intros st r st' H.
  - discriminate.
  - cbn [quantified_pass] in H. rewrite bind_gets in H.
    destruct (_ && _); [|apply (IH _ _ _ H)].
    apply bind_Some in H as (sub & st1 & _ & H).
    destruct (result sub); [|apply (IH _ _ _ H)].
    rewrite bind_gets in H. apply ret_Some in H as [= -> _]. reflexivity.
  - apply (IH _ _ _ H).
Qed.

Lemma standard_pass_true lf rec rs q E : forall st r st',
  standard_pass lf rec rs q E st = Some (Some r, st') -> result r = true.
Proof.
  induction rs as [|[qt vp cp pp prp ce cl|cs cl] rs IH]; intros st r st' H.
  - discriminate.
  - apply (IH _ _ _ H).
  - cbn [standard_pass] in H. destruct (cl =? E); [|apply (IH _ _ _ H)].
    apply bind_Some in H as ([ex|] & st1 & _ & H); [|apply (IH _ _ _ H)].
    apply ret_Some in H as [= -> _]. reflexivity.
Qed.

Lemma deduce_body_negative lf rec q st r st' :
  Fact_toString q ∉ visited st ->
  deduce_body lf rec q st = Some (r, st') ->
  result r = false -> r = could_not_deduce q.
Proof.
  intros Hv H Hr. unfold deduce_body in H.
  apply bind_Some in H as (E & st1 & HE & H).
  apply on_encoder_Some in HE as (e1 & _ & ->).
  rewrite bind_gets in H. cbn [visited] in H.
  rewrite bool_decide_eq_false_2 in H by exact Hv.
  unfold set_visited in H. rewrite bind_modify, bind_gets in H.
  destruct (existsb _ _).
  { apply ret_Some in H as [= -> _]. discriminate. }
  rewrite bind_gets in H.
  apply bind_Some in H as ([r1|] & st2 & H1 & H).
  { apply ret_Some in H as [= -> _]. apply quantified_pass_true in H1. congruence. }
  rewrite bind_gets in H.
  apply bind_Some in H as ([r2|] & st3 & H2 & H).
  { apply ret_Some in H as [= -> _]. apply standard_pass_true in H2. congruence. }
  destruct (_ || _); [|apply ret_Some in H as [= -> _]; reflexivity].
  apply bind_Some in H as (t & st4 & _ & H).
  destruct (result t) eqn:Ht; apply ret_Some in H as [= -> _]; [congruence | reflexivity].
Qed.

Lemma deduce_negative lf fuel q st r st' :
  deduce lf fuel q st = Some (r, st') ->
  result r = false -> r = could_not_deduce q.
Proof.
  intros H Hr. unfold deduce, set_visited in H. rewrite bind_modify in H.
  destruct fuel as [|fuel]; [discriminate|]. cbn [_deduce] in H.
  apply (deduce_body_negative _ _ _ _ _ _ (not_elem_of_empty _) H Hr).
Qed.

(** X13: a negative answer of [deduce] always reads "Could not deduce: q";
    the top-level call never reports circular reasoning. *)
Theorem deduce_negative_answer (lf fuel : nat) (q : Fact) (st : ELLM) (r : Result) (st' : ELLM) :
  deduce lf fuel q st = Some (r, st') ->
  result r = false -> r = could_not_deduce q.
Proof. exact (deduce_negative lf fuel q st r st'). Qed.

Lemma deduce_negative_answer_witness :
  fst <$> deduce 0 1 (new_Fact "tweety" "is" "bird") initial_ELLM
  = Some (could_not_deduce (new_Fact "tweety" "is" "bird")).
Proof.
  destruct (deduce 0 1 (new_Fact "tweety" "is" "bird") initial_ELLM) as [[r st']|] eqn:H;
    [|vm_compute in H; discriminate].
  cbn. f_equal. apply (deduce_negative_answer _ _ _ _ _ _ H).
  vm_compute in H. injection H as <- _. reflexivity.
Defined.

(** ** The stored encodings stay those of the stored facts *)

Lemma kb_aligned_weaken st st' :
  kb_aligned st -> kb st' = kb st ->
  conceptToPrime (encoder st) ⊆ conceptToPrime (encoder st') ->
  kb_aligned st'.
Proof.
  unfold kb_aligned. intros Ha -> Hsub.
  eapply Forall2_impl; [exact Ha|]. cbn. intros f E H lf.
  apply (encodeFact_registered 0 lf _ _ _ _ (H 0%nat) Hsub).
Qed.

Lemma encodeFacts_le lf fs : forall e Es e',
  encodeFacts lf fs e = Some (Es, e') -> conceptToPrime e ⊆ conceptToPrime e'.
Proof.
  induction fs as [|f fs IH]; intros e Es e' H.
  - apply ret_Some in H as [= _ ->]. reflexivity.
  - cbn [encodeFacts] in H.
    apply bind_Some in H as (E & e1 & H1 & H).
    apply bind_Some in H as (Es' & e2 & H2 & H).
    apply ret_Some in H as [= _ ->].
    apply encodeFact_inv in H1 as (? & ? & ? & _ & _ & _ & _ & Hle).
    etrans; [apply (le_c2p _ _ _ Hle) | apply (IH _ _ _ H2)].
Qed.

Lemma encodeRule_le lf r e R e' :
  encodeRule lf r e = Some (R, e') -> conceptToPrime e ⊆ conceptToPrime e'.
Proof.
  intros H. unfold encodeRule in H.
  assert (Hq : forall isU : bool,
    (let* vp := gets variablePrime in
     let* categoryPrime := getPrime lf (JS.String_ (category r)) in
     let* propertyPrime :=
       getPrime lf (JS.String_ (if isU then property r else capability_ r)) in
     let* predicatePrime := getPrime lf (if isU then "is" else "can") in
     match conditions r with
     | [] => throw
     | c0 :: _ =>
         let* conditionEncoding := encodeFact lf c0 in
         let* conclusionEncoding := encodeFact lf (conclusion r) in
         ret (EncQuantified (if isU then q_universal else q_capability) vp
                categoryPrime propertyPrime predicatePrime
                conditionEncoding conclusionEncoding)
     end) e = Some (R, e') -> conceptToPrime e ⊆ conceptToPrime e').
  { intros isU Hq. rewrite bind_gets in Hq.
    apply bind_Some in Hq as (p1 & e1 & H1 & Hq).
    apply bind_Some in Hq as (p2 & e2 & H2 & Hq).
    apply bind_Some in Hq as (p3 & e3 & H3 & Hq).
    destruct (conditions r) as [|c0 cs]; [discriminate|].
    apply bind_Some in Hq as (E4 & e4 & H4 & Hq).
    apply bind_Some in Hq as (E5 & e5 & H5 & Hq).
    apply ret_Some in Hq as [= _ ->].
    apply getPrime_le in H1 as [L1 _]. apply getPrime_le in H2 as [L2 _].
    apply getPrime_le in H3 as [L3 _].
    apply encodeFact_inv in H4 as (? & ? & ? & _ & _ & _ & _ & L4).
    apply encodeFact_inv in H5 as (? & ? & ? & _ & _ & _ & _ & L5).
    etrans; [apply (le_c2p _ _ _ L1)|]. etrans; [apply (le_c2p _ _ _ L2)|].
    etrans; [apply (le_c2p _ _ _ L3)|]. etrans; [apply (le_c2p _ _ _ L4)|].
    apply (le_c2p _ _ _ L5). }
  destruct (type r); [| exact (Hq true H) | exact (Hq false H)].
  apply bind_Some in H as (Es & e1 & H1 & H).
  apply bind_Some in H as (E & e2 & H2 & H).
  apply ret_Some in H as [= _ ->].
  apply encodeFacts_le in H1.
  apply encodeFact_inv in H2 as (? & ? & ? & _ & _ & _ & _ & L2).
  etrans; [exact H1 | apply (le_c2p _ _ _ L2)].
Qed.

Lemma addFact_aligned lf f st E st' :
  kb_aligned st -> addFact lf f st = Some (E, st') -> kb_aligned st'.
Proof.
  intros Ha H. unfold addFact in H.
  apply bind_Some in H as (E1 & st1 & H1 & H).
  apply on_encoder_Some in H1 as (e1 & HE & ->).
  rewrite bind_modify in H. apply ret_Some in H as [= _ ->].
  pose proof (encodeFact_inv _ _ _ _ _ HE) as (? & ? & ? & _ & _ & _ & _ & Hle).
  unfold kb_aligned. cbn [facts factEncodings kb encoder].
  apply Forall2_app.
  - eapply Forall2_impl; [exact Ha|]. cbn. intros g G H lf'.
    apply (encodeFact_registered 0 lf' _ _ _ _ (H 0%nat) (le_c2p _ _ _ Hle)).
  - constructor; [|constructor]. intros lf'.
    apply (encodeFact_idempotent _ _ _ _ _ _ HE).
Qed.

Lemma addRule_aligned lf r st R st' :
  kb_aligned st -> addRule lf r st = Some (R, st') -> kb_aligned st'.
Proof.
  intros Ha H. unfold addRule in H.
  apply bind_Some in H as (R1 & st1 & H1 & H).
  apply on_encoder_Some in H1 as (e1 & HE & ->).
  rewrite bind_modify in H. apply ret_Some in H as [= _ ->].
  apply encodeRule_le in HE.
  unfold kb_aligned. cbn [facts factEncodings kb encoder].
  eapply Forall2_impl; [exact Ha|]. cbn. intros g G H lf'.
  apply (encodeFact_registered 0 lf' _ _ _ _ (H 0%nat) HE).
Qed.

Lemma deduce_st_le lf fuel q st r st' :
  deduce lf fuel q st = Some (r, st') ->
  kb st' = kb st /\ conceptToPrime (encoder st) ⊆ conceptToPrime (encoder st').
Proof.
  intros H. unfold deduce, set_visited in H. rewrite bind_modify in H.
  apply grows__deduce in H. split; [apply (sl_kb _ _ H) | apply (sl_c2p _ _ H)].
Qed.

Lemma deduce_aligned lf fuel q st r st' :
  kb_aligned st -> deduce lf fuel q st = Some (r, st') -> kb_aligned st'.
Proof.
  intros Ha H. apply deduce_st_le in H as [Hk Hs].
  apply (kb_aligned_weaken st); assumption.
Qed.

Lemma learn_loop_aligned lf ss : forall acc st rs st',
  kb_aligned st -> ELLM.learn_loop lf ss acc st = Some (rs, st') -> kb_aligned st'.
Proof.
  induction ss as [|s ss IH]; intros acc st rs st' Ha H.
  - apply ret_Some in H as [= _ ->]. exact Ha.
  - cbn [ELLM.learn_loop] in H.
    destruct (bool_decide (JS.trim s = "")); [apply (IH _ _ _ _ Ha H)|].
    destruct (parseRule s) as [rule|].
    { apply bind_Some in H as (R & st1 & H1 & H).
      apply (IH _ _ _ _ (addRule_aligned _ _ _ _ _ Ha H1) H). }
    destruct (parseFact s) as [fact|]; [|apply (IH _ _ _ _ Ha H)].
    apply bind_Some in H as (E & st1 & H1 & H).
    apply (IH _ _ _ _ (addFact_aligned _ _ _ _ _ Ha H1) H).
Qed.

(** X11: the stored encodings stay those of the stored facts: the property
    holds in a fresh system and [addFact], [addRule], [learn], [deduce] and
    [query] keep it. *)
Theorem kb_aligned_invariant :
  kb_aligned initial_ELLM
  /\ (forall lf f st E st',
        kb_aligned st -> addFact lf f st = Some (E, st') -> kb_aligned st')
  /\ (forall lf r st R st',
        kb_aligned st -> addRule lf r st = Some (R, st') -> kb_aligned st')
  /\ (forall lf text st rs st',
        kb_aligned st -> ELLM.learn lf text st = Some (rs, st') -> kb_aligned st')
  /\ (forall lf fuel q st r st',
        kb_aligned st -> deduce lf fuel q st = Some (r, st') -> kb_aligned st')
  /\ (forall lf fuel question st r st',
        kb_aligned st -> ELLM.query lf fuel question st = Some (r, st') -> kb_aligned st').
Proof.
  split; [constructor|]. split; [exact addFact_aligned|]. split; [exact addRule_aligned|].
  split; [intros lf text st rs st'; apply learn_loop_aligned|].
  split; [exact deduce_aligned|].
  intros lf fuel question st r st' Ha H. unfold ELLM.query in H.
  destruct (parseQuery question) as [q|].
  - apply bind_Some in H as (r1 & st1 & H1 & H). apply ret_Some in H as [= _ ->].
    apply (deduce_aligned _ _ _ _ _ _ Ha H1).
  - apply ret_Some in H as [= _ ->]. exact Ha.
Qed.

(** X12: a stored fact is always deduced, directly: in a store whose
    encodings are those of its facts, [deduce f] for a stored [f] answers
    [true] with "Direct fact in knowledge base: f", and leaves only the key
    of [f] in the visited set. *)
Theorem stored_fact_is_deduced (lf fuel : nat) (f : Fact) (st : ELLM) :
  kb_aligned st -> f ∈ facts (kb st) -> (1 <= fuel)%nat ->
  deduce lf fuel f st
  = Some ({| result := true;
             explanation := "Direct fact in knowledge base: " +:+ Fact_toString f |},
          {| encoder := encoder st; kb := kb st; visited := {[ Fact_toString f ]} |}).
Proof.
  intros Ha Hin Hfuel. destruct fuel as [|fuel]; [lia|].
  apply list_elem_of_lookup_1 in Hin as [i Hi].
  destruct (Forall2_lookup_l _ _ _ _ _ Ha Hi) as (E & HE & Henc).
  unfold deduce, set_visited. rewrite bind_modify. cbn [_deduce]. unfold deduce_body.
  rewrite (bind_eval _ _ _ _ _ (on_encoder_eval _ _ _ _ _ _ (Henc lf))).
  rewrite bind_gets. cbn [visited].
  rewrite bool_decide_eq_false_2 by apply not_elem_of_empty.
  unfold set_visited. rewrite bind_modify, bind_gets. cbn [kb encoder visited].
  assert (Hex : existsb (Z.eqb E) (factEncodings (kb st)) = true).
  { apply existsb_exists. exists E. split; [|apply Z.eqb_refl].
    apply list_elem_of_In. eapply list_elem_of_lookup_2, HE. }
  rewrite Hex. unfold ret. rewrite (left_id_L ∅ (∪)). reflexivity.
Qed.

Lemma stored_fact_is_deduced_witness :
  exists st,
    after 0 (addFact 0 (new_Fact "Socrates" "is" "human")) = Some st
    /\ deduce 0 1 (new_Fact "Socrates" "is" "human") st
       = Some ({| result := true;
                  explanation := "Direct fact in knowledge base: socrates is human" |},
               {| encoder := encoder st; kb := kb st;
                  visited := {[ "socrates is human" ]} |}).
Proof.
  eexists. split; [vm_compute; reflexivity|].
  apply (stored_fact_is_deduced 0 1 (new_Fact "Socrates" "is" "human")).
  - constructor; [|constructor]. intros lf. vm_compute. reflexivity.
  - cbn. left.
  - lia.
Defined.

Lemma kb_aligned_invariant_witness :
  exists E st,
    addFact 0 (new_Fact "Socrates" "is" "human") initial_ELLM = Some (E, st)
    /\ kb_aligned st.
Proof.
  eexists _, _. split; [vm_compute; reflexivity|].
  destruct kb_aligned_invariant as (A0 & A1 & _).
  eapply (A1 0%nat (new_Fact "Socrates" "is" "human") initial_ELLM); [exact A0|].
  vm_compute. reflexivity.
Defined.

(** X14: without rules, and for a predicate other than "is" and "part of",
    [deduce q] is a lookup up to order: in a well-formed concept table with
    room for the three concepts of [q], and with encodings that are those of
    the facts, it returns, and the answer is [true] exactly when a stored
    fact has the components of [q], in any order. *)
Theorem deduce_without_rules (lf fuel : nat) (q : Fact) (st : ELLM) :
  enc_wf (encoder st) -> (nextPrimeIndex (encoder st) + 3 <= 168)%nat ->
  kb_aligned st -> rules (kb st) = [] ->
  predicate q <> "is" -> predicate q <> "part of" -> (1 <= fuel)%nat ->
  exists r st',
    deduce lf fuel q st = Some (r, st')
    /\ (result r = true
        <-> exists f, f ∈ facts (kb st) /\ components f ≡ₚ components q).
Proof.
  intros Hwf Hroom Ha Hrules Hp1 Hp2 Hfuel. destruct fuel as [|fuel]; [lia|].
  destruct (encodeFact_step lf q (encoder st) Hwf Hroom)
    as (E & e' & HE & Hwf' & Hsub & _ & _).
  assert (Hmem : existsb (Z.eqb E) (factEncodings (kb st)) = true
                 <-> exists f, f ∈ facts (kb st) /\ components f ≡ₚ components q).
  { destruct (encodeFact_inv _ _ _ _ _ HE) as (q1 & q2 & q3 & -> & B1 & B2 & B3 & _).
    rewrite existsb_exists. split.
    - intros (E' & Hin & Heq). apply Z.eqb_eq in Heq. subst E'.
      apply list_elem_of_In, list_elem_of_lookup_1 in Hin as [i Hi].
      destruct (Forall2_lookup_r _ _ _ _ _ Ha Hi) as (f & Hf & Henc).
      exists f. split; [eapply list_elem_of_lookup_2, Hf|].
      destruct (encodeFact_inv _ _ _ _ _ (Henc 0%nat))
        as (p1 & p2 & p3 & Hprod & A1 & A2 & A3 & _).
      apply (proj1 (encoding_collision e' _ _ _ _ _ _ _ _ _ _ _ _ Hwf'
                      (lookup_weaken _ _ _ _ A1 Hsub) (lookup_weaken _ _ _ _ A2 Hsub)
                      (lookup_weaken _ _ _ _ A3 Hsub) B1 B2 B3)).
      lia.
    - intros (f & Hin & Hperm).
      apply list_elem_of_lookup_1 in Hin as [i Hi].
      destruct (Forall2_lookup_l _ _ _ _ _ Ha Hi) as (E' & HE' & Henc).
      exists E'. split; [apply list_elem_of_In; eapply list_elem_of_lookup_2, HE'|].
      apply Z.eqb_eq.
      destruct (encodeFact_inv _ _ _ _ _ (Henc 0%nat))
        as (p1 & p2 & p3 & -> & A1 & A2 & A3 & _).
      symmetry.
      apply (proj2 (encoding_collision e' _ _ _ _ _ _ _ _ _ _ _ _ Hwf'
                      (lookup_weaken _ _ _ _ A1 Hsub) (lookup_weaken _ _ _ _ A2 Hsub)
                      (lookup_weaken _ _ _ _ A3 Hsub) B1 B2 B3)).
      exact Hperm. }
  unfold deduce, set_visited. rewrite bind_modify. cbn [_deduce]. unfold deduce_body.
  rewrite (bind_eval _ _ _ _ _ (on_encoder_eval _ _ _ _ _ _ HE)).
  rewrite bind_gets. cbn [visited].
  rewrite bool_decide_eq_false_2 by apply not_elem_of_empty.
  unfold set_visited. rewrite bind_modify, bind_gets. cbn [kb encoder visited].
  destruct (existsb (Z.eqb E) (factEncodings (kb st))) eqn:Hex.
  - eexists _, _. split; [reflexivity|]. cbn [result]. rewrite <- Hmem. tauto.
  - rewrite bind_gets. cbn [kb]. rewrite Hrules. cbn [quantified_pass].
    rewrite bind_ret, bind_gets. cbn [kb]. rewrite Hrules. cbn [standard_pass].
    rewrite bind_ret.
    rewrite (bool_decide_eq_false_2 _ Hp1), (bool_decide_eq_false_2 _ Hp2). cbn [orb].
    eexists _, _. split; [reflexivity|]. cbn [result could_not_deduce].
    rewrite <- Hmem. split; discriminate.
Qed.

(** ** What the parsers can return *)

Lemma new_Fact_normalized s p o : normalized (new_Fact s p o).
Proof. repeat split; apply toLowerCase_idempotent. Qed.

Lemma first_of_Some {A} (l : list (option A)) x : first_of l = Some x -> Some x ∈ l.
Proof.
  induction l as [|[a|] l IH]; cbn; intros H; [discriminate | |].
  - injection H as ->. left.
  - right. apply IH, H.
Qed.

Lemma template_Some text sep pred clean f :
  template text sep pred clean = Some f ->
  predicate f = JS.toLowerCase pred /\ normalized f.
Proof.
  unfold template. destruct (JS.includes text sep); [|discriminate].
  destruct (JS.split text sep) as [|a [|b [|c l]]]; try discriminate.
  intros [= <-]. split; [reflexivity | apply new_Fact_normalized].
Qed.

Lemma parseFact_Some (sentence : string) (f : Fact) :
  parseFact sentence = Some f ->
  predicate f ∈ fact_predicates /\ normalized f.
Proof.
  intros H. apply first_of_Some in H.
  repeat (apply elem_of_cons in H as [H|H];
          [symmetry in H; apply template_Some in H as [-> Hn];
           split; [cbn; set_solver | exact Hn]|]).
  apply elem_of_nil in H. contradiction.
Qed.

(** X15: every fact that [parseFact] returns has one of the seven predicates
    of its templates, and lower-case components. *)
Theorem parseFact_shape (sentence : string) (f : Fact) :
  parseFact sentence = Some f ->
  predicate f ∈ fact_predicates /\ normalized f.
Proof. exact (parseFact_Some sentence f). Qed.

Lemma parseFact_shape_witness :
  predicate (new_Fact "penguins" "cannot" "fly") ∈ fact_predicates
  /\ normalized (new_Fact "penguins" "cannot" "fly").
Proof. apply (parseFact_shape "Penguins cannot fly."). vm_compute. reflexivity. Defined.

Lemma by_parts_Some rest sep pred clean f :
  by_parts rest sep pred clean = Some f ->
  predicate f = JS.toLowerCase pred /\ normalized f.
Proof.
  unfold by_parts.
  destruct (JS.split rest sep) as [|a [|b [|c l]]]; try discriminate.
  intros [= <-]. split; [reflexivity | apply new_Fact_normalized].
Qed.

Lemma by_words_Some rest pred f :
  by_words rest pred = Some f ->
  predicate f = JS.toLowerCase pred /\ normalized f.
Proof.
  unfold by_words.
  destruct (JS.split rest " ") as [|a [|b l]]; try discriminate.
  intros [= <-]. split; [reflexivity | apply new_Fact_normalized].
Qed.

(** X16: every fact that [parseQuery] returns has one of five predicates;
    no question asks about "cannot" or "teaches". *)
Theorem parseQuery_shape (question : string) (f : Fact) :
  parseQuery question = Some f ->
  predicate f ∈ query_predicates /\ normalized f
  /\ predicate f <> "cannot" /\ predicate f <> "teaches".
Proof.
  intros H.
  assert (Hp : predicate f ∈ query_predicates /\ normalized f).
  { apply first_of_Some in H.
    repeat (apply elem_of_cons in H as [H|H];
            [symmetry in H;
             repeat (cbv zeta in H;
                     match type of H with
                     | (if ?b then _ else _) = Some _ => destruct b; [|try discriminate H]
                     end);
             first [ apply by_parts_Some in H as [-> Hn]
                   | apply by_words_Some in H as [-> Hn] ];
             (split; [cbn; set_solver | exact Hn])|]).
    apply elem_of_nil in H. contradiction. }
  destruct Hp as [Hp Hn]. split; [exact Hp|]. split; [exact Hn|].
  split; intros Heq; rewrite Heq in Hp; unfold query_predicates in Hp;
    repeat (apply elem_of_cons in Hp as [Hp|Hp]; [discriminate|]);
    apply elem_of_nil in Hp; contradiction.
Qed.

Lemma parseQuery_shape_witness :
  predicate (new_Fact "alice" "likes" "bob") ∈ query_predicates
  /\ normalized (new_Fact "alice" "likes" "bob")
  /\ predicate (new_Fact "alice" "likes" "bob") <> "cannot"
  /\ predicate (new_Fact "alice" "likes" "bob") <> "teaches".
Proof. apply (parseQuery_shape "Does Alice like Bob?"). vm_compute. reflexivity. Defined.

Lemma normalize_toLowerCase s : normalize (JS.toLowerCase s) = normalize s.
Proof. unfold normalize. rewrite toLowerCase_idempotent. reflexivity. Qed.

(** X17: the three parsers ignore letter case. *)
Theorem parsers_ignore_case (s : string) :
  parseFact (JS.toLowerCase s) = parseFact s
  /\ parseRule (JS.toLowerCase s) = parseRule s
  /\ parseQuery (JS.toLowerCase s) = parseQuery s.
Proof.
  unfold parseFact, parseRule, parseQuery. rewrite !normalize_toLowerCase. auto.
Qed.

Lemma split_go_nonempty sep s : forall skip cur, JS.split_go sep skip cur s <> [].
Proof.
  induction s as [|c s IH]; intros skip cur; cbn [JS.split_go]; [discriminate|].
  destruct skip; [|apply IH]. destruct (String.prefix sep _); [discriminate | apply IH].
Qed.

Lemma parseConditions_Some parts : forall conds,
  parseConditions parts = Some conds ->
  length conds = length parts
  /\ Forall (fun f => predicate f ∈ fact_predicates /\ normalized f) conds.
Proof.
  induction parts as [|part parts IH]; intros conds H; cbn [parseConditions] in H.
  - injection H as <-. split; [reflexivity | constructor].
  - destruct (parseFact part) as [c|] eqn:Hc; [|discriminate].
    destruct (parseConditions parts) as [cs|]; [|discriminate].
    injection H as <-. destruct (IH cs eq_refl) as [Hl Hf].
    split; [cbn; congruence|]. constructor; [apply (parseFact_Some _ _ Hc) | exact Hf].
Qed.

(** X18: every rule that [parseRule] returns has at least one condition
    (so [encodeRule] finds [conditions[0]]); it is a universal rule, a
    capability rule, or a standard rule whose conditions and conclusion come
    from [parseFact]. *)
Theorem parseRule_shape (sentence : string) (r : Rule) :
  parseRule sentence = Some r ->
  conditions r <> []
  /\ ((exists c p, r = createUniversalRule c p)
      \/ (exists c a, r = createCapabilityRule c a)
      \/ (exists conds concl,
            r = new_Rule conds concl
            /\ Forall (fun f => predicate f ∈ fact_predicates /\ normalized f)
                      (concl :: conds))).
Proof.
  unfold parseRule. generalize (normalize sentence) as text. intros text.
  assert (Hstd : forall parts concl_text conds concl,
            parts <> [] -> parseConditions parts = Some conds ->
            parseFact concl_text = Some concl ->
            conditions (new_Rule conds concl) <> []
            /\ ((exists c p, new_Rule conds concl = createUniversalRule c p)
                \/ (exists c a, new_Rule conds concl = createCapabilityRule c a)
                \/ (exists conds' concl',
                      new_Rule conds concl = new_Rule conds' concl'
                      /\ Forall (fun f => predicate f ∈ fact_predicates /\ normalized f)
                                (concl' :: conds')))).
  { intros parts ct conds concl Hne Hc Hf.
    apply parseConditions_Some in Hc as [Hl Hall]. split.
    - cbn. intros ->. destruct parts; [contradiction | discriminate].
    - right. right. exists conds, concl. split; [reflexivity|].
      constructor; [apply (parseFact_Some _ _ Hf) | exact Hall]. }
  repeat match goal with
         | |- context [if ?b then _ else _] => destruct b
         | |- context [match JS.split ?x ?y with _ => _ end] =>
             let Hs := fresh "Hs" in
             destruct (JS.split x y) as [|? [|? [|? ?]]] eqn:Hs
         | |- context [match parseConditions ?x with _ => _ end] =>
             let Hc := fresh "Hc" in destruct (parseConditions x) eqn:Hc
         | |- context [match parseFact ?x with _ => _ end] =>
             let Hf := fresh "Hf" in destruct (parseFact x) eqn:Hf
         end.
  all: intros H; try discriminate H; injection H as <-.
  all: try solve [split; [discriminate | left; eauto]].
  all: try solve [split; [discriminate | right; left; eauto]].
  all: try (eapply Hstd; [|eassumption|eassumption]; try discriminate;
            apply split_go_nonempty).
Qed.

Lemma parseRule_shape_witness :
  conditions (createCapabilityRule "birds" "fly") <> []
  /\ ((exists c p, createCapabilityRule "birds" "fly" = createUniversalRule c p)
      \/ (exists c a, createCapabilityRule "birds" "fly" = createCapabilityRule c a)
      \/ (exists conds concl,
            createCapabilityRule "birds" "fly" = new_Rule conds concl
            /\ Forall (fun f => predicate f ∈ fact_predicates /\ normalized f)
                      (concl :: conds))).
Proof. apply (parseRule_shape "All birds can fly"). vm_compute. reflexivity. Defined.

(** ** Questions and learning *)









Lemma trimStart_all_ws s : all_ws s = true -> JS.trimStart s = "".
Proof.
  induction s as [|c s IH]; [reflexivity|]. cbn. intros H.
  apply andb_prop in H as [Hc Hs]. rewrite Hc. apply IH, Hs.
Qed.

Lemma trim_all_ws s : all_ws s = true -> JS.trim s = "".
Proof. intros H. unfold JS.trim. rewrite (trimStart_all_ws s H). reflexivity. Qed.

Lemma rev_string_all_ws s : forall acc,
  all_ws acc = true -> all_ws s = true -> all_ws (JS.rev_string acc s) = true.
Proof.
  induction s as [|c s IH]; intros acc Ha Hs; [exact Ha|].
  cbn in Hs. apply andb_prop in Hs as [Hc Hs]. cbn [JS.rev_string].
  apply IH; [cbn; rewrite Hc; exact Ha | exact Hs].
Qed.

Lemma split_sentences_go_blank s : forall ws cur,
  blank s = true -> all_ws cur = true ->
  Forall (fun p => JS.trim p = "") (JS.split_sentences_go ws cur s).
Proof.
  induction s as [|c s IH]; intros ws cur Hs Hcur; cbn [JS.split_sentences_go].
  - constructor; [|constructor]. apply trim_all_ws, rev_string_all_ws; [reflexivity | exact Hcur].
  - cbn in Hs. apply andb_prop in Hs as [Hc Hs].
    destruct (ws && JS.is_ws c) eqn:H1; [apply IH; assumption|].
    destruct (JS.is_terminator c) eqn:H2.
    + constructor; [|apply IH; [exact Hs | reflexivity]].
      apply trim_all_ws, rev_string_all_ws; [reflexivity | exact Hcur].
    + apply IH; [exact Hs|]. rewrite orb_false_r in Hc. cbn. rewrite Hc. exact Hcur.
Qed.

(** X21: a text of whitespace and sentence terminators only teaches
    nothing: no line, no change. *)
Theorem learn_blank (lf : nat) (text : string) (st : ELLM) :
  blank text = true -> ELLM.learn lf text st = Some ([], st).
Proof.
  intros H. unfold ELLM.learn. rewrite filter_none; [reflexivity|].
  eapply Forall_impl; [apply (split_sentences_go_blank text false "" H eq_refl)|].
  cbn. intros p Hp. rewrite Hp. cbn. lia.
Qed.

Lemma learn_blank_witness : ELLM.learn 0 " ...  ?! " initial_ELLM = Some ([], initial_ELLM).
Proof. apply (learn_blank 0 " ...  ?! " initial_ELLM). reflexivity. Defined.

(** ** The lines of [learn] *)

Lemma learn_loop_lines lf ss : forall acc st rs st',
  Forall (fun s => String.length (JS.trim s) ≠ 0%nat) ss ->
  ELLM.learn_loop lf ss acc st = Some (rs, st') ->
  rs = acc ++ (learn_line <$> ss).
Proof.
  induction ss as [|s ss IH]; intros acc st rs st' Hss H.
  - apply ret_Some in H as [= -> _]. cbn. rewrite app_nil_r. reflexivity.
  - apply Forall_cons in Hss as [Hs Hss]. cbn [ELLM.learn_loop] in H.
    rewrite bool_decide_eq_false_2 in H by (intros Hb; rewrite Hb in Hs; apply Hs; reflexivity).
    change (rs = acc ++ [learn_line s] ++ (learn_line <$> ss)). rewrite app_assoc.
    unfold learn_line at 1.
    destruct (parseRule s) as [rule|].
    { apply bind_Some in H as (R & st1 & _ & H). apply (IH _ _ _ _ Hss H). }
    destruct (parseFact s) as [fact|]; [|apply (IH _ _ _ _ Hss H)].
    apply bind_Some in H as (E & st1 & _ & H). apply (IH _ _ _ _ Hss H).
Qed.

Lemma learn_loop_unparsed lf ss : forall acc st,
  Forall (fun s => String.length (JS.trim s) ≠ 0%nat) ss ->
  Forall (fun s => parseRule s = None /\ parseFact s = None) ss ->
  ELLM.learn_loop lf ss acc st = Some (acc ++ (ELLM.failed_to_parse <$> ss), st).
Proof.
  induction ss as [|s ss IH]; intros acc st Hss Hno.
  - cbn. rewrite app_nil_r. reflexivity.
  - apply Forall_cons in Hss as [Hs Hss]. apply Forall_cons in Hno as [[Hr Hf] Hno].
    cbn [ELLM.learn_loop].
    rewrite bool_decide_eq_false_2 by (intros Hb; rewrite Hb in Hs; apply Hs; reflexivity).
    rewrite Hr, Hf, (IH _ _ Hss Hno), <- app_assoc. reflexivity.
Qed.

Lemma sentences_of_not_blank text :
  Forall (fun s => String.length (JS.trim s) ≠ 0%nat) (sentences_of text).
Proof. apply Forall_forall. intros s Hs. apply list_elem_of_filter in Hs. tauto. Qed.

(** C8, as amended: [learn] returns one line for each sentence of the text
    (the pieces between the terminators that are not blank), in the order of
    the sentences, and the line of a sentence that neither [parseRule] nor
    [parseFact] accepts is [Failed to parse: "sentence"], with the sentence as
    it was split from the text: the letter case is kept, the normalized text
    is not what [learn] echoes. A text whose sentences all fail to parse is
    answered for every budget, and nothing is learnt. So [learn("Xyzzy plugh")]
    yields exactly [Failed to parse: "Xyzzy plugh"], and the second line of
    "Socrates is human. Xyzzy plugh! All humans are mortal." is that one. *)
Theorem learn_failed_to_parse :
  (forall lf text st lines st',
     ELLM.learn lf text st = Some (lines, st') ->
     lines = learn_line <$> sentences_of text
     /\ forall i sentence,
          sentences_of text !! i = Some sentence ->
          parseRule sentence = None -> parseFact sentence = None ->
          lines !! i = Some (ELLM.failed_to_parse sentence))
  /\ (forall lf text st,
        Forall (fun s => parseRule s = None /\ parseFact s = None) (sentences_of text) ->
        ELLM.learn lf text st = Some (ELLM.failed_to_parse <$> sentences_of text, st))
  /\ sentences_of "Xyzzy plugh" = ["Xyzzy plugh"]
  /\ sentences_of "Socrates is human. Xyzzy plugh! All humans are mortal."
     = ["Socrates is human"; "Xyzzy plugh"; "All humans are mortal"]
  /\ (forall lf st,
        ELLM.learn lf "Xyzzy plugh" st
        = Some (["Failed to parse: " +:+ JS.dquote +:+ "Xyzzy plugh" +:+ JS.dquote], st)).
Proof.
  assert (A : forall lf text st lines st',
             ELLM.learn lf text st = Some (lines, st') ->
             lines = learn_line <$> sentences_of text).
  { intros lf text st lines st' H. unfold ELLM.learn in H.
    apply (learn_loop_lines _ _ _ _ _ _ (sentences_of_not_blank text)) in H. exact H. }
  assert (B : forall lf text st,
             Forall (fun s => parseRule s = None /\ parseFact s = None) (sentences_of text) ->
             ELLM.learn lf text st
             = Some (ELLM.failed_to_parse <$> sentences_of text, st)).
  { intros lf text st Hno. unfold ELLM.learn.
    apply (learn_loop_unparsed lf _ [] st (sentences_of_not_blank text) Hno). }
  split; [|split; [exact B|]].
  - intros lf text st lines st' H. apply A in H. split; [exact H|].
    intros i s Hi Hr Hf. rewrite H, list_lookup_fmap, Hi. cbn.
    unfold learn_line. rewrite Hr, Hf. reflexivity.
  - split; [vm_compute; reflexivity|]. split; [vm_compute; reflexivity|].
    intros lf st. rewrite (B lf "Xyzzy plugh" st).
    + vm_compute. reflexivity.
    + apply Forall_forall. intros s Hs.
      assert (Hl : sentences_of "Xyzzy plugh" = ["Xyzzy plugh"]) by (vm_compute; reflexivity).
      rewrite Hl in Hs. apply list_elem_of_singleton in Hs. subst s.
      split; vm_compute; reflexivity.
Qed.

Lemma learn_failed_to_parse_witness :
  exists lines st',
    ELLM.learn 0 "Socrates is human. Xyzzy plugh! All humans are mortal." initial_ELLM
    = Some (lines, st')
    /\ lines !! 1%nat = Some (ELLM.failed_to_parse "Xyzzy plugh")
    /\ length lines = 3%nat.
Proof.
  destruct (ELLM.learn 0 "Socrates is human. Xyzzy plugh! All humans are mortal."
              initial_ELLM) as [[lines st']|] eqn:H; [|vm_compute in H; discriminate].
  exists lines, st'. split; [reflexivity|].
  destruct (proj1 learn_failed_to_parse _ _ _ _ _ H) as [Hl Hi].
  split.
  - apply Hi; vm_compute; reflexivity.
  - rewrite Hl. vm_compute. reflexivity.
Defined.

(** ** The summary of the rules *)

(** X22: [describeRule] shows a universal or capability rule that was
    added as "All c are p" or "All c can p" in lower case, right after
    [addRule] and in every later state of the concept table. *)
Theorem describeRule_quantified (lf lf' : nat) (isU : bool) (c p : string) (st0 : ELLM) :
  enc_wf (encoder st0) -> (nextPrimeIndex (encoder st0) + 9 <= 168)%nat ->
  JS.toLowerCase c <> "" -> JS.toLowerCase p <> "" ->
  exists R st,
    addRule lf (quantified_rule isU c p) st0 = Some (R, st)
    /\ forall e',
         enc_wf e' -> conceptToPrime (encoder st) ⊆ conceptToPrime e' ->
         ELLM.describeRule lf' R e'
         = Some ("All " +:+ JS.toLowerCase c +:+ (if isU then " are " else " can ")
                 +:+ JS.toLowerCase p, e').
Proof.
  destruct st0 as [e0 k0 v0]. cbn [encoder]. intros Hwf Hroom Hc Hp.
  destruct (getPrime_step lf c e0 Hwf) as (pc & e1 & H1 & W1 & S1 & N1 & L1); [lia|].
  destruct (getPrime_step lf p e1 W1) as (pp & e2 & H2 & W2 & S2 & N2 & L2); [lia|].
  destruct (getPrime_step lf (if isU then "is" else "can") e2 W2)
    as (pi & e3 & H3 & W3 & S3 & N3 & L3); [lia|].
  destruct (encodeFact_step lf (new_Fact "_x_" "is" c) e3 W3)
    as (E4 & e4 & H4 & W4 & S4 & N4 & _); [lia|].
  destruct (encodeFact_step lf (new_Fact "_x_" (if isU then "is" else "can") p) e4 W4)
    as (E5 & e5 & H5 & W5 & S5 & N5 & _); [lia|].
  assert (Henc : encodeRule lf (quantified_rule isU c p) e0
                 = Some (EncQuantified (if isU then q_universal else q_capability)
                           (variablePrime e0) pc pp pi E4 E5, e5)).
  { unfold encodeRule, quantified_rule.
    destruct isU; cbn [type createUniversalRule createCapabilityRule category property
                         capability_ conditions conclusion JS.String_];
      rewrite bind_gets, (bind_eval _ _ _ _ _ H1); cbn [JS.String_ bool_decide decide_rel];
      [change (bool_decide (universal = universal)) with true
      |change (bool_decide (capability = universal)) with false];
      cbv iota; rewrite (bind_eval _ _ _ _ _ H2), (bind_eval _ _ _ _ _ H3),
        (bind_eval _ _ _ _ _ H4), (bind_eval _ _ _ _ _ H5); reflexivity. }
  eexists _, _. split.
  { unfold addRule.
    rewrite (bind_eval _ _ _ _ _ (on_encoder_eval _ _ k0 v0 _ _ Henc)). reflexivity. }
  intros e' W' Hsub. cbn [encoder] in Hsub.
  assert (Kc : conceptToPrime e' !! JS.toLowerCase c = Some pc).
  { eapply lookup_weaken; [exact L1|].
    etrans; [exact S2|]. etrans; [exact S3|]. etrans; [exact S4|]. etrans; [exact S5|].
    exact Hsub. }
  assert (Kp : conceptToPrime e' !! JS.toLowerCase p = Some pp).
  { eapply lookup_weaken; [exact L2|].
    etrans; [exact S3|]. etrans; [exact S4|]. etrans; [exact S5|]. exact Hsub. }
  unfold ELLM.describeRule.
  destruct isU; rewrite bind_gets; unfold ret, id;
    rewrite (getConceptName_registered _ _ _ W' Kc Hc),
            (getConceptName_registered _ _ _ W' Kp Hp); reflexivity.
Qed.

Lemma describeRule_quantified_witness :
  exists R st,
    addRule 0 (quantified_rule true "Humans" "Mortal") initial_ELLM = Some (R, st)
    /\ forall e',
         enc_wf e' -> conceptToPrime (encoder st) ⊆ conceptToPrime e' ->
         ELLM.describeRule 0 R e'
         = Some ("All " +:+ JS.toLowerCase "Humans" +:+ " are "
                 +:+ JS.toLowerCase "Mortal", e').
Proof.
  apply (describeRule_quantified 0 0 true "Humans" "Mortal" initial_ELLM);
    [exact initial_encoder_wf | simpl; lia | discriminate | discriminate].
Defined.

(** ** Termination of [deduce] *)

Section Termination.

Variable N : gset string.
Hypothesis HN : names_ok N.
Hypothesis N_is : "is" ∈ N.
Variable lf : nat.
Hypothesis Hlf : (30 <= lf)%nat.

Lemma key_in q : fact_in N q -> Fact_toString q ∈ fact_keys N.
Proof.
  intros (Hs & Hp & Ho). unfold fact_keys, Fact_toString.
  apply elem_of_set_bind. exists (subject q). split; [exact Hs|].
  apply elem_of_set_bind. exists (predicate q). split; [exact Hp|].
  apply elem_of_map. exists (object q). split; [reflexivity | exact Ho].
Qed.

Lemma getPrime_einv c e :
  einv N e -> c ∈ N ->
  exists p e', getPrime lf c e = Some (p, e')
    /\ einv N e' /\ conceptToPrime e ⊆ conceptToPrime e'
    /\ conceptToPrime e' !! c = Some p.
Proof.
  intros (Hwf & Hdom & Hroom) Hc. destruct (HN c Hc) as [Hlow _].
  destruct (conceptToPrime e !! c) as [p|] eqn:Hl.
  - exists p, e. split; [apply getPrime_known; rewrite Hlow; exact Hl|].
    split; [exact (conj Hwf (conj Hdom Hroom))|]. split; [reflexivity | exact Hl].
  - assert (Hin : c ∈ N ∖ dom (conceptToPrime e)).
    { apply elem_of_difference. split; [exact Hc|]. apply not_elem_of_dom. exact Hl. }
    assert (Hpos : size (N ∖ dom (conceptToPrime e)) <> 0%nat).
    { apply size_non_empty_iff. intros HX. apply HX in Hin. exact (not_elem_of_empty _ Hin). }
    destruct (getPrime_total lf c e Hwf) as (p & e' & Hg); [lia|].
    exists p, e'. split; [exact Hg|].
    destruct (getPrime_le _ _ _ _ _ Hg) as [Hle Hk]. rewrite Hlow in Hk.
    destruct (getPrime_inv _ _ _ _ _ Hg) as [[Hk' _]|(_ & calc' & _ & He')];
      [rewrite Hlow in Hk'; congruence|].
    assert (Hdom' : dom (conceptToPrime e') = {[c]} ∪ dom (conceptToPrime e)).
    { rewrite He'. cbn [conceptToPrime]. rewrite Hlow. apply leibniz_equiv.
      rewrite dom_insert. reflexivity. }
    assert (Hnext : nextPrimeIndex e' = S (nextPrimeIndex e)) by (rewrite He'; reflexivity).
    assert (Hsize : (size (N ∖ dom (conceptToPrime e'))
                     < size (N ∖ dom (conceptToPrime e)))%nat).
    { apply subset_size. rewrite Hdom'. split.
      - intros x Hx. apply elem_of_difference in Hx as [Hx1 Hx2].
        apply elem_of_difference. split; [exact Hx1|].
        intros Hx3. apply Hx2. apply elem_of_union_r, Hx3.
      - intros Hsub. specialize (Hsub c Hin).
        apply elem_of_difference in Hsub as [_ Hn]. apply Hn.
        apply elem_of_union_l, elem_of_singleton. reflexivity. }
    split; [|split; [apply (le_c2p _ _ _ Hle) | exact Hk]].
    split; [apply (getPrime_wf _ _ _ _ _ Hwf Hg); lia|].
    split; [|lia]. rewrite Hdom'. intros x Hx.
    apply elem_of_union in Hx as [Hx|Hx]; [|apply Hdom, Hx].
    apply elem_of_singleton in Hx. subst x. exact Hc.
Qed.

Lemma encodeFact_einv q e :
  einv N e -> fact_in N q ->
  exists E e', encodeFact lf q e = Some (E, e')
    /\ einv N e' /\ conceptToPrime e ⊆ conceptToPrime e'.
Proof.
  intros He (Hs & Hp & Ho).
  destruct (getPrime_einv _ _ He Hs) as (p1 & e1 & H1 & He1 & S1 & _).
  destruct (getPrime_einv _ _ He1 Hp) as (p2 & e2 & H2 & He2 & S2 & _).
  destruct (getPrime_einv _ _ He2 Ho) as (p3 & e3 & H3 & He3 & S3 & _).
  exists (p1 * p2 * p3), e3. split.
  - unfold encodeFact. rewrite (bind_eval _ _ _ _ _ H1), (bind_eval _ _ _ _ _ H2),
      (bind_eval _ _ _ _ _ H3). reflexivity.
  - split; [exact He3|]. etrans; [exact S1|]. etrans; [exact S2 | exact S3].
Qed.

Lemma cache_weaken e e' :
  enc_wf e -> enc_wf e' -> conceptToPrime e ⊆ conceptToPrime e' ->
  primeToConceptCache e ⊆ primeToConceptCache e'.
Proof.
  intros W W' Hsub. apply map_subseteq_spec. intros q c Hq.
  apply (wf_rev _ W'). eapply lookup_weaken; [|exact Hsub]. apply (wf_fwd _ W), Hq.
Qed.

Lemma rule_ok_weaken e e' R :
  enc_wf e -> enc_wf e' -> conceptToPrime e ⊆ conceptToPrime e' ->
  rule_ok e R -> rule_ok e' R.
Proof.
  intros W W' Hsub. destruct R as [qt vp pc pp ppr ce cl|cs cl]; cbn.
  - intros [c Hc]. exists c. eapply lookup_weaken; [exact Hc|]. apply cache_weaken; assumption.
  - intros H. eapply Forall_impl; [exact H|]. cbn. intros E [f Hf].
    exists f. apply (encodeFact_registered 0 0 _ _ _ _ Hf Hsub).
Qed.

Lemma tinv_change st e' v :
  tinv N st -> einv N e' -> conceptToPrime (encoder st) ⊆ conceptToPrime e' ->
  tinv N {| encoder := e'; kb := kb st; visited := v |}.
Proof.
  intros (He & Ha & Hr) He' Hsub. split; [exact He'|]. split.
  - apply (kb_aligned_weaken st); [exact Ha | reflexivity | exact Hsub].
  - cbn [encoder kb]. eapply Forall_impl; [exact Hr|]. intros R.
    apply rule_ok_weaken; [apply He | apply He' | exact Hsub].
Qed.

Lemma tstep_refl st : tinv N st -> tstep N st st.
Proof. intros H. split; [exact H|]. split; [reflexivity|]. split; reflexivity. Qed.

Lemma tstep_trans st1 st2 st3 : tstep N st1 st2 -> tstep N st2 st3 -> tstep N st1 st3.
Proof.
  intros (_ & K1 & V1 & C1) (I2 & K2 & V2 & C2).
  split; [exact I2|]. split; [congruence|]. split; etrans; eassumption.
Qed.

Lemma tstep_size st st' n :
  tstep N st st' -> (size (fact_keys N ∖ visited st) < n)%nat ->
  (size (fact_keys N ∖ visited st') < n)%nat.
Proof.
  intros (_ & _ & V & _) H. eapply Nat.le_lt_trans; [|exact H].
  apply subseteq_size. intros x Hx. apply elem_of_difference in Hx as [Hx1 Hx2].
  apply elem_of_difference. split; [exact Hx1|]. intros Hx3. apply Hx2, V, Hx3.
Qed.

(** The name of a registered prime is a name of [N]. *)
Lemma registered_name e p :
  einv N e -> is_Some (primeToConceptCache e !! p) ->
  getConceptName e p ∈ N /\ JS.toLowerCase (getConceptName e p) = getConceptName e p.
Proof.
  intros (W & Hdom & _) [c Hc]. unfold getConceptName. rewrite Hc.
  assert (Hin : c ∈ N).
  { apply Hdom. apply elem_of_dom. exists p. apply (wf_fwd _ W), Hc. }
  destruct (HN c Hin) as [Hlow Hne]. destruct (decide (c = "")); [contradiction|].
  split; [exact Hin | exact Hlow].
Qed.

Lemma new_Fact_in a b c :
  JS.toLowerCase a ∈ N -> JS.toLowerCase b ∈ N -> JS.toLowerCase c ∈ N ->
  fact_in N (new_Fact a b c).
Proof. intros Ha Hb Hc. repeat split; assumption. Qed.

Lemma lower_in c : c ∈ N -> JS.toLowerCase c ∈ N.
Proof. intros Hc. rewrite (proj1 (HN c Hc)). exact Hc. Qed.

(** Decoding the encoding of a registered fact gives a fact over [N]. *)
Lemma decode_registered e E :
  einv N e -> (exists f, encodeFact 0 f e = Some (E, e)) ->
  exists o, decodeFact lf E e = Some (o, e) /\ forall g, o = Some g -> fact_in N g.
Proof.
  intros He [f Hf]. pose proof He as (W & _ & _).
  destruct (encodeFact_inv _ _ _ _ _ Hf) as (ps & pp & po & HE & K1 & K2 & K3 & _).
  destruct (enc_wf_prime _ _ _ W K1) as [Pa La].
  destruct (enc_wf_prime _ _ _ W K2) as [Pb Lb].
  destruct (enc_wf_prime _ _ _ W K3) as [Pc Lc].
  destruct (factorize_triple lf ps pp po (primeCalc e) (wf_primes _ W))
    as (l & Hfac & _); try assumption.
  rewrite <- HE in Hfac.
  pose proof (factors_registered 0 lf f e E l W Hf Hfac) as Hreg.
  unfold decodeFact. rewrite Hfac.
  destruct l as [|a [|b [|c [|d l]]]]; try (eexists; split; [reflexivity | discriminate]).
  eexists. split; [reflexivity|]. intros g [= <-].
  apply Forall_cons in Hreg as [Ra Hreg]. apply Forall_cons in Hreg as [Rb Hreg].
  apply Forall_cons in Hreg as [Rc _].
  destruct (registered_name e a He Ra) as [Na La'].
  destruct (registered_name e b He Rb) as [Nb Lb'].
  destruct (registered_name e c He Rc) as [Nc Lc'].
  apply new_Fact_in; [rewrite La' | rewrite Lb' | rewrite Lc']; assumption.
Qed.

Lemma aligned_objects st :
  tinv N st -> Forall (fun f => JS.toLowerCase (object f) ∈ N) (facts (kb st)).
Proof.
  intros ((W & Hdom & _) & Ha & _). apply Forall_lookup_2. intros i f Hi.
  destruct (Forall2_lookup_l _ _ _ _ _ Ha Hi) as (E & _ & Henc).
  destruct (encodeFact_inv _ _ _ _ _ (Henc 0%nat)) as (? & ? & po & _ & _ & _ & K3 & _).
  apply Hdom, elem_of_dom. exists po. exact K3.
Qed.

Section Loops.

Variable n : nat.
Variable rec : Fact -> M ELLM Result.
Hypothesis Hrec : rec_ok N n rec.

Lemma rules_ok_step st st' rs :
  tinv N st -> tstep N st st' ->
  Forall (rule_ok (encoder st)) rs -> Forall (rule_ok (encoder st')) rs.
Proof.
  intros (He & _) ((He' & _) & _ & _ & Hsub) H.
  eapply Forall_impl; [exact H|]. intros R.
  apply rule_ok_weaken; [apply He | apply He' | exact Hsub].
Qed.

Lemma quantified_pass_returns rs q : forall st,
  tinv N st -> Forall (rule_ok (encoder st)) rs -> fact_in N q ->
  (size (fact_keys N ∖ visited st) < n)%nat ->
  exists x st', quantified_pass rec rs q st = Some (x, st') /\ tstep N st st'.
Proof.
  induction rs as [|[qt vp pc pp ppr ce cl|cs cl] rs IH]; intros st Hst Hrs Hq Hn.
  - exists None, st. split; [reflexivity | apply tstep_refl, Hst].
  - apply Forall_cons in Hrs as [HR Hrs]. cbn [quantified_pass]. rewrite bind_gets.
    destruct (_ && _); [|apply IH; assumption].
    destruct (registered_name _ _ (proj1 Hst) HR) as [Nc Lc].
    destruct (Hrec (new_Fact (subject q) "is" (getConceptName (encoder st) pc)) st Hst)
      as (sub & st1 & H1 & T1); [|exact Hn|].
    { apply new_Fact_in; [apply lower_in, Hq | exact N_is | rewrite Lc; exact Nc]. }
    rewrite (bind_eval _ _ _ _ _ H1). destruct (result sub).
    + rewrite bind_gets. eexists _, st1. split; [reflexivity | exact T1].
    + destruct (IH st1) as (x & st' & H2 & T2);
        [apply T1 | apply (rules_ok_step st); assumption | exact Hq
        | apply (tstep_size st); assumption |].
      exists x, st'. split; [exact H2 | apply (tstep_trans _ _ _ T1 T2)].
  - apply Forall_cons in Hrs as [_ Hrs]. apply IH; assumption.
Qed.

Lemma conds_ok_step st st' cs :
  tstep N st st' ->
  Forall (fun E => exists f, encodeFact 0 f (encoder st) = Some (E, encoder st)) cs ->
  Forall (fun E => exists f, encodeFact 0 f (encoder st') = Some (E, encoder st')) cs.
Proof.
  intros (_ & _ & _ & Hsub) H. eapply Forall_impl; [exact H|]. cbn. intros E [f Hf].
  exists f. apply (encodeFact_registered 0 0 _ _ _ _ Hf Hsub).
Qed.

Lemma conditions_loop_returns cs : forall ex st,
  tinv N st ->
  Forall (fun E => exists f, encodeFact 0 f (encoder st) = Some (E, encoder st)) cs ->
  (size (fact_keys N ∖ visited st) < n)%nat ->
  exists x st', conditions_loop lf rec cs ex st = Some (x, st') /\ tstep N st st'.
Proof.
  induction cs as [|E cs IH]; intros ex st Hst Hcs Hn.
  - eexists _, st. split; [reflexivity | apply tstep_refl, Hst].
  - apply Forall_cons in Hcs as [HE Hcs]. cbn [conditions_loop].
    destruct (decode_registered _ _ (proj1 Hst) HE) as (o & Hd & Ho).
    destruct st as [e k v]. cbn [encoder] in *.
    rewrite (bind_eval _ _ _ _ _ (on_encoder_eval _ _ _ _ _ _ Hd)).
    destruct o as [g|]; [|eexists _, _; split; [reflexivity | apply tstep_refl, Hst]].
    destruct (Hrec g _ Hst (Ho g eq_refl) Hn) as (r & st1 & H1 & T1).
    rewrite (bind_eval _ _ _ _ _ H1).
    destruct (result r); [|eexists _, _; split; [reflexivity | exact T1]].
    destruct (IH (ex ++ [explanation r]) st1) as (x & st' & H2 & T2);
      [apply T1 | apply (conds_ok_step _ _ _ T1 Hcs)
      | apply (tstep_size _ _ _ T1 Hn) |].
    exists x, st'. split; [exact H2 | apply (tstep_trans _ _ _ T1 T2)].
Qed.

Lemma standard_pass_returns rs q E : forall st,
  tinv N st -> Forall (rule_ok (encoder st)) rs ->
  (size (fact_keys N ∖ visited st) < n)%nat ->
  exists x st', standard_pass lf rec rs q E st = Some (x, st') /\ tstep N st st'.
Proof.
  induction rs as [|[qt vp pc pp ppr ce cl|cs cl] rs IH]; intros st Hst Hrs Hn.
  - exists None, st. split; [reflexivity | apply tstep_refl, Hst].
  - apply Forall_cons in Hrs as [_ Hrs]. apply IH; assumption.
  - apply Forall_cons in Hrs as [HR Hrs]. cbn [standard_pass].
    destruct (cl =? E); [|apply IH; assumption].
    destruct (conditions_loop_returns cs [] st Hst HR Hn) as (met & st1 & H1 & T1).
    rewrite (bind_eval _ _ _ _ _ H1).
    destruct met as [ex|]; [eexists _, _; split; [reflexivity | exact T1]|].
    destruct (IH st1) as (x & st' & H2 & T2);
      [apply T1 | apply (rules_ok_step st); assumption
      | apply (tstep_size st); assumption |].
    exists x, st'. split; [exact H2 | apply (tstep_trans _ _ _ T1 T2)].
Qed.

Lemma transitive_loop_returns fs q : forall st,
  tinv N st -> Forall (fun f => JS.toLowerCase (object f) ∈ N) fs -> fact_in N q ->
  (size (fact_keys N ∖ visited st) < n)%nat ->
  exists x st', transitive_loop rec fs q st = Some (x, st') /\ tstep N st st'.
Proof.
  induction fs as [|f fs IH]; intros st Hst Hfs Hq Hn.
  - eexists _, st. split; [reflexivity | apply tstep_refl, Hst].
  - apply Forall_cons in Hfs as [Hf Hfs]. cbn [transitive_loop].
    destruct (_ && _); [|apply IH; assumption].
    destruct (Hrec (new_Fact (object f) (predicate q) (object q)) st Hst)
      as (r & st1 & H1 & T1); [|exact Hn|].
    { apply new_Fact_in; [exact Hf | apply lower_in, Hq | apply lower_in, Hq]. }
    rewrite (bind_eval _ _ _ _ _ H1).
    destruct (result r); [eexists _, _; split; [reflexivity | exact T1]|].
    destruct (IH st1) as (x & st' & H2 & T2);
      [apply T1 | exact Hfs | exact Hq | apply (tstep_size st); assumption |].
    exists x, st'. split; [exact H2 | apply (tstep_trans _ _ _ T1 T2)].
Qed.

Lemma deduce_body_returns q st :
  tinv N st -> fact_in N q -> (size (fact_keys N ∖ visited st) < S n)%nat ->
  exists r st', deduce_body lf rec q st = Some (r, st') /\ tstep N st st'.
Proof.
  intros Hst Hq Hn. destruct st as [e k v]. cbn [visited] in Hn.
  destruct (encodeFact_einv q e (proj1 Hst) Hq) as (E & e1 & HE & He1 & S1).
  pose proof (tinv_change _ e1 v Hst He1 S1) as Hst1. cbn [kb] in Hst1.
  assert (T01 : tstep N {| encoder := e; kb := k; visited := v |}
                        {| encoder := e1; kb := k; visited := v |}).
  { split; [exact Hst1|]. split; [reflexivity|]. split; [reflexivity | exact S1]. }
  unfold deduce_body.
  rewrite (bind_eval _ _ _ _ _ (on_encoder_eval _ _ _ _ _ _ HE)).
  rewrite bind_gets. cbn [visited].
  destruct (decide (Fact_toString q ∈ v)) as [Hv|Hv].
  { rewrite bool_decide_eq_true_2 by exact Hv.
    eexists _, _. split; [reflexivity | exact T01]. }
  rewrite bool_decide_eq_false_2 by exact Hv.
  unfold set_visited. rewrite bind_modify, bind_gets. cbn [encoder kb visited].
  set (v2 := v ∪ {[Fact_toString q]}).
  set (st2 := {| encoder := e1; kb := k; visited := v2 |}).
  assert (Hst2 : tinv N st2) by exact (tinv_change _ e1 v2 Hst He1 S1).
  assert (T02 : tstep N {| encoder := e; kb := k; visited := v |} st2).
  { split; [exact Hst2|]. split; [reflexivity|].
    split; [apply union_subseteq_l | exact S1]. }
  assert (Hn2 : (size (fact_keys N ∖ visited st2) < n)%nat).
  { assert (fact_keys N ∖ v2 ⊂ fact_keys N ∖ v); [|apply subset_size in H; cbn [visited st2]; lia].
    split.
    - intros x Hx. apply elem_of_difference in Hx as [Hx1 Hx2].
      apply elem_of_difference. split; [exact Hx1|].
      intros Hx3. apply Hx2. apply elem_of_union_l, Hx3.
    - intros Hsub. specialize (Hsub (Fact_toString q)).
      assert (Hin : Fact_toString q ∈ fact_keys N ∖ v2).
      { apply Hsub. apply elem_of_difference. split; [apply key_in, Hq | exact Hv]. }
      apply elem_of_difference in Hin as [_ Hin]. apply Hin.
      apply elem_of_union_r, elem_of_singleton. reflexivity. }
  destruct (existsb (Z.eqb E) (factEncodings k)).
  { eexists _, _. split; [reflexivity | exact T02]. }
  rewrite bind_gets. cbn [kb].
  destruct (quantified_pass_returns (rules k) q st2 Hst2 (proj2 (proj2 Hst2)) Hq Hn2)
    as (r1 & st3 & H3 & T3).
  fold st2. rewrite (bind_eval _ _ _ _ _ H3).
  destruct r1 as [r1|].
  { eexists _, _. split; [reflexivity | apply (tstep_trans _ _ _ T02 T3)]. }
  rewrite bind_gets.
  destruct (standard_pass_returns (rules (kb st3)) q E st3 (proj1 T3)
              (proj2 (proj2 (proj1 T3))) (tstep_size _ _ _ T3 Hn2))
    as (r2 & st4 & H4 & T4).
  rewrite (bind_eval _ _ _ _ _ H4).
  pose proof (tstep_trans _ _ _ T02 (tstep_trans _ _ _ T3 T4)) as T04.
  destruct r2 as [r2|]; [eexists _, _; split; [reflexivity | exact T04]|].
  destruct (_ || _); [|eexists _, _; split; [reflexivity | exact T04]].
  unfold tryTransitiveReasoning. rewrite bind_assoc, bind_gets.
  destruct (transitive_loop_returns (facts (kb st4)) q st4 (proj1 T4)
              (aligned_objects _ (proj1 T4)) Hq
              (tstep_size _ _ _ T4 (tstep_size _ _ _ T3 Hn2)))
    as (t & st5 & H5 & T5).
  rewrite (bind_eval _ _ _ _ _ H5).
  pose proof (tstep_trans _ _ _ T04 T5) as T05.
  destruct (result t); eexists _, _; (split; [reflexivity | exact T05]).
Qed.

End Loops.

Lemma _deduce_returns n : rec_ok N n (_deduce lf n).
Proof.
  induction n as [|n IH]; intros q st Hst Hq Hn; [lia|].
  cbn [_deduce]. apply (deduce_body_returns n (_deduce lf n) IH); assumption.
Qed.

End Termination.

Lemma size_union_le (X Y : gset string) : (size (X ∪ Y) <= size X + size Y)%nat.
Proof.
  rewrite size_union_alt.
  assert (size (Y ∖ X) <= size Y)%nat; [|lia].
  apply subseteq_size. intros x Hx. apply elem_of_difference in Hx. tauto.
Qed.

Lemma deduce_returns lf q st :
  store_ok st -> (nextPrimeIndex (encoder st) + 4 <= 168)%nat -> (30 <= lf)%nat ->
  normalized q -> subject q <> "" -> predicate q <> "" -> object q <> "" ->
  exists fuel r st',
    kb st' = kb st /\ store_ok st'
    /\ forall fuel', (fuel <= fuel')%nat -> deduce lf fuel' q st = Some (r, st').
Proof.
  intros (W & Hnames & Ha & Hr) Hroom Hlf (L1 & L2 & L3) Hs Hp Ho.
  set (X := ({[ "is" ]} ∪ {[ subject q ]}) ∪ ({[ predicate q ]} ∪ {[ object q ]}) : gset string).
  set (N := dom (conceptToPrime (encoder st)) ∪ X).
  assert (HX : forall c, c ∈ X -> JS.toLowerCase c = c /\ c <> "").
  { intros c Hc. unfold X in Hc.
    repeat (apply elem_of_union in Hc as [Hc|Hc]); apply elem_of_singleton in Hc; subst c;
      first [split; [reflexivity | discriminate] | split; assumption]. }
  assert (HN : names_ok N).
  { intros c Hc. apply elem_of_union in Hc as [Hc|Hc]; [|apply HX, Hc].
    apply elem_of_dom in Hc as [p Hc]. apply (Hnames c p Hc). }
  assert (His : "is" ∈ N).
  { apply elem_of_union_r. unfold X. do 2 apply elem_of_union_l.
    apply elem_of_singleton. reflexivity. }
  assert (HsX : (size X <= 4)%nat).
  { unfold X. etrans; [apply size_union_le|].
    pose proof (size_union_le {[ "is" ]} {[ subject q ]}).
    pose proof (size_union_le {[ predicate q ]} {[ object q ]}).
    rewrite !size_singleton in *. lia. }
  assert (Hinv : tinv N {| encoder := encoder st; kb := kb st; visited := ∅ |}).
  { split; [|split; [exact Ha | exact Hr]]. split; [exact W|]. split.
    - apply union_subseteq_l.
    - cbn [encoder]. assert (size (N ∖ dom (conceptToPrime (encoder st))) <= size X)%nat; [|lia].
      apply subseteq_size. intros c Hc. apply elem_of_difference in Hc as [Hc Hn].
      apply elem_of_union in Hc as [Hc|Hc]; [contradiction | exact Hc]. }
  assert (Hq : fact_in N q).
  { repeat split; apply elem_of_union_r; unfold X.
    - apply elem_of_union_l, elem_of_union_r, elem_of_singleton. reflexivity.
    - apply elem_of_union_r, elem_of_union_l, elem_of_singleton. reflexivity.
    - apply elem_of_union_r, elem_of_union_r, elem_of_singleton. reflexivity. }
  destruct (_deduce_returns N HN His lf Hlf (S (size (fact_keys N))) q _ Hinv Hq)
    as (r & st' & H & T).
  { cbn [visited]. assert (size (fact_keys N ∖ ∅) <= size (fact_keys N))%nat; [|lia].
    apply subseteq_size. intros x Hx. apply elem_of_difference in Hx. tauto. }
  exists (S (size (fact_keys N))), r, st'. split; [apply T|]. split.
  { destruct T as (((W' & Hdom' & _) & Ha' & Hr') & _).
    split; [exact W'|]. split; [|split; assumption].
    intros c p Hc. apply HN, Hdom', elem_of_dom. exists p. exact Hc. }
  intros fuel' Hfuel. apply (deduce_mono lf lf (le_n lf) _ fuel' q Hfuel).
  unfold deduce, set_visited. rewrite bind_modify. exact H.
Qed.

(** ** The stores built through [addFact] and [addRule] *)

Lemma getPrime_names lf c e p e' :
  names_inv e -> JS.toLowerCase c <> "" -> getPrime lf c e = Some (p, e') -> names_inv e'.
Proof.
  intros Hn Hc Hg. destruct (getPrime_inv _ _ _ _ _ Hg) as [[_ ->]|(_ & calc' & _ & ->)];
    [exact Hn|].
  apply map_Forall_insert_2; [|exact Hn].
  split; [apply toLowerCase_idempotent | exact Hc].
Qed.

Lemma encodeFact_names lf f e E e' :
  names_inv e -> fact_nonempty f -> encodeFact lf f e = Some (E, e') -> names_inv e'.
Proof.
  intros Hn Hf H. unfold encodeFact in H.
  apply Forall_cons in Hf as [F1 Hf]. apply Forall_cons in Hf as [F2 Hf].
  apply Forall_cons in Hf as [F3 _].
  apply bind_Some in H as (p1 & e1 & H1 & H).
  apply bind_Some in H as (p2 & e2 & H2 & H).
  apply bind_Some in H as (p3 & e3 & H3 & H).
  apply ret_Some in H as [= _ ->].
  eapply getPrime_names; [|exact F3|exact H3].
  eapply getPrime_names; [|exact F2|exact H2].
  eapply getPrime_names; [exact Hn|exact F1|exact H1].
Qed.

Lemma new_Fact_nonempty a b c :
  JS.toLowerCase a <> "" -> JS.toLowerCase b <> "" -> JS.toLowerCase c <> "" ->
  fact_nonempty (new_Fact a b c).
Proof.
  intros Ha Hb Hc. unfold fact_nonempty, components, new_Fact. cbn [subject predicate object].
  rewrite !toLowerCase_idempotent. repeat (constructor; [assumption|]). constructor.
Qed.

(** One fact encoded in a table with room. *)
Lemma encodeFact_ok lf f e :
  enc_wf e -> names_inv e -> fact_nonempty f -> (nextPrimeIndex e + 3 <= 168)%nat ->
  exists E e',
    encodeFact lf f e = Some (E, e')
    /\ enc_wf e' /\ names_inv e' /\ conceptToPrime e ⊆ conceptToPrime e'
    /\ (nextPrimeIndex e' <= nextPrimeIndex e + 3)%nat
    /\ (forall lf', encodeFact lf' f e' = Some (E, e')).
Proof.
  intros W Hn Hf Hroom.
  destruct (encodeFact_step lf f e W Hroom) as (E & e' & H & W' & S & N' & I).
  exists E, e'. split; [exact H|]. split; [exact W'|].
  split; [apply (encodeFact_names _ _ _ _ _ Hn Hf H)|]. auto.
Qed.

Lemma encodeFacts_ok lf fs : forall e,
  enc_wf e -> names_inv e -> Forall fact_nonempty fs ->
  (nextPrimeIndex e + 3 * length fs <= 168)%nat ->
  exists Es e',
    encodeFacts lf fs e = Some (Es, e')
    /\ enc_wf e' /\ names_inv e' /\ conceptToPrime e ⊆ conceptToPrime e'
    /\ (nextPrimeIndex e' <= nextPrimeIndex e + 3 * length fs)%nat
    /\ Forall (fun E => exists f, encodeFact 0 f e' = Some (E, e')) Es.
Proof.
  induction fs as [|f fs IH]; intros e W Hn Hfs Hroom.
  - exists [], e. split; [reflexivity|]. split; [exact W|]. split; [exact Hn|].
    split; [reflexivity|]. split; [cbn; lia | constructor].
  - apply Forall_cons in Hfs as [Hf Hfs]. cbn [length] in Hroom.
    destruct (encodeFact_ok lf f e W Hn Hf) as (E & e1 & H1 & W1 & Hn1 & S1 & N1 & I1); [lia|].
    destruct (IH e1 W1 Hn1 Hfs) as (Es & e' & H2 & W' & Hn' & S2 & N2 & Hall); [lia|].
    exists (E :: Es), e'. split.
    { cbn [encodeFacts]. rewrite (bind_eval _ _ _ _ _ H1), (bind_eval _ _ _ _ _ H2).
      reflexivity. }
    split; [exact W'|]. split; [exact Hn'|]. split; [etrans; eassumption|].
    split; [cbn [length]; lia|].
    constructor; [|exact Hall]. exists f.
    apply (encodeFact_registered 0 0 _ _ _ _ (I1 0%nat) S2).
Qed.

Lemma store_ok_change st e' v k' :
  store_ok st -> enc_wf e' -> names_inv e' ->
  conceptToPrime (encoder st) ⊆ conceptToPrime e' ->
  kb_aligned {| encoder := e'; kb := k'; visited := v |} ->
  Forall (rule_ok e') (rules k') ->
  store_ok {| encoder := e'; kb := k'; visited := v |}.
Proof. intros _ W' Hn' _ Ha Hr. split; [exact W'|]. split; [exact Hn'|]. split; assumption. Qed.

Lemma addFact_store_ok lf f st :
  store_ok st -> fact_nonempty f -> (nextPrimeIndex (encoder st) + 3 <= 168)%nat ->
  exists E st', addFact lf f st = Some (E, st') /\ store_ok st'
                /\ (nextPrimeIndex (encoder st') <= nextPrimeIndex (encoder st) + 3)%nat.
Proof.
  intros Hst Hf Hroom. pose proof Hst as (W & Hn & Ha & Hr).
  destruct (encodeFact_ok lf f _ W Hn Hf Hroom) as (E & e' & H & W' & Hn' & S & N' & I).
  destruct st as [e k v]. cbn [encoder] in *.
  assert (Hadd : addFact lf f {| encoder := e; kb := k; visited := v |}
                 = Some (E, {| encoder := e';
                               kb := {| factEncodings := factEncodings k ++ [E];
                                        rules := rules k; facts := facts k ++ [f] |};
                               visited := v |})).
  { unfold addFact. rewrite (bind_eval _ _ _ _ _ (on_encoder_eval _ _ _ _ _ _ H)).
    reflexivity. }
  eexists _, _. split; [exact Hadd|]. split; [|exact N'].
  split; [exact W'|]. split; [exact Hn'|]. split.
  - apply (addFact_aligned _ _ _ _ _ Ha Hadd).
  - cbn [encoder kb rules]. eapply Forall_impl; [exact Hr|]. intros R.
    apply rule_ok_weaken; assumption.
Qed.

Lemma addRule_quantified_store_ok lf isU c p st :
  store_ok st -> JS.toLowerCase c <> "" -> JS.toLowerCase p <> "" ->
  (nextPrimeIndex (encoder st) + 9 <= 168)%nat ->
  exists R st', addRule lf (quantified_rule isU c p) st = Some (R, st') /\ store_ok st'
                /\ (nextPrimeIndex (encoder st') <= nextPrimeIndex (encoder st) + 9)%nat.
Proof.
  intros Hst Hc Hp Hroom. pose proof Hst as (W & Hn & Ha & Hr).
  destruct st as [e0 k0 v0]. cbn [encoder kb] in *.
  destruct (getPrime_step lf c e0 W) as (pc & e1 & H1 & W1 & S1 & N1 & L1); [lia|].
  pose proof (getPrime_names _ _ _ _ _ Hn Hc H1) as Hn1.
  destruct (getPrime_step lf p e1 W1) as (pp & e2 & H2 & W2 & S2 & N2 & L2); [lia|].
  pose proof (getPrime_names _ _ _ _ _ Hn1 Hp H2) as Hn2.
  destruct (getPrime_step lf (if isU then "is" else "can") e2 W2)
    as (pi & e3 & H3 & W3 & S3 & N3 & L3); [lia|].
  assert (Hn3 : names_inv e3).
  { apply (getPrime_names _ _ _ _ _ Hn2) in H3; [exact H3|]. destruct isU; discriminate. }
  destruct (encodeFact_ok lf (new_Fact "_x_" "is" c) e3 W3 Hn3)
    as (E4 & e4 & H4 & W4 & Hn4 & S4 & N4 & _);
    [apply new_Fact_nonempty; [discriminate | discriminate | exact Hc] | lia |].
  destruct (encodeFact_ok lf (new_Fact "_x_" (if isU then "is" else "can") p) e4 W4 Hn4)
    as (E5 & e5 & H5 & W5 & Hn5 & S5 & N5 & _);
    [apply new_Fact_nonempty; [discriminate | destruct isU; discriminate | exact Hp] | lia |].
  assert (Henc : encodeRule lf (quantified_rule isU c p) e0
                 = Some (EncQuantified (if isU then q_universal else q_capability)
                           (variablePrime e0) pc pp pi E4 E5, e5)).
  { unfold encodeRule, quantified_rule.
    destruct isU; cbn [type createUniversalRule createCapabilityRule category property
                         capability_ conditions conclusion JS.String_];
      rewrite bind_gets, (bind_eval _ _ _ _ _ H1); cbn [JS.String_ bool_decide decide_rel];
      [change (bool_decide (universal = universal)) with true
      |change (bool_decide (capability = universal)) with false];
      cbv iota; rewrite (bind_eval _ _ _ _ _ H2), (bind_eval _ _ _ _ _ H3),
        (bind_eval _ _ _ _ _ H4), (bind_eval _ _ _ _ _ H5); reflexivity. }
  assert (S05 : conceptToPrime e0 ⊆ conceptToPrime e5).
  { etrans; [exact S1|]. etrans; [exact S2|]. etrans; [exact S3|]. etrans; eassumption. }
  assert (Hadd : exists st',
            addRule lf (quantified_rule isU c p) {| encoder := e0; kb := k0; visited := v0 |}
            = Some (EncQuantified (if isU then q_universal else q_capability)
                      (variablePrime e0) pc pp pi E4 E5, st')
            /\ encoder st' = e5 /\ rules (kb st') = rules k0 ++
                  [EncQuantified (if isU then q_universal else q_capability)
                     (variablePrime e0) pc pp pi E4 E5]).
  { eexists. (split; [|split]);
      [unfold addRule;
       rewrite (bind_eval _ _ _ _ _ (on_encoder_eval _ _ k0 v0 _ _ Henc)); reflexivity
      | reflexivity | reflexivity]. }
  destruct Hadd as (st' & Hadd & He' & Hr').
  eexists _, st'. split; [exact Hadd|]. rewrite He'.
  split; [|lia].
  split; [rewrite He'; exact W5|]. split; [rewrite He'; exact Hn5|]. split.
  - apply (addRule_aligned _ _ _ _ _ Ha Hadd).
  - rewrite He', Hr'. apply Forall_app. split.
    + eapply Forall_impl; [exact Hr|]. intros R. apply rule_ok_weaken; assumption.
    + constructor; [|constructor]. cbn. exists (JS.toLowerCase c).
      apply (wf_rev _ W5). eapply lookup_weaken; [exact L1|].
      etrans; [exact S2|]. etrans; [exact S3|]. etrans; eassumption.
Qed.

Lemma addRule_standard_store_ok lf conds concl st :
  store_ok st -> Forall fact_nonempty (concl :: conds) ->
  (nextPrimeIndex (encoder st) + 3 * S (length conds) <= 168)%nat ->
  exists R st', addRule lf (new_Rule conds concl) st = Some (R, st') /\ store_ok st'
                /\ (nextPrimeIndex (encoder st')
                     <= nextPrimeIndex (encoder st) + 3 * S (length conds))%nat.
Proof.
  intros Hst Hall Hroom. pose proof Hst as (W & Hn & Ha & Hr).
  apply Forall_cons in Hall as [Hconcl Hconds].
  destruct st as [e0 k0 v0]. cbn [encoder kb] in *.
  destruct (encodeFacts_ok lf conds e0 W Hn Hconds)
    as (Es & e1 & H1 & W1 & Hn1 & S1 & N1 & HEs); [lia|].
  destruct (encodeFact_ok lf concl e1 W1 Hn1 Hconcl)
    as (E & e2 & H2 & W2 & Hn2 & S2 & N2 & _); [lia|].
  assert (Henc : encodeRule lf (new_Rule conds concl) e0 = Some (EncStandard Es E, e2)).
  { unfold encodeRule. cbn [type new_Rule conditions conclusion].
    rewrite (bind_eval _ _ _ _ _ H1), (bind_eval _ _ _ _ _ H2). reflexivity. }
  assert (S02 : conceptToPrime e0 ⊆ conceptToPrime e2) by (etrans; eassumption).
  assert (Hadd : exists st',
            addRule lf (new_Rule conds concl) {| encoder := e0; kb := k0; visited := v0 |}
            = Some (EncStandard Es E, st')
            /\ encoder st' = e2 /\ rules (kb st') = rules k0 ++ [EncStandard Es E]).
  { eexists. (split; [|split]);
      [unfold addRule;
       rewrite (bind_eval _ _ _ _ _ (on_encoder_eval _ _ k0 v0 _ _ Henc)); reflexivity
      | reflexivity | reflexivity]. }
  destruct Hadd as (st' & Hadd & He' & Hr').
  eexists _, st'. split; [exact Hadd|]. rewrite He'.
  split; [|lia].
  split; [rewrite He'; exact W2|]. split; [rewrite He'; exact Hn2|]. split.
  - apply (addRule_aligned _ _ _ _ _ Ha Hadd).
  - rewrite He', Hr'. apply Forall_app. split.
    + eapply Forall_impl; [exact Hr|]. intros R. apply rule_ok_weaken; assumption.
    + constructor; [|constructor]. cbn.
      eapply Forall_impl; [exact HEs|]. cbn. intros E' [f Hf]. exists f.
      apply (encodeFact_registered 0 0 _ _ _ _ Hf S2).
Qed.

Lemma initial_store_ok : store_ok initial_ELLM.
Proof.
  split; [exact initial_encoder_wf|]. split; [|split; constructor].
  cbn. apply map_Forall_singleton. split; [reflexivity | discriminate].
Qed.

(** ** Rules and chains that must succeed *)

(** A stored fact that was not attempted yet is found directly. *)
Lemma _deduce_direct lf n f st :
  kb_aligned st -> f ∈ facts (kb st) -> Fact_toString f ∉ visited st ->
  _deduce lf (S n) f st
  = Some ({| result := true;
             explanation := "Direct fact in knowledge base: " +:+ Fact_toString f |},
          {| encoder := encoder st; kb := kb st;
             visited := visited st ∪ {[ Fact_toString f ]} |}).
Proof.
  intros Ha Hin Hv.
  apply list_elem_of_lookup_1 in Hin as [i Hi].
  destruct (Forall2_lookup_l _ _ _ _ _ Ha Hi) as (E & HE & Henc).
  destruct st as [e k v]. cbn [encoder kb visited] in *.
  cbn [_deduce]. unfold deduce_body.
  rewrite (bind_eval _ _ _ _ _ (on_encoder_eval _ _ _ _ _ _ (Henc lf))).
  rewrite bind_gets. cbn [visited].
  rewrite bool_decide_eq_false_2 by exact Hv.
  unfold set_visited. rewrite bind_modify, bind_gets. cbn [kb encoder visited].
  assert (Hex : existsb (Z.eqb E) (factEncodings k) = true).
  { apply existsb_exists. exists E. split; [|apply Z.eqb_refl].
    apply list_elem_of_In. eapply list_elem_of_lookup_2, HE. }
  rewrite Hex. reflexivity.
Qed.

Lemma quantified_pass_skip rec pre rs q :
  Forall (fun r => exists cs cl, r = EncStandard cs cl) pre ->
  quantified_pass rec (pre ++ rs) q = quantified_pass rec rs q.
Proof.
  induction pre as [|r pre IH]; intros H; [reflexivity|].
  apply Forall_cons in H as [(cs & cl & ->) H]. cbn. apply IH, H.
Qed.

Lemma key_is_eq x c p :
  Fact_toString (new_Fact x "is" c) = Fact_toString (new_Fact x "is" p) ->
  JS.toLowerCase c = JS.toLowerCase p.
Proof.
  unfold Fact_toString, new_Fact. cbn [subject predicate object].
  intros H. apply string_app_inv_head in H.
  change (JS.toLowerCase "is") with "is" in H.
  change (" is " +:+ JS.toLowerCase c = " is " +:+ JS.toLowerCase p) in H.
  apply (string_app_inv_head " is ") in H. exact H.
Qed.

Lemma quantified_rule_fires lf fuel qt x c p st pre rest vp pc pp ppr ce cl :
  store_ok st ->
  rules (kb st) = pre ++ EncQuantified qt vp pc pp ppr ce cl :: rest ->
  Forall (fun r => exists cs cl, r = EncStandard cs cl) pre ->
  conceptToPrime (encoder st) !! JS.toLowerCase c = Some pc ->
  conceptToPrime (encoder st) !! JS.toLowerCase p = Some pp ->
  conceptToPrime (encoder st) !! rule_predicate qt = Some ppr ->
  new_Fact x "is" c ∈ facts (kb st) ->
  (2 <= fuel)%nat ->
  exists r st',
    deduce lf fuel (new_Fact x (rule_predicate qt) p) st = Some (r, st')
    /\ result r = true.
Proof.
  intros (W & Hn & Ha & Hr) Hrules Hpre Kc Kp Kpr Hin Hfuel.
  set (f1 := new_Fact x "is" c) in *. set (q := new_Fact x (rule_predicate qt) p).
  destruct st as [e k v]. cbn [encoder kb] in *.
  pose proof Hin as Hin'. apply list_elem_of_lookup_1 in Hin' as [i Hi].
  destruct (Forall2_lookup_l _ _ _ _ _ Ha Hi) as (E1 & HE1 & Henc1).
  cbn [encoder] in Henc1.
  destruct (encodeFact_inv _ _ _ _ _ (Henc1 0%nat)) as (px & pis & pc' & HE1eq & Kx & _ & _ & _).
  cbn [f1 new_Fact subject] in Kx. rewrite toLowerCase_idempotent in Kx.
  assert (Hlowpr : JS.toLowerCase (rule_predicate qt) = rule_predicate qt)
    by (destruct qt; reflexivity).
  assert (HEq : forall lf', encodeFact lf' q e = Some (px * ppr * pp, e)).
  { intros lf'. apply encodeFact_known; cbn [q new_Fact subject predicate object];
      rewrite ?toLowerCase_idempotent, ?Hlowpr; assumption. }
  assert (Hnc : JS.toLowerCase c <> "") by (apply (Hn _ _ Kc)).
  assert (Hnp : JS.toLowerCase p <> "") by (apply (Hn _ _ Kp)).
  assert (Hnpr : rule_predicate qt <> "") by (destruct qt; discriminate).
  destruct fuel as [|[|fuel]]; [lia | lia |].
  unfold deduce, set_visited. rewrite bind_modify.
  change (_deduce lf (S (S fuel)) q) with (deduce_body lf (_deduce lf (S fuel)) q).
  unfold deduce_body. cbn [encoder kb visited].
  rewrite (bind_eval _ _ _ _ _ (on_encoder_eval _ _ _ _ _ _ (HEq lf))).
  rewrite bind_gets. cbn [visited].
  rewrite bool_decide_eq_false_2 by apply not_elem_of_empty.
  unfold set_visited. rewrite bind_modify, bind_gets. cbn [kb encoder visited].
  destruct (existsb (Z.eqb (px * ppr * pp)) (factEncodings k)) eqn:Hex.
  { eexists _, _. split; reflexivity. }
  rewrite bind_gets. cbn [kb]. rewrite Hrules, (quantified_pass_skip _ _ _ _ Hpre).
  cbn [quantified_pass]. rewrite bind_assoc, bind_gets. cbn [encoder].
  rewrite (getConceptName_registered e _ ppr W Kpr Hnpr).
  rewrite (getConceptName_registered e _ pp W Kp Hnp).
  rewrite (getConceptName_registered e _ pc W Kc Hnc).
  assert (Hp1 : bool_decide (predicate q = rule_predicate qt) = true).
  { apply bool_decide_eq_true_2. cbn [q new_Fact predicate]. exact Hlowpr. }
  assert (Hp2 : bool_decide (object q = JS.toLowerCase p) = true).
  { apply bool_decide_eq_true_2. reflexivity. }
  rewrite Hp1, Hp2. cbn [andb].
  assert (Hm : new_Fact (subject q) "is" (JS.toLowerCase c) = f1).
  { unfold f1, q, new_Fact. cbn [subject]. rewrite !toLowerCase_idempotent. reflexivity. }
  rewrite Hm, bind_assoc.
  assert (Hkey : Fact_toString f1 ∉ (∅ ∪ {[Fact_toString q]} : gset string)).
  { intros Hk. apply elem_of_union in Hk as [Hk|Hk]; [exact (not_elem_of_empty _ Hk)|].
    apply elem_of_singleton in Hk. destruct qt.
    - apply key_is_eq in Hk.
      assert (Hfq : f1 = q).
      { unfold f1, q, new_Fact. cbn [rule_predicate]. rewrite Hk. reflexivity. }
      assert (Hin2 : existsb (Z.eqb (px * ppr * pp)) (factEncodings k) = true);
        [|congruence].
      apply existsb_exists. exists E1. split.
      + apply list_elem_of_In. eapply list_elem_of_lookup_2, HE1.
      + apply Z.eqb_eq. pose proof (Henc1 0%nat) as H1. rewrite Hfq, (HEq 0%nat) in H1.
        congruence.
    - exact (key_is_can _ _ _ Hk). }
  set (st1 := {| encoder := e; kb := k; visited := ∅ ∪ {[Fact_toString q]} |}).
  assert (Ha1 : kb_aligned st1) by exact Ha.
  pose proof (_deduce_direct lf fuel f1 st1 Ha1 Hin Hkey) as Hd.
  cbn [encoder kb visited] in Hd.
  rewrite (bind_eval _ _ _ _ _ Hd).
  cbn [result]. rewrite bind_assoc, bind_gets. cbv beta. rewrite bind_ret. cbv beta iota.
  unfold ret. eexists _, _. split; reflexivity.
Qed.

(** ** One intermediate concept, without rules *)

Lemma string_length_app (s t : string) :
  String.length (s +:+ t) = (String.length s + String.length t)%nat.
Proof.
  induction s as [|c s IH]; [reflexivity|].
  change (S (String.length (s +:+ t)) = S (String.length s + String.length t)).
  rewrite IH. reflexivity.
Qed.

Lemma string_app_inv_tail (s1 : string) : forall s2 t, s1 +:+ t = s2 +:+ t -> s1 = s2.
Proof.
  induction s1 as [|c s1 IH]; intros [|d s2] t H.
  - reflexivity.
  - apply (f_equal String.length) in H. rewrite !string_length_app in H. cbn in H. lia.
  - apply (f_equal String.length) in H. rewrite !string_length_app in H. cbn in H. lia.
  - change (String c (s1 +:+ t) = String d (s2 +:+ t)) in H.
    injection H as -> H. f_equal. apply (IH _ _ H).
Qed.

Section Chains.

Variable lf : nat.
Variables R c : string.
Variable F : list Fact.

Lemma chain_state_grows st st' : chain_state F st -> st_le st st' -> chain_state F st'.
Proof.
  intros (Ha & Hr & Hf) Hle. pose proof (sl_kb _ _ Hle) as Hk.
  split; [apply (kb_aligned_weaken st); [exact Ha | exact Hk | apply (sl_c2p _ _ Hle)]|].
  rewrite Hk. split; assumption.
Qed.

Lemma family_key q y :
  in_family R c q -> Fact_toString q = Fact_toString (new_Fact y R c) -> q = new_Fact y R c.
Proof.
  intros [Hp Ho] Hk. unfold Fact_toString, new_Fact in Hk.
  cbn [subject predicate object] in Hk. rewrite Hp, Ho in Hk.
  apply string_app_inv_tail in Hk.
  destruct q as [s p o]. cbn in *. subst. reflexivity.
Qed.

Lemma family_node y : in_family R c (new_Fact y R c).
Proof. split; reflexivity. Qed.

Lemma family_bridge f q :
  in_family R c q -> in_family R c (new_Fact (object f) (predicate q) (object q)).
Proof.
  intros [Hp Ho]. split; cbn [new_Fact predicate object];
    [rewrite Hp | rewrite Ho]; apply toLowerCase_idempotent.
Qed.

Lemma chain_clean_visit ys st e k K :
  chain_clean R c ys st ->
  (forall y, y ∈ ys -> K <> Fact_toString (new_Fact y R c)) ->
  chain_clean R c ys {| encoder := e; kb := k; visited := visited st ∪ {[K]} |}.
Proof.
  intros Hc Hne. apply Forall_forall. intros y Hy. cbn [visited].
  intros Hk. apply elem_of_union in Hk as [Hk|Hk].
  - unfold chain_clean in Hc. rewrite Forall_forall in Hc. exact (Hc y Hy Hk).
  - apply elem_of_singleton in Hk. apply (Hne y Hy). congruence.
Qed.

(** A query that is not directly stored, in a store without rules, goes to
    the transitive fallback or fails. *)
Lemma deduce_body_no_rules rec q st r st' :
  chain_state F st -> Fact_toString q ∉ visited st ->
  deduce_body lf rec q st = Some (r, st') ->
  result r = true
  \/ exists E e1,
       encodeFact lf q (encoder st) = Some (E, e1)
       /\ let st2 := {| encoder := e1; kb := kb st;
                        visited := visited st ∪ {[Fact_toString q]} |} in
          chain_state F st2
          /\ existsb (Z.eqb E) (factEncodings (kb st)) = false
          /\ ((bool_decide (predicate q = "is") || bool_decide (predicate q = "part of")
               = false /\ st' = st2 /\ r = could_not_deduce q)
              \/ (bool_decide (predicate q = "is") || bool_decide (predicate q = "part of")
                  = true
                  /\ exists tr, transitive_loop rec F q st2 = Some (tr, st')
                                /\ (result tr = true -> r = tr)
                                /\ (result tr = false -> r = could_not_deduce q))).
Proof.
  intros Hst Hv H. unfold deduce_body in H.
  apply bind_Some in H as (E & st1 & HE & H).
  pose proof (grows_encodeFact _ _ _ _ _ HE) as Hle1.
  pose proof (chain_state_grows _ _ Hst Hle1) as Hst1.
  apply on_encoder_Some in HE as (e1 & HE & ->).
  rewrite bind_gets in H. cbn [visited] in H.
  rewrite bool_decide_eq_false_2 in H by exact Hv.
  unfold set_visited in H. rewrite bind_modify, bind_gets in H.
  cbn [encoder kb visited] in H.
  destruct (existsb (Z.eqb E) (factEncodings (kb st))) eqn:Hex.
  { apply ret_Some in H as [= -> _]. left. reflexivity. }
  right. exists E, e1. split; [exact HE|]. cbv zeta. split; [exact Hst1|].
  split; [exact Hex|].
  rewrite bind_gets in H. cbn [kb] in H.
  destruct Hst as (_ & Hr & Hf). rewrite Hr in H. cbn [quantified_pass] in H.
  rewrite bind_ret, bind_gets in H. cbn [kb] in H. rewrite Hr in H.
  cbn [standard_pass] in H. rewrite bind_ret in H.
  destruct (_ || _).
  2:{ apply ret_Some in H as [= -> ->]. left. auto. }
  right. split; [reflexivity|].
  unfold tryTransitiveReasoning in H. rewrite bind_assoc, bind_gets in H.
  cbn [kb] in H. rewrite Hf in H.
  apply bind_Some in H as (tr & st3 & H3 & H).
  exists tr. destruct (result tr) eqn:Htr; apply ret_Some in H as [= -> ->];
    (split; [exact H3|]); split; intros; congruence.
Qed.

(** A stored fact that is directly found. *)
Lemma stored_direct q st E e1 :
  chain_state F st -> q ∈ F -> encodeFact lf q (encoder st) = Some (E, e1) ->
  existsb (Z.eqb E) (factEncodings (kb st)) = true.
Proof.
  intros (Ha & _ & Hf) Hin HE. rewrite <- Hf in Hin.
  apply list_elem_of_lookup_1 in Hin as [i Hi].
  destruct (Forall2_lookup_l _ _ _ _ _ Ha Hi) as (E' & HE' & Henc).
  assert (E' = E) by (pose proof (Henc lf); congruence). subst E'.
  apply existsb_exists. exists E. split; [|apply Z.eqb_refl].
  apply list_elem_of_In. eapply list_elem_of_lookup_2, HE'.
Qed.

Section Search.

(** [ys]: nodes from which the search is known to succeed as long as none
    of them was attempted. *)
Variable ys : list string.
Hypothesis Hnode : forall y n st r st',
  y ∈ ys -> chain_state F st -> chain_clean R c ys st ->
  _deduce lf n (new_Fact y R c) st = Some (r, st') -> result r = true.

Lemma chain_loop n fs q :
  (forall q st r st',
     chain_state F st -> in_family R c q -> chain_clean R c ys st ->
     _deduce lf n q st = Some (r, st') ->
     result r = true \/ chain_clean R c ys st') ->
  forall st r st',
  chain_state F st -> in_family R c q -> chain_clean R c ys st ->
  transitive_loop (_deduce lf n) fs q st = Some (r, st') ->
  result r = true \/ chain_clean R c ys st'.
Proof.
  intros IH. induction fs as [|f fs IHfs]; intros st r st' Hst Hq Hc H.
  - apply ret_Some in H as [= -> ->]. right. exact Hc.
  - cbn [transitive_loop] in H. destruct (_ && _); [|apply (IHfs _ _ _ Hst Hq Hc H)].
    apply bind_Some in H as (r1 & st1 & H1 & H).
    pose proof (grows__deduce _ _ _ _ _ _ H1) as Hle.
    apply IH in H1 as [Ht|Hc1];
      [| | exact Hst | apply family_bridge, Hq | exact Hc].
    + rewrite Ht in H. apply ret_Some in H as [= -> _]. left. reflexivity.
    + destruct (result r1); [apply ret_Some in H as [= -> _]; left; reflexivity|].
      apply (IHfs _ _ _ (chain_state_grows _ _ Hst Hle) Hq Hc1 H).
Qed.

Lemma chain_search n : forall q st r st',
  chain_state F st -> in_family R c q -> chain_clean R c ys st ->
  _deduce lf n q st = Some (r, st') ->
  result r = true \/ chain_clean R c ys st'.
Proof.
  induction n as [|n IH]; intros q st r st' Hst Hq Hc H; [discriminate|].
  destruct (decide (Fact_toString q ∈ visited st)) as [Hin|Hv].
  { destruct (deduce_body_circular _ _ _ _ _ _ Hin H) as (_ & Hvis & _).
    right. unfold chain_clean. rewrite Hvis. exact Hc. }
  destruct (decide (Exists (fun y => Fact_toString q = Fact_toString (new_Fact y R c)) ys))
    as [Hex|Hnex].
  { apply Exists_exists in Hex as (y & Hy & Hk). apply (family_key _ _ Hq) in Hk. subst q.
    left. apply (Hnode y (S n) st r st' Hy Hst Hc H). }
  cbn [_deduce] in H.
  destruct (deduce_body_no_rules _ _ _ _ _ Hst Hv H)
    as [Ht|(E & e1 & HE & Hst2 & _ & [(_ & -> & ->)|(_ & tr & Htr & H1 & H2)])];
    [left; exact Ht | | ].
  - right. apply chain_clean_visit; [exact Hc|].
    intros y Hy Hk. apply Hnex. apply Exists_exists. exists y. auto.
  - cbv zeta in Hst2.
    apply (chain_loop n F q IH) in Htr as [Ht|Hc'];
      [left; rewrite (H1 Ht); exact Ht | | exact Hst2 | exact Hq |].
    + destruct (result tr) eqn:Hres; [left; rewrite (H1 eq_refl); exact Hres|].
      right. exact Hc'.
    + apply chain_clean_visit; [exact Hc|].
      intros y Hy Hk. apply Hnex. apply Exists_exists. exists y. auto.
Qed.

(** From [x], with a stored fact [(x, R, v)] and [v] among the nodes [ys]:
    the loop reaches that fact, and closes the chain there. *)
Lemma chain_top n x v fs : forall st r st',
  v ∈ ys -> new_Fact x R v ∈ fs ->
  chain_state F st -> chain_clean R c ys st ->
  transitive_loop (_deduce lf n) fs (new_Fact x R c) st = Some (r, st') ->
  result r = true.
Proof.
  intros st r st' Hv Hin. revert st r st'.
  induction fs as [|f fs IHfs]; intros st r st' Hst Hc H.
  { apply elem_of_nil in Hin. contradiction. }
  cbn [transitive_loop] in H. apply elem_of_cons in Hin as [<-|Hin].
  - assert (Hm : bool_decide (subject (new_Fact x R v) = subject (new_Fact x R c))
                 && bool_decide (predicate (new_Fact x R v) = predicate (new_Fact x R c))
                 = true).
    { rewrite !bool_decide_eq_true_2 by reflexivity. reflexivity. }
    rewrite Hm in H.
    assert (Hi : new_Fact (object (new_Fact x R v)) (predicate (new_Fact x R c))
                   (object (new_Fact x R c)) = new_Fact v R c).
    { unfold new_Fact. cbn [subject predicate object].
      rewrite !toLowerCase_idempotent. reflexivity. }
    rewrite Hi in H. apply bind_Some in H as (r1 & st1 & H1 & H).
    apply (Hnode v n st r1 st1 Hv Hst Hc) in H1.
    rewrite H1 in H. apply ret_Some in H as [= -> _]. reflexivity.
  - destruct (_ && _); [|apply (IHfs Hin _ _ _ Hst Hc H)].
    apply bind_Some in H as (r1 & st1 & H1 & H).
    pose proof (grows__deduce _ _ _ _ _ _ H1) as Hle.
    apply chain_search in H1 as [Ht|Hc1];
      [| | exact Hst | apply family_bridge, family_node | exact Hc].
    + rewrite Ht in H. apply ret_Some in H as [= -> _]. reflexivity.
    + destruct (result r1); [apply ret_Some in H as [= -> _]; reflexivity|].
      apply (IHfs Hin _ _ _ (chain_state_grows _ _ Hst Hle) Hc1 H).
Qed.

End Search.

Hypothesis HR : JS.toLowerCase R = "is" \/ JS.toLowerCase R = "part of".

(** Along a chain of stored facts, the search succeeds from every node, as
    long as no node of the rest of the chain was attempted. *)
Lemma chain_call vs : forall x,
  chain F R x vs c -> NoDup (JS.toLowerCase <$> (x :: vs)) ->
  forall y n st r st',
    y ∈ x :: vs -> chain_state F st -> chain_clean R c (x :: vs) st ->
    _deduce lf n (new_Fact y R c) st = Some (r, st') -> result r = true.
Proof.
  induction vs as [|v vs IH]; intros x Hch Hnd y n st r st' Hy Hst Hc H.
  - apply list_elem_of_singleton in Hy. subst y. cbn in Hch.
    destruct n as [|n]; [discriminate|].
    unfold chain_clean in Hc. apply Forall_cons in Hc as [Hv _]. cbn [_deduce] in H.
    destruct (deduce_body_no_rules _ _ _ _ _ Hst Hv H)
      as [Ht|(E & e1 & HE & _ & Hex & _)]; [exact Ht|].
    rewrite (stored_direct _ _ _ _ Hst Hch HE) in Hex. discriminate.
  - destruct Hch as [Hxv Hch]. rewrite fmap_cons in Hnd.
    apply NoDup_cons in Hnd as [Hx Hnd].
    unfold chain_clean in Hc. apply Forall_cons in Hc as [Hvx Hc].
    pose proof (IH v Hch Hnd) as Hnode.
    apply elem_of_cons in Hy as [->|Hy]; [|apply (Hnode y n st r st' Hy Hst Hc H)].
    destruct n as [|n]; [discriminate|]. cbn [_deduce] in H.
    destruct (deduce_body_no_rules _ _ _ _ _ Hst Hvx H)
      as [Ht|(E & e1 & HE & Hst2 & _ & [(Hp & _)|(_ & tr & Htr & H1 & _)])];
      [exact Ht | | ].
    { cbn [new_Fact predicate] in Hp. destruct HR as [Hr|Hr]; rewrite Hr in Hp; discriminate. }
    cbv zeta in Hst2.
    apply (chain_top (v :: vs) Hnode n x v F) in Htr;
      [rewrite (H1 Htr); exact Htr | left | | exact Hst2 |].
    + destruct Hst as (_ & _ & Hf). exact Hxv.
    + apply chain_clean_visit; [exact Hc|].
      intros y Hy Hk. apply Hx.
      assert (Hl : JS.toLowerCase x = JS.toLowerCase y).
      { unfold Fact_toString, new_Fact in Hk. cbn [subject predicate object] in Hk.
        apply string_app_inv_tail in Hk. exact Hk. }
      rewrite Hl. apply list_elem_of_fmap_2, Hy.
Qed.

End Chains.

Lemma stored_names st :
  store_ok st -> forall f, f ∈ facts (kb st) -> fact_nonempty f.
Proof.
  intros (_ & Hn & Ha & _) f Hin. apply list_elem_of_lookup_1 in Hin as [i Hi].
  destruct (Forall2_lookup_l _ _ _ _ _ Ha Hi) as (E & _ & Henc).
  destruct (encodeFact_inv _ _ _ _ _ (Henc 0%nat)) as (p1 & p2 & p3 & _ & K1 & K2 & K3 & _).
  unfold fact_nonempty, components.
  repeat (constructor; [eapply Hn; eassumption|]). constructor.
Qed.

Lemma chain_nonempty F R x vs c :
  (forall f, f ∈ F -> fact_nonempty f) -> chain F R x vs c ->
  JS.toLowerCase x <> "" /\ JS.toLowerCase R <> "" /\ JS.toLowerCase c <> "".
Proof.
  intros HF. revert x. induction vs as [|v vs IH]; intros x Hch.
  - apply HF in Hch. unfold fact_nonempty, components, new_Fact in Hch.
    cbn [subject predicate object] in Hch. rewrite !toLowerCase_idempotent in Hch.
    apply Forall_cons in Hch as [H1 Hch]. apply Forall_cons in Hch as [H2 Hch].
    apply Forall_cons in Hch as [H3 _]. auto.
  - destruct Hch as [Hxv Hch]. apply IH in Hch as (_ & H2 & H3).
    apply HF in Hxv. unfold fact_nonempty, components, new_Fact in Hxv.
    cbn [subject predicate object] in Hxv. rewrite !toLowerCase_idempotent in Hxv.
    apply Forall_cons in Hxv as [H1 _]. auto.
Qed.

Lemma chain_deduced lf a vs R c st :
  store_ok st -> rules (kb st) = [] ->
  JS.toLowerCase R = "is" \/ JS.toLowerCase R = "part of" ->
  chain (facts (kb st)) R a vs c -> NoDup (JS.toLowerCase <$> (a :: vs)) ->
  (30 <= lf)%nat -> (nextPrimeIndex (encoder st) + 4 <= 168)%nat ->
  exists fuel r st',
    result r = true
    /\ forall fuel', (fuel <= fuel')%nat ->
          deduce lf fuel' (new_Fact a R c) st = Some (r, st').
Proof.
  intros Hst Hr HR Hch Hnd Hlf Hroom.
  destruct (chain_nonempty _ _ _ _ _ (stored_names st Hst) Hch) as (Na & NR & Nc).
  destruct (deduce_returns lf (new_Fact a R c) st Hst Hroom Hlf)
    as (fuel & r & st' & _ & _ & Hd);
    [apply new_Fact_normalized | exact Na | exact NR | exact Nc |].
  exists fuel, r, st'. split; [|exact Hd].
  pose proof (Hd fuel (le_n _)) as H.
  unfold deduce, set_visited in H. rewrite bind_modify in H.
  destruct Hst as (_ & _ & Ha & _).
  apply (chain_call lf R c (facts (kb st)) HR vs a Hch Hnd a fuel _ r st') in H;
    [exact H | left | | ].
  - split; [exact Ha|]. split; [exact Hr | reflexivity].
  - apply Forall_forall. intros y _. cbn [visited]. apply not_elem_of_empty.
Qed.

(** What a computed state shows. *)
Lemma observe {A B} (f : A -> B) (m : option A) (a : A) (b : B) :
  m = Some a -> f <$> m = Some b -> f a = b.
Proof. intros -> [= <-]. reflexivity. Qed.

(** X23: every query terminates. In a well-formed store ([store_ok]: what
    [addFact] and [addRule] build) with room for four more primes and a loop
    budget of 30, [deduce] on a fact without empty component returns a result
    for every large enough depth budget, the same for all of them; the
    knowledge base is left as it was and the store stays well formed. The
    visited set is what bounds the recursion, rules that refer to themselves
    included. *)
Theorem deduce_terminates (lf : nat) (q : Fact) (st : ELLM) :
  store_ok st -> (nextPrimeIndex (encoder st) + 4 <= 168)%nat -> (30 <= lf)%nat ->
  normalized q -> subject q <> "" -> predicate q <> "" -> object q <> "" ->
  exists fuel r st',
    kb st' = kb st /\ store_ok st'
    /\ forall fuel', (fuel <= fuel')%nat -> deduce lf fuel' q st = Some (r, st').
Proof. exact (deduce_returns lf q st). Qed.

Lemma deduce_terminates_witness :
  exists R st1 E st2 fuel r st',
    addRule 30 (new_Rule [new_Fact "Rex" "is" "dog"] (new_Fact "Rex" "is" "dog")) initial_ELLM
    = Some (R, st1)
    /\ addFact 30 (new_Fact "Rex" "is" "animal") st1 = Some (E, st2)
    /\ kb st' = kb st2 /\ store_ok st'
    /\ forall fuel', (fuel <= fuel')%nat ->
         deduce 30 fuel' (new_Fact "Rex" "is" "dog") st2 = Some (r, st').
Proof.
  destruct (addRule_standard_store_ok 30 [new_Fact "Rex" "is" "dog"]
              (new_Fact "Rex" "is" "dog") initial_ELLM initial_store_ok)
    as (R & st1 & H1 & Hok1 & Hn1).
  { repeat constructor; discriminate. }
  { simpl. lia. }
  destruct (addFact_store_ok 30 (new_Fact "Rex" "is" "animal") st1 Hok1)
    as (E & st2 & H2 & Hok2 & Hn2).
  { repeat constructor; discriminate. }
  { simpl in Hn1. lia. }
  destruct (deduce_terminates 30 (new_Fact "Rex" "is" "dog") st2 Hok2)
    as (fuel & r & st' & Hk & Hok & Hd).
  { simpl in Hn1. lia. }
  { lia. }
  { apply new_Fact_normalized. }
  { discriminate. }
  { discriminate. }
  { discriminate. }
  exists R, st1, E, st2, fuel, r, st'. auto.
Defined.

(** X24: the stores built through the interface are well formed. A fresh
    system is [store_ok]; [addFact] of a fact without empty component,
    [addRule] of a universal or capability rule with non-empty category and
    property, and [addRule] of a standard rule whose facts have no empty
    component all succeed and keep [store_ok], as long as the 168 primes of
    the sieve are not used up (at most 3, 9 and 3 per fact are taken). *)
Theorem store_ok_invariant :
  store_ok initial_ELLM
  /\ (forall lf f st,
        store_ok st -> fact_nonempty f -> (nextPrimeIndex (encoder st) + 3 <= 168)%nat ->
        exists E st', addFact lf f st = Some (E, st') /\ store_ok st'
                      /\ (nextPrimeIndex (encoder st') <= nextPrimeIndex (encoder st) + 3)%nat)
  /\ (forall lf isU c p st,
        store_ok st -> JS.toLowerCase c <> "" -> JS.toLowerCase p <> "" ->
        (nextPrimeIndex (encoder st) + 9 <= 168)%nat ->
        exists R st', addRule lf (quantified_rule isU c p) st = Some (R, st') /\ store_ok st'
                      /\ (nextPrimeIndex (encoder st') <= nextPrimeIndex (encoder st) + 9)%nat)
  /\ (forall lf conds concl st,
        store_ok st -> Forall fact_nonempty (concl :: conds) ->
        (nextPrimeIndex (encoder st) + 3 * S (length conds) <= 168)%nat ->
        exists R st', addRule lf (new_Rule conds concl) st = Some (R, st') /\ store_ok st'
                      /\ (nextPrimeIndex (encoder st')
                          <= nextPrimeIndex (encoder st) + 3 * S (length conds))%nat).
Proof.
  split; [exact initial_store_ok|]. split; [exact addFact_store_ok|].
  split; [exact addRule_quantified_store_ok | exact addRule_standard_store_ok].
Qed.

Lemma store_ok_invariant_witness :
  exists R st1 E st2,
    addRule 0 (quantified_rule true "Humans" "mortal") initial_ELLM = Some (R, st1)
    /\ addFact 0 (new_Fact "Socrates" "is" "human") st1 = Some (E, st2)
    /\ store_ok st2.
Proof.
  destruct store_ok_invariant as (A0 & A1 & A2 & _).
  destruct (A2 0%nat true "Humans" "mortal" initial_ELLM A0) as (R & st1 & H1 & Hok1 & Hn1);
    [discriminate | discriminate | simpl; lia |].
  destruct (A1 0%nat (new_Fact "Socrates" "is" "human") st1 Hok1)
    as (E & st2 & H2 & Hok2 & _);
    [repeat constructor; discriminate | simpl in Hn1; lia |].
  exists R, st1, E, st2. auto.
Defined.

(** X25: the first quantified rule fires. In a well-formed store whose rule
    list holds the quantified rule (category [c], property [p]) after standard
    rules only, with the fact [x is c] stored, [deduce] answers [true] on
    [x is p] (universal rule) or [x can p] (capability rule), for every depth
    budget of at least 2. *)
Theorem first_quantified_rule_fires (lf fuel : nat) (qt : QuantifiedType)
    (x c p : string) (st : ELLM) (pre rest : list EncodedRule) (vp : option Z)
    (pc pp ppr ce cl : Z) :
  store_ok st ->
  rules (kb st) = pre ++ EncQuantified qt vp pc pp ppr ce cl :: rest ->
  Forall (fun r => exists cs cl, r = EncStandard cs cl) pre ->
  conceptToPrime (encoder st) !! JS.toLowerCase c = Some pc ->
  conceptToPrime (encoder st) !! JS.toLowerCase p = Some pp ->
  conceptToPrime (encoder st) !! rule_predicate qt = Some ppr ->
  new_Fact x "is" c ∈ facts (kb st) ->
  (2 <= fuel)%nat ->
  exists r st',
    deduce lf fuel (new_Fact x (rule_predicate qt) p) st = Some (r, st')
    /\ result r = true.
Proof. exact (quantified_rule_fires lf fuel qt x c p st pre rest vp pc pp ppr ce cl). Qed.

Lemma first_quantified_rule_fires_witness :
  exists R0 st0 R st1 E st2,
    addRule 0 (new_Rule [new_Fact "Rex" "is" "dog"] (new_Fact "Rex" "is" "animal"))
      initial_ELLM = Some (R0, st0)
    /\ addRule 0 (quantified_rule true "human" "mortal") st0 = Some (R, st1)
    /\ addFact 0 (new_Fact "Socrates" "is" "human") st1 = Some (E, st2)
    /\ exists r st',
         deduce 0 2 (new_Fact "Socrates" "is" "mortal") st2 = Some (r, st')
         /\ result r = true.
Proof.
  destruct (addRule_standard_store_ok 0 [new_Fact "Rex" "is" "dog"]
              (new_Fact "Rex" "is" "animal") initial_ELLM initial_store_ok)
    as (R0 & st0 & H0 & Hok0 & Hn0);
    [repeat constructor; discriminate | simpl; lia |].
  destruct (addRule_quantified_store_ok 0 true "human" "mortal" st0 Hok0)
    as (R & st1 & H1 & Hok1 & Hn1);
    [discriminate | discriminate | simpl in Hn0; lia |].
  destruct (addFact_store_ok 0 (new_Fact "Socrates" "is" "human") st1 Hok1)
    as (E & st2 & H2 & Hok2 & _);
    [repeat constructor; discriminate | simpl in Hn0; lia |].
  clear Hn0 Hn1 Hok0 Hok1.
  assert (Hc : (let* _ := addRule 0 (new_Rule [new_Fact "Rex" "is" "dog"]
                                       (new_Fact "Rex" "is" "animal")) in
                let* _ := addRule 0 (quantified_rule true "human" "mortal") in
                addFact 0 (new_Fact "Socrates" "is" "human")) initial_ELLM
               = Some (E, st2)).
  { rewrite (bind_eval _ _ _ _ _ H0), (bind_eval _ _ _ _ _ H1). exact H2. }
  assert (Hf : facts (kb st2) = [new_Fact "Socrates" "is" "human"])
    by (apply (observe (fun p => facts (kb (snd p))) _ _ _ Hc); vm_compute; reflexivity).
  exists R0, st0, R, st1, E, st2.
  split; [exact H0|]. split; [exact H1|]. split; [exact H2|].
  apply (first_quantified_rule_fires 0 2 q_universal "Socrates" "human" "mortal" st2
           [EncStandard [105] 165] [] (Some 2) 13 17 5 1235 1615 Hok2).
  - apply (observe (fun p => rules (kb (snd p))) _ _ _ Hc). vm_compute. reflexivity.
  - apply List.Forall_cons; [eexists _, _; reflexivity | apply List.Forall_nil].
  - apply (observe (fun p => conceptToPrime (encoder (snd p)) !! "human") _ _ _ Hc).
    vm_compute. reflexivity.
  - apply (observe (fun p => conceptToPrime (encoder (snd p)) !! "mortal") _ _ _ Hc).
    vm_compute. reflexivity.
  - apply (observe (fun p => conceptToPrime (encoder (snd p)) !! "is") _ _ _ Hc).
    vm_compute. reflexivity.
  - rewrite Hf. left.
  - lia.
Defined.

(** X26: chains of stored facts are followed. In a well-formed store without
    rules, for the predicate "is" or "part of", if the facts [a R v1],
    [v1 R v2], ..., [vk R c] are stored, the names [a, v1, ..., vk] being
    distinct up to case, then [deduce] answers [true] on [a R c], whatever
    other facts are stored and in whatever order. *)
Theorem transitive_chain (lf : nat) (a : string) (vs : list string) (R c : string)
    (st : ELLM) :
  store_ok st -> rules (kb st) = [] ->
  JS.toLowerCase R = "is" \/ JS.toLowerCase R = "part of" ->
  chain (facts (kb st)) R a vs c -> NoDup (JS.toLowerCase <$> (a :: vs)) ->
  (30 <= lf)%nat -> (nextPrimeIndex (encoder st) + 4 <= 168)%nat ->
  exists fuel r st',
    result r = true
    /\ forall fuel', (fuel <= fuel')%nat ->
          deduce lf fuel' (new_Fact a R c) st = Some (r, st').
Proof. exact (chain_deduced lf a vs R c st). Qed.

Lemma transitive_chain_witness :
  exists E1 st1 E2 st2 E3 st3,
    addFact 30 (new_Fact "car" "part of" "fleet") initial_ELLM = Some (E1, st1)
    /\ addFact 30 (new_Fact "piston" "part of" "engine") st1 = Some (E2, st2)
    /\ addFact 30 (new_Fact "engine" "part of" "car") st2 = Some (E3, st3)
    /\ exists fuel r st',
         result r = true
         /\ forall fuel', (fuel <= fuel')%nat ->
              deduce 30 fuel' (new_Fact "piston" "part of" "fleet") st3 = Some (r, st').
Proof.
  destruct (addFact_store_ok 30 (new_Fact "car" "part of" "fleet") initial_ELLM
              initial_store_ok) as (E1 & st1 & H1 & Hok1 & Hn1);
    [repeat constructor; discriminate | simpl; lia |].
  destruct (addFact_store_ok 30 (new_Fact "piston" "part of" "engine") st1 Hok1)
    as (E2 & st2 & H2 & Hok2 & Hn2);
    [repeat constructor; discriminate | simpl in Hn1; lia |].
  destruct (addFact_store_ok 30 (new_Fact "engine" "part of" "car") st2 Hok2)
    as (E3 & st3 & H3 & Hok3 & Hn3);
    [repeat constructor; discriminate | simpl in Hn1; lia |].
  assert (Hn : (nextPrimeIndex (encoder st3) + 4 <= 168)%nat) by (simpl in Hn1; lia).
  clear Hn1 Hn2 Hn3 Hok1 Hok2.
  assert (Hc : (let* _ := addFact 30 (new_Fact "car" "part of" "fleet") in
                let* _ := addFact 30 (new_Fact "piston" "part of" "engine") in
                addFact 30 (new_Fact "engine" "part of" "car")) initial_ELLM
               = Some (E3, st3)).
  { rewrite (bind_eval _ _ _ _ _ H1), (bind_eval _ _ _ _ _ H2). exact H3. }
  assert (Hr : rules (kb st3) = [])
    by (apply (observe (fun p => rules (kb (snd p))) _ _ _ Hc); vm_compute; reflexivity).
  assert (Hf : facts (kb st3) = [new_Fact "car" "part of" "fleet";
                                 new_Fact "piston" "part of" "engine";
                                 new_Fact "engine" "part of" "car"])
    by (apply (observe (fun p => facts (kb (snd p))) _ _ _ Hc); vm_compute; reflexivity).
  exists E1, st1, E2, st2, E3, st3.
  split; [exact H1|]. split; [exact H2|]. split; [exact H3|].
  apply (transitive_chain 30 "piston" ["engine"; "car"] "part of" "fleet" st3 Hok3 Hr);
    [ right; reflexivity
    | rewrite Hf; cbn [chain]; repeat split;
      apply (bool_decide_unpack _); vm_compute; exact I
    | apply (bool_decide_unpack _); vm_compute; exact I
    | lia
    | exact Hn ].
Defined.

(** ** The first quantified rule, in full *)

(** The direct check finds the encoding of a registered query exactly when
    a stored fact has the components of the query. *)
Lemma stored_encoding_iff q st E :
  enc_wf (encoder st) -> kb_aligned st ->
  encodeFact 0 q (encoder st) = Some (E, encoder st) ->
  existsb (Z.eqb E) (factEncodings (kb st)) = true
  <-> exists f, f ∈ facts (kb st) /\ components f ≡ₚ components q.
Proof.
  intros Hwf Ha HE.
  destruct (encodeFact_inv _ _ _ _ _ HE) as (q1 & q2 & q3 & -> & B1 & B2 & B3 & _).
  rewrite existsb_exists. split.
  - intros (E' & Hin & Heq). apply Z.eqb_eq in Heq. subst E'.
    apply list_elem_of_In, list_elem_of_lookup_1 in Hin as [i Hi].
    destruct (Forall2_lookup_r _ _ _ _ _ Ha Hi) as (f & Hf & Henc).
    exists f. split; [eapply list_elem_of_lookup_2, Hf|].
    destruct (encodeFact_inv _ _ _ _ _ (Henc 0%nat))
      as (p1 & p2 & p3 & Hprod & A1 & A2 & A3 & _).
    apply (proj1 (encoding_collision _ _ _ _ _ _ _ _ _ _ _ _ _ Hwf A1 A2 A3 B1 B2 B3)).
    lia.
  - intros (f & Hin & Hperm).
    apply list_elem_of_lookup_1 in Hin as [i Hi].
    destruct (Forall2_lookup_l _ _ _ _ _ Ha Hi) as (E' & HE' & Henc).
    exists E'. split; [apply list_elem_of_In; eapply list_elem_of_lookup_2, HE'|].
    apply Z.eqb_eq.
    destruct (encodeFact_inv _ _ _ _ _ (Henc 0%nat))
      as (p1 & p2 & p3 & -> & A1 & A2 & A3 & _).
    symmetry.
    apply (proj2 (encoding_collision _ _ _ _ _ _ _ _ _ _ _ _ _ Hwf A1 A2 A3 B1 B2 B3)).
    exact Hperm.
Qed.

(** The answer of the first quantified rule, in full. *)
Lemma quantified_rule_result lf fuel qt x c p st pre rest vp pc pp ppr ce cl :
  store_ok st ->
  rules (kb st) = pre ++ EncQuantified qt vp pc pp ppr ce cl :: rest ->
  Forall (fun r => exists cs cl, r = EncStandard cs cl) pre ->
  conceptToPrime (encoder st) !! JS.toLowerCase c = Some pc ->
  conceptToPrime (encoder st) !! JS.toLowerCase p = Some pp ->
  conceptToPrime (encoder st) !! rule_predicate qt = Some ppr ->
  new_Fact x "is" c ∈ facts (kb st) ->
  (2 <= fuel)%nat ->
  exists r st',
    deduce lf fuel (new_Fact x (rule_predicate qt) p) st = Some (r, st')
    /\ result r = true
    /\ ((exists f, f ∈ facts (kb st)
                   /\ components f ≡ₚ components (new_Fact x (rule_predicate qt) p)) ->
        explanation r
        = "Direct fact in knowledge base: "
          +:+ Fact_toString (new_Fact x (rule_predicate qt) p))
    /\ (~ (exists f, f ∈ facts (kb st)
                     /\ components f ≡ₚ components (new_Fact x (rule_predicate qt) p)) ->
        explanation r
        = "Direct fact in knowledge base: " +:+ Fact_toString (new_Fact x "is" c)
          +:+ ", and all " +:+ JS.toLowerCase c +:+ " " +:+ rule_verb qt
          +:+ " " +:+ JS.toLowerCase p).
Proof.
  intros (W & Hn & Ha & Hr) Hrules Hpre Kc Kp Kpr Hin Hfuel.
  set (f1 := new_Fact x "is" c) in *. set (q := new_Fact x (rule_predicate qt) p).
  destruct st as [e k v]. cbn [encoder kb] in *.
  pose proof Hin as Hin'. apply list_elem_of_lookup_1 in Hin' as [i Hi].
  destruct (Forall2_lookup_l _ _ _ _ _ Ha Hi) as (E1 & HE1 & Henc1).
  cbn [encoder] in Henc1.
  destruct (encodeFact_inv _ _ _ _ _ (Henc1 0%nat)) as (px & pis & pc' & HE1eq & Kx & _ & _ & _).
  cbn [f1 new_Fact subject] in Kx. rewrite toLowerCase_idempotent in Kx.
  assert (Hlowpr : JS.toLowerCase (rule_predicate qt) = rule_predicate qt)
    by (destruct qt; reflexivity).
  assert (HEq : forall lf', encodeFact lf' q e = Some (px * ppr * pp, e)).
  { intros lf'. apply encodeFact_known; cbn [q new_Fact subject predicate object];
      rewrite ?toLowerCase_idempotent, ?Hlowpr; assumption. }
  assert (Hnc : JS.toLowerCase c <> "") by (apply (Hn _ _ Kc)).
  assert (Hnp : JS.toLowerCase p <> "") by (apply (Hn _ _ Kp)).
  assert (Hnpr : rule_predicate qt <> "") by (destruct qt; discriminate).
  pose proof (stored_encoding_iff q {| encoder := e; kb := k; visited := v |} _ W Ha
                (HEq 0%nat)) as Hiff.
  cbn [kb] in Hiff.
  destruct fuel as [|[|fuel]]; [lia | lia |].
  unfold deduce, set_visited. rewrite bind_modify.
  change (_deduce lf (S (S fuel)) q) with (deduce_body lf (_deduce lf (S fuel)) q).
  unfold deduce_body. cbn [encoder kb visited].
  rewrite (bind_eval _ _ _ _ _ (on_encoder_eval _ _ _ _ _ _ (HEq lf))).
  rewrite bind_gets. cbn [visited].
  rewrite bool_decide_eq_false_2 by apply not_elem_of_empty.
  unfold set_visited. rewrite bind_modify, bind_gets. cbn [kb encoder visited].
  destruct (existsb (Z.eqb (px * ppr * pp)) (factEncodings k)) eqn:Hex.
  { eexists _, _. split; [reflexivity|]. split; [reflexivity|].
    split; [reflexivity|]. intros Hno. exfalso. apply Hno, Hiff. reflexivity. }
  rewrite bind_gets. cbn [kb]. rewrite Hrules, (quantified_pass_skip _ _ _ _ Hpre).
  cbn [quantified_pass]. rewrite bind_assoc, bind_gets. cbn [encoder].
  rewrite (getConceptName_registered e _ ppr W Kpr Hnpr).
  rewrite (getConceptName_registered e _ pp W Kp Hnp).
  rewrite (getConceptName_registered e _ pc W Kc Hnc).
  assert (Hp1 : bool_decide (predicate q = rule_predicate qt) = true).
  { apply bool_decide_eq_true_2. cbn [q new_Fact predicate]. exact Hlowpr. }
  assert (Hp2 : bool_decide (object q = JS.toLowerCase p) = true).
  { apply bool_decide_eq_true_2. reflexivity. }
  rewrite Hp1, Hp2. cbn [andb].
  assert (Hm : new_Fact (subject q) "is" (JS.toLowerCase c) = f1).
  { unfold f1, q, new_Fact. cbn [subject]. rewrite !toLowerCase_idempotent. reflexivity. }
  rewrite Hm, bind_assoc.
  assert (Hkey : Fact_toString f1 ∉ (∅ ∪ {[Fact_toString q]} : gset string)).
  { intros Hk. apply elem_of_union in Hk as [Hk|Hk]; [exact (not_elem_of_empty _ Hk)|].
    apply elem_of_singleton in Hk. destruct qt.
    - apply key_is_eq in Hk.
      assert (Hfq : f1 = q).
      { unfold f1, q, new_Fact. cbn [rule_predicate]. rewrite Hk. reflexivity. }
      assert (Hin2 : existsb (Z.eqb (px * ppr * pp)) (factEncodings k) = true);
        [|congruence].
      apply existsb_exists. exists E1. split.
      + apply list_elem_of_In. eapply list_elem_of_lookup_2, HE1.
      + apply Z.eqb_eq. pose proof (Henc1 0%nat) as H1. rewrite Hfq, (HEq 0%nat) in H1.
        congruence.
    - exact (key_is_can _ _ _ Hk). }
  set (st1 := {| encoder := e; kb := k; visited := ∅ ∪ {[Fact_toString q]} |}).
  assert (Ha1 : kb_aligned st1) by exact Ha.
  pose proof (_deduce_direct lf fuel f1 st1 Ha1 Hin Hkey) as Hd.
  cbn [encoder kb visited] in Hd.
  rewrite (bind_eval _ _ _ _ _ Hd).
  cbn [result]. rewrite bind_assoc, bind_gets. cbv beta. rewrite bind_ret. cbv beta iota.
  cbn [encoder explanation st1].
  rewrite (getConceptName_registered e _ pp W Kp Hnp).
  rewrite (getConceptName_registered e _ pc W Kc Hnc).
  unfold ret. eexists _, _. split; [reflexivity|]. split; [reflexivity|].
  split; [|intros _; destruct qt; reflexivity].
  intros Hex'. apply Hiff in Hex'. congruence.
Qed.

Lemma two_rules_setup_mono lf lf' :
  (lf <= lf')%nat -> extends (two_rules_setup lf) (two_rules_setup lf').
Proof.
  intros H. unfold two_rules_setup.
  pose proof (addRule_mono lf lf' H).
  pose proof (fun x c a o => capability_setup_mono lf lf' x c a o H).
  extends_tac.
Qed.

(** C4, as amended: in a well-formed store that holds the membership fact
    "x is c" and the capability rule "all c can a", no other universal or
    capability rule coming before it, the query "x can a" is answered [true]
    whatever else is stored, a "cannot" fact in particular: a stored fact
    never suppresses the conclusion of the rule. The explanation is "Direct
    fact in knowledge base: x is c, and all c can a", unless a stored fact has
    the components of the query, which is then reported as a direct fact. The
    membership fact is looked up by the subject of the query as spelled: with
    (penguin, is, birds), the rule of "All birds can fly" and the fact of
    "Penguins cannot fly" stored, (penguin, can, fly) is answered [true],
    also when a rule "all fish can fly" comes first, while (penguin, can,
    swim) and (penguin, is, fly) are not deduced; with (penguins, is, birds)
    instead, (penguin, can, fly) is not deduced and (penguins, can, fly) is
    [true]. *)
Theorem deduce_penguin_can_fly :
  (forall lf fuel x c a st pre rest vp pc pa pcan ce cl,
     store_ok st ->
     rules (kb st) = pre ++ EncQuantified q_capability vp pc pa pcan ce cl :: rest ->
     Forall (fun r => exists cs cl, r = EncStandard cs cl) pre ->
     conceptToPrime (encoder st) !! JS.toLowerCase c = Some pc ->
     conceptToPrime (encoder st) !! JS.toLowerCase a = Some pa ->
     conceptToPrime (encoder st) !! "can" = Some pcan ->
     new_Fact x "is" c ∈ facts (kb st) ->
     (2 <= fuel)%nat ->
     exists r st',
       deduce lf fuel (new_Fact x "can" a) st = Some (r, st')
       /\ result r = true
       /\ ((exists f, f ∈ facts (kb st)
                      /\ components f ≡ₚ components (new_Fact x "can" a)) ->
           explanation r
           = "Direct fact in knowledge base: " +:+ Fact_toString (new_Fact x "can" a))
       /\ (~ (exists f, f ∈ facts (kb st)
                        /\ components f ≡ₚ components (new_Fact x "can" a)) ->
           explanation r
           = "Direct fact in knowledge base: " +:+ Fact_toString (new_Fact x "is" c)
             +:+ ", and all " +:+ JS.toLowerCase c +:+ " can " +:+ JS.toLowerCase a))
  /\ (forall lf fuel st0 x c a other,
        enc_wf (encoder st0) -> (nextPrimeIndex (encoder st0) + 18 <= 168)%nat ->
        kb st0 = KnowledgeBase.new ->
        JS.toLowerCase c <> "" -> JS.toLowerCase a <> "" ->
        (2 <= fuel)%nat ->
        exists st r st',
          snd <$> capability_setup lf x c a other st0 = Some st
          /\ facts (kb st) = [new_Fact x "is" c; other]
          /\ deduce lf fuel (new_Fact x "can" a) st = Some (r, st')
          /\ result r = true
          /\ (explanation r
              = "Direct fact in knowledge base: " +:+ Fact_toString (new_Fact x "can" a)
              \/ explanation r
                 = "Direct fact in knowledge base: " +:+ Fact_toString (new_Fact x "is" c)
                   +:+ ", and all " +:+ JS.toLowerCase c +:+ " can "
                   +:+ JS.toLowerCase a))
  /\ parseRule "All birds can fly" = Some (createCapabilityRule "birds" "fly")
  /\ parseFact "Penguins cannot fly" = Some (new_Fact "penguins" "cannot" "fly")
  /\ (forall lf fuel other,
        (2 <= fuel)%nat ->
        other = new_Fact "penguins" "cannot" "fly"
        \/ other = new_Fact "penguin" "cannot" "fly" ->
        exists st,
          after lf (capability_setup lf "penguin" "birds" "fly" other) = Some st
          /\ facts (kb st) = [new_Fact "penguin" "is" "birds"; other]
          /\ fst <$> deduce lf fuel (new_Fact "penguin" "can" "fly") st
             = Some {| result := true;
                       explanation := "Direct fact in knowledge base: penguin is birds, and all birds can fly" |}
          /\ fst <$> deduce lf fuel (new_Fact "penguin" "can" "swim") st
             = Some (could_not_deduce (new_Fact "penguin" "can" "swim"))
          /\ fst <$> deduce lf fuel (new_Fact "penguin" "is" "fly") st
             = Some (could_not_deduce (new_Fact "penguin" "is" "fly")))
  /\ (forall lf fuel,
        (3 <= fuel)%nat ->
        exists st,
          after lf (two_rules_setup lf) = Some st
          /\ facts (kb st) = [new_Fact "penguin" "is" "birds";
                              new_Fact "penguins" "cannot" "fly"]
          /\ length (rules (kb st)) = 2%nat
          /\ fst <$> deduce lf fuel (new_Fact "penguin" "can" "fly") st
             = Some {| result := true;
                       explanation := "Direct fact in knowledge base: penguin is birds, and all birds can fly" |})
  /\ (forall lf fuel,
        (2 <= fuel)%nat ->
        exists st,
          after lf (capability_setup lf "penguins" "birds" "fly"
                      (new_Fact "penguins" "cannot" "fly")) = Some st
          /\ facts (kb st) = [new_Fact "penguins" "is" "birds";
                              new_Fact "penguins" "cannot" "fly"]
          /\ fst <$> deduce lf fuel (new_Fact "penguin" "can" "fly") st
             = Some (could_not_deduce (new_Fact "penguin" "can" "fly"))
          /\ fst <$> deduce lf fuel (new_Fact "penguins" "can" "fly") st
             = Some {| result := true;
                       explanation := "Direct fact in knowledge base: penguins is birds, and all birds can fly" |}).
Proof.
  split.
  { intros lf fuel x c a st pre rest vp pc pa pcan ce cl.
    exact (quantified_rule_result lf fuel q_capability x c a st pre rest vp pc pa pcan ce cl). }
  split.
  { intros lf fuel st0 x c a other Hwf Hroom Hkb Hc Ha Hfuel.
    destruct (capability_rule_fires lf fuel st0 x c a other Hwf Hroom Hkb Hc Ha Hfuel)
      as (st & r & st' & H1 & H2 & H3 & H4 & H5).
    exists st, r, st'. auto. }
  split; [vm_compute; reflexivity|]. split; [vm_compute; reflexivity|].
  split.
  - intros lf fuel other Hfuel [-> | ->].
    all: eexists; split; [|split; [|split; [|split]]];
      [ apply (after_mono 0 lf _ _ _ (capability_setup_mono 0 lf _ _ _ _ (Nat.le_0_l lf)));
        vm_compute; reflexivity
      | vm_compute; reflexivity
      | apply (extends_fst _ _ _ _ (deduce_mono 0 lf (Nat.le_0_l lf) 2 fuel _ Hfuel));
        vm_compute; reflexivity
      | apply (extends_fst _ _ _ _ (deduce_mono 0 lf (Nat.le_0_l lf) 2 fuel _ Hfuel));
        vm_compute; reflexivity
      | apply (extends_fst _ _ _ _ (deduce_mono 0 lf (Nat.le_0_l lf) 2 fuel _ Hfuel));
        vm_compute; reflexivity ].
  - split.
    { intros lf fuel Hfuel.
      eexists; split; [|split; [|split]];
        [ apply (after_mono 0 lf _ _ _ (two_rules_setup_mono 0 lf (Nat.le_0_l lf)));
          vm_compute; reflexivity
        | vm_compute; reflexivity
        | vm_compute; reflexivity
        | apply (extends_fst _ _ _ _ (deduce_mono 0 lf (Nat.le_0_l lf) 3 fuel _ Hfuel));
          vm_compute; reflexivity ]. }
    intros lf fuel Hfuel.
    eexists; split; [|split; [|split]];
      [ apply (after_mono 0 lf _ _ _ (capability_setup_mono 0 lf _ _ _ _ (Nat.le_0_l lf)));
        vm_compute; reflexivity
      | vm_compute; reflexivity
      | apply (extends_fst _ _ _ _ (deduce_mono 0 lf (Nat.le_0_l lf) 2 fuel _ Hfuel));
        vm_compute; reflexivity
      | apply (extends_fst _ _ _ _ (deduce_mono 0 lf (Nat.le_0_l lf) 2 fuel _ Hfuel));
        vm_compute; reflexivity ].
Qed.

Lemma deduce_penguin_can_fly_witness :
  exists E1 st1 R st2 E3 st r st',
    addFact 0 (new_Fact "penguin" "is" "birds") initial_ELLM = Some (E1, st1)
    /\ addRule 0 (quantified_rule false "birds" "fly") st1 = Some (R, st2)
    /\ addFact 0 (new_Fact "penguins" "cannot" "fly") st2 = Some (E3, st)
    /\ deduce 0 2 (new_Fact "penguin" "can" "fly") st = Some (r, st')
    /\ result r = true
    /\ explanation r
       = "Direct fact in knowledge base: penguin is birds, and all birds can fly".
Proof.
  destruct (addFact_store_ok 0 (new_Fact "penguin" "is" "birds") initial_ELLM
              initial_store_ok) as (E1 & st1 & H1 & Hok1 & Hn1);
    [repeat constructor; discriminate | simpl; lia |].
  destruct (addRule_quantified_store_ok 0 false "birds" "fly" st1 Hok1)
    as (R & st2 & H2 & Hok2 & Hn2);
    [discriminate | discriminate | simpl in Hn1; lia |].
  destruct (addFact_store_ok 0 (new_Fact "penguins" "cannot" "fly") st2 Hok2)
    as (E3 & st & H3 & Hok & _);
    [repeat constructor; discriminate | simpl in Hn1; lia |].
  clear Hn1 Hn2 Hok1 Hok2.
  assert (Hst : exists vp pc pa pcan ce cl,
             rules (kb st) = [] ++ EncQuantified q_capability vp pc pa pcan ce cl :: []
             /\ conceptToPrime (encoder st) !! JS.toLowerCase "birds" = Some pc
             /\ conceptToPrime (encoder st) !! JS.toLowerCase "fly" = Some pa
             /\ conceptToPrime (encoder st) !! "can" = Some pcan
             /\ facts (kb st) = [new_Fact "penguin" "is" "birds";
                                 new_Fact "penguins" "cannot" "fly"]).
  { assert (Hc : (let* _ := addFact 0 (new_Fact "penguin" "is" "birds") in
                  let* _ := addRule 0 (quantified_rule false "birds" "fly") in
                  addFact 0 (new_Fact "penguins" "cannot" "fly")) initial_ELLM
                 = Some (E3, st)).
    { rewrite (bind_eval _ _ _ _ _ H1), (bind_eval _ _ _ _ _ H2). exact H3. }
    exists (Some 2), 7, 11, 13, 595, 2431.
    split; [apply (observe (fun p => rules (kb (snd p))) _ _ _ Hc);
            vm_compute; reflexivity|].
    split; [apply (observe (fun p => conceptToPrime (encoder (snd p)) !! "birds") _ _ _ Hc);
            vm_compute; reflexivity|].
    split; [apply (observe (fun p => conceptToPrime (encoder (snd p)) !! "fly") _ _ _ Hc);
            vm_compute; reflexivity|].
    split; [apply (observe (fun p => conceptToPrime (encoder (snd p)) !! "can") _ _ _ Hc);
            vm_compute; reflexivity|].
    apply (observe (fun p => facts (kb (snd p))) _ _ _ Hc). vm_compute. reflexivity. }
  destruct Hst as (vp & pc & pa & pcan & ce & cl & Hr & Kc & Ka & Kcan & Hf).
  destruct (proj1 deduce_penguin_can_fly 0%nat 2%nat "penguin" "birds" "fly" st
              [] [] vp pc pa pcan ce cl Hok Hr (List.Forall_nil _) Kc Ka Kcan)
    as (r & st' & Hd & Hres & _ & Hex); [rewrite Hf; left | lia |].
  exists E1, st1, R, st2, E3, st, r, st'.
  split; [exact H1|]. split; [exact H2|]. split; [exact H3|].
  split; [exact Hd|]. split; [exact Hres|].
  apply Hex. rewrite Hf. intros (f & Hin & Hperm).
  apply elem_of_cons in Hin as [->|Hin];
    [|apply list_elem_of_singleton in Hin; subst f];
    revert Hperm; apply (bool_decide_unpack _); vm_compute; exact I.
Defined.

(** C4, as stated, fails: "Penguins are birds" is no sentence that
    [parseFact] accepts, and with the membership fact (penguins, is, birds),
    the rule "all birds can fly" and the fact (penguins, cannot, fly) in the
    store, the query (penguin, can, fly) is not deduced: the subject of the
    query is not the subject of the membership fact. *)
Lemma deduce_penguin_counterexample :
  parseFact "Penguins are birds" = None
  /\ parseFact "Penguins is birds" = Some (new_Fact "penguins" "is" "birds")
  /\ forall lf fuel,
       (2 <= fuel)%nat ->
       exists st,
         after lf (capability_setup lf "penguins" "birds" "fly"
                     (new_Fact "penguins" "cannot" "fly")) = Some st
         /\ facts (kb st) = [new_Fact "penguins" "is" "birds";
                             new_Fact "penguins" "cannot" "fly"]
         /\ fst <$> deduce lf fuel (new_Fact "penguin" "can" "fly") st
            = Some {| result := false;
                      explanation := "Could not deduce: penguin can fly" |}.
Proof.
  split; [vm_compute; reflexivity|]. split; [vm_compute; reflexivity|].
  intros lf fuel Hfuel.
  eexists; split; [|split];
    [ apply (after_mono 0 lf _ _ _ (capability_setup_mono 0 lf _ _ _ _ (Nat.le_0_l lf)));
      vm_compute; reflexivity
    | vm_compute; reflexivity
    | apply (extends_fst _ _ _ _ (deduce_mono 0 lf (Nat.le_0_l lf) 2 fuel _ Hfuel));
      vm_compute; reflexivity ].
Qed.

(** ** A rule whose condition is its own conclusion, in any store *)

Section SelfSim.

Variable lf : nat.
Variable q : Fact.
Variable E : Z.

Lemma self_inv_le st st' :
  self_inv lf q E st -> st_le st st' -> (nextPrimeIndex (encoder st') <= 168)%nat ->
  self_inv lf q E st'.
Proof.
  intros (Hwf & HE & Hd) Hle Hcap.
  destruct (sl_wf _ _ Hle Hwf Hcap) as [Hwf' Hsub].
  split; [exact Hwf'|]. split.
  - apply (encodeFact_registered lf lf q _ E _ HE (sl_c2p _ _ Hle)).
  - apply (decodeFact_stable lf lf q _ E _ _ Hwf HE (sl_primes _ _ Hle) Hsub Hd).
Qed.

Lemma on_encoder_without {A} (m : M ConceptEncoder A) st a st1 :
  on_encoder m st = Some (a, st1) ->
  on_encoder m (without_self_rule E st) = Some (a, without_self_rule E st1).
Proof.
  unfold on_encoder. cbn [without_self_rule encoder].
  destruct (m (encoder st)) as [[a' e']|]; [|discriminate].
  intros [= <- <-]. reflexivity.
Qed.

Lemma self_decode st :
  self_inv lf q E st -> on_encoder (decodeFact lf E) st = Some (Some q, st).
Proof.
  intros (_ & _ & Hd). destruct st as [e k v]. apply on_encoder_eval. exact Hd.
Qed.

Section Passes.

Variable rec : Fact -> M ELLM Result.
Hypothesis Hgrows : forall g, grows (rec g).
Hypothesis Hsim : forall g st r st',
  self_inv lf q E st -> Fact_toString q ∈ visited st ->
  (nextPrimeIndex (encoder st') <= 168)%nat ->
  rec g st = Some (r, st') ->
  rec g (without_self_rule E st) = Some (r, without_self_rule E st').
Hypothesis Hself : forall st r st',
  self_inv lf q E st -> Fact_toString q ∈ visited st ->
  rec q st = Some (r, st') -> result r = false /\ st' = st.

Lemma quantified_pass_sim rs g : forall st x st',
  self_inv lf q E st -> Fact_toString q ∈ visited st ->
  (nextPrimeIndex (encoder st') <= 168)%nat ->
  quantified_pass rec rs g st = Some (x, st') ->
  quantified_pass rec (List.filter (fun r => negb (is_self_rule E r)) rs) g
    (without_self_rule E st)
  = Some (x, without_self_rule E st').
Proof.
  induction rs as [|r rs IH]; intros st x st' HJ Hq Hcap H.
  - apply ret_Some in H as [= -> ->]. reflexivity.
  - destruct r as [qt vp pc pp ppr ce cl | cs cl].
    + cbn [List.filter is_self_rule negb quantified_pass] in *.
      rewrite bind_gets in *. cbn [encoder without_self_rule].
      destruct (_ && _); [|apply (IH _ _ _ HJ Hq Hcap H)].
      apply bind_Some in H as (sub & st1 & H1 & H).
      pose proof (Hgrows _ _ _ _ H1) as Hle1.
      destruct (result sub) eqn:Hres.
      * rewrite bind_gets in H. apply ret_Some in H as [= -> ->].
        rewrite (bind_eval _ _ _ _ _ (Hsim _ _ _ _ HJ Hq Hcap H1)), Hres.
        reflexivity.
      * pose proof (grows_quantified_pass _ Hgrows _ _ _ _ _ H) as Hle2.
        pose proof (sl_next _ _ Hle2) as Hn.
        assert (Hcap1 : (nextPrimeIndex (encoder st1) <= 168)%nat) by lia.
        rewrite (bind_eval _ _ _ _ _ (Hsim _ _ _ _ HJ Hq Hcap1 H1)), Hres.
        apply (IH _ _ _ (self_inv_le _ _ HJ Hle1 Hcap1)
                 (sl_visited _ _ Hle1 _ Hq) Hcap H).
    + cbn [quantified_pass] in H. cbn [List.filter].
      destruct (negb (is_self_rule E (EncStandard cs cl)));
        cbn [quantified_pass]; apply (IH _ _ _ HJ Hq Hcap H).
Qed.

Lemma conditions_loop_sim cs : forall ex st x st',
  self_inv lf q E st -> Fact_toString q ∈ visited st ->
  (nextPrimeIndex (encoder st') <= 168)%nat ->
  conditions_loop lf rec cs ex st = Some (x, st') ->
  conditions_loop lf rec cs ex (without_self_rule E st)
  = Some (x, without_self_rule E st').
Proof.
  induction cs as [|c cs IH]; intros ex st x st' HJ Hq Hcap H.
  - apply ret_Some in H as [= -> ->]. reflexivity.
  - cbn [conditions_loop] in *.
    apply bind_Some in H as (o & st1 & Hd & H).
    pose proof (grows_decodeFact _ _ _ _ _ Hd) as Hle1.
    rewrite (bind_eval _ _ _ _ _ (on_encoder_without _ _ _ _ Hd)).
    destruct o as [cf|]; [|apply ret_Some in H as [= -> ->]; reflexivity].
    apply bind_Some in H as (r1 & st2 & H2 & H).
    pose proof (Hgrows _ _ _ _ H2) as Hle2.
    assert (Hcap2 : (nextPrimeIndex (encoder st2) <= 168)%nat).
    { destruct (result r1).
      - pose proof (sl_next _ _ (grows_conditions_loop _ _ Hgrows _ _ _ _ _ H)). lia.
      - apply ret_Some in H as [= _ ->]. exact Hcap. }
    assert (Hcap1 : (nextPrimeIndex (encoder st1) <= 168)%nat).
    { pose proof (sl_next _ _ Hle2). lia. }
    pose proof (self_inv_le _ _ HJ Hle1 Hcap1) as HJ1.
    pose proof (sl_visited _ _ Hle1 _ Hq) as Hq1.
    rewrite (bind_eval _ _ _ _ _ (Hsim _ _ _ _ HJ1 Hq1 Hcap2 H2)).
    destruct (result r1); [|apply ret_Some in H as [= -> ->]; reflexivity].
    apply (IH _ _ _ _ (self_inv_le _ _ HJ1 Hle2 Hcap2) (sl_visited _ _ Hle2 _ Hq1) Hcap H).
Qed.

Lemma standard_pass_sim rs g Eg : forall st x st',
  self_inv lf q E st -> Fact_toString q ∈ visited st ->
  (nextPrimeIndex (encoder st') <= 168)%nat ->
  standard_pass lf rec rs g Eg st = Some (x, st') ->
  standard_pass lf rec (List.filter (fun r => negb (is_self_rule E r)) rs) g Eg
    (without_self_rule E st)
  = Some (x, without_self_rule E st').
Proof.
  induction rs as [|r rs IH]; intros st x st' HJ Hq Hcap H.
  - apply ret_Some in H as [= -> ->]. reflexivity.
  - destruct r as [qt vp pc pp ppr ce cl | cs cl].
    + cbn [List.filter is_self_rule negb standard_pass] in *.
      apply (IH _ _ _ HJ Hq Hcap H).
    + cbn [List.filter]. destruct (is_self_rule E (EncStandard cs cl)) eqn:Hs.
      * (* the rule IF (q) THEN (q): its condition is refused as circular *)
        cbn [negb]. apply IH; try assumption.
        destruct cs as [|c [|c2 cs]]; cbn [is_self_rule] in Hs; try discriminate.
        apply andb_prop in Hs as [Hc Hcl].
        apply Z.eqb_eq in Hc. apply Z.eqb_eq in Hcl. subst c cl.
        cbn [standard_pass] in H. destruct (E =? Eg); [|exact H].
        cbn [conditions_loop] in H. rewrite bind_assoc in H.
        rewrite (bind_eval _ _ _ _ _ (self_decode _ HJ)) in H.
        rewrite bind_assoc in H.
        apply bind_Some in H as (r1 & st1 & H1 & H).
        destruct (Hself _ _ _ HJ Hq H1) as [Hres ->].
        rewrite Hres, bind_ret in H. exact H.
      * cbn [negb standard_pass] in *.
        destruct (cl =? Eg); [|apply (IH _ _ _ HJ Hq Hcap H)].
        apply bind_Some in H as (met & st1 & H1 & H).
        pose proof (grows_conditions_loop _ _ Hgrows _ _ _ _ _ H1) as Hle1.
        destruct met as [ex|].
        -- apply ret_Some in H as [= -> ->].
           rewrite (bind_eval _ _ _ _ _ (conditions_loop_sim _ _ _ _ _ HJ Hq Hcap H1)).
           reflexivity.
        -- pose proof (sl_next _ _ (grows_standard_pass _ _ Hgrows _ _ _ _ _ _ H)) as Hn.
           assert (Hcap1 : (nextPrimeIndex (encoder st1) <= 168)%nat) by lia.
           rewrite (bind_eval _ _ _ _ _ (conditions_loop_sim _ _ _ _ _ HJ Hq Hcap1 H1)).
           apply (IH _ _ _ (self_inv_le _ _ HJ Hle1 Hcap1)
                    (sl_visited _ _ Hle1 _ Hq) Hcap H).
Qed.

Lemma transitive_loop_sim fs g : forall st r st',
  self_inv lf q E st -> Fact_toString q ∈ visited st ->
  (nextPrimeIndex (encoder st') <= 168)%nat ->
  transitive_loop rec fs g st = Some (r, st') ->
  transitive_loop rec fs g (without_self_rule E st) = Some (r, without_self_rule E st').
Proof.
  induction fs as [|f fs IH]; intros st r st' HJ Hq Hcap H.
  - apply ret_Some in H as [= -> ->]. reflexivity.
  - cbn [transitive_loop] in *.
    destruct (_ && _); [|apply (IH _ _ _ HJ Hq Hcap H)].
    apply bind_Some in H as (r1 & st1 & H1 & H).
    pose proof (Hgrows _ _ _ _ H1) as Hle1.
    destruct (result r1) eqn:Hres.
    + apply ret_Some in H as [= -> ->].
      rewrite (bind_eval _ _ _ _ _ (Hsim _ _ _ _ HJ Hq Hcap H1)), Hres. reflexivity.
    + pose proof (sl_next _ _ (grows_transitive_loop _ Hgrows _ _ _ _ _ H)) as Hn.
      assert (Hcap1 : (nextPrimeIndex (encoder st1) <= 168)%nat) by lia.
      rewrite (bind_eval _ _ _ _ _ (Hsim _ _ _ _ HJ Hq Hcap1 H1)), Hres.
      apply (IH _ _ _ (self_inv_le _ _ HJ Hle1 Hcap1) (sl_visited _ _ Hle1 _ Hq) Hcap H).
Qed.

Lemma deduce_body_sim g st r st' :
  self_inv lf q E st ->
  Fact_toString q ∈ visited st \/ Fact_toString g = Fact_toString q ->
  (nextPrimeIndex (encoder st') <= 168)%nat ->
  deduce_body lf rec g st = Some (r, st') ->
  deduce_body lf rec g (without_self_rule E st) = Some (r, without_self_rule E st').
Proof.
  intros HJ Hq Hcap H. pose proof (grows_deduce_body _ _ Hgrows _ _ _ _ H) as Hle.
  unfold deduce_body in *.
  apply bind_Some in H as (Eg & st1 & HE & H).
  pose proof (grows_encodeFact _ _ _ _ _ HE) as Hle1.
  rewrite (bind_eval _ _ _ _ _ (on_encoder_without _ _ _ _ HE)).
  rewrite bind_gets in *. cbn [visited without_self_rule].
  destruct (bool_decide (Fact_toString g ∈ visited st1)) eqn:Hv.
  { apply ret_Some in H as [= -> ->]. reflexivity. }
  unfold set_visited in *. rewrite bind_modify in *. rewrite bind_gets in *.
  cbn [encoder kb visited without_self_rule factEncodings] in *.
  set (st2 := {| encoder := encoder st1; kb := kb st1;
                 visited := visited st1 ∪ {[Fact_toString g]} |}) in *.
  match goal with
  | |- _ ?s = _ => change s with (without_self_rule E st2)
  end.
  destruct (existsb (Z.eqb Eg) (factEncodings (kb st1))).
  { apply ret_Some in H as [= -> ->]. reflexivity. }
  rewrite bind_gets in *. cbn [kb without_self_rule rules] in *.
  apply bind_Some in H as (r1 & st3 & H3 & H).
  pose proof (grows_quantified_pass _ Hgrows _ _ _ _ _ H3) as Hle3.
  assert (Hle12 : st_le st1 st2).
  { destruct st1 as [e1 k1 v1]. constructor; cbn; try reflexivity; try lia.
    - apply union_subseteq_l.
    - intros W _. split; [exact W | reflexivity]. }
  assert (Hrest : (nextPrimeIndex (encoder st3) <= 168)%nat
                  /\ ((nextPrimeIndex (encoder st3) <= 168)%nat ->
                      (nextPrimeIndex (encoder st2) <= 168)%nat)).
  { split; [|pose proof (sl_next _ _ Hle3); lia].
    destruct r1 as [r1|]; [apply ret_Some in H as [= _ ->]; exact Hcap|].
    rewrite bind_gets in H. apply bind_Some in H as (r2 & st4 & H4 & H).
    pose proof (sl_next _ _ (grows_standard_pass _ _ Hgrows _ _ _ _ _ _ H4)).
    assert ((nextPrimeIndex (encoder st4) <= 168)%nat); [|lia].
    destruct r2 as [r2|]; [apply ret_Some in H as [= _ ->]; exact Hcap|].
    destruct (_ || _); [|apply ret_Some in H as [= _ ->]; exact Hcap].
    unfold tryTransitiveReasoning in H. rewrite bind_assoc, bind_gets in H.
    apply bind_Some in H as (tr & st5 & H5 & H).
    pose proof (sl_next _ _ (grows_transitive_loop _ Hgrows _ _ _ _ _ H5)).
    assert (st' = st5) by (destruct (result tr); apply ret_Some in H as [= _ ->]; reflexivity).
    subst st5. lia. }
  destruct Hrest as [Hcap3 Hcap2]. specialize (Hcap2 Hcap3).
  assert (HJ2 : self_inv lf q E st2).
  { apply (self_inv_le st); [exact HJ | exact (st_le_trans _ _ _ Hle1 Hle12) | exact Hcap2]. }
  assert (Hq2 : Fact_toString q ∈ visited st2).
  { cbn [st2 visited]. destruct Hq as [Hq|Hq].
    - apply elem_of_union_l, (sl_visited _ _ Hle1 _ Hq).
    - apply elem_of_union_r, elem_of_singleton. congruence. }
  rewrite (bind_eval _ _ _ _ _ (quantified_pass_sim _ _ _ _ _ HJ2 Hq2 Hcap3 H3)).
  destruct r1 as [r1|]; [apply ret_Some in H as [= -> ->]; reflexivity|].
  rewrite bind_gets in *. cbn [kb without_self_rule rules] in *.
  apply bind_Some in H as (r2 & st4 & H4 & H).
  pose proof (grows_standard_pass _ _ Hgrows _ _ _ _ _ _ H4) as Hle4.
  pose proof (self_inv_le _ _ HJ2 Hle3 Hcap3) as HJ3.
  pose proof (sl_visited _ _ Hle3 _ Hq2) as Hq3.
  assert (Hk3 : kb st3 = kb st2) by apply (sl_kb _ _ Hle3).
  assert (Hcap4 : (nextPrimeIndex (encoder st4) <= 168)%nat).
  { destruct r2 as [r2|]; [apply ret_Some in H as [= _ ->]; exact Hcap|].
    destruct (_ || _); [|apply ret_Some in H as [= _ ->]; exact Hcap].
    unfold tryTransitiveReasoning in H. rewrite bind_assoc, bind_gets in H.
    apply bind_Some in H as (tr & st5 & H5 & H).
    pose proof (sl_next _ _ (grows_transitive_loop _ Hgrows _ _ _ _ _ H5)).
    assert (st' = st5) by (destruct (result tr); apply ret_Some in H as [= _ ->]; reflexivity).
    subst st5. lia. }
  rewrite (bind_eval _ _ _ _ _ (standard_pass_sim _ _ _ _ _ _ HJ3 Hq3 Hcap4 H4)).
  destruct r2 as [r2|]; [apply ret_Some in H as [= -> ->]; reflexivity|].
  destruct (_ || _); [|apply ret_Some in H as [= -> ->]; reflexivity].
  unfold tryTransitiveReasoning in *. rewrite bind_assoc, bind_gets in *.
  cbn [kb without_self_rule facts].
  apply bind_Some in H as (tr & st5 & H5 & H).
  assert (st' = st5) by (destruct (result tr); apply ret_Some in H as [= _ ->]; reflexivity).
  subst st5.
  rewrite (bind_eval _ _ _ _ _
             (transitive_loop_sim _ _ _ _ _ (self_inv_le _ _ HJ3 Hle4 Hcap4)
                (sl_visited _ _ Hle4 _ Hq3) Hcap H5)).
  destruct (result tr); apply ret_Some in H as [= ->]; reflexivity.
Qed.

End Passes.

Lemma _deduce_self n : forall st r st',
  self_inv lf q E st -> Fact_toString q ∈ visited st ->
  _deduce lf n q st = Some (r, st') -> result r = false /\ st' = st.
Proof.
  intros st r st' (_ & HE & _) Hq H. destruct n as [|n]; [discriminate|].
  cbn [_deduce] in H. rewrite (deduce_body_circular_returns _ _ _ _ _ _ Hq HE) in H.
  injection H as <- <-. destruct st; auto.
Qed.

Lemma _deduce_sim n : forall g st r st',
  self_inv lf q E st -> Fact_toString q ∈ visited st ->
  (nextPrimeIndex (encoder st') <= 168)%nat ->
  _deduce lf n g st = Some (r, st') ->
  _deduce lf n g (without_self_rule E st) = Some (r, without_self_rule E st').
Proof.
  induction n as [|n IH]; intros g st r st' HJ Hq Hcap H; [discriminate|].
  cbn [_deduce] in *.
  apply (deduce_body_sim (_deduce lf n) (grows__deduce lf n) IH (_deduce_self n));
    auto.
Qed.

Lemma deduce_sim fuel st r st' :
  self_inv lf q E st -> (nextPrimeIndex (encoder st') <= 168)%nat ->
  deduce lf fuel q st = Some (r, st') ->
  deduce lf fuel q (without_self_rule E st) = Some (r, without_self_rule E st').
Proof.
  intros HJ Hcap H. unfold deduce, set_visited in *. rewrite bind_modify in *.
  destruct fuel as [|n]; [discriminate|]. cbn [_deduce] in *.
  cbn [encoder kb visited without_self_rule].
  apply (deduce_body_sim (_deduce lf n) (grows__deduce lf n) (_deduce_sim n)
           (_deduce_self n) q _ r st') in H; [exact H | exact HJ | right; reflexivity
                                              | exact Hcap].
Qed.

End SelfSim.

Lemma registered_nonempty lf q st E :
  store_ok st -> normalized q -> encodeFact lf q (encoder st) = Some (E, encoder st) ->
  subject q <> "" /\ predicate q <> "" /\ object q <> "".
Proof.
  intros (_ & Hn & _) (N1 & N2 & N3) HE.
  destruct (encodeFact_inv _ _ _ _ _ HE) as (ps & pp & po & _ & K1 & K2 & K3 & _).
  rewrite N1 in K1. rewrite N2 in K2. rewrite N3 in K3.
  split; [apply (Hn _ _ K1)|]. split; [apply (Hn _ _ K2) | apply (Hn _ _ K3)].
Qed.

(** Adding the rule IF (f) THEN (f) to a well-formed store. *)
Lemma addRule_self_store_ok lf f st :
  store_ok st -> fact_nonempty f -> (nextPrimeIndex (encoder st) + 3 <= 168)%nat ->
  exists E st',
    addRule lf (new_Rule [f] f) st = Some (EncStandard [E] E, st')
    /\ store_ok st'
    /\ encodeFact lf f (encoder st') = Some (E, encoder st')
    /\ rules (kb st') = rules (kb st) ++ [EncStandard [E] E]
    /\ facts (kb st') = facts (kb st)
    /\ (nextPrimeIndex (encoder st') <= nextPrimeIndex (encoder st) + 3)%nat.
Proof.
  intros Hst Hf Hroom. pose proof Hst as (W & Hn & Ha & Hr).
  destruct st as [e0 k0 v0]. cbn [encoder kb] in *.
  destruct (encodeFact_ok lf f e0 W Hn Hf Hroom)
    as (E & e1 & H1 & W1 & Hn1 & S1 & N1 & I1).
  assert (Henc : encodeRule lf (new_Rule [f] f) e0 = Some (EncStandard [E] E, e1)).
  { unfold encodeRule. cbn [type new_Rule conditions conclusion encodeFacts].
    rewrite bind_assoc, (bind_eval _ _ _ _ _ H1), bind_assoc, bind_ret, bind_ret.
    rewrite (bind_eval _ _ _ _ _ (I1 lf)). reflexivity. }
  assert (Hadd : exists st',
            addRule lf (new_Rule [f] f) {| encoder := e0; kb := k0; visited := v0 |}
            = Some (EncStandard [E] E, st')
            /\ encoder st' = e1 /\ rules (kb st') = rules k0 ++ [EncStandard [E] E]
            /\ facts (kb st') = facts k0).
  { eexists. (split; [|split; [|split]]);
      [unfold addRule;
       rewrite (bind_eval _ _ _ _ _ (on_encoder_eval _ _ k0 v0 _ _ Henc)); reflexivity
      | reflexivity | reflexivity | reflexivity]. }
  destruct Hadd as (st' & Hadd & He' & Hr' & Hf').
  exists E, st'. split; [exact Hadd|]. rewrite He'.
  split; [|split; [exact (I1 lf) | split; [exact Hr' | split; [exact Hf' | exact N1]]]].
  split; [rewrite He'; exact W1|]. split; [rewrite He'; exact Hn1|]. split.
  - apply (addRule_aligned _ _ _ _ _ Ha Hadd).
  - rewrite He', Hr'. apply Forall_app. split.
    + eapply Forall_impl; [exact Hr|]. intros R. apply rule_ok_weaken; assumption.
    + constructor; [|constructor]. cbn. constructor; [|constructor].
      exists f. exact (I1 0%nat).
Qed.

(** C3, as amended: in every well-formed store that holds the standard rule
    IF (q) THEN (q), within the capacity of the sieve, [deduce q] terminates:
    it returns the same result for every large enough depth budget, and the
    knowledge base is left as it was. The result never is "Circular reasoning
    detected: q": that explanation is the one of the nested attempt at the
    condition, which the rule pass discards, and a negative answer reads
    "Could not deduce: q". When the stored condition decodes to [q] itself
    (the primes of subject, predicate and object ascend), the rule adds
    nothing: the answer is the one of the store without the rule, so it is
    negative unless a stored fact, another rule or a chain of facts derives
    [q]. Adding the rule IF (f) THEN (f) to a well-formed store gives such a
    store. In the store that holds only the rule, the answer is negative for
    every fact. *)
Theorem deduce_self_referential_rule :
  (forall lf q st E,
     store_ok st -> (nextPrimeIndex (encoder st) + 4 <= 168)%nat -> (30 <= lf)%nat ->
     normalized q ->
     encodeFact lf q (encoder st) = Some (E, encoder st) ->
     EncStandard [E] E ∈ rules (kb st) ->
     exists fuel r st',
       (forall fuel', (fuel <= fuel')%nat -> deduce lf fuel' q st = Some (r, st'))
       /\ kb st' = kb st
       /\ r <> circular q
       /\ (result r = false -> r = could_not_deduce q)
       /\ (decodeFact lf E (encoder st) = Some (Some q, encoder st) ->
           forall fuel', (fuel <= fuel')%nat ->
             deduce lf fuel' q (without_self_rule E st)
             = Some (r, without_self_rule E st')))
  /\ (forall lf f st0,
        store_ok st0 -> fact_nonempty f ->
        (nextPrimeIndex (encoder st0) + 7 <= 168)%nat ->
        exists E st,
          addRule lf (new_Rule [f] f) st0 = Some (EncStandard [E] E, st)
          /\ store_ok st /\ (nextPrimeIndex (encoder st) + 4 <= 168)%nat
          /\ encodeFact lf f (encoder st) = Some (E, encoder st)
          /\ EncStandard [E] E ∈ rules (kb st)
          /\ facts (kb st) = facts (kb st0))
  /\ (forall lf fuel st0 f,
        enc_wf (encoder st0) -> (nextPrimeIndex (encoder st0) + 12 <= 168)%nat ->
        kb st0 = KnowledgeBase.new ->
        (30 <= lf)%nat -> (3 <= fuel)%nat ->
        exists E st st',
          addRule lf (new_Rule [f] f) st0 = Some (EncStandard [E] E, st)
          /\ kb st = {| factEncodings := []; rules := [EncStandard [E] E]; facts := [] |}
          /\ deduce lf fuel f st = Some (could_not_deduce f, st')).
Proof.
  split; [|split; [|exact self_rule_only_store]].
  2:{ intros lf f st0 Hok Hf Hroom.
      destruct (addRule_self_store_ok lf f st0 Hok Hf) as (E & st & H1 & H2 & H3 & H4 & H5 & H6);
        [lia|].
      exists E, st. split; [exact H1|]. split; [exact H2|]. split; [lia|].
      split; [exact H3|]. split; [|exact H5].
      rewrite H4. apply elem_of_app. right. left. }
  intros lf q st E Hok Hroom Hlf Hq HE Hin.
  destruct (registered_nonempty lf q st E Hok Hq HE) as (N1 & N2 & N3).
  destruct (deduce_returns lf q st Hok Hroom Hlf Hq N1 N2 N3)
    as (fuel & r & st' & Hkb & Hok' & Hd).
  assert (Hneg : result r = false -> r = could_not_deduce q)
    by (apply (deduce_negative lf fuel q st r st'), Hd, le_n).
  exists fuel, r, st'. split; [exact Hd|]. split; [exact Hkb|].
  split; [|split; [exact Hneg|]].
  - intros Hc. destruct (result r) eqn:Hres; [rewrite Hc in Hres; discriminate|].
    rewrite (Hneg eq_refl) in Hc. discriminate.
  - intros Hdec fuel' Hfuel. apply deduce_sim.
    + destruct Hok as (W & _). split; [exact W|]. split; assumption.
    + destruct Hok' as (W' & _). apply (wf_next _ W').
    + apply Hd, Hfuel.
Qed.

Lemma deduce_self_referential_rule_witness :
  exists E1 st1 R2 st2 E st fuel st',
    addFact 30 (new_Fact "socrates" "is" "human") initial_ELLM = Some (E1, st1)
    /\ addRule 30 (quantified_rule true "human" "mortal") st1 = Some (R2, st2)
    /\ addRule 30 (new_Rule [new_Fact "socrates" "is" "greek"]
                            (new_Fact "socrates" "is" "greek")) st2
       = Some (EncStandard [E] E, st)
    /\ forall fuel', (fuel <= fuel')%nat ->
         deduce 30 fuel' (new_Fact "socrates" "is" "greek") st
         = Some (could_not_deduce (new_Fact "socrates" "is" "greek"), st')
         /\ deduce 30 fuel' (new_Fact "socrates" "is" "greek") (without_self_rule E st)
            = Some (could_not_deduce (new_Fact "socrates" "is" "greek"),
                    without_self_rule E st').
Proof.
  destruct (addFact_store_ok 30 (new_Fact "socrates" "is" "human") initial_ELLM
              initial_store_ok) as (E1 & st1 & H1 & Hok1 & Hn1);
    [repeat constructor; discriminate | simpl; lia |].
  destruct (addRule_quantified_store_ok 30 true "human" "mortal" st1 Hok1)
    as (R2 & st2 & H2 & Hok2 & Hn2);
    [discriminate | discriminate | simpl in Hn1; lia |].
  destruct (addRule_standard_store_ok 30 [new_Fact "socrates" "is" "greek"]
              (new_Fact "socrates" "is" "greek") st2 Hok2)
    as (R & st & H3 & Hok & Hn3);
    [repeat constructor; discriminate | simpl in Hn1; simpl; lia |].
  assert (Hn : (nextPrimeIndex (encoder st) + 4 <= 168)%nat)
    by (simpl in Hn1, Hn3; lia).
  clear Hn1 Hn2 Hn3 Hok1 Hok2.
  assert (Hst : R = EncStandard [255] 255
                /\ encodeFact 30 (new_Fact "socrates" "is" "greek") (encoder st)
                   = Some (255, encoder st)
                /\ decodeFact 30 255 (encoder st)
                   = Some (Some (new_Fact "socrates" "is" "greek"), encoder st)
                /\ In (EncStandard [255] 255) (rules (kb st))
                /\ fst <$> deduce 30 5 (new_Fact "socrates" "is" "greek") st
                   = Some (could_not_deduce (new_Fact "socrates" "is" "greek"))).
  { assert (Hc : (let* _ := addFact 30 (new_Fact "socrates" "is" "human") in
                  let* _ := addRule 30 (quantified_rule true "human" "mortal") in
                  addRule 30 (new_Rule [new_Fact "socrates" "is" "greek"]
                                       (new_Fact "socrates" "is" "greek"))) initial_ELLM
                 = Some (R, st)).
    { rewrite (bind_eval _ _ _ _ _ H1), (bind_eval _ _ _ _ _ H2). exact H3. }
    split; [apply (observe fst _ _ _ Hc); vm_compute; reflexivity|].
    split.
    { change 255 with (3 * 5 * 17).
      apply encodeFact_known;
        [ apply (observe (fun p => conceptToPrime (encoder (snd p)) !! "socrates") _ _ _ Hc)
        | apply (observe (fun p => conceptToPrime (encoder (snd p)) !! "is") _ _ _ Hc)
        | apply (observe (fun p => conceptToPrime (encoder (snd p)) !! "greek") _ _ _ Hc) ];
        vm_compute; reflexivity. }
    split.
    { assert (Ho : fst <$> decodeFact 30 255 (encoder st)
                   = Some (Some (new_Fact "socrates" "is" "greek"))).
      { apply (observe (fun p => fst <$> decodeFact 30 255 (encoder (snd p))) _ _ _ Hc).
        vm_compute. reflexivity. }
      destruct (decodeFact 30 255 (encoder st)) as [[o e']|] eqn:Hd; [|discriminate Ho].
      rewrite (decodeFact_state _ _ _ _ _ Hd). cbn in Ho. injection Ho as ->.
      reflexivity. }
    split.
    { assert (Hrs : rules (kb st)
                    = [EncQuantified q_universal (Some 2) 7 11 5 455 715;
                       EncStandard [255] 255])
        by (apply (observe (fun p => rules (kb (snd p))) _ _ _ Hc); vm_compute; reflexivity).
      rewrite Hrs. right. left. reflexivity. }
    apply (observe (fun p => fst <$> deduce 30 5 (new_Fact "socrates" "is" "greek") (snd p))
             _ _ _ Hc).
    vm_compute. reflexivity. }
  destruct Hst as (-> & HE & Hdec & Hin & H5).
  destruct (proj1 deduce_self_referential_rule 30%nat
              (new_Fact "socrates" "is" "greek") st 255 Hok Hn (le_n 30)
              (new_Fact_normalized _ _ _) HE (proj2 (list_elem_of_In _ _) Hin))
    as (fuel & r & st' & Hd & _ & _ & Hneg & Hsim).
  exists E1, st1, R2, st2, 255, st, (Nat.max fuel 5), st'.
  split; [exact H1|]. split; [exact H2|]. split; [exact H3|].
  assert (Hr : r = could_not_deduce (new_Fact "socrates" "is" "greek")).
  { apply Hneg.
    pose proof (Hd (Nat.max fuel 5) (Nat.le_max_l _ _)) as Hd5.
    pose proof (extends_fst _ _ _ _
                  (deduce_mono 30 30 (le_n 30) 5 (Nat.max fuel 5) _ (Nat.le_max_r _ _))
                  H5) as H5'.
    rewrite Hd5 in H5'. injection H5' as ->. reflexivity. }
  subst r. intros fuel' Hfuel.
  assert (Hf : (fuel <= fuel')%nat) by (etrans; [apply Nat.le_max_l | exact Hfuel]).
  split; [apply Hd, Hf | apply Hsim; [exact Hdec | exact Hf]].
Defined.

(** C3, as stated, fails. With only the rule IF (socrates is human) THEN
    (socrates is human) in the store, the query returns "Could not deduce:
    socrates is human", not the circular-reasoning explanation. With the fact
    itself stored beside the rule, the answer is [true]. And with "penguin is
    bird" and "bird is animal" stored, the rule IF (animal is penguin) THEN
    (animal is penguin) makes "animal is penguin" [true]: its stored condition
    decodes to "penguin is animal", which the chain of facts derives. *)
Lemma deduce_self_referential_counterexample :
  (exists st,
     after 2 (addRule 2 (new_Rule [new_Fact "socrates" "is" "human"]
                                  (new_Fact "socrates" "is" "human"))) = Some st
     /\ fst <$> deduce 2 3 (new_Fact "socrates" "is" "human") st
        = Some {| result := false;
                  explanation := "Could not deduce: socrates is human" |}
     /\ fst <$> deduce 2 3 (new_Fact "socrates" "is" "human") st
        <> Some {| result := false;
                   explanation := "Circular reasoning detected: socrates is human" |})
  /\ (exists st,
        after 2 (let* _ := addFact 2 (new_Fact "socrates" "is" "human") in
                 addRule 2 (new_Rule [new_Fact "socrates" "is" "human"]
                                     (new_Fact "socrates" "is" "human"))) = Some st
        /\ fst <$> deduce 2 3 (new_Fact "socrates" "is" "human") st
           = Some {| result := true;
                     explanation := "Direct fact in knowledge base: socrates is human" |})
  /\ (exists st,
        after 2 (let* _ := addFact 2 (new_Fact "penguin" "is" "bird") in
                 let* _ := addFact 2 (new_Fact "bird" "is" "animal") in
                 addRule 2 (new_Rule [new_Fact "animal" "is" "penguin"]
                                     (new_Fact "animal" "is" "penguin"))) = Some st
        /\ fst <$> deduce 2 5 (new_Fact "animal" "is" "penguin") st
           = Some {| result := true;
                     explanation := "penguin is bird, and Direct fact in knowledge base: bird is animal, which implies animal is penguin" |}).
Proof.
  split; [|split]; eexists; (split; [vm_compute; reflexivity|]).
  - split; [vm_compute; reflexivity | vm_compute; discriminate].
  - vm_compute. reflexivity.
  - vm_compute. reflexivity.
Qed.

(** ** A lookup in a store with one fact *)

Lemma deduce_without_rules_witness :
  exists E st r st' r2 st2',
    addFact 0 (new_Fact "Alice" "likes" "Bob") initial_ELLM = Some (E, st)
    /\ deduce 0 1 (new_Fact "Bob" "likes" "Alice") st = Some (r, st')
    /\ result r = true
    /\ deduce 0 1 (new_Fact "Alice" "likes" "Carol") st = Some (r2, st2')
    /\ result r2 = false.
Proof.
  destruct (addFact_store_ok 0 (new_Fact "Alice" "likes" "Bob") initial_ELLM
              initial_store_ok) as (E & st & H1 & (Hwf & _ & Ha & _) & Hn);
    [repeat constructor; discriminate | simpl; lia |].
  assert (Hroom : (nextPrimeIndex (encoder st) + 3 <= 168)%nat) by (simpl in Hn; lia).
  clear Hn.
  assert (Hst : rules (kb st) = []
                /\ facts (kb st) = [new_Fact "Alice" "likes" "Bob"]).
  { clear - H1. vm_compute in H1. injection H1 as <- <-. split; reflexivity. }
  destruct Hst as [Hr Hf].
  destruct (deduce_without_rules 0 1 (new_Fact "Bob" "likes" "Alice") st
              Hwf Hroom Ha Hr) as (r & st' & Hd & Hiff);
    [discriminate | discriminate | lia |].
  destruct (deduce_without_rules 0 1 (new_Fact "Alice" "likes" "Carol") st
              Hwf Hroom Ha Hr) as (r2 & st2' & Hd2 & Hiff2);
    [discriminate | discriminate | lia |].
  exists E, st, r, st', r2, st2'.
  split; [exact H1|]. split; [exact Hd|]. split; [|split; [exact Hd2|]].
  - apply Hiff. exists (new_Fact "Alice" "likes" "Bob").
    split; [rewrite Hf; left|]. apply (bool_decide_unpack _). vm_compute. exact I.
  - destruct (result r2) eqn:Hres; [|reflexivity]. exfalso.
    destruct (proj1 Hiff2 eq_refl) as (f & Hin & Hperm).
    rewrite Hf in Hin. apply list_elem_of_singleton in Hin. subst f.
    revert Hperm. apply (bool_decide_unpack _). vm_compute. exact I.
Defined.
